(** * JUCE [Component] hierarchy and the Introjucer's stored settings

    A shallow embedding of
    - [juce/src/gui/components/juce_Component.cpp]: the component tree, its
      coordinate conversions, hit-testing, bounds, modal state and the
      listener dispatch loops;
    - [juce/extras/Introjucer/Source/Utility/jucer_StoredSettings.cpp]: the
      [lastProjects] property.

    Components live in a heap indexed by their address.  A deleted component
    is absent from the heap, which is what a [WeakReference] observes.
    Virtual methods and listeners are arbitrary state transformers, supplied
    by the class [Collaborators]; every call to one is recorded in the trace of the
    operation that makes it, together with the state it is called in. *)

From Stdlib Require Import ZArith Lia Ascii String List Bool.
From stdpp Require Import base option list strings gmap fin_maps.

Open Scope Z_scope.

(** ** Machine integers *)

(** [int] is 32 bits wide; arithmetic wraps around in two's complement. *)
Definition int_modulus : Z := 2 ^ 32.
Definition int_half : Z := 2 ^ 31.

Definition is_int (z : Z) : Prop := - int_half <= z < int_half.

Definition wrap (z : Z) : Z := (z + int_half) mod int_modulus - int_half.

Definition int_add (a b : Z) : Z := wrap (a + b).
Definition int_sub (a b : Z) : Z := wrap (a - b).

(** [jmin], [jmax] and [isPositiveAndBelow] of juce_MathsFunctions.h. *)
Definition jmin (a b : Z) : Z := if b <? a then b else a.
Definition jmax (a b : Z) : Z := if a <? b then b else a.
Definition isPositiveAndBelow (valueToTest upperLimit : Z) : bool :=
  (0 <=? valueToTest) && (valueToTest <? upperLimit).

(** ** Geometry *)

Record Point : Type := mkPoint { pt_x : Z; pt_y : Z }.

Definition Point_add (a b : Point) : Point :=
  mkPoint (int_add (pt_x a) (pt_x b)) (int_add (pt_y a) (pt_y b)).
Definition Point_sub (a b : Point) : Point :=
  mkPoint (int_sub (pt_x a) (pt_x b)) (int_sub (pt_y a) (pt_y b)).

Definition is_int_point (p : Point) : Prop := is_int (pt_x p) /\ is_int (pt_y p).

Record Rectangle : Type :=
  mkRectangle { rect_x : Z; rect_y : Z; rect_w : Z; rect_h : Z }.

Definition Rectangle_getPosition (r : Rectangle) : Point :=
  mkPoint (rect_x r) (rect_y r).
Definition Rectangle_setPosition (r : Rectangle) (p : Point) : Rectangle :=
  mkRectangle (pt_x p) (pt_y p) (rect_w r) (rect_h r).
Definition Rectangle_add (r : Rectangle) (p : Point) : Rectangle :=
  mkRectangle (int_add (rect_x r) (pt_x p)) (int_add (rect_y r) (pt_y p))
              (rect_w r) (rect_h r).
Definition Rectangle_sub (r : Rectangle) (p : Point) : Rectangle :=
  mkRectangle (int_sub (rect_x r) (pt_x p)) (int_sub (rect_y r) (pt_y p))
              (rect_w r) (rect_h r).

(** ** Arrays *)

(** Modelled from the spec: [Array<T>] (juce_Array.h is not among the
    sources).  The spec only names the child and listener lists; the
    operations follow the container's contract: [operator[]] answers a null
    value out of range, [indexOf] answers -1 when absent, [insert] appends
    when the index is out of range, [remove] ignores an index out of range,
    and [move] clamps the destination to the last slot. *)
Module Array.
Section Ops.
Context {A : Type} `{EqDecision A}.

Definition size (l : list A) : Z := Z.of_nat (length l).

Definition get (l : list A) (i : Z) : option A :=
  if isPositiveAndBelow i (size l) then l !! Z.to_nat i else None.

Fixpoint indexOf_from (l : list A) (x : A) (i : Z) : Z :=
  match l with
  | [] => -1
  | y :: l' => if decide (x = y) then i else indexOf_from l' x (i + 1)
  end.
Definition indexOf (l : list A) (x : A) : Z := indexOf_from l x 0.

Definition contains (l : list A) (x : A) : bool :=
  bool_decide (x ∈ l).

Definition add (l : list A) (x : A) : list A := l ++ [x].

Definition insert (l : list A) (i : Z) (x : A) : list A :=
  if isPositiveAndBelow i (size l)
  then take (Z.to_nat i) l ++ x :: drop (Z.to_nat i) l
  else l ++ [x].

Definition remove (l : list A) (i : Z) : list A :=
  if isPositiveAndBelow i (size l) then delete (Z.to_nat i) l else l.

Definition move (l : list A) (currentIndex newIndex : Z) : list A :=
  if Z.eqb currentIndex newIndex then l
  else if isPositiveAndBelow currentIndex (size l) then
    let newIndex :=
      if isPositiveAndBelow newIndex (size l) then newIndex else size l - 1 in
    match l !! Z.to_nat currentIndex with
    | Some x =>
        let l' := delete (Z.to_nat currentIndex) l in
        take (Z.to_nat newIndex) l' ++ x :: drop (Z.to_nat newIndex) l'
    | None => l
    end
  else l.

Definition getFirst (l : list A) : option A := head l.
Definition getLast (l : list A) : option A := last l.
End Ops.
End Array.

(** ** The Introjucer's stored settings *)

Module StoredSettings.

(** Modelled from the spec: [File] (juce_File.h is not among the
    sources).  A file is its full path name, and [File (path)] built from
    a full path name is that file. *)
Record File : Type := mkFile { getFullPathName : string }.

(** Modelled from the spec: [PropertiesFile] (not among the sources), the
    property file the settings utility reads and writes: a map from key
    names to values, where a missing key reads as the empty string. *)
Definition setValue (keyName value : string) (props : gmap string string) : gmap string string :=
  <[keyName := value]> props.
Definition getValue (keyName : string) (props : gmap string string) : string :=
  default EmptyString (props !! keyName).

(** Modelled from the spec: [StringArray::joinIntoString]
    (juce_StringArray.h is not among the sources): the strings in order,
    with the separator between neighbours. *)
Fixpoint joinIntoString (separator : string) (l : list string) : string :=
  match l with
  | [] => EmptyString
  | [x] => x
  | x :: l' => String.append x (String.append separator (joinIntoString separator l'))
  end.

Fixpoint containsChar (set : string) (c : ascii) : bool :=
  match set with
  | EmptyString => false
  | String d set' => if Ascii.eqb c d then true else containsChar set' c
  end.

(** Modelled from the spec: [CharacterFunctions::findEndOfToken] with no
    quote characters: the token that starts the text, and the text from
    the break character that ends the token (empty at the end of the
    text). *)
Fixpoint findEndOfToken (t breakCharacters : string) : string * string :=
  match t with
  | EmptyString => (EmptyString, EmptyString)
  | String c t' =>
      if containsChar breakCharacters c then (EmptyString, t)
      else let r := findEndOfToken t' breakCharacters in (String c (fst r), snd r)
  end.

(** Modelled from the spec: [StringArray::addTokens] (not among the
    sources) with no quote characters.  An empty text adds nothing;
    otherwise the loop adds the token up to the next break character and
    continues behind it until the text ends. *)
Fixpoint addTokens_loop (fuel : nat) (t breakCharacters : string) : list string :=
  match fuel with
  | O => []
  | S fuel' =>
      let r := findEndOfToken t breakCharacters in
      fst r :: match snd r with
               | EmptyString => []
               | String _ t' => addTokens_loop fuel' t' breakCharacters
               end
  end.

Definition addTokens (s : list string) (text breakCharacters : string) : list string :=
  match text with
  | EmptyString => s
  | _ => s ++ addTokens_loop (S (String.length text)) text breakCharacters
  end.

(** [StoredSettings::getLastProjects]. *)
Definition getLastProjects (props : gmap string string) : list File :=
  let s := addTokens [] (getValue "lastProjects" props) "|" in
  map mkFile s.

(** [StoredSettings::setLastProjects]. *)
Definition setLastProjects (files : list File) (props : gmap string string) : gmap string string :=
  let s := map getFullPathName files in
  setValue "lastProjects" (joinIntoString "|" s) props.

Definition hasBar (f : File) : bool := containsChar (getFullPathName f) "|"%char.

End StoredSettings.

(** ** Components, the heap and the trace *)

(** A component is named by its address; [None] is the null pointer. *)
Abbreviation CompId := nat (only parsing).
Abbreviation ListenerId := nat (only parsing).
Abbreviation PeerId := nat (only parsing).

(** The bits of [ComponentFlags] the embedded code reads or writes. *)
Record ComponentFlags : Type := mkFlags {
  hasHeavyweightPeerFlag : bool;
  visibleFlag : bool;
  opaqueFlag : bool;
  ignoresMouseClicksFlag : bool;
  allowChildMouseClicksFlag : bool;
  wantsFocusFlag : bool;
  isFocusContainerFlag : bool;
  dontFocusOnMouseClickFlag : bool;
  alwaysOnTopFlag : bool;
  bufferToImageFlag : bool;
  bringToFrontOnClickFlag : bool;
  repaintOnMouseActivityFlag : bool;
  mouseDownFlag : bool;
  mouseOverFlag : bool;
  mouseInsideFlag : bool;
  currentlyModalFlag : bool;
  isDisabledFlag : bool;
  childCompFocusedFlag : bool;
  dontClipGraphicsFlag : bool;
  isInsidePaintCall : bool
}.

(** [componentFlags (0)] in both constructors. *)
Definition noFlags : ComponentFlags :=
  mkFlags false false false false false false false false false false
          false false false false false false false false false false.

Definition set_hasHeavyweightPeerFlag (b : bool) (f : ComponentFlags) : ComponentFlags :=
  mkFlags b (visibleFlag f) (opaqueFlag f) (ignoresMouseClicksFlag f)
    (allowChildMouseClicksFlag f) (wantsFocusFlag f) (isFocusContainerFlag f)
    (dontFocusOnMouseClickFlag f) (alwaysOnTopFlag f) (bufferToImageFlag f)
    (bringToFrontOnClickFlag f) (repaintOnMouseActivityFlag f) (mouseDownFlag f)
    (mouseOverFlag f) (mouseInsideFlag f) (currentlyModalFlag f) (isDisabledFlag f)
    (childCompFocusedFlag f) (dontClipGraphicsFlag f) (isInsidePaintCall f).

Definition set_visibleFlag (b : bool) (f : ComponentFlags) : ComponentFlags :=
  mkFlags (hasHeavyweightPeerFlag f) b (opaqueFlag f) (ignoresMouseClicksFlag f)
    (allowChildMouseClicksFlag f) (wantsFocusFlag f) (isFocusContainerFlag f)
    (dontFocusOnMouseClickFlag f) (alwaysOnTopFlag f) (bufferToImageFlag f)
    (bringToFrontOnClickFlag f) (repaintOnMouseActivityFlag f) (mouseDownFlag f)
    (mouseOverFlag f) (mouseInsideFlag f) (currentlyModalFlag f) (isDisabledFlag f)
    (childCompFocusedFlag f) (dontClipGraphicsFlag f) (isInsidePaintCall f).

Definition set_mouseDownFlag (b : bool) (f : ComponentFlags) : ComponentFlags :=
  mkFlags (hasHeavyweightPeerFlag f) (visibleFlag f) (opaqueFlag f)
    (ignoresMouseClicksFlag f) (allowChildMouseClicksFlag f) (wantsFocusFlag f)
    (isFocusContainerFlag f) (dontFocusOnMouseClickFlag f) (alwaysOnTopFlag f)
    (bufferToImageFlag f) (bringToFrontOnClickFlag f) (repaintOnMouseActivityFlag f)
    b (mouseOverFlag f) (mouseInsideFlag f) (currentlyModalFlag f) (isDisabledFlag f)
    (childCompFocusedFlag f) (dontClipGraphicsFlag f) (isInsidePaintCall f).

Definition set_mouseOverFlag (b : bool) (f : ComponentFlags) : ComponentFlags :=
  mkFlags (hasHeavyweightPeerFlag f) (visibleFlag f) (opaqueFlag f)
    (ignoresMouseClicksFlag f) (allowChildMouseClicksFlag f) (wantsFocusFlag f)
    (isFocusContainerFlag f) (dontFocusOnMouseClickFlag f) (alwaysOnTopFlag f)
    (bufferToImageFlag f) (bringToFrontOnClickFlag f) (repaintOnMouseActivityFlag f)
    (mouseDownFlag f) b (mouseInsideFlag f) (currentlyModalFlag f) (isDisabledFlag f)
    (childCompFocusedFlag f) (dontClipGraphicsFlag f) (isInsidePaintCall f).

Definition set_currentlyModalFlag (b : bool) (f : ComponentFlags) : ComponentFlags :=
  mkFlags (hasHeavyweightPeerFlag f) (visibleFlag f) (opaqueFlag f)
    (ignoresMouseClicksFlag f) (allowChildMouseClicksFlag f) (wantsFocusFlag f)
    (isFocusContainerFlag f) (dontFocusOnMouseClickFlag f) (alwaysOnTopFlag f)
    (bufferToImageFlag f) (bringToFrontOnClickFlag f) (repaintOnMouseActivityFlag f)
    (mouseDownFlag f) (mouseOverFlag f) (mouseInsideFlag f) b (isDisabledFlag f)
    (childCompFocusedFlag f) (dontClipGraphicsFlag f) (isInsidePaintCall f).

Definition set_childCompFocusedFlag (b : bool) (f : ComponentFlags) : ComponentFlags :=
  mkFlags (hasHeavyweightPeerFlag f) (visibleFlag f) (opaqueFlag f)
    (ignoresMouseClicksFlag f) (allowChildMouseClicksFlag f) (wantsFocusFlag f)
    (isFocusContainerFlag f) (dontFocusOnMouseClickFlag f) (alwaysOnTopFlag f)
    (bufferToImageFlag f) (bringToFrontOnClickFlag f) (repaintOnMouseActivityFlag f)
    (mouseDownFlag f) (mouseOverFlag f) (mouseInsideFlag f) (currentlyModalFlag f)
    (isDisabledFlag f) b (dontClipGraphicsFlag f) (isInsidePaintCall f).

(** [Component::MouseListenerList]: the deep listeners (those that want the
    events of all nested children) occupy the first [numDeepMouseListeners]
    slots. *)
Record MouseListenerList : Type := mkMouseListenerList {
  listeners : list ListenerId;
  numDeepMouseListeners : Z
}.

Inductive MouseEventKind : Type :=
  | mouseEnter | mouseExit | mouseDown | mouseUp | mouseDrag | mouseMove
  | mouseDoubleClick.

Inductive ComponentListenerCall : Type :=
  | componentMovedOrResized (wasMoved wasResized : bool)
  | componentBroughtToFront
  | componentVisibilityChanged
  | componentChildrenChanged
  | componentParentHierarchyChanged
  | componentNameChanged
  | componentBeingDeleted.

Inductive FocusChangeType : Type :=
  | focusChangedByMouseClick | focusChangedByTabKey | focusChangedDirectly.

Inductive PeerCall : Type :=
  | peerSetTitle (name : string)
  | peerSetVisible (b : bool)
  | peerSetBounds (x y w h : Z) (isNowFullScreen : bool)
  | peerSetPosition (x y : Z)
  | peerSetSize (w h : Z)
  | peerRepaint (r : Rectangle)
  | peerToFront (makeActive : bool)
  | peerSetFullScreen (b : bool)
  | peerSetNonFullScreenBounds (r : Rectangle)
  | peerSetMinimised (b : bool)
  | peerSetAlwaysOnTop (b : bool)
  | peerSetConstrainer (constrainer : option nat).

Inductive DesktopCall : Type :=
  | desktopResetTimer
  | desktopTriggerFocusCallback
  | desktopAddDesktopComponent (c : CompId)
  | desktopRemoveDesktopComponent (c : CompId)
  | desktopComponentBroughtToFront (c : CompId).

Inductive ModalManagerCall : Type :=
  | modalStartModal (c : CompId)
  | modalAttachCallback (c : CompId) (callback : option nat)
  | modalAttachAutoDeleteCallback (c : CompId)
  | modalBringModalComponentsToFront (topOneShouldGrabFocus : bool).

(** Calls that leave the embedded code: virtual methods of [Component],
    listener callbacks, and methods of the collaborators that are not part
    of juce_Component.cpp (peers, [Desktop], [ModalComponentManager],
    [LookAndFeel], the focus traverser). *)
Inductive Callback : Type :=
  (* virtual methods of the component *)
  | CbMoved (c : CompId)
  | CbResized (c : CompId)
  | CbParentSizeChanged (c : CompId)
  | CbChildBoundsChanged (parent child : CompId)
  | CbParentHierarchyChanged (c : CompId)
  | CbChildrenChanged (c : CompId)
  | CbVisibilityChanged (c : CompId)
  | CbBroughtToFront (c : CompId)
  | CbMouse (c : CompId) (k : MouseEventKind)
  | CbInputAttemptWhenModal (c : CompId)
  | CbFocusLost (c : CompId)
  | CbFocusOfChildComponentChanged (c : CompId)
  (* listeners *)
  | CbComponentListener (l : ListenerId) (call : ComponentListenerCall) (c : CompId)
  | CbMouseListener (l : ListenerId) (k : MouseEventKind) (eventComp : CompId)
  | CbDesktopMouseListeners (k : MouseEventKind) (eventComp : CompId)
  (* focus machinery that needs the KeyboardFocusTraverser *)
  | CbGrabFocusInternal (c : CompId) (cause : FocusChangeType) (canTryParent : bool)
  (* collaborators *)
  | ExtSendFakeMouseMove
  | ExtDesktop (call : DesktopCall)
  | ExtCreateNewPeer (c : CompId) (styleFlags : Z)
  | ExtDeletePeer (c : CompId)
  | ExtPeer (c : CompId) (call : PeerCall)
  | ExtModal (call : ModalManagerCall)
  | ExtPlayAlertSound (c : CompId).

Section Store.

(** [AffineTransform] works on floats; the type and its arithmetic stay
    abstract.  [Platform] is the state of the collaborators: native
    peers, the [Desktop], the [ModalComponentManager] and the
    [MessageManager]. *)
Context {AffineTransform Platform : Type}.

Record Component : Type := mkComponent {
  componentName : string;
  parentComponent : option CompId;
  bounds : Rectangle;
  affineTransform : option AffineTransform;
  childComponentList : list CompId;
  mouseListeners : option MouseListenerList;
  componentListeners : list ListenerId;
  bufferedImageIsNull : bool;
  flags : ComponentFlags
}.

(** [Component::Component (const String& name)]. *)
Definition newComponent (name : string) : Component :=
  mkComponent name None (mkRectangle 0 0 0 0) None [] None [] true noFlags.

Definition set_componentName (n : string) (c : Component) : Component :=
  mkComponent n (parentComponent c) (bounds c) (affineTransform c)
    (childComponentList c) (mouseListeners c) (componentListeners c)
    (bufferedImageIsNull c) (flags c).
Definition set_parentComponent (p : option CompId) (c : Component) : Component :=
  mkComponent (componentName c) p (bounds c) (affineTransform c)
    (childComponentList c) (mouseListeners c) (componentListeners c)
    (bufferedImageIsNull c) (flags c).
Definition set_bounds (r : Rectangle) (c : Component) : Component :=
  mkComponent (componentName c) (parentComponent c) r (affineTransform c)
    (childComponentList c) (mouseListeners c) (componentListeners c)
    (bufferedImageIsNull c) (flags c).
Definition set_childComponentList (l : list CompId) (c : Component) : Component :=
  mkComponent (componentName c) (parentComponent c) (bounds c) (affineTransform c)
    l (mouseListeners c) (componentListeners c) (bufferedImageIsNull c) (flags c).
Definition set_mouseListeners (m : option MouseListenerList) (c : Component) : Component :=
  mkComponent (componentName c) (parentComponent c) (bounds c) (affineTransform c)
    (childComponentList c) m (componentListeners c) (bufferedImageIsNull c) (flags c).
Definition set_componentListeners (l : list ListenerId) (c : Component) : Component :=
  mkComponent (componentName c) (parentComponent c) (bounds c) (affineTransform c)
    (childComponentList c) (mouseListeners c) l (bufferedImageIsNull c) (flags c).
Definition set_bufferedImageIsNull (b : bool) (c : Component) : Component :=
  mkComponent (componentName c) (parentComponent c) (bounds c) (affineTransform c)
    (childComponentList c) (mouseListeners c) (componentListeners c) b (flags c).
Definition set_flags (f : ComponentFlags) (c : Component) : Component :=
  mkComponent (componentName c) (parentComponent c) (bounds c) (affineTransform c)
    (childComponentList c) (mouseListeners c) (componentListeners c)
    (bufferedImageIsNull c) f.

Record World : Type := mkWorld {
  heap : gmap nat Component;
  currentlyFocusedComponent : option CompId;
  platform : Platform
}.

Definition set_heap (h : gmap nat Component) (s : World) : World :=
  mkWorld h (currentlyFocusedComponent s) (platform s).
Definition set_currentlyFocusedComponent (f : option CompId) (s : World) : World :=
  mkWorld (heap s) f (platform s).

End Store.

Arguments Component : clear implicits.
Arguments World : clear implicits.

(** What the embedded code asks of its collaborators.
    [transformedPoint t p] is [p.toFloat().transformedBy (t).toInt()] and
    [transformedRect t r] is
    [r.toFloat().transformed (t).getSmallestIntegerContainer()].
    [canModalEventBeSentToComponent] is virtual; the base class answers
    [false].  [cb] is what a call that leaves the embedded code does to the
    state.  [JUCE_DEBUG]: in a release build [jassert] expands to nothing. *)
Class Collaborators (AffineTransform Platform : Type) : Type := {
  inverted : AffineTransform -> AffineTransform;
  transformedPoint : AffineTransform -> Point -> Point;
  transformedRect : AffineTransform -> Rectangle -> Rectangle;
  currentThreadHasLockedMessageManager : Platform -> bool;
  getModalComponent : Platform -> Z -> option CompId;
  getPeerFor : Platform -> CompId -> option PeerId;
  peer_isMinimised : Platform -> PeerId -> bool;
  peer_isFullScreen : Platform -> PeerId -> bool;
  peer_getStyleFlags : Platform -> PeerId -> Z;
  peer_getConstrainer : Platform -> PeerId -> option nat;
  peer_getNonFullScreenBounds : Platform -> PeerId -> Rectangle;
  peer_localToGlobal : Platform -> PeerId -> Point -> Point;
  windowIsSemiTransparent : Z;
  JUCE_LINUX : bool;
  canModalEventBeSentToComponent :
    World AffineTransform Platform -> CompId -> CompId -> bool;
  cb : Callback -> World AffineTransform Platform -> World AffineTransform Platform;
  JUCE_DEBUG : bool
}.

(** ** A small instance *)

(** The collaborators of the examples.  The modal manager is a stack of
    components whose last entry is the current modal component; the second
    half of the platform tells whether the calling thread holds the
    message-manager lock.  There are no transforms. *)
Module Demo.

Local Open Scope nat_scope.

Definition Platform : Type := list nat * bool.

Definition deleteComponent (c : CompId) (s : World unit Platform) : World unit Platform :=
  set_heap (delete c (heap s)) s.

Definition startModal (c : CompId) (s : World unit Platform) : World unit Platform :=
  mkWorld (heap s) (currentlyFocusedComponent s)
          (fst (platform s) ++ [c], snd (platform s)).

Definition endModal (s : World unit Platform) : World unit Platform :=
  mkWorld (heap s) (currentlyFocusedComponent s)
          (removelast (fst (platform s)), snd (platform s)).

(** The modal manager alone. *)
Definition modalManager (k : Callback) (s : World unit Platform) : World unit Platform :=
  match k with
  | ExtModal (modalStartModal c) => startModal c s
  | _ => s
  end.

(** The modal manager, and client code that misbehaves: the mouse
    listener 50 deletes the component it hears of, component 9 deletes
    itself when it is resized or when its parent hierarchy changes, and
    the modal component 8 leaves the modal state when input is attempted
    elsewhere. *)
Definition clientCode (k : Callback) (s : World unit Platform) : World unit Platform :=
  match k with
  | ExtModal (modalStartModal c) => startModal c s
  | CbMouseListener 50 _ comp => deleteComponent comp s
  | CbResized 9 => deleteComponent 9 s
  | CbParentHierarchyChanged 9 => deleteComponent 9 s
  | CbInputAttemptWhenModal 8 => endModal s
  | _ => s
  end.

Definition collaboratorsWith
    (callbacks : Callback -> World unit Platform -> World unit Platform) (debug : bool)
    : Collaborators unit Platform :=
  {| inverted := fun t => t;
     transformedPoint := fun _ p => p;
     transformedRect := fun _ r => r;
     currentThreadHasLockedMessageManager := fun p => snd p;
     getModalComponent :=
       fun p index => if (index <? 0)%Z then None
                      else rev (fst p) !! Z.to_nat index;
     getPeerFor := fun _ c => Some c;
     peer_isMinimised := fun _ _ => false;
     peer_isFullScreen := fun _ _ => false;
     peer_getStyleFlags := fun _ _ => 0%Z;
     peer_getConstrainer := fun _ _ => None;
     peer_getNonFullScreenBounds := fun _ _ => mkRectangle 0 0 0 0;
     peer_localToGlobal := fun _ _ p => p;
     windowIsSemiTransparent := (2 ^ 30)%Z;
     JUCE_LINUX := false;
     canModalEventBeSentToComponent := fun _ _ _ => false;
     cb := callbacks;
     JUCE_DEBUG := debug |}.

Definition quiet : Collaborators unit Platform := collaboratorsWith modalManager true.
Definition release : Collaborators unit Platform := collaboratorsWith clientCode false.
#[export] Instance collaborators : Collaborators unit Platform :=
  collaboratorsWith clientCode true.

Definition visible : ComponentFlags := set_visibleFlag true noFlags.

Definition component (name : string) (parent : option CompId) (r : Rectangle)
    (children : list CompId) (f : ComponentFlags) : Component unit :=
  set_flags f
    (set_childComponentList children
       (set_bounds r (set_parentComponent parent (newComponent name)))).

(** A window 1 with the children 2 and 3; 3 lies over 2. *)
Definition tree : gmap nat (Component unit) :=
  <[1 := component "window" None (mkRectangle 0 0 100 100) [2; 3] visible]>
  (<[2 := component "below" (Some 1) (mkRectangle 10 10 50 50) [] visible]>
  (<[3 := component "above" (Some 1) (mkRectangle 20 20 60 60) [] visible]> ∅)).

Definition window (held : bool) : World unit Platform := mkWorld tree None ([], held).

(** The same tree while 2 is the current modal component. *)
Definition modalFlag : ComponentFlags := set_currentlyModalFlag true visible.
Definition modalTree : gmap nat (Component unit) :=
  <[2 := component "below" (Some 1) (mkRectangle 10 10 50 50) [] modalFlag]> tree.
Definition dialog : World unit Platform := mkWorld modalTree None ([2], true).

(** 2 has entered the modal state, and 3 after it. *)
Definition stacked : World unit Platform :=
  mkWorld (<[3 := component "above" (Some 1) (mkRectangle 20 20 60 60) [] modalFlag]>
             modalTree)
          None ([2; 3], true).

(** The window on the desktop. *)
Definition onDesktop : ComponentFlags := set_hasHeavyweightPeerFlag true visible.
Definition desktop : World unit Platform :=
  mkWorld (<[1 := component "window" None (mkRectangle 0 0 100 100) [2; 3] onDesktop]> tree)
          None ([], true).

(** A modal popup 8 next to the window. *)
Definition popup : World unit Platform :=
  mkWorld (<[8 := component "popup" None (mkRectangle 0 0 30 30) [] modalFlag]> tree)
          None ([8], true).

(** A component 9 with the mouse listeners 50 and 51 and a child 10. *)
Definition fragile : World unit Platform :=
  mkWorld (<[9 := set_mouseListeners (Some (mkMouseListenerList [51; 50] 0))
                    (component "fragile" None (mkRectangle 0 0 10 10) [10] visible)]>
           (<[10 := component "child" (Some 9) (mkRectangle 0 0 5 5) [] visible]> ∅))
          None ([], true).

(** A component 9 with the mouse listeners 61, 60 and 51, of which 61
    and 60 listen to the children of 9 as well (60 was added before
    61), and its child 10 with the mouse listener 52. *)
Definition audience : World unit Platform :=
  mkWorld (<[9 := set_mouseListeners (Some (mkMouseListenerList [61; 60; 51] 2))
                    (component "parent" None (mkRectangle 0 0 10 10) [10] visible)]>
           (<[10 := set_mouseListeners (Some (mkMouseListenerList [52] 0))
                      (component "child" (Some 9) (mkRectangle 0 0 5 5) [] visible)]> ∅))
          None ([], true).

(** The window with its child 3 hidden, in the hands of a thread that
    does not hold the lock. *)
Definition backstage : World unit Platform :=
  mkWorld (<[3 := component "above" (Some 1) (mkRectangle 20 20 60 60) [] noFlags]> tree)
          None ([], false).

(** What [parent->addChildComponent (child)] does to the parent pointer
    and the child list when the child has no parent and is not on the
    desktop. *)
Definition adopt (parent child : CompId) (s : World unit Platform) : World unit Platform :=
  set_heap
    (alter (set_parentComponent (Some parent)) child
       (alter (fun k => set_childComponentList (childComponentList k ++ [child]) k)
              parent (heap s)))
    s.

(** Client code that clings to its parent: when the component 2 finds
    itself without a parent in [parentHierarchyChanged], it adds itself
    to the window 1 again. *)
Definition clinging (k : Callback) (s : World unit Platform) : World unit Platform :=
  match k with
  | CbParentHierarchyChanged 2 =>
      match heap s !! 2 with
      | Some c => match parentComponent c with
                  | None => adopt 1 2 s
                  | Some _ => s
                  end
      | None => s
      end
  | _ => s
  end.

Definition meddling : Collaborators unit Platform := collaboratorsWith clinging true.

(** The window, and next to it a second window 8 that is on the
    desktop. *)
Definition twoWindows : World unit Platform :=
  mkWorld (<[8 := component "second" None (mkRectangle 0 0 30 30) [] onDesktop]> tree)
          None ([], true).

End Demo.

Section Juce.

Context {AffineTransform Platform : Type} {env : Collaborators AffineTransform Platform}.

Local Abbreviation Component := (Component AffineTransform).
Local Abbreviation World := (World AffineTransform Platform).

(** *** The trace monad *)

(** [Invoke k pre]: the call [k] leaves the embedded code in state [pre].
    [Nested c pre inner]: [c->internalHierarchyChanged()] is entered in
    state [pre] and makes the steps [inner].
    [OutOfFuel]: a recursion along the parent pointers or the child
    lists did not come to its end within the fuel it was given.  The C++
    code recurses on at that point, for ever when the pointers form a
    cycle; the state and the steps after [OutOfFuel] are not those of
    the code. *)
#[warnings="-register-all"]
Inductive Step : Type :=
  | Invoke (k : Callback) (pre : World)
  | Nested (c : CompId) (pre : World) (inner : list Step)
  | AssertionFailure (what : string)
  | OutOfFuel.

Record Res (A : Type) : Type := mkRes {
  trace : list Step;
  world : World;
  value : A
}.
Arguments mkRes {A} _ _ _.
Arguments trace {A} _.
Arguments world {A} _.
Arguments value {A} _.

Definition M (A : Type) : Type := World -> Res A.

Definition ret {A} (a : A) : M A := fun s => mkRes [] s a.
Definition bind {A B} (m : M A) (f : A -> M B) : M B :=
  fun s =>
    let r := m s in
    let r' := f (value r) (world r) in
    mkRes (trace r ++ trace r') (world r') (value r').

Definition get : M World := fun s => mkRes [] s s.
Definition modify (f : World -> World) : M unit := fun s => mkRes [] (f s) tt.
Definition invoke (k : Callback) : M unit := fun s => mkRes [Invoke k s] (cb k s) tt.
Definition when (b : bool) (m : M unit) : M unit := if b then m else ret tt.
Definition nested (c : CompId) (m : M unit) : M unit :=
  fun s => let r := m s in mkRes [Nested c s (trace r)] (world r) tt.

(** Where a recursion runs out of fuel. *)
Definition outOfFuel {A} (a : A) : M A := fun s => mkRes [OutOfFuel] s a.

Definition jassert (cond : bool) (what : string) : M unit :=
  fun s => if JUCE_DEBUG && negb cond
           then mkRes [AssertionFailure what] s tt
           else mkRes [] s tt.
Definition jassertfalse (what : string) : M unit := jassert false what.

Definition CHECK_MESSAGE_MANAGER_IS_LOCKED : M unit :=
  fun s => jassert (currentThreadHasLockedMessageManager (platform s))
                   "currentThreadHasLockedMessageManager" s.

Notation "x <-- m ;; k" := (bind m (fun x => k))
  (at level 100, m at next level, right associativity).
Notation "m ;;; k" := (bind m (fun _ => k))
  (at level 100, right associativity).

(** *** Reading the heap *)

(** Reading through a dangling pointer is undefined in C++; the embedding
    reads a blank component there.  The theorems ask for live pointers. *)
Definition the (s : World) (c : CompId) : Component :=
  default (newComponent EmptyString) (heap s !! c).

Definition isAlive (s : World) (c : CompId) : bool :=
  bool_decide (is_Some (heap s !! c)).

(** [Component::BailOutChecker::shouldBailOut]: [safePointer == nullptr]. *)
Definition shouldBailOut (s : World) (c : CompId) : bool := negb (isAlive s c).

Definition getX (s : World) (c : CompId) : Z := rect_x (bounds (the s c)).
Definition getY (s : World) (c : CompId) : Z := rect_y (bounds (the s c)).
Definition getWidth (s : World) (c : CompId) : Z := rect_w (bounds (the s c)).
Definition getHeight (s : World) (c : CompId) : Z := rect_h (bounds (the s c)).
Definition getPosition (s : World) (c : CompId) : Point :=
  Rectangle_getPosition (bounds (the s c)).
Definition getParentComponent (s : World) (c : CompId) : option CompId :=
  parentComponent (the s c).
Definition getFlags (s : World) (c : CompId) : ComponentFlags := flags (the s c).

Definition isVisible (s : World) (c : CompId) : bool := visibleFlag (getFlags s c).
Definition isOnDesktop (s : World) (c : CompId) : bool :=
  hasHeavyweightPeerFlag (getFlags s c).
Definition isOpaque (s : World) (c : CompId) : bool := opaqueFlag (getFlags s c).
Definition isAlwaysOnTop (s : World) (c : CompId) : bool :=
  alwaysOnTopFlag (getFlags s c).
Definition isTransformed (s : World) (c : CompId) : bool :=
  bool_decide (is_Some (affineTransform (the s c))).
Definition isBroughtToFrontOnMouseClick (s : World) (c : CompId) : bool :=
  bringToFrontOnClickFlag (getFlags s c).

(** Loops that follow parent or child pointers are bounded by the number
    of live components, which no chain of a well-formed tree exceeds. *)
Definition fuelOf (s : World) : nat := S (size (heap s)).

(** *** [ComponentHelpers]: coordinate conversion *)

Definition convertFromParentSpace (s : World) (comp : CompId) (pointInParentSpace : Point) : Point :=
  match affineTransform (the s comp) with
  | None => Point_sub pointInParentSpace (getPosition s comp)
  | Some t =>
      Point_sub (transformedPoint (inverted t) pointInParentSpace) (getPosition s comp)
  end.

Definition convertToParentSpace (s : World) (comp : CompId) (pointInLocalSpace : Point) : Point :=
  match affineTransform (the s comp) with
  | None => Point_add pointInLocalSpace (getPosition s comp)
  | Some t => transformedPoint t (Point_add pointInLocalSpace (getPosition s comp))
  end.

Definition convertFromParentSpace_rect (s : World) (comp : CompId) (areaInParentSpace : Rectangle) : Rectangle :=
  match affineTransform (the s comp) with
  | None => Rectangle_sub areaInParentSpace (getPosition s comp)
  | Some t =>
      Rectangle_sub (transformedRect (inverted t) areaInParentSpace) (getPosition s comp)
  end.

Definition convertToParentSpace_rect (s : World) (comp : CompId) (areaInLocalSpace : Rectangle) : Rectangle :=
  match affineTransform (the s comp) with
  | None => Rectangle_add areaInLocalSpace (getPosition s comp)
  | Some t => transformedRect t (Rectangle_add areaInLocalSpace (getPosition s comp))
  end.

(** *** The parent chain *)

(** [Component::isParentOf].  [None]: the loop did not finish within the
    fuel. *)
Fixpoint isParentOf_fuel (fuel : nat) (s : World) (this : CompId)
    (possibleChild : option CompId) : option bool :=
  match possibleChild with
  | None => Some false
  | Some pc =>
      match fuel with
      | O => None
      | S fuel' =>
          let possibleChild' := getParentComponent s pc in
          if decide (possibleChild' = Some this) then Some true
          else isParentOf_fuel fuel' s this possibleChild'
      end
  end.

Definition isParentOf (s : World) (this : CompId) (possibleChild : option CompId) : bool :=
  default false (isParentOf_fuel (fuelOf s) s this possibleChild).

(** [Component::getTopLevelComponent]. *)
Fixpoint getTopLevelComponent_fuel (fuel : nat) (s : World) (comp : CompId) : option CompId :=
  match fuel with
  | O => None
  | S fuel' =>
      match getParentComponent s comp with
      | None => Some comp
      | Some p => getTopLevelComponent_fuel fuel' s p
      end
  end.

Definition getTopLevelComponent (s : World) (this : CompId) : CompId :=
  default this (getTopLevelComponent_fuel (fuelOf s) s this).

(** [Component::getPeer]. *)
Fixpoint getPeer_fuel (fuel : nat) (s : World) (this : CompId) : option PeerId :=
  match fuel with
  | O => None
  | S fuel' =>
      if isOnDesktop s this then getPeerFor (platform s) this
      else match getParentComponent s this with
           | None => None
           | Some p => getPeer_fuel fuel' s p
           end
  end.
Definition getPeer (s : World) (this : CompId) : option PeerId :=
  getPeer_fuel (fuelOf s) s this.

(** [Component::isShowing]. *)
Fixpoint isShowing_fuel (fuel : nat) (s : World) (this : CompId) : bool :=
  match fuel with
  | O => false
  | S fuel' =>
      if isVisible s this then
        match getParentComponent s this with
        | Some p => isShowing_fuel fuel' s p
        | None =>
            match getPeer s this with
            | Some peer => negb (peer_isMinimised (platform s) peer)
            | None => false
            end
        end
      else false
  end.
Definition isShowing (s : World) (this : CompId) : bool :=
  isShowing_fuel (fuelOf s) s this.

Definition hasKeyboardFocus (s : World) (this : CompId) (trueIfChildIsFocused : bool) : bool :=
  bool_decide (currentlyFocusedComponent s = Some this)
  || (trueIfChildIsFocused && isParentOf s this (currentlyFocusedComponent s)).

(** *** Hit testing *)

(** The first element, in list order, on which [f] answers [true]. *)
Fixpoint anyOf {A} (f : A -> option bool) (l : list A) : option bool :=
  match l with
  | [] => Some false
  | a :: l' =>
      match f a with
      | None => None
      | Some true => Some true
      | Some false => anyOf f l'
      end
  end.

(** The first non-null answer of [f], in list order. *)
Fixpoint firstNonNull {A B} (f : A -> option (option B)) (l : list A) : option (option B) :=
  match l with
  | [] => Some None
  | a :: l' =>
      match f a with
      | None => None
      | Some (Some b) => Some (Some b)
      | Some None => firstNonNull f l'
      end
  end.

(** [ComponentHelpers::hitTest], with the virtual [comp.hitTest] as
    [hit]. *)
Definition ComponentHelpers_hitTest_with (hit : CompId -> Z -> Z -> option bool)
    (s : World) (comp : CompId) (localPoint : Point) : option bool :=
  if isPositiveAndBelow (pt_x localPoint) (getWidth s comp)
     && isPositiveAndBelow (pt_y localPoint) (getHeight s comp)
  then hit comp (pt_x localPoint) (pt_y localPoint)
  else Some false.

(** [Component::hitTest], the base-class implementation.  The loop
    [for (i = getNumChildComponents(); --i >= 0;)] runs over the child
    list from its last entry to its first. *)
Fixpoint hitTest_fuel (fuel : nat) (s : World) (this : CompId) (x y : Z) : option bool :=
  match fuel with
  | O => None
  | S fuel' =>
      if negb (ignoresMouseClicksFlag (getFlags s this)) then Some true
      else if allowChildMouseClicksFlag (getFlags s this) then
        anyOf (fun child =>
                 if isVisible s child
                 then ComponentHelpers_hitTest_with (hitTest_fuel fuel' s) s child
                        (convertFromParentSpace s child (mkPoint x y))
                 else Some false)
              (rev (childComponentList (the s this)))
      else Some false
  end.

Definition hitTest (s : World) (this : CompId) (x y : Z) : option bool :=
  hitTest_fuel (fuelOf s) s this x y.

Definition ComponentHelpers_hitTest (s : World) (comp : CompId) (localPoint : Point) : option bool :=
  ComponentHelpers_hitTest_with (hitTest s) s comp localPoint.

(** [Component::getComponentAt].  The outer [option] is [None] when the
    recursion did not finish within the fuel; the inner one is the
    pointer that is returned. *)
Fixpoint getComponentAt_fuel (fuel : nat) (s : World) (this : CompId) (position : Point)
    : option (option CompId) :=
  match fuel with
  | O => None
  | S fuel' =>
      if visibleFlag (getFlags s this) then
        match ComponentHelpers_hitTest s this position with
        | None => None
        | Some false => Some None
        | Some true =>
            match firstNonNull
                    (fun child => getComponentAt_fuel fuel' s child
                                    (convertFromParentSpace s child position))
                    (rev (childComponentList (the s this))) with
            | None => None
            | Some (Some child) => Some (Some child)
            | Some None => Some (Some this)
            end
        end
      else Some None
  end.

Definition getComponentAt (s : World) (this : CompId) (position : Point) : option (option CompId) :=
  getComponentAt_fuel (fuelOf s) s this position.

(** *** Modal state *)

Definition getCurrentlyModalComponent (s : World) (index : Z) : option CompId :=
  getModalComponent (platform s) index.

Definition isCurrentlyModal (s : World) (this : CompId) : bool :=
  currentlyModalFlag (getFlags s this)
  && bool_decide (getCurrentlyModalComponent s 0 = Some this).

Definition isCurrentlyBlockedByAnotherModalComponent (s : World) (this : CompId) : bool :=
  let mc := getCurrentlyModalComponent s 0 in
  negb (match mc with
        | None => true
        | Some m =>
            bool_decide (m = this)
            || isParentOf s m (Some this)
            || canModalEventBeSentToComponent s m this
        end).

(** *** Writing the heap *)

Definition modifyComp (c : CompId) (f : Component -> Component) : M unit :=
  modify (fun s => set_heap (alter f c (heap s)) s).
Definition modifyFlags (c : CompId) (f : ComponentFlags -> ComponentFlags) : M unit :=
  modifyComp c (fun k => set_flags (f (flags k)) k).

(** *** Dispatch loops *)

(** The loop shape the dispatchers share:
    [for (int i = n; --i >= 0;) { body (items[i]); if (bail) return; i = jmin (i, limit); }].
    The answer is [true] when the loop returned because of [bail].  The
    index decreases in every round, so [fuel >= n] rounds are enough. *)
Fixpoint loopBackwards {A} (fuel : nat) (items : World -> list A) (limit : World -> Z)
    (bail : World -> bool) (body : A -> M unit) (i : Z) : M bool :=
  match fuel with
  | O => ret false
  | S fuel' =>
      let i := i - 1 in
      if i <? 0 then ret false
      else
        s <-- get ;;
        match items s !! Z.to_nat i with
        | None => ret false
        | Some a =>
            body a ;;;
            s' <-- get ;;
            if bail s' then ret true
            else loopBackwards fuel' items limit bail body (jmin i (limit s'))
        end
  end.

Definition listenersOf (s : World) (c : CompId) : list ListenerId :=
  match mouseListeners (the s c) with
  | Some l => listeners l
  | None => []
  end.
Definition numDeepOf (s : World) (c : CompId) : Z :=
  match mouseListeners (the s c) with
  | Some l => numDeepMouseListeners l
  | None => 0
  end.

(** The walk of [sendMouseEvent] up the parents: the deep listeners of
    every ancestor [p], watched by a [BailOutChecker2] on [comp] and [p]. *)
Fixpoint sendMouseEvent_parents (fuel : nat) (comp : CompId) (k : MouseEventKind)
    (p : option CompId) : M unit :=
  match fuel with
  | O => match p with None => ret tt | Some _ => outOfFuel tt end
  | S fuel' =>
      match p with
      | None => ret tt
      | Some p =>
          s <-- get ;;
          bailed <-- (match mouseListeners (the s p) with
                      | Some list =>
                          if 0 <? numDeepMouseListeners list then
                            loopBackwards (Z.to_nat (numDeepMouseListeners list))
                              (fun s => listenersOf s p) (fun s => numDeepOf s p)
                              (fun s => shouldBailOut s comp || negb (isAlive s p))
                              (fun l => invoke (CbMouseListener l k comp))
                              (numDeepMouseListeners list)
                          else ret false
                      | None => ret false
                      end) ;;
          if bailed : bool then ret tt
          else
            s <-- get ;;
            sendMouseEvent_parents fuel' comp k (getParentComponent s p)
      end
  end.

(** [MouseListenerList::sendMouseEvent]. *)
Definition sendMouseEvent_fuel (fuel : nat) (comp : CompId) (k : MouseEventKind) : M unit :=
  s <-- get ;;
  if shouldBailOut s comp then ret tt
  else
    bailed <-- (match mouseListeners (the s comp) with
                | Some list =>
                    loopBackwards (length (listeners list))
                      (fun s => listenersOf s comp)
                      (fun s => Array.size (listenersOf s comp))
                      (fun s => shouldBailOut s comp)
                      (fun l => invoke (CbMouseListener l k comp))
                      (Array.size (listeners list))
                | None => ret false
                end) ;;
    if bailed : bool then ret tt
    else
      s <-- get ;;
      sendMouseEvent_parents fuel comp k (getParentComponent s comp).

Definition sendMouseEvent (comp : CompId) (k : MouseEventKind) : M unit :=
  fun s => sendMouseEvent_fuel (fuelOf s) comp k s.

(** Modelled from the spec: [ListenerList::callChecked]
    (juce_ListenerList.h is not among the sources).  The spec asks for
    listener dispatch that is reentrancy-safe through liveness checks: the
    listeners are called from the last one to the first, the checker is
    asked before each call, and the index is clamped when the list
    shrinks. *)
Fixpoint callChecked_fuel (fuel : nat) (this : CompId) (call : ComponentListenerCall)
    (index : Z) : M unit :=
  match fuel with
  | O => ret tt
  | S fuel' =>
      s <-- get ;;
      if shouldBailOut s this then ret tt
      else if index <=? 0 then ret tt
      else
        let listSize := Array.size (componentListeners (the s this)) in
        let index := if index - 1 <? listSize then index - 1 else listSize - 1 in
        if index <? 0 then ret tt
        else match componentListeners (the s this) !! Z.to_nat index with
             | None => ret tt
             | Some l =>
                 invoke (CbComponentListener l call this) ;;;
                 callChecked_fuel fuel' this call index
             end
  end.

Definition callChecked (this : CompId) (call : ComponentListenerCall) : M unit :=
  fun s =>
    let n := componentListeners (the s this) in
    callChecked_fuel (S (length n)) this call (Array.size n) s.

(** [Component::sendMovedResizedMessages]. *)
Definition sendMovedResizedMessages (this : CompId) (wasMoved wasResized : bool) : M unit :=
  bailed <-- (if wasMoved then
                invoke (CbMoved this) ;;;
                s <-- get ;;
                ret (shouldBailOut s this)
              else ret false) ;;
  if bailed : bool then ret tt
  else
    bailed <-- (if wasResized then
                  invoke (CbResized this) ;;;
                  s <-- get ;;
                  if shouldBailOut s this then ret true
                  else
                    loopBackwards (length (childComponentList (the s this)))
                      (fun s => childComponentList (the s this))
                      (fun s => Array.size (childComponentList (the s this)))
                      (fun s => shouldBailOut s this)
                      (fun child => invoke (CbParentSizeChanged child))
                      (Array.size (childComponentList (the s this)))
                else ret false) ;;
    if bailed : bool then ret tt
    else
      s <-- get ;;
      match getParentComponent s this with
      | Some p => invoke (CbChildBoundsChanged p this)
      | None => ret tt
      end ;;;
      s <-- get ;;
      if negb (shouldBailOut s this)
      then callChecked this (componentMovedOrResized wasMoved wasResized)
      else ret tt.

(** [Component::internalChildrenChanged]. *)
Definition internalChildrenChanged (this : CompId) : M unit :=
  s <-- get ;;
  match componentListeners (the s this) with
  | [] => invoke (CbChildrenChanged this)
  | _ =>
      invoke (CbChildrenChanged this) ;;;
      s <-- get ;;
      if negb (shouldBailOut s this)
      then callChecked this componentChildrenChanged
      else ret tt
  end.

(** [Component::internalHierarchyChanged]. *)
Fixpoint internalHierarchyChanged_fuel (fuel : nat) (this : CompId) : M unit :=
  match fuel with
  | O => outOfFuel tt
  | S fuel' =>
      invoke (CbParentHierarchyChanged this) ;;;
      s <-- get ;;
      if shouldBailOut s this then ret tt
      else
        callChecked this componentParentHierarchyChanged ;;;
        s <-- get ;;
        if shouldBailOut s this then ret tt
        else
          bailed <-- loopBackwards (length (childComponentList (the s this)))
                       (fun s => childComponentList (the s this))
                       (fun s => Array.size (childComponentList (the s this)))
                       (fun s => shouldBailOut s this)
                       (fun child => nested child (internalHierarchyChanged_fuel fuel' child))
                       (Array.size (childComponentList (the s this))) ;;
          if bailed : bool
          then jassertfalse "the parent component was deleted during a hierarchy callback"
          else ret tt
  end.

Definition internalHierarchyChanged (this : CompId) : M unit :=
  fun s => internalHierarchyChanged_fuel (fuelOf s) this s.

(** *** Repainting *)

(** [Component::sendFakeMouseMove] only talks to the main mouse source of
    the [Desktop]. *)
Definition sendFakeMouseMove : M unit := invoke ExtSendFakeMouseMove.

(** [Component::internalRepaint]. *)
Fixpoint internalRepaint_fuel (fuel : nat) (this : CompId) (x y w h : Z) : M unit :=
  match fuel with
  | O => outOfFuel tt
  | S fuel' =>
      CHECK_MESSAGE_MANAGER_IS_LOCKED ;;;
      s <-- get ;;
      let w := if x <? 0 then int_add w x else w in
      let x := if x <? 0 then 0 else x in
      let w := if getWidth s this <? int_add x w then int_sub (getWidth s this) x else w in
      if 0 <? w then
        let h := if y <? 0 then int_add h y else h in
        let y := if y <? 0 then 0 else y in
        let h := if getHeight s this <? int_add y h then int_sub (getHeight s this) y else h in
        if 0 <? h then
          match getParentComponent s this with
          | Some p =>
              if visibleFlag (getFlags s p) then
                match affineTransform (the s this) with
                | None =>
                    internalRepaint_fuel fuel' p (int_add x (getX s this))
                      (int_add y (getY s this)) w h
                | Some _ =>
                    let r := convertToParentSpace_rect s this (mkRectangle x y w h) in
                    internalRepaint_fuel fuel' p (rect_x r) (rect_y r) (rect_w r) (rect_h r)
                end
              else ret tt
          | None =>
              if hasHeavyweightPeerFlag (getFlags s this) then
                match getPeer s this with
                | Some _ => invoke (ExtPeer this (peerRepaint (mkRectangle x y w h)))
                | None => ret tt
                end
              else ret tt
          end
        else ret tt
      else ret tt
  end.

Definition internalRepaint (this : CompId) (x y w h : Z) : M unit :=
  fun s => internalRepaint_fuel (fuelOf s) this x y w h s.

(** [Component::repaintParent]. *)
Definition repaintParent (this : CompId) : M unit :=
  s <-- get ;;
  if visibleFlag (getFlags s this)
  then internalRepaint this 0 0 (getWidth s this) (getHeight s this)
  else ret tt.

(** [Component::repaint (x, y, w, h)] and [Component::repaint()]. *)
Definition repaint_area (this : CompId) (x y w h : Z) : M unit :=
  modifyComp this (set_bufferedImageIsNull true) ;;;
  s <-- get ;;
  if visibleFlag (getFlags s this) then internalRepaint this x y w h else ret tt.

Definition repaint (this : CompId) : M unit :=
  s <-- get ;;
  repaint_area this 0 0 (getWidth s this) (getHeight s this).

(** *** Focus *)

(** [Component::internalChildFocusChange]. *)
Fixpoint internalChildFocusChange_fuel (fuel : nat) (this : CompId) (cause : FocusChangeType) : M unit :=
  match fuel with
  | O => outOfFuel tt
  | S fuel' =>
      s <-- get ;;
      let childIsNowFocused := hasKeyboardFocus s this true in
      bailed <-- (if negb (eqb (childCompFocusedFlag (getFlags s this)) childIsNowFocused) then
                    modifyFlags this (set_childCompFocusedFlag childIsNowFocused) ;;;
                    invoke (CbFocusOfChildComponentChanged this) ;;;
                    s <-- get ;;
                    ret (negb (isAlive s this))
                  else ret false) ;;
      if bailed : bool then ret tt
      else
        s <-- get ;;
        match getParentComponent s this with
        | Some p => internalChildFocusChange_fuel fuel' p cause
        | None => ret tt
        end
  end.

Definition internalChildFocusChange (this : CompId) (cause : FocusChangeType) : M unit :=
  fun s => internalChildFocusChange_fuel (fuelOf s) this cause s.

(** [Component::internalFocusLoss]. *)
Definition internalFocusLoss (this : CompId) (cause : FocusChangeType) : M unit :=
  invoke (CbFocusLost this) ;;;
  s <-- get ;;
  if isAlive s this then internalChildFocusChange this cause else ret tt.

(** [Component::giveAwayFocus]. *)
Definition giveAwayFocus (sendFocusLossEvent : bool) : M unit :=
  s <-- get ;;
  let componentLosingFocus := currentlyFocusedComponent s in
  modify (set_currentlyFocusedComponent None) ;;;
  match componentLosingFocus with
  | Some c => if sendFocusLossEvent then internalFocusLoss c focusChangedDirectly else ret tt
  | None => ret tt
  end ;;;
  invoke (ExtDesktop desktopTriggerFocusCallback).

(** [Component::grabFocusInternal] needs the [KeyboardFocusTraverser] and
    the peer's focus state; it is a call that leaves the embedded code. *)
Definition grabFocusInternal (this : CompId) (cause : FocusChangeType) (canTryParent : bool) : M unit :=
  invoke (CbGrabFocusInternal this cause canTryParent).

(** [Component::grabKeyboardFocus]. *)
Definition grabKeyboardFocus (this : CompId) : M unit :=
  CHECK_MESSAGE_MANAGER_IS_LOCKED ;;;
  grabFocusInternal this focusChangedDirectly true.

(** *** The hierarchy *)

(** [Component::removeFromDesktop]. *)
Definition removeFromDesktop (this : CompId) : M unit :=
  CHECK_MESSAGE_MANAGER_IS_LOCKED ;;;
  s <-- get ;;
  if hasHeavyweightPeerFlag (getFlags s this) then
    let peer := getPeerFor (platform s) this in
    modifyFlags this (set_hasHeavyweightPeerFlag false) ;;;
    jassert (bool_decide (is_Some peer)) "peer != nullptr" ;;;
    invoke (ExtDeletePeer this) ;;;
    invoke (ExtDesktop (desktopRemoveDesktopComponent this))
  else ret tt.

(** [Component::removeChildComponent (index, sendParentEvents, sendChildEvents)]. *)
Definition removeChildComponent_index (this : CompId) (index : Z)
    (sendParentEvents sendChildEvents : bool) : M (option CompId) :=
  CHECK_MESSAGE_MANAGER_IS_LOCKED ;;;
  s <-- get ;;
  match Array.get (childComponentList (the s this)) index with
  | None => ret None
  | Some child =>
      let sendParentEvents := sendParentEvents && isShowing s child in
      (if sendParentEvents then sendFakeMouseMove ;;; repaintParent child else ret tt) ;;;
      modifyComp this (fun k => set_childComponentList (Array.remove (childComponentList k) index) k) ;;;
      modifyComp child (set_parentComponent None) ;;;
      s <-- get ;;
      returned <-- (if bool_decide (currentlyFocusedComponent s = Some child)
                       || isParentOf s child (currentlyFocusedComponent s) then
                      if sendParentEvents then
                        giveAwayFocus (sendChildEvents
                                       || negb (bool_decide (currentlyFocusedComponent s = Some child))) ;;;
                        s <-- get ;;
                        if negb (isAlive s this) then ret true
                        else grabKeyboardFocus this ;;; ret false
                      else
                        giveAwayFocus (sendChildEvents
                                       || negb (bool_decide (currentlyFocusedComponent s = Some child))) ;;;
                        ret false
                    else ret false) ;;
      if returned : bool then ret (Some child)
      else
        (if sendChildEvents then internalHierarchyChanged child else ret tt) ;;;
        (if sendParentEvents then internalChildrenChanged this else ret tt) ;;;
        ret (Some child)
  end.

(** [Component::removeChildComponent] taking the child pointer. *)
Definition removeChildComponent (this : CompId) (child : CompId) : M unit :=
  s <-- get ;;
  removeChildComponent_index this
    (Array.indexOf (childComponentList (the s this)) child) true true ;;;
  ret tt.

(** The loop [while (zOrder > 0) { if (! child[zOrder - 1]->isAlwaysOnTop()) break; --zOrder; }]. *)
Fixpoint skipAlwaysOnTop (fuel : nat) (s : World) (l : list CompId) (zOrder : Z) : Z :=
  match fuel with
  | O => zOrder
  | S fuel' =>
      if 0 <? zOrder then
        match l !! Z.to_nat (zOrder - 1) with
        | Some c => if negb (isAlwaysOnTop s c) then zOrder
                    else skipAlwaysOnTop fuel' s l (zOrder - 1)
        | None => zOrder
        end
      else zOrder
  end.

(** [Component::addChildComponent]. *)
Definition addChildComponent (this : CompId) (child : option CompId) (zOrder : Z) : M unit :=
  CHECK_MESSAGE_MANAGER_IS_LOCKED ;;;
  s <-- get ;;
  match child with
  | None => ret tt
  | Some child =>
      if bool_decide (getParentComponent s child = Some this) then ret tt
      else
        match getParentComponent s child with
        | Some p => removeChildComponent p child
        | None => removeFromDesktop child
        end ;;;
        modifyComp child (set_parentComponent (Some this)) ;;;
        s <-- get ;;
        (if isVisible s child then repaintParent child else ret tt) ;;;
        s <-- get ;;
        let l := childComponentList (the s this) in
        let zOrder :=
          if negb (isAlwaysOnTop s child) then
            let zOrder := if (zOrder <? 0) || (Array.size l <? zOrder)
                          then Array.size l else zOrder in
            skipAlwaysOnTop (Z.to_nat zOrder) s l zOrder
          else zOrder in
        modifyComp this (fun k => set_childComponentList (Array.insert (childComponentList k) zOrder child) k) ;;;
        internalHierarchyChanged child ;;;
        internalChildrenChanged this
  end.

(** [Component::moveChildInternal]. *)
Definition moveChildInternal (this : CompId) (sourceIndex destIndex : Z) : M unit :=
  if negb (sourceIndex =? destIndex) then
    s <-- get ;;
    let c := Array.get (childComponentList (the s this)) sourceIndex in
    jassert (bool_decide (is_Some c)) "c != nullptr" ;;;
    match c with Some c => repaintParent c | None => ret tt end ;;;
    modifyComp this (fun k => set_childComponentList
                                (Array.move (childComponentList k) sourceIndex destIndex) k) ;;;
    sendFakeMouseMove ;;;
    internalChildrenChanged this
  else ret tt.

(** The loop of [toBack]:
    [while (insertIndex < size && ! child[insertIndex]->isAlwaysOnTop()) ++insertIndex]. *)
Fixpoint skipNotAlwaysOnTop (fuel : nat) (s : World) (l : list CompId) (insertIndex : Z) : Z :=
  match fuel with
  | O => insertIndex
  | S fuel' =>
      if insertIndex <? Array.size l then
        match l !! Z.to_nat insertIndex with
        | Some c => if negb (isAlwaysOnTop s c)
                    then skipNotAlwaysOnTop fuel' s l (insertIndex + 1)
                    else insertIndex
        | None => insertIndex
        end
      else insertIndex
  end.

(** [Component::toBack]. *)
Definition toBack (this : CompId) : M unit :=
  s <-- get ;;
  if isOnDesktop s this then
    jassertfalse "toBack is not implemented for native windows"
  else
    match getParentComponent s this with
    | Some p =>
        let childList := childComponentList (the s p) in
        if negb (bool_decide (Array.getFirst childList = Some this)) then
          let index := Array.indexOf childList this in
          if 0 <? index then
            let insertIndex :=
              if alwaysOnTopFlag (getFlags s this)
              then skipNotAlwaysOnTop (length childList) s childList 0
              else 0 in
            moveChildInternal p index insertIndex
          else ret tt
        else ret tt
    | None => ret tt
    end.

(** [Component::internalBroughtToFront]. *)
Definition internalBroughtToFront (this : CompId) : M unit :=
  s <-- get ;;
  (if hasHeavyweightPeerFlag (getFlags s this)
   then invoke (ExtDesktop (desktopComponentBroughtToFront this)) else ret tt) ;;;
  invoke (CbBroughtToFront this) ;;;
  s <-- get ;;
  if shouldBailOut s this then ret tt
  else
    callChecked this componentBroughtToFront ;;;
    s <-- get ;;
    if shouldBailOut s this then ret tt
    else
      match getCurrentlyModalComponent s 0 with
      | Some cm =>
          if negb (bool_decide (getTopLevelComponent s cm = getTopLevelComponent s this))
          then invoke (ExtModal (modalBringModalComponentsToFront false))
          else ret tt
      | None => ret tt
      end.

(** The loop of [toFront]:
    [while (insertIndex > 0 && child[insertIndex]->isAlwaysOnTop()) --insertIndex]. *)
Fixpoint skipAlwaysOnTopFromEnd (fuel : nat) (s : World) (l : list CompId) (insertIndex : Z) : Z :=
  match fuel with
  | O => insertIndex
  | S fuel' =>
      if 0 <? insertIndex then
        match l !! Z.to_nat insertIndex with
        | Some c => if isAlwaysOnTop s c
                    then skipAlwaysOnTopFromEnd fuel' s l (insertIndex - 1)
                    else insertIndex
        | None => insertIndex
        end
      else insertIndex
  end.

(** [Component::toFront]. *)
Definition toFront (this : CompId) (setAsForeground : bool) : M unit :=
  CHECK_MESSAGE_MANAGER_IS_LOCKED ;;;
  s <-- get ;;
  if hasHeavyweightPeerFlag (getFlags s this) then
    match getPeer s this with
    | Some _ =>
        invoke (ExtPeer this (peerToFront setAsForeground)) ;;;
        s <-- get ;;
        if setAsForeground && negb (hasKeyboardFocus s this true)
        then grabKeyboardFocus this else ret tt
    | None => ret tt
    end
  else
    match getParentComponent s this with
    | Some p =>
        let childList := childComponentList (the s p) in
        (if negb (bool_decide (Array.getLast childList = Some this)) then
           let index := Array.indexOf childList this in
           if 0 <=? index then
             let insertIndex :=
               if negb (alwaysOnTopFlag (getFlags s this))
               then skipAlwaysOnTopFromEnd (length childList) s childList
                      (Array.size childList - 1)
               else -1 in
             moveChildInternal p index insertIndex
           else ret tt
         else ret tt) ;;;
        if setAsForeground
        then internalBroughtToFront this ;;; grabKeyboardFocus this
        else ret tt
    | None => ret tt
    end.

(** *** Visibility, name and bounds *)

(** [Component::sendVisibilityChangeMessage]. *)
Definition sendVisibilityChangeMessage (this : CompId) : M unit :=
  invoke (CbVisibilityChanged this) ;;;
  s <-- get ;;
  if negb (shouldBailOut s this)
  then callChecked this componentVisibilityChanged
  else ret tt.

(** [Component::setVisible]. *)
Definition setVisible (this : CompId) (shouldBeVisible : bool) : M unit :=
  s <-- get ;;
  if negb (eqb (visibleFlag (getFlags s this)) shouldBeVisible) then
    CHECK_MESSAGE_MANAGER_IS_LOCKED ;;;
    modifyFlags this (set_visibleFlag shouldBeVisible) ;;;
    s <-- get ;;
    internalRepaint this 0 0 (getWidth s this) (getHeight s this) ;;;
    sendFakeMouseMove ;;;
    s <-- get ;;
    (if negb shouldBeVisible then
       if bool_decide (currentlyFocusedComponent s = Some this)
          || isParentOf s this (currentlyFocusedComponent s) then
         match getParentComponent s this with
         | Some p => grabKeyboardFocus p
         | None => giveAwayFocus true
         end
       else ret tt
     else ret tt) ;;;
    s <-- get ;;
    if isAlive s this then
      sendVisibilityChangeMessage this ;;;
      s <-- get ;;
      if isAlive s this && hasHeavyweightPeerFlag (getFlags s this) then
        let peer := getPeer s this in
        jassert (bool_decide (is_Some peer)) "peer != nullptr" ;;;
        match peer with
        | Some _ =>
            invoke (ExtPeer this (peerSetVisible shouldBeVisible)) ;;;
            internalHierarchyChanged this
        | None => ret tt
        end
      else ret tt
    else ret tt
  else ret tt.

(** [Component::setName]. *)
Definition setName (this : CompId) (name : string) : M unit :=
  CHECK_MESSAGE_MANAGER_IS_LOCKED ;;;
  s <-- get ;;
  if negb (bool_decide (componentName (the s this) = name)) then
    modifyComp this (set_componentName name) ;;;
    s <-- get ;;
    (if hasHeavyweightPeerFlag (getFlags s this) then
       let peer := getPeer s this in
       jassert (bool_decide (is_Some peer)) "peer != nullptr" ;;;
       match peer with
       | Some _ => invoke (ExtPeer this (peerSetTitle name))
       | None => ret tt
       end
     else ret tt) ;;;
    callChecked this componentNameChanged
  else ret tt.

(** [Component::setBounds (x, y, w, h)]. *)
Definition setBounds (this : CompId) (x y w h : Z) : M unit :=
  CHECK_MESSAGE_MANAGER_IS_LOCKED ;;;
  let w := if w <? 0 then 0 else w in
  let h := if h <? 0 then 0 else h in
  s <-- get ;;
  let wasResized := negb (getWidth s this =? w) || negb (getHeight s this =? h) in
  let wasMoved := negb (getX s this =? x) || negb (getY s this =? y) in
  jassert (negb (isInsidePaintCall (getFlags s this) && wasResized && isOnDesktop s this))
          "resizing a window during its paint method" ;;;
  if wasMoved || wasResized then
    let showing := isShowing s this in
    (if showing then
       sendFakeMouseMove ;;;
       s <-- get ;;
       if negb (hasHeavyweightPeerFlag (getFlags s this)) then repaintParent this else ret tt
     else ret tt) ;;;
    modifyComp this (set_bounds (mkRectangle x y w h)) ;;;
    (if showing then
       if wasResized then repaint this
       else
         s <-- get ;;
         if negb (hasHeavyweightPeerFlag (getFlags s this)) then repaintParent this else ret tt
     else modifyComp this (set_bufferedImageIsNull true)) ;;;
    s <-- get ;;
    (if hasHeavyweightPeerFlag (getFlags s this) then
       match getPeer s this with
       | Some _ =>
           if wasMoved && wasResized then
             invoke (ExtPeer this (peerSetBounds (getX s this) (getY s this)
                                     (getWidth s this) (getHeight s this) false))
           else if wasMoved then
             invoke (ExtPeer this (peerSetPosition (getX s this) (getY s this)))
           else if wasResized then
             invoke (ExtPeer this (peerSetSize (getWidth s this) (getHeight s this)))
           else ret tt
       | None => ret tt
       end
     else ret tt) ;;;
    sendMovedResizedMessages this wasMoved wasResized
  else ret tt.

(** [Component::setSize], [setTopLeftPosition], [setTopRightPosition],
    [setBounds (const Rectangle<int>&)], [setCentrePosition]. *)
Definition setSize (this : CompId) (w h : Z) : M unit :=
  s <-- get ;; setBounds this (getX s this) (getY s this) w h.
Definition setTopLeftPosition (this : CompId) (x y : Z) : M unit :=
  s <-- get ;; setBounds this x y (getWidth s this) (getHeight s this).
Definition setTopRightPosition (this : CompId) (x y : Z) : M unit :=
  s <-- get ;; setTopLeftPosition this (int_sub x (getWidth s this)) y.
Definition setBounds_rect (this : CompId) (r : Rectangle) : M unit :=
  setBounds this (rect_x r) (rect_y r) (rect_w r) (rect_h r).
Definition setCentrePosition (this : CompId) (x y : Z) : M unit :=
  s <-- get ;;
  setTopLeftPosition this (int_sub x (Z.quot (getWidth s this) 2))
                          (int_sub y (Z.quot (getHeight s this) 2)).

(** *** The desktop *)

(** [Component::localPointToGlobal], that is [convertCoordinate] with a
    null target: [source->isParentOf (nullptr)] is false, so the loop
    climbs until it meets a component that is on the desktop. *)
Fixpoint localPointToGlobal_fuel (fuel : nat) (s : World) (source : CompId) (p : Point) : Point :=
  match fuel with
  | O => p
  | S fuel' =>
      if isOnDesktop s source then
        match getPeer s source with
        | Some peer => peer_localToGlobal (platform s) peer p
        | None => p
        end
      else
        let p := convertToParentSpace s source p in
        match getParentComponent s source with
        | Some q => localPointToGlobal_fuel fuel' s q p
        | None => p
        end
  end.

Definition getScreenPosition (s : World) (this : CompId) : Point :=
  localPointToGlobal_fuel (fuelOf s) s this (mkPoint 0 0).

(** [Component::addToDesktop]. *)
Definition addToDesktop (this : CompId) (styleWanted : Z) : M unit :=
  CHECK_MESSAGE_MANAGER_IS_LOCKED ;;;
  s <-- get ;;
  let styleWanted :=
    if isOpaque s this
    then Z.land styleWanted (Z.lnot windowIsSemiTransparent)
    else Z.lor styleWanted windowIsSemiTransparent in
  let peer := getPeerFor (platform s) this in
  let currentStyleFlags :=
    match peer with
    | Some pr => peer_getStyleFlags (platform s) pr
    | None => 0
    end in
  if negb (styleWanted =? currentStyleFlags)
     || negb (hasHeavyweightPeerFlag (getFlags s this)) then
    (if JUCE_LINUX
     then setSize this (jmax 1 (getWidth s this)) (jmax 1 (getHeight s this))
     else ret tt) ;;;
    s <-- get ;;
    let topLeft := getScreenPosition s this in
    let wasFullscreen :=
      match peer with Some pr => peer_isFullScreen (platform s) pr | None => false end in
    let wasMinimised :=
      match peer with Some pr => peer_isMinimised (platform s) pr | None => false end in
    let currentConstainer :=
      match peer with Some pr => peer_getConstrainer (platform s) pr | None => None end in
    let oldNonFullScreenBounds :=
      match peer with
      | Some pr => peer_getNonFullScreenBounds (platform s) pr
      | None => mkRectangle 0 0 0 0
      end in
    match peer with
    | Some _ =>
        removeFromDesktop this ;;;
        setTopLeftPosition this (pt_x topLeft) (pt_y topLeft)
    | None => ret tt
    end ;;;
    s <-- get ;;
    match getParentComponent s this with
    | Some p => removeChildComponent p this
    | None => ret tt
    end ;;;
    s <-- get ;;
    (if isAlive s this then
       modifyFlags this (set_hasHeavyweightPeerFlag true) ;;;
       invoke (ExtCreateNewPeer this styleWanted) ;;;
       invoke (ExtDesktop (desktopAddDesktopComponent this)) ;;;
       modifyComp this (fun k => set_bounds (Rectangle_setPosition (bounds k) topLeft) k) ;;;
       s <-- get ;;
       invoke (ExtPeer this (peerSetBounds (pt_x topLeft) (pt_y topLeft)
                               (getWidth s this) (getHeight s this) false)) ;;;
       s <-- get ;;
       invoke (ExtPeer this (peerSetVisible (isVisible s this))) ;;;
       (if wasFullscreen then
          invoke (ExtPeer this (peerSetFullScreen true)) ;;;
          invoke (ExtPeer this (peerSetNonFullScreenBounds oldNonFullScreenBounds))
        else ret tt) ;;;
       (if wasMinimised then invoke (ExtPeer this (peerSetMinimised true)) else ret tt) ;;;
       s <-- get ;;
       (if isAlwaysOnTop s this
        then invoke (ExtPeer this (peerSetAlwaysOnTop true)) else ret tt) ;;;
       invoke (ExtPeer this (peerSetConstrainer currentConstainer)) ;;;
       repaint this
     else ret tt) ;;;
    internalHierarchyChanged this
  else ret tt.

(** [Component::userTriedToCloseWindow], the base-class implementation. *)
Definition userTriedToCloseWindow (this : CompId) : M unit :=
  jassertfalse "userTriedToCloseWindow was not overridden".

(** *** Modal state *)

(** [Component::enterModalState]. *)
Definition enterModalState (this : CompId) (shouldTakeKeyboardFocus : bool)
    (callback : option nat) (deleteWhenDismissed : bool) : M unit :=
  CHECK_MESSAGE_MANAGER_IS_LOCKED ;;;
  s <-- get ;;
  jassert (negb (currentlyModalFlag (getFlags s this)))
          "the component is already modal" ;;;
  if negb (isCurrentlyModal s this) then
    invoke (ExtModal (modalStartModal this)) ;;;
    invoke (ExtModal (modalAttachCallback this callback)) ;;;
    (if deleteWhenDismissed
     then invoke (ExtModal (modalAttachAutoDeleteCallback this)) else ret tt) ;;;
    modifyFlags this (set_currentlyModalFlag true) ;;;
    setVisible this true ;;;
    (if shouldTakeKeyboardFocus then grabKeyboardFocus this else ret tt)
  else ret tt.

(** [Component::inputAttemptWhenModal], the base-class implementation. *)
Definition inputAttemptWhenModal_base (this : CompId) : M unit :=
  invoke (ExtModal (modalBringModalComponentsToFront true)) ;;;
  invoke (ExtPlayAlertSound this).

(** [Component::internalModalInputAttempt]; [inputAttemptWhenModal] is
    virtual. *)
Definition internalModalInputAttempt : M unit :=
  s <-- get ;;
  match getCurrentlyModalComponent s 0 with
  | Some current => invoke (CbInputAttemptWhenModal current)
  | None => ret tt
  end.

(** *** Listeners *)

(** Modelled from the spec: [ListenerList::add] (juce_ListenerList.h is
    not among the sources) keeps one entry per listener. *)
Definition ListenerList_add (l : list ListenerId) (newListener : ListenerId) : list ListenerId :=
  if Array.contains l newListener then l else Array.add l newListener.

(** [Component::addComponentListener]. *)
Definition addComponentListener (this : CompId) (newListener : ListenerId) : M unit :=
  CHECK_MESSAGE_MANAGER_IS_LOCKED ;;;
  modifyComp this (fun k => set_componentListeners
                              (ListenerList_add (componentListeners k) newListener) k).

(** [MouseListenerList::addListener]. *)
Definition MouseListenerList_addListener (m : MouseListenerList) (newListener : ListenerId)
    (wantsEventsForAllNestedChildComponents : bool) : MouseListenerList :=
  if negb (Array.contains (listeners m) newListener) then
    if wantsEventsForAllNestedChildComponents
    then mkMouseListenerList (Array.insert (listeners m) 0 newListener)
                             (int_add (numDeepMouseListeners m) 1)
    else mkMouseListenerList (Array.add (listeners m) newListener)
                             (numDeepMouseListeners m)
  else m.

(** [Component::addMouseListener].  A component that listens to itself is
    the listener whose address is the component's. *)
Definition addMouseListener (this : CompId) (newListener : ListenerId)
    (wantsEventsForAllNestedChildComponents : bool) : M unit :=
  CHECK_MESSAGE_MANAGER_IS_LOCKED ;;;
  jassert (negb (bool_decide (newListener = this)) || wantsEventsForAllNestedChildComponents)
          "a component registered as its own mouse listener" ;;;
  modifyComp this (fun k =>
    set_mouseListeners
      (Some (MouseListenerList_addListener
               (default (mkMouseListenerList [] 0) (mouseListeners k))
               newListener wantsEventsForAllNestedChildComponents)) k).

(** *** Mouse input *)

(** The loop of [internalMouseDown] that brings the component and its
    ancestors to the front; [true] when the checker asked to bail out. *)
Fixpoint bringToFrontOnClick (fuel : nat) (this : CompId) (c : option CompId) : M bool :=
  match fuel with
  | O => match c with None => ret false | Some _ => outOfFuel false end
  | S fuel' =>
      match c with
      | None => ret false
      | Some c =>
          s <-- get ;;
          bailed <-- (if isBroughtToFrontOnMouseClick s c then
                        toFront c true ;;;
                        s <-- get ;;
                        ret (shouldBailOut s this)
                      else ret false) ;;
          if bailed : bool then ret true
          else
            s <-- get ;;
            bringToFrontOnClick fuel' this (getParentComponent s c)
      end
  end.

(** [Component::internalMouseDown]. *)
Definition internalMouseDown (this : CompId) : M unit :=
  s <-- get ;;
  returned <-- (if isCurrentlyBlockedByAnotherModalComponent s this then
                  internalModalInputAttempt ;;;
                  s <-- get ;;
                  if shouldBailOut s this then ret true
                  else if isCurrentlyBlockedByAnotherModalComponent s this then
                    invoke (ExtDesktop desktopResetTimer) ;;;
                    invoke (CbDesktopMouseListeners mouseDown this) ;;;
                    ret true
                  else ret false
                else ret false) ;;
  if returned : bool then ret tt
  else
    s <-- get ;;
    bailed <-- bringToFrontOnClick (fuelOf s) this (Some this) ;;
    if bailed : bool then ret tt
    else
      s <-- get ;;
      bailed <-- (if negb (dontFocusOnMouseClickFlag (getFlags s this)) then
                    grabFocusInternal this focusChangedByMouseClick true ;;;
                    s <-- get ;;
                    ret (shouldBailOut s this)
                  else ret false) ;;
      if bailed : bool then ret tt
      else
        modifyFlags this (fun f => set_mouseOverFlag true (set_mouseDownFlag true f)) ;;;
        s <-- get ;;
        (if repaintOnMouseActivityFlag (getFlags s this) then repaint this else ret tt) ;;;
        invoke (CbMouse this mouseDown) ;;;
        s <-- get ;;
        if shouldBailOut s this then ret tt
        else
          invoke (ExtDesktop desktopResetTimer) ;;;
          invoke (CbDesktopMouseListeners mouseDown this) ;;;
          sendMouseEvent this mouseDown.

(** ** Shape of the heap *)

(** [ancestorOf s a c]: [a] is met when the parent pointers are followed
    from [c], in one step or more. *)
Inductive ancestorOf (s : World) (a : CompId) : CompId -> Prop :=
  | ancestor_parent c :
      getParentComponent s c = Some a -> ancestorOf s a c
  | ancestor_step c p :
      getParentComponent s c = Some p -> ancestorOf s a p -> ancestorOf s a c.

(** [chain s c l]: [l] lists the ancestors of [c], nearest first, up to a
    component without a parent. *)
Inductive chain (s : World) : CompId -> list CompId -> Prop :=
  | chain_root c :
      getParentComponent s c = None -> chain s c []
  | chain_cons c p l :
      getParentComponent s c = Some p -> chain s p l -> chain s c (p :: l).

(** [reachesTop s c r]: following the parent pointers from [c] until the
    parent is null ends at [r]. *)
Inductive reachesTop (s : World) : CompId -> CompId -> Prop :=
  | top_here c :
      getParentComponent s c = None -> reachesTop s c c
  | top_step c p r :
      getParentComponent s c = Some p -> reachesTop s p r -> reachesTop s c r.

(** No parent pointer of a live component dangles. *)
Definition parentsAlive (s : World) : Prop :=
  forall c k p, heap s !! c = Some k -> parentComponent k = Some p ->
                is_Some (heap s !! p).

(** Every parent chain ends. *)
Definition acyclic (s : World) : Prop :=
  forall c, exists l, chain s c l.

(** Every entry of a child list is a live component whose parent pointer
    points back to the owner of the list. *)
Definition childrenPointBack (s : World) : Prop :=
  forall p k c, heap s !! p = Some k -> c ∈ childComponentList k ->
                exists kc, heap s !! c = Some kc /\ parentComponent kc = Some p.

(** No component occurs twice in a child list. *)
Definition childrenNoDup (s : World) : Prop :=
  forall p k, heap s !! p = Some k -> NoDup (childComponentList k).

(** The tree shape: a component has at most one parent and occurs at most
    once in any child list. *)
Definition treeShape (s : World) : Prop :=
  parentsAlive s /\ childrenPointBack s /\ childrenNoDup s.

Definition wellFormed (s : World) : Prop := treeShape s /\ acyclic s.

(** ** Hit-testing, as the specification words it *)

(** The hit test of the description: the point lies inside the bounds of
    the component, that is from 0 up to but not including its width and
    its height, and the component's [hitTest] answers true there. *)
Definition passesHitTest (s : World) (this : CompId) (p : Point) : Prop :=
  (0 <= pt_x p < getWidth s this /\ 0 <= pt_y p < getHeight s this)
  /\ hitTest s this (pt_x p) (pt_y p) = Some true.

(** [componentAt s this p r]: [r] is what the search described for
    [getComponentAt] finds.  Nothing when [this] is invisible or [p] fails
    the hit test; otherwise the answer of the last child of the list
    whose own search, on [p] converted into the child's space, finds
    something; otherwise [this]. *)
Inductive componentAt (s : World) : CompId -> Point -> option CompId -> Prop :=
  | at_nothing this p :
      visibleFlag (getFlags s this) = false \/ ~ passesHitTest s this p ->
      componentAt s this p None
  | at_child this p below child above r :
      visibleFlag (getFlags s this) = true ->
      passesHitTest s this p ->
      childComponentList (the s this) = below ++ child :: above ->
      (forall c, c ∈ above -> componentAt s c (convertFromParentSpace s c p) None) ->
      componentAt s child (convertFromParentSpace s child p) (Some r) ->
      componentAt s this p (Some r)
  | at_self this p :
      visibleFlag (getFlags s this) = true ->
      passesHitTest s this p ->
      (forall c, c ∈ childComponentList (the s this) ->
                 componentAt s c (convertFromParentSpace s c p) None) ->
      componentAt s this p (Some this).

(** ** Traces and invariants *)

(** What a failing [jassert] leaves in the trace. *)
Definition assertionTrace (what : string) : list Step :=
  if JUCE_DEBUG then [AssertionFailure what] else [].

(** [preserves I m]: the operation [m] keeps the invariant [I]. *)
Definition preserves {A} (I : World -> Prop) (m : M A) : Prop :=
  forall s, I s -> I (world (m s)).

(** A change of a component that leaves its parent pointer, its child
    list and its bounds alone. *)
Definition neutral (f : Component -> Component) : Prop :=
  forall k, parentComponent (f k) = parentComponent k
            /\ childComponentList (f k) = childComponentList k
            /\ bounds (f k) = bounds k.

(** Width and height of every live component are not negative. *)
Definition boundsNonNegative (s : World) : Prop :=
  forall c k, heap s !! c = Some k -> 0 <= rect_w (bounds k) /\ 0 <= rect_h (bounds k).

(** The operations a client can apply to the component tree. *)
Inductive Operation : Type :=
  | OpCreate (c : CompId) (name : string)
  | OpSetName (c : CompId) (name : string)
  | OpSetVisible (c : CompId) (shouldBeVisible : bool)
  | OpAddToDesktop (c : CompId) (styleWanted : Z)
  | OpRemoveFromDesktop (c : CompId)
  | OpToFront (c : CompId) (setAsForeground : bool)
  | OpToBack (c : CompId)
  | OpSetBounds (c : CompId) (x y w h : Z)
  | OpSetBoundsRect (c : CompId) (r : Rectangle)
  | OpSetSize (c : CompId) (w h : Z)
  | OpSetTopLeftPosition (c : CompId) (x y : Z)
  | OpSetTopRightPosition (c : CompId) (x y : Z)
  | OpSetCentrePosition (c : CompId) (x y : Z)
  | OpAddChildComponent (c : CompId) (child : option CompId) (zOrder : Z)
  | OpRemoveChildComponent (c : CompId) (child : CompId)
  | OpRemoveChildComponentAt (c : CompId) (index : Z)
  | OpEnterModalState (c : CompId) (shouldTakeKeyboardFocus : bool)
      (callback : option nat) (deleteWhenDismissed : bool)
  | OpAddComponentListener (c : CompId) (l : ListenerId)
  | OpAddMouseListener (c : CompId) (l : ListenerId) (deep : bool)
  | OpGrabKeyboardFocus (c : CompId)
  | OpRepaint (c : CompId)
  | OpUserTriedToCloseWindow (c : CompId)
  | OpInternalMouseDown (c : CompId).

(** [new Component (name)] at the address [c]; addresses are not reused
    while their component lives. *)
Definition createComponent (c : CompId) (name : string) : M unit :=
  modify (fun s => match heap s !! c with
                   | Some _ => s
                   | None => set_heap (<[c := newComponent name]> (heap s)) s
                   end).

Definition perform (op : Operation) : M unit :=
  match op with
  | OpCreate c name => createComponent c name
  | OpSetName c name => setName c name
  | OpSetVisible c b => setVisible c b
  | OpAddToDesktop c style => addToDesktop c style
  | OpRemoveFromDesktop c => removeFromDesktop c
  | OpToFront c b => toFront c b
  | OpToBack c => toBack c
  | OpSetBounds c x y w h => setBounds c x y w h
  | OpSetBoundsRect c r => setBounds_rect c r
  | OpSetSize c w h => setSize c w h
  | OpSetTopLeftPosition c x y => setTopLeftPosition c x y
  | OpSetTopRightPosition c x y => setTopRightPosition c x y
  | OpSetCentrePosition c x y => setCentrePosition c x y
  | OpAddChildComponent c child z => addChildComponent c child z
  | OpRemoveChildComponent c child => removeChildComponent c child
  | OpRemoveChildComponentAt c index =>
      removeChildComponent_index c index true true ;;; ret tt
  | OpEnterModalState c focus callback del => enterModalState c focus callback del
  | OpAddComponentListener c l => addComponentListener c l
  | OpAddMouseListener c l deep => addMouseListener c l deep
  | OpGrabKeyboardFocus c => grabKeyboardFocus c
  | OpRepaint c => repaint c
  | OpUserTriedToCloseWindow c => userTriedToCloseWindow c
  | OpInternalMouseDown c => internalMouseDown c
  end.

Fixpoint performAll (ops : list Operation) (s : World) : World :=
  match ops with
  | [] => s
  | op :: ops' => performAll ops' (world (perform op s))
  end.

(** [hoare P m Q]: from a state in [P] the operation [m] returns a value
    and a state in [Q]. *)
Definition hoare {A} (P : World -> Prop) (m : M A) (Q : A -> World -> Prop) : Prop :=
  forall s, P s -> Q (value (m s)) (world (m s)).

(** The hierarchy of a heap: the parent pointer and the child list of
    every live component. *)
Definition hierOf (k : Component) : option CompId * list CompId :=
  (parentComponent k, childComponentList k).
Definition hier (s : World) : gmap nat (option CompId * list CompId) :=
  hierOf <$> heap s.

Definition hSetParent (c : CompId) (p : option CompId)
    (H : gmap nat (option CompId * list CompId)) : gmap nat (option CompId * list CompId) :=
  alter (fun h => (p, h.2)) c H.
Definition hSetChildren (c : CompId) (f : list CompId -> list CompId)
    (H : gmap nat (option CompId * list CompId)) : gmap nat (option CompId * list CompId) :=
  alter (fun h => (h.1, f h.2)) c H.

Definition hChildren (H : gmap nat (option CompId * list CompId)) (c : CompId) : list CompId :=
  match H !! c with Some h => h.2 | None => [] end.
Definition hParent (H : gmap nat (option CompId * list CompId)) (c : CompId) : option CompId :=
  match H !! c with Some h => h.1 | None => None end.

(** The states whose hierarchy is [H]. *)
Definition atH (H : gmap nat (option CompId * list CompId)) (s : World) : Prop :=
  hier s = H.

(** The hierarchy after [child] has left the child list of its parent:
    what [child->parentComponent->removeChildComponent (child)] does. *)
Definition hDetach (child : CompId) (H : gmap nat (option CompId * list CompId))
    : gmap nat (option CompId * list CompId) :=
  match hParent H child with
  | Some q =>
      match Array.get (hChildren H q) (Array.indexOf (hChildren H q) child) with
      | Some c' =>
          hSetParent c' None
            (hSetChildren q
               (fun l => Array.remove l (Array.indexOf (hChildren H q) child)) H)
      | None => H
      end
  | None => H
  end.

(** The tree shape, read off the hierarchy. *)
Definition treeShapeH (H : gmap nat (option CompId * list CompId)) : Prop :=
  (forall c p, is_Some (H !! c) -> hParent H c = Some p -> is_Some (H !! p))
  /\ (forall p c, c ∈ hChildren H p -> is_Some (H !! c) /\ hParent H c = Some p)
  /\ (forall p, NoDup (hChildren H p)).

(** ** Dispatch *)

(** The calls of a trace in their order, those of nested operations
    included. *)
Fixpoint callsOfStep (st : Step) : list Callback :=
  match st with
  | Invoke k _ => [k]
  | Nested _ _ inner => flat_map callsOfStep inner
  | AssertionFailure _ => []
  | OutOfFuel => []
  end.

Definition callsOf (t : list Step) : list Callback := flat_map callsOfStep t.

(** The state in which a step is made satisfies [P]. *)
Definition stepMadeIn (P : World -> Prop) (st : Step) : Prop :=
  match st with
  | Invoke _ pre => P pre
  | Nested _ pre _ => P pre
  | AssertionFailure _ => True
  | OutOfFuel => True
  end.

(** Every callback, listener and child notification of the trace is
    called while the component [c] is alive. *)
Definition calledWhileAlive (c : CompId) (t : list Step) : Prop :=
  Forall (stepMadeIn (fun s => isAlive s c = true)) t.

Definition isAliveIn (c : CompId) (s : World) : Prop := isAlive s c = true.

(** [dispatches c P m Q]: from a state in [P] the operation [m] calls out
    only while [c] is alive, and ends in [Q]. *)
Definition dispatches {A} (c : CompId) (P : World -> Prop) (m : M A)
    (Q : A -> World -> Prop) : Prop :=
  forall s, P s -> calledWhileAlive c (trace (m s)) /\ Q (value (m s)) (world (m s)).

(** The step a failing [CHECK_MESSAGE_MANAGER_IS_LOCKED] leaves. *)
Definition lockCheckFailure : Step :=
  AssertionFailure "currentThreadHasLockedMessageManager".

Definition lockHeld (s : World) : bool :=
  currentThreadHasLockedMessageManager (platform s).

(** ** Further queries of the component *)

(** [Component::isEnabled].  [None]: the recursion did not finish within
    the fuel. *)
Fixpoint isEnabled_fuel (fuel : nat) (s : World) (this : CompId) : option bool :=
  match fuel with
  | O => None
  | S fuel' =>
      if negb (isDisabledFlag (getFlags s this)) then
        match getParentComponent s this with
        | None => Some true
        | Some p => isEnabled_fuel fuel' s p
        end
      else Some false
  end.

Definition isEnabled (s : World) (this : CompId) : bool :=
  default false (isEnabled_fuel (fuelOf s) s this).

(** [ComponentHelpers::convertFromDistantParentSpace].  The code asserts
    that the target has a parent and dereferences it; [None] stands for
    that null dereference, and for a recursion that did not finish within
    the fuel. *)
Fixpoint convertFromDistantParentSpace_fuel (fuel : nat) (s : World)
    (parent target : CompId) (coordInParent : Point) : option Point :=
  match fuel with
  | O => None
  | S fuel' =>
      match getParentComponent s target with
      | None => None
      | Some directParent =>
          if decide (directParent = parent)
          then Some (convertFromParentSpace s target coordInParent)
          else
            match convertFromDistantParentSpace_fuel fuel' s parent directParent
                    coordInParent with
            | Some q => Some (convertFromParentSpace s target q)
            | None => None
            end
      end
  end.

Definition convertFromDistantParentSpace (s : World) (parent target : CompId)
    (coordInParent : Point) : option Point :=
  convertFromDistantParentSpace_fuel (fuelOf s) s parent target coordInParent.

(** How the [while] loop of [convertCoordinate] ends: with a [return], or
    with [source == nullptr]. *)
Inductive LoopExit : Type :=
  | Returned (p : Point)
  | FellThrough (p : Point).

(** The loop of [ComponentHelpers::convertCoordinate].  [None]: a null
    peer is dereferenced, or the loop did not finish within the fuel. *)
Fixpoint convertCoordinate_loop (fuel : nat) (s : World) (target source : option CompId)
    (p : Point) : option LoopExit :=
  match source with
  | None => Some (FellThrough p)
  | Some src =>
      match fuel with
      | O => None
      | S fuel' =>
          if decide (Some src = target) then Some (Returned p)
          else if isParentOf s src target then
            match target with
            | Some t => Returned <$> convertFromDistantParentSpace s src t p
            | None => None
            end
          else if isOnDesktop s src then
            match getPeer s src with
            | Some peer => Some (FellThrough (peer_localToGlobal (platform s) peer p))
            | None => None
            end
          else
            convertCoordinate_loop fuel' s target (getParentComponent s src)
              (convertToParentSpace s src p)
      end
  end.

Section Global.

(** [ComponentPeer::globalToLocal], of the native window. *)
Variable peer_globalToLocal : Platform -> PeerId -> Point -> Point.

(** [ComponentHelpers::convertCoordinate]. *)
Definition convertCoordinate (s : World) (target source : option CompId) (p : Point)
    : option Point :=
  match convertCoordinate_loop (fuelOf s) s target source p with
  | None => None
  | Some (Returned q) => Some q
  | Some (FellThrough q) =>
      match target with
      | None => Some q
      | Some t =>
          let topLevelComp := getTopLevelComponent s t in
          match (if isOnDesktop s topLevelComp then
                   match getPeer s topLevelComp with
                   | Some peer => Some (peer_globalToLocal (platform s) peer q)
                   | None => None
                   end
                 else Some (convertFromParentSpace s topLevelComp q)) with
          | None => None
          | Some q' =>
              if decide (topLevelComp = t) then Some q'
              else convertFromDistantParentSpace s topLevelComp t q'
          end
      end
  end.

(** [Component::getLocalPoint] and [Component::localPointToGlobal]. *)
Definition getLocalPoint (s : World) (this : CompId) (source : option CompId) (point : Point)
    : option Point :=
  convertCoordinate s (Some this) source point.

Definition localPointToGlobal (s : World) (this : CompId) (point : Point) : option Point :=
  convertCoordinate s None (Some this) point.

End Global.

(** [plainPath s a c]: [a] is an ancestor of [c], and neither [c] nor a
    component between the two is transformed or on the desktop. *)
Inductive plainPath (s : World) (a : CompId) : CompId -> Prop :=
  | plain_parent c :
      getParentComponent s c = Some a ->
      affineTransform (the s c) = None -> isOnDesktop s c = false ->
      plainPath s a c
  | plain_step c p :
      getParentComponent s c = Some p ->
      affineTransform (the s c) = None -> isOnDesktop s c = false ->
      plainPath s a p ->
      plainPath s a c.

(** ** Removing mouse listeners *)

(** [MouseListenerList::removeListener]. *)
Definition MouseListenerList_removeListener (m : MouseListenerList)
    (listenerToRemove : ListenerId) : MouseListenerList :=
  let index := Array.indexOf (listeners m) listenerToRemove in
  if 0 <=? index then
    mkMouseListenerList
      (Array.remove (listeners m) index)
      (if index <? numDeepMouseListeners m
       then int_sub (numDeepMouseListeners m) 1
       else numDeepMouseListeners m)
  else m.

(** [Component::removeMouseListener]. *)
Definition removeMouseListener (this : CompId) (listenerToRemove : ListenerId) : M unit :=
  CHECK_MESSAGE_MANAGER_IS_LOCKED ;;;
  s <-- get ;;
  match mouseListeners (the s this) with
  | Some m =>
      modifyComp this
        (set_mouseListeners (Some (MouseListenerList_removeListener m listenerToRemove)))
  | None => ret tt
  end.

(** What the two operations keep: no listener is listed twice, and the
    count of deep listeners lies within the list. *)
Definition listenersOk (m : MouseListenerList) : Prop :=
  NoDup (listeners m) /\ 0 <= numDeepMouseListeners m <= Array.size (listeners m).

(** Reading a heap at an address, as [the] reads the heap of a state. *)
Definition theOf (h : gmap nat Component) (c : CompId) : Component :=
  default (newComponent EmptyString) (h !! c).

(** ** The heap without its bookkeeping *)

(** Repainting drops the buffered image of a component, and a change of
    focus updates [childCompFocusedFlag] up the parent chain.  [coreOf]
    blanks these two fields; [core] is the heap seen through it. *)
Definition coreOf (k : Component) : Component :=
  set_bufferedImageIsNull true (set_flags (set_childCompFocusedFlag false (flags k)) k).

Definition core (s : World) : gmap nat Component := coreOf <$> heap s.

(** The states whose core is [C]. *)
Definition atC (C : gmap nat Component) (s : World) : Prop := core s = C.

(** [calls J m v cs]: from every state in [J] the operation [m] returns
    [v], ends in a state in [J] and makes exactly the calls [cs], in that
    order. *)
Definition calls {A} (J : World -> Prop) (m : M A) (v : A) (cs : list Callback) : Prop :=
  forall s, J s -> value (m s) = v /\ J (world (m s)) /\ callsOf (trace (m s)) = cs.

(** [emits phi m]: every call that [m] makes satisfies [phi]. *)
Definition emits {A} (phi : Callback -> Prop) (m : M A) : Prop :=
  forall s, Forall phi (callsOf (trace (m s))).

(** ** Repainting, as the peer sees it *)

(** [r] is a rectangle that is not empty and lies inside [top]. *)
Definition insideOf (s : World) (top : CompId) (r : Rectangle) : Prop :=
  0 <= rect_x r /\ 0 <= rect_y r /\ 0 < rect_w r /\ 0 < rect_h r
  /\ rect_x r + rect_w r <= getWidth s top
  /\ rect_y r + rect_h r <= getHeight s top.

(** Coordinates far from the ends of [int]: sums of two of them do not
    wrap around. *)
Definition moderate (z : Z) : Prop := - 2 ^ 29 <= z <= 2 ^ 29.

(** A component without a transform whose bounds are moderate. *)
Definition plainGeometry (s : World) (c : CompId) : Prop :=
  affineTransform (the s c) = None
  /\ moderate (getX s c) /\ moderate (getY s c)
  /\ 0 <= getWidth s c <= 2 ^ 29 /\ 0 <= getHeight s c <= 2 ^ 29.

(** ** The child list after a change of z-order *)

(** What [toFront] makes of the child list [l] of the parent of [this]. *)
Definition toFrontList (s : World) (this : CompId) (l : list CompId) : list CompId :=
  if bool_decide (Array.getLast l = Some this) then l
  else
    let index := Array.indexOf l this in
    if 0 <=? index then
      Array.move l index
        (if negb (alwaysOnTopFlag (getFlags s this))
         then skipAlwaysOnTopFromEnd (length l) s l (Array.size l - 1)
         else -1)
    else l.

(** What [toBack] makes of the child list [l] of the parent of [this]. *)
Definition toBackList (s : World) (this : CompId) (l : list CompId) : list CompId :=
  if bool_decide (Array.getFirst l = Some this) then l
  else
    let index := Array.indexOf l this in
    if 0 <? index then
      Array.move l index
        (if alwaysOnTopFlag (getFlags s this)
         then skipNotAlwaysOnTop (length l) s l 0
         else 0)
    else l.

(** The index at which [addChildComponent] inserts [child] into the
    child list [l] when it is asked for [zOrder]. *)
Definition insertionIndex (s : World) (child : CompId) (l : list CompId) (zOrder : Z) : Z :=
  if negb (isAlwaysOnTop s child) then
    let zOrder := if (zOrder <? 0) || (Array.size l <? zOrder)
                  then Array.size l else zOrder in
    skipAlwaysOnTop (Z.to_nat zOrder) s l zOrder
  else zOrder.

(** The core after [child] has left its parent, or the desktop when it
    has no parent: what [addChildComponent] does first. *)
Definition coreDetached (s : World) (child : CompId) : gmap nat Component :=
  match getParentComponent s child with
  | Some q =>
      alter (set_parentComponent None) child
        (alter (set_childComponentList
                  (Array.remove (childComponentList (the s q))
                     (Array.indexOf (childComponentList (the s q)) child)))
               q (core s))
  | None =>
      alter (fun k => set_flags (set_hasHeavyweightPeerFlag false (flags k)) k)
            child (core s)
  end.

(** ** Adding a visible child and removing all children *)

(** [Component::addAndMakeVisible]. *)
Definition addAndMakeVisible (this : CompId) (child : option CompId) (zOrder : Z) : M unit :=
  match child with
  | Some c => setVisible c true ;;; addChildComponent this child zOrder
  | None => ret tt
  end.

(** [Component::removeAllChildren]:
    [while (childComponentList.size() > 0) removeChildComponent (childComponentList.size() - 1);].
    Client code that is called on the way may add children again, so
    the loop is given [fuel]; the result tells whether the loop came to
    its end. *)
Fixpoint removeAllChildren (fuel : nat) (this : CompId) : M bool :=
  match fuel with
  | O => ret false
  | S fuel' =>
      s <-- get ;;
      let size := Array.size (childComponentList (the s this)) in
      if 0 <? size then
        removeChildComponent_index this (size - 1) true true ;;;
        removeAllChildren fuel' this
      else ret true
  end.

(** The core after all of the children [l] of [this] have been removed. *)
Definition coreWithout (this : CompId) (l : list CompId) (C : gmap nat Component)
    : gmap nat Component :=
  foldr (fun c => alter (set_parentComponent None) c)
        (alter (set_childComponentList []) this C) l.

(** ** Operations that come to their end *)

(** No recursion behind the trace ran out of fuel. *)
Fixpoint finishedStep (st : Step) : bool :=
  match st with
  | Invoke _ _ => true
  | Nested _ _ inner => forallb finishedStep inner
  | AssertionFailure _ => true
  | OutOfFuel => false
  end.

Definition finished (t : list Step) : bool := forallb finishedStep t.

(** [finishes P m Q]: from a state in [P] the operation [m] comes to its
    end, with no recursion cut short, and returns a value and a state in
    [Q]. *)
Definition finishes {A} (P : World -> Prop) (m : M A) (Q : A -> World -> Prop) : Prop :=
  forall s, P s -> finished (trace (m s)) = true /\ Q (value (m s)) (world (m s)).

(** An operation without a recursion that could be cut short. *)
Definition fuelFree {A} (m : M A) : Prop := forall s, finished (trace (m s)) = true.

(** Parent chains of a hierarchy: [chain] and [acyclic], read from the
    hierarchy of a state. *)
Inductive chainH (H : gmap nat (option CompId * list CompId)) : CompId -> list CompId -> Prop :=
  | chainH_root c :
      hParent H c = None -> chainH H c []
  | chainH_cons c p l :
      hParent H c = Some p -> chainH H p l -> chainH H c (p :: l).

Definition acyclicH (H : gmap nat (option CompId * list CompId)) : Prop :=
  forall c, exists l, chainH H c l.

Definition wellFormedH (H : gmap nat (option CompId * list CompId)) : Prop :=
  treeShapeH H /\ acyclicH H.

(** * Properties *)

(** ** Machine arithmetic *)

Lemma wrap_id z : is_int z -> wrap z = z.
Proof.
  unfold is_int, wrap, int_half, int_modulus. intros H.
  rewrite Z.mod_small by lia. lia.
Qed.

Lemma wrap_is_int z : is_int (wrap z).
Proof.
  unfold is_int, wrap, int_half, int_modulus.
  pose proof (Z.mod_pos_bound (z + 2 ^ 31) (2 ^ 32)). lia.
Qed.

Lemma wrap_wrap_add a b : wrap (wrap a + b) = wrap (a + b).
Proof.
  unfold wrap, int_half, int_modulus.
  replace ((a + 2 ^ 31) mod 2 ^ 32 - 2 ^ 31 + b + 2 ^ 31)
    with ((a + 2 ^ 31) mod 2 ^ 32 + b) by lia.
  rewrite Zplus_mod_idemp_l. f_equal. f_equal. lia.
Qed.

Lemma int_add_sub a b : is_int a -> int_sub (int_add a b) b = a.
Proof.
  intros H. unfold int_sub, int_add.
  replace (wrap (a + b) - b) with (wrap (a + b) + - b) by lia.
  rewrite wrap_wrap_add. replace (a + b + - b) with a by lia. by apply wrap_id.
Qed.

Lemma int_sub_add a b : is_int a -> int_add (int_sub a b) b = a.
Proof.
  intros H. unfold int_sub, int_add.
  rewrite wrap_wrap_add. replace (a - b + b) with a by lia. by apply wrap_id.
Qed.

(** ** Coordinate conversion *)

(** C2.  For a component without a transform and a point [p] of [int]
    coordinates, converting to the parent's space and back, or from the
    parent's space and back, gives [p] again; the two conversions are the
    translations by plus and by minus the component's position. *)
Theorem convertParentSpace_inverse (s : World) (comp : CompId) (p : Point) :
  affineTransform (the s comp) = None ->
  is_int_point p ->
  convertFromParentSpace s comp (convertToParentSpace s comp p) = p
  /\ convertToParentSpace s comp (convertFromParentSpace s comp p) = p
  /\ convertToParentSpace s comp p = Point_add p (getPosition s comp)
  /\ convertFromParentSpace s comp p = Point_sub p (getPosition s comp).
Proof.
  intros Ht [Hx Hy]. unfold convertFromParentSpace, convertToParentSpace.
  rewrite Ht. destruct p as [x y]; simpl in *.
  unfold Point_sub, Point_add; simpl.
  repeat split; f_equal; auto using int_add_sub, int_sub_add.
Qed.

(** ** The parent chain *)

Lemma chain_functional s c l1 l2 : chain s c l1 -> chain s c l2 -> l1 = l2.
Proof.
  intros H; revert l2. induction H as [c Hc | c p l Hc Hp IH]; intros l2 H2.
  - inversion H2; subst; [done | congruence].
  - inversion H2; subst; [congruence |].
    assert (p0 = p) by congruence. subst. f_equal. by apply IH.
Qed.

Lemma chain_suffix s c l x :
  chain s c l -> x ∈ l -> exists l', chain s x l' /\ (length l' < length l)%nat.
Proof.
  induction 1 as [c Hc | c p l Hc Hp IH]; intros Hx.
  - by apply elem_of_nil in Hx.
  - apply elem_of_cons in Hx as [-> | Hx].
    + exists l. split; [done | simpl; lia].
    + destruct (IH Hx) as (l' & Hl' & Hlen). exists l'. split; [done | simpl; lia].
Qed.

Lemma chain_NoDup s c l : chain s c l -> NoDup l.
Proof.
  induction 1 as [c Hc | c p l Hc Hp IH]; [constructor |].
  constructor; [| done]. intros Hin.
  destruct (chain_suffix _ _ _ _ Hp Hin) as (l' & Hl' & Hlen).
  pose proof (chain_functional _ _ _ _ Hp Hl'). subst. lia.
Qed.

Lemma getParentComponent_Some s c p :
  getParentComponent s c = Some p ->
  exists k, heap s !! c = Some k /\ parentComponent k = Some p.
Proof.
  unfold getParentComponent, the. destruct (heap s !! c) as [k |]; simpl; [eauto | done].
Qed.

Lemma chain_alive s c l x :
  parentsAlive s -> chain s c l -> x ∈ l -> is_Some (heap s !! x).
Proof.
  intros Hpa. induction 1 as [c Hc | c p l Hc Hp IH]; intros Hx.
  - by apply elem_of_nil in Hx.
  - apply elem_of_cons in Hx as [-> | Hx]; [| by apply IH].
    destruct (getParentComponent_Some _ _ _ Hc) as (k & Hk & Hkp). eauto.
Qed.

Lemma NoDup_alive_length (s : World) (l : list CompId) :
  NoDup l -> (forall x, x ∈ l -> is_Some (heap s !! x)) ->
  (length l <= size (heap s))%nat.
Proof.
  intros Hnd Hal.
  rewrite <- (size_list_to_set (C := gset nat) l Hnd).
  rewrite <- size_dom. apply subseteq_size.
  intros x Hx. apply elem_of_list_to_set in Hx. apply elem_of_dom. auto.
Qed.

Lemma chain_length s c l :
  parentsAlive s -> chain s c l -> (length l < fuelOf s)%nat.
Proof.
  intros Hpa Hc. unfold fuelOf.
  pose proof (NoDup_alive_length s l (chain_NoDup _ _ _ Hc)
                (fun x Hx => chain_alive _ _ _ _ Hpa Hc Hx)). lia.
Qed.

Lemma ancestorOf_chain s a c l : chain s c l -> ancestorOf s a c <-> a ∈ l.
Proof.
  intros Hc. split.
  - intros Ha. revert l Hc. induction Ha as [c H | c p H Hp IH]; intros l Hc.
    + inversion Hc; subst; [congruence |].
      assert (p = a) by congruence. subst. apply elem_of_cons; auto.
    + inversion Hc; subst; [congruence |].
      assert (p0 = p) by congruence. subst. apply elem_of_cons; right. by apply IH.
  - induction Hc as [c Hc | c p l Hc Hp IH]; intros Hin.
    + by apply elem_of_nil in Hin.
    + apply elem_of_cons in Hin as [-> | Hin].
      * by apply ancestor_parent.
      * eapply ancestor_step; eauto.
Qed.

Lemma isParentOf_fuel_chain s this c l fuel :
  chain s c l -> (length l < fuel)%nat ->
  isParentOf_fuel fuel s this (Some c) = Some (bool_decide (this ∈ l)).
Proof.
  intros Hc. revert fuel. induction Hc as [c Hc | c p l Hc Hp IH]; intros fuel Hlen.
  - destruct fuel as [| fuel]; [simpl in Hlen; lia |]. simpl. rewrite Hc.
    destruct (decide (None = Some this)); [done |].
    destruct fuel; simpl; f_equal; symmetry; apply bool_decide_eq_false;
      apply not_elem_of_nil.
  - destruct fuel as [| fuel]; [simpl in Hlen; lia |]. simpl in *. rewrite Hc.
    destruct (decide (Some p = Some this)) as [Heq | Hne].
    + f_equal. symmetry. apply bool_decide_eq_true. apply elem_of_cons.
      left. congruence.
    + rewrite IH by lia. f_equal. apply bool_decide_ext.
      rewrite elem_of_cons. split; [tauto |]. intros [-> | ?]; [done | done].
Qed.

Lemma last_cons_default {A} (x : A) (l : list A) (d d' : A) :
  List.last (x :: l) d = List.last (x :: l) d'.
Proof. revert x. induction l as [| y l IH]; intros x; [done |]. simpl in *. apply IH. Qed.

Lemma last_chain_cons (p c : CompId) (l : list CompId) :
  List.last (p :: l) c = List.last l p.
Proof. destruct l as [| x l]; [done |]. apply (last_cons_default x l c p). Qed.

Lemma getTopLevelComponent_fuel_chain s c l fuel :
  chain s c l -> (length l < fuel)%nat ->
  getTopLevelComponent_fuel fuel s c = Some (List.last l c).
Proof.
  intros Hc. revert fuel. induction Hc as [c Hc | c p l Hc Hp IH]; intros fuel Hlen.
  - destruct fuel as [| fuel]; [simpl in Hlen; lia |]. simpl. by rewrite Hc.
  - destruct fuel as [| fuel]; [simpl in Hlen; lia |]. simpl in *. rewrite Hc.
    rewrite IH by lia. f_equal. symmetry. apply last_chain_cons.
Qed.

Lemma reachesTop_chain s c l : chain s c l -> reachesTop s c (List.last l c).
Proof.
  induction 1 as [c Hc | c p l Hc Hp IH]; [by constructor |].
  eapply top_step; [done |]. by rewrite last_chain_cons.
Qed.

Lemma reachesTop_functional s c r1 r2 :
  reachesTop s c r1 -> reachesTop s c r2 -> r1 = r2.
Proof.
  intros H; revert r2. induction H as [c Hc | c p r Hc Hp IH]; intros r2 H2.
  - inversion H2; subst; [done | congruence].
  - inversion H2; subst; [congruence |].
    assert (p0 = p) by congruence. subst. by apply IH.
Qed.

Lemma not_ancestorOf_self s c : acyclic s -> ~ ancestorOf s c c.
Proof.
  intros Hac Ha. destruct (Hac c) as [l Hl].
  apply (ancestorOf_chain _ _ _ _ Hl) in Ha.
  destruct (chain_suffix _ _ _ _ Hl Ha) as (l' & Hl' & Hlen).
  pose proof (chain_functional _ _ _ _ Hl Hl'). subst. lia.
Qed.

(** C10.  In a heap without dangling parent pointers and without cycles,
    [isParentOf] returns, and returns [true] exactly for the strict
    ancestors of its argument: never for the component itself, never for
    the null pointer.  [getTopLevelComponent] returns the one component
    that ends the parent chain, which is the component itself when it has
    no parent. *)
Theorem isParentOf_getTopLevelComponent_spec (s : World) (this c : CompId) :
  parentsAlive s -> acyclic s ->
  (exists b, isParentOf_fuel (fuelOf s) s this (Some c) = Some b
             /\ isParentOf s this (Some c) = b
             /\ (b = true <-> ancestorOf s this c))
  /\ isParentOf s c (Some c) = false
  /\ isParentOf_fuel (fuelOf s) s this None = Some false
  /\ isParentOf s this None = false
  /\ (exists r, getTopLevelComponent_fuel (fuelOf s) s c = Some r
                /\ getTopLevelComponent s c = r
                /\ reachesTop s c r
                /\ forall r', reachesTop s c r' -> r' = r)
  /\ (getParentComponent s c = None -> getTopLevelComponent s c = c).
Proof.
  intros Hpa Hac. destruct (Hac c) as [l Hl].
  pose proof (chain_length _ _ _ Hpa Hl) as Hlen.
  pose proof (isParentOf_fuel_chain s this c l _ Hl Hlen) as Hthis.
  pose proof (isParentOf_fuel_chain s c c l _ Hl Hlen) as Hself.
  pose proof (getTopLevelComponent_fuel_chain s c l _ Hl Hlen) as Htop.
  split; [| split; [| split; [| split; [| split]]]].
  - exists (bool_decide (this ∈ l)). split; [done |]. split.
    + unfold isParentOf. by rewrite Hthis.
    + rewrite bool_decide_eq_true. symmetry. by apply ancestorOf_chain.
  - unfold isParentOf. rewrite Hself. simpl. apply bool_decide_eq_false.
    intros Hin. apply (not_ancestorOf_self s c Hac).
    by apply (ancestorOf_chain _ _ _ _ Hl).
  - done.
  - done.
  - exists (List.last l c). split; [done |]. split.
    + unfold getTopLevelComponent. by rewrite Htop.
    + split; [by apply reachesTop_chain |].
      intros r' Hr'. eapply reachesTop_functional; [exact Hr' |].
      by apply reachesTop_chain.
  - intros Hnone. unfold getTopLevelComponent, fuelOf. simpl. by rewrite Hnone.
Qed.

(** ** Hit testing *)

Lemma elem_of_rev {A} (x : A) (l : list A) : x ∈ rev l <-> x ∈ l.
Proof. rewrite !list_elem_of_In. symmetry. apply in_rev. Qed.

Lemma the_alive s c k : heap s !! c = Some k -> the s c = k.
Proof. unfold the. by intros ->. Qed.

Lemma the_dead s c : heap s !! c = None -> the s c = newComponent EmptyString.
Proof. unfold the. by intros ->. Qed.

Lemma children_alive_owner s c child :
  child ∈ childComponentList (the s c) -> exists k, heap s !! c = Some k /\ the s c = k.
Proof.
  unfold the. destruct (heap s !! c) as [k |]; simpl; [eauto |].
  intros H. by apply elem_of_nil in H.
Qed.

Lemma children_chain s c l child :
  childrenPointBack s -> chain s c l ->
  child ∈ childComponentList (the s c) ->
  chain s child (c :: l) /\ is_Some (heap s !! child).
Proof.
  intros Hcp Hc Hin.
  destruct (children_alive_owner _ _ _ Hin) as (k & Hk & Hthe).
  rewrite Hthe in Hin. destruct (Hcp _ _ _ Hk Hin) as (kc & Hkc & Hpar).
  split; [| eauto]. apply chain_cons; [| done].
  unfold getParentComponent. by rewrite (the_alive _ _ _ Hkc).
Qed.

Lemma chain_length_alive s c l :
  parentsAlive s -> acyclic s -> chain s c l -> is_Some (heap s !! c) ->
  (length l < size (heap s))%nat.
Proof.
  intros Hpa Hac Hc Hal.
  assert (NoDup (c :: l)) as Hnd.
  { constructor; [| by eapply chain_NoDup].
    intros Hin. apply (not_ancestorOf_self s c Hac).
    by apply (ancestorOf_chain _ _ _ _ Hc). }
  pose proof (NoDup_alive_length s (c :: l) Hnd) as Hlen. simpl in Hlen.
  apply Hlen. intros x Hx. apply elem_of_cons in Hx as [-> | Hx]; [done |].
  by eapply chain_alive.
Qed.

(** With no fuel left the bound of the lemmas below cannot hold. *)
Lemma no_fuel_absurd s c l :
  wellFormed s -> chain s c l -> (size (heap s) < 0 + length l)%nat -> False.
Proof.
  intros [(Hpa & _ & _) Hac] Hc Hlt.
  destruct (heap s !! c) as [k |] eqn:Hk.
  - pose proof (chain_length_alive s c l Hpa Hac Hc (mk_is_Some _ _ Hk)). lia.
  - inversion Hc as [c' Hnone | c' p l' Hsome Hp]; subst; [simpl in Hlt; lia |].
    apply getParentComponent_Some in Hsome as (k & Hk' & _). congruence.
Qed.

Lemma anyOf_total {A} (f : A -> option bool) (l : list A) :
  (forall a, a ∈ l -> is_Some (f a)) -> is_Some (anyOf f l).
Proof.
  induction l as [| a l IH]; intros H; simpl; [eauto |].
  destruct (H a) as [[|] Hb]; [apply elem_of_cons; auto | |]; rewrite Hb; [eauto |].
  apply IH. intros x Hx. apply H. apply elem_of_cons; auto.
Qed.

(** In a well-formed heap [Component::hitTest] returns. *)
Lemma hitTest_fuel_total s :
  wellFormed s ->
  forall fuel c l x y, chain s c l -> (size (heap s) < fuel + length l)%nat ->
                       is_Some (hitTest_fuel fuel s c x y).
Proof.
  intros Hwf. induction fuel as [| fuel IH]; intros c l x y Hc Hlt.
  - exfalso. eapply no_fuel_absurd; eauto.
  - simpl. destruct (negb _); [eauto |]. destruct (allowChildMouseClicksFlag _); [| eauto].
    apply anyOf_total. intros child Hin. apply (proj1 (elem_of_rev _ _)) in Hin.
    destruct (isVisible s child); [| eauto].
    unfold ComponentHelpers_hitTest_with. destruct (_ && _); [| eauto].
    destruct Hwf as [(_ & Hcp & _) _].
    destruct (children_chain _ _ _ _ Hcp Hc Hin) as [Hchain _].
    eapply IH; [exact Hchain |]. simpl. lia.
Qed.

Lemma ComponentHelpers_hitTest_total s c p :
  wellFormed s -> is_Some (ComponentHelpers_hitTest s c p).
Proof.
  intros Hwf. unfold ComponentHelpers_hitTest, ComponentHelpers_hitTest_with.
  destruct (_ && _); [| eauto]. unfold hitTest.
  destruct Hwf as [Hts Hac]. destruct (Hac c) as [l Hl].
  eapply hitTest_fuel_total; [by split | exact Hl |]. unfold fuelOf. lia.
Qed.

Lemma firstNonNull_spec {A B} (f : A -> option (option B)) (P : A -> option B -> Prop)
    (l : list A) :
  (forall a, a ∈ l -> exists r, f a = Some r /\ P a r) ->
  (firstNonNull f l = Some None /\ forall a, a ∈ l -> P a None)
  \/ (exists front a back b,
        l = front ++ a :: back /\ (forall x, x ∈ front -> P x None)
        /\ P a (Some b) /\ firstNonNull f l = Some (Some b)).
Proof.
  induction l as [| a l IH]; intros H; simpl.
  - left. split; [done |]. intros a Ha. by apply elem_of_nil in Ha.
  - destruct (H a) as (r & Hr & HP); [apply elem_of_cons; auto |]. rewrite Hr.
    destruct r as [b |].
    + right. exists [], a, l, b. repeat split; auto.
      intros x Hx. by apply elem_of_nil in Hx.
    + destruct IH as [[Hnone Hall] | (front & a' & back & b & -> & Hfront & Ha' & Hres)].
      * intros x Hx. apply H. apply elem_of_cons; auto.
      * left. split; [done |]. intros x Hx.
        apply elem_of_cons in Hx as [-> | Hx]; auto.
      * right. exists (a :: front), a', back, b. repeat split; auto.
        intros x Hx. apply elem_of_cons in Hx as [-> | Hx]; auto.
Qed.

Lemma isPositiveAndBelow_spec i n :
  isPositiveAndBelow i n = true <-> 0 <= i < n.
Proof. unfold isPositiveAndBelow. rewrite andb_true_iff, Z.leb_le, Z.ltb_lt. tauto. Qed.

(** The hit test of the code is the hit test of the description. *)
Lemma ComponentHelpers_hitTest_passes s c p :
  ComponentHelpers_hitTest s c p = Some true <-> passesHitTest s c p.
Proof.
  unfold ComponentHelpers_hitTest, ComponentHelpers_hitTest_with, passesHitTest.
  destruct (isPositiveAndBelow (pt_x p) (getWidth s c)) eqn:Hx; cbn [andb].
  - apply isPositiveAndBelow_spec in Hx.
    destruct (isPositiveAndBelow (pt_y p) (getHeight s c)) eqn:Hy.
    + apply isPositiveAndBelow_spec in Hy. tauto.
    + apply not_true_iff_false in Hy. rewrite isPositiveAndBelow_spec in Hy.
      split; [done | tauto].
  - apply not_true_iff_false in Hx. rewrite isPositiveAndBelow_spec in Hx.
    split; [done | tauto].
Qed.

Lemma getComponentAt_fuel_spec s :
  wellFormed s ->
  forall fuel c l p, chain s c l -> (size (heap s) < fuel + length l)%nat ->
    exists r, getComponentAt_fuel fuel s c p = Some r /\ componentAt s c p r.
Proof.
  intros Hwf. induction fuel as [| fuel IH]; intros c l p Hc Hlt.
  - exfalso. eapply no_fuel_absurd; eauto.
  - simpl. destruct (visibleFlag (getFlags s c)) eqn:Hvis;
      [| exists None; split; [done | apply at_nothing; auto]].
    destruct (ComponentHelpers_hitTest_total s c p Hwf) as [[|] Hhit]; rewrite Hhit;
      [apply ComponentHelpers_hitTest_passes in Hhit
      | exists None; split; [done |]; apply at_nothing; right;
        rewrite <- ComponentHelpers_hitTest_passes; congruence].
    destruct (firstNonNull_spec
                (fun child => getComponentAt_fuel fuel s child
                                (convertFromParentSpace s child p))
                (fun child r => componentAt s child (convertFromParentSpace s child p) r)
                (rev (childComponentList (the s c))))
      as [[Hnone Hall] | (front & a & back & b & Hsplit & Hfront & Ha & Hres)].
    + intros child Hin. apply (proj1 (elem_of_rev _ _)) in Hin.
      destruct Hwf as [(_ & Hcp & _) _].
      destruct (children_chain _ _ _ _ Hcp Hc Hin) as [Hchain _].
      eapply IH; [exact Hchain |]. simpl. lia.
    + rewrite Hnone. exists (Some c). split; [done |].
      apply at_self; auto. intros x Hx. apply Hall. by apply (proj2 (elem_of_rev _ _)).
    + rewrite Hres. exists (Some b). split; [done |].
      apply (at_child s c p (rev back) a (rev front) b); auto.
      * rewrite <- (rev_involutive (childComponentList (the s c))), Hsplit.
        rewrite rev_app_distr. simpl. by rewrite <- app_assoc.
      * intros x Hx. apply Hfront. by apply (proj1 (elem_of_rev _ _)) in Hx.
Qed.

Lemma app_cons_split {A} (l1 l2 l1' l2' : list A) (a a' : A) :
  l1 ++ a :: l2 = l1' ++ a' :: l2' ->
  (l1 = l1' /\ a = a' /\ l2 = l2') \/ a ∈ l2' \/ a' ∈ l2.
Proof.
  revert l1'. induction l1 as [| x l1 IH]; intros [| x' l1'] H; simpl in H.
  - left. by inversion H.
  - inversion H; subst. right; right. apply elem_of_app. right. apply elem_of_cons; auto.
  - inversion H; subst. right; left. apply elem_of_app. right. apply elem_of_cons; auto.
  - inversion H; subst. destruct (IH _ H2) as [(-> & -> & ->) | [? | ?]]; auto.
Qed.

Lemma componentAt_functional s c p r1 r2 :
  componentAt s c p r1 -> componentAt s c p r2 -> r1 = r2.
Proof.
  intros H. revert r2.
  induction H as [this p Hmiss
                 | this p below child above r Hvis Hhit Hsplit Habove IHabove Hchild IHchild
                 | this p Hvis Hhit Hall IHall]; intros r2 H2.
  - inversion H2; subst; [done | |]; destruct Hmiss; [congruence | done | congruence | done].
  - inversion H2 as [? ? Hmiss | ? ? below' child' above' r' _ _ Hsplit' Habove' Hchild'
                    | ? ? _ _ Hall']; subst.
    + destruct Hmiss; [congruence | done].
    + rewrite Hsplit in Hsplit'.
      destruct (app_cons_split _ _ _ _ _ _ Hsplit') as [(-> & -> & ->) | [Hin | Hin]].
      * by apply IHchild.
      * specialize (IHchild _ (Habove' _ Hin)). done.
      * specialize (IHabove _ Hin _ Hchild'). done.
    + assert (child ∈ childComponentList (the s this)) as Hin.
      { rewrite Hsplit. apply elem_of_app. right. apply elem_of_cons; auto. }
      specialize (IHchild _ (Hall' _ Hin)). done.
  - inversion H2 as [? ? Hmiss | ? ? below' child' above' r' _ _ Hsplit' Habove' Hchild'
                    | ? ? _ _ Hall']; subst.
    + destruct Hmiss; [congruence | done].
    + assert (child' ∈ childComponentList (the s this)) as Hin.
      { rewrite Hsplit'. apply elem_of_app. right. apply elem_of_cons; auto. }
      specialize (IHall _ Hin _ Hchild'). done.
    + done.
Qed.

(** C3.  In a well-formed heap [getComponentAt] returns, and what it
    returns is what the described search finds: null for an invisible
    component or a failed hit test, the hit test being that the point
    lies inside the bounds and [hitTest] answers true; otherwise the
    answer of the topmost child (the last of the list) whose own search
    on the converted point is not null, otherwise the component itself.
    The search has one answer only, and the answer is null exactly when
    the component is invisible or the point fails the hit test. *)
Theorem getComponentAt_spec (s : World) (this : CompId) (p : Point) :
  wellFormed s ->
  exists r, getComponentAt s this p = Some r
            /\ componentAt s this p r
            /\ (forall r', componentAt s this p r' -> r' = r)
            /\ (r = None <-> visibleFlag (getFlags s this) = false
                             \/ ~ passesHitTest s this p).
Proof.
  intros Hwf. destruct (proj2 Hwf this) as [l Hl].
  destruct (getComponentAt_fuel_spec s Hwf (fuelOf s) this l p Hl) as (r & Hr & Hat).
  { unfold fuelOf. lia. }
  exists r. split; [done |]. split; [done |].
  split; [intros r' Hr'; eapply componentAt_functional; eauto |].
  split.
  - intros ->. by inversion Hat.
  - intros Hmiss. apply (componentAt_functional s this p); [done |].
    by apply at_nothing.
Qed.

(** ** Modal blocking *)

Lemma isCurrentlyBlocked_iff s c :
  isCurrentlyBlockedByAnotherModalComponent s c = true
  <-> exists m, getCurrentlyModalComponent s 0 = Some m
                /\ m <> c
                /\ isParentOf s m (Some c) = false
                /\ canModalEventBeSentToComponent s m c = false.
Proof.
  unfold isCurrentlyBlockedByAnotherModalComponent.
  destruct (getCurrentlyModalComponent s 0) as [m |]; simpl.
  - rewrite negb_true_iff, !orb_false_iff, bool_decide_eq_false. split.
    + intros [[? ?] ?]. eauto.
    + intros (m' & Hm & ? & ? & ?). by inversion Hm; subst.
  - split; [done |]. by intros (m & ? & _).
Qed.

(** C1, as amended.  A component is blocked exactly when there is a
    current modal component that is not the component, is not one of its
    parents and does not let the event through.  A mouse-down on a blocked
    component first hands the input attempt to the modal component.  When
    the component is deleted by that call, or is still blocked after it,
    nothing else happens except for the global listeners of the desktop:
    neither [mouseDown] of the component nor any of its mouse listeners
    is called.  When the component is alive and no longer blocked after
    the attempt, the mouse-down goes on as for a component that was not
    blocked. *)
Theorem blocked_mouseDown (s : World) (c : CompId) :
  (isCurrentlyBlockedByAnotherModalComponent s c = true
   <-> exists m, getCurrentlyModalComponent s 0 = Some m
                 /\ m <> c
                 /\ isParentOf s m (Some c) = false
                 /\ canModalEventBeSentToComponent s m c = false)
  /\ forall m,
       getCurrentlyModalComponent s 0 = Some m ->
       isCurrentlyBlockedByAnotherModalComponent s c = true ->
       let s1 := cb (CbInputAttemptWhenModal m) s in
       let s2 := cb (ExtDesktop desktopResetTimer) s1 in
       (isAlive s1 c = false ->
        trace (internalMouseDown c s) = [Invoke (CbInputAttemptWhenModal m) s]
        /\ world (internalMouseDown c s) = s1)
       /\ (isAlive s1 c = true ->
           isCurrentlyBlockedByAnotherModalComponent s1 c = true ->
           trace (internalMouseDown c s)
           = [Invoke (CbInputAttemptWhenModal m) s;
              Invoke (ExtDesktop desktopResetTimer) s1;
              Invoke (CbDesktopMouseListeners mouseDown c) s2]
           /\ world (internalMouseDown c s) = cb (CbDesktopMouseListeners mouseDown c) s2)
       /\ (isAlive s1 c = true ->
           isCurrentlyBlockedByAnotherModalComponent s1 c = false ->
           trace (internalMouseDown c s)
           = Invoke (CbInputAttemptWhenModal m) s :: trace (internalMouseDown c s1)
           /\ world (internalMouseDown c s) = world (internalMouseDown c s1)).
Proof.
  split; [apply isCurrentlyBlocked_iff |].
  intros m Hm Hblocked s1 s2. subst s1 s2.
  unfold internalMouseDown, internalModalInputAttempt.
  cbn [bind get trace world value]. rewrite Hblocked.
  cbn [bind get trace world value]. rewrite Hm.
  cbn [bind get ret invoke trace world value]. unfold shouldBailOut.
  split; [| split].
  - intros Hdead. rewrite Hdead. cbn [negb bind get ret invoke trace world value app].
    done.
  - intros Halive Hb. rewrite Halive. cbn [negb]. rewrite Hb.
    cbn [negb bind get ret invoke trace world value app]. done.
  - intros Halive Hb. rewrite Halive. cbn [negb]. rewrite Hb.
    cbn [negb bind get ret invoke trace world value app]. done.
Qed.

(** ** Misuse only asserts *)

Lemma res_eq (r : Res unit) t w : trace r = t -> world r = w -> r = mkRes t w tt.
Proof. destruct r as [t' w' []]; simpl. by intros -> ->. Qed.

Lemma jassert_false s what : jassert false what s = mkRes (assertionTrace what) s tt.
Proof. unfold jassert, assertionTrace. by destruct JUCE_DEBUG. Qed.

Lemma jassert_true s what : jassert true what s = mkRes [] s tt.
Proof. unfold jassert. by rewrite andb_false_r. Qed.

Lemma jassert_world b what s : world (jassert b what s) = s.
Proof. unfold jassert. by destruct (_ && _). Qed.

Lemma CHECK_world s : world (CHECK_MESSAGE_MANAGER_IS_LOCKED s) = s.
Proof. unfold CHECK_MESSAGE_MANAGER_IS_LOCKED. apply jassert_world. Qed.

Lemma isCurrentlyModal_flag s c :
  isCurrentlyModal s c = true -> currentlyModalFlag (getFlags s c) = true.
Proof. unfold isCurrentlyModal. by intros [? _]%andb_true_iff. Qed.

(** Misuse that only asserts.  No operation of the embedding answers an
    error value or raises: each is a state transformer whose only report
    is an [AssertionFailure] step, made in debug builds.
    [enterModalState] on the component that is the current modal one
    ([isCurrentlyModal]), [toBack] on a desktop component and the default
    [userTriedToCloseWindow] record their assertion and leave the state as
    it is; in a release build they do nothing at all. *)
Theorem misuse_only_asserts (s : World) (c : CompId)
    (shouldTakeKeyboardFocus deleteWhenDismissed : bool) (callback : option nat) :
  (isCurrentlyModal s c = true ->
   currentThreadHasLockedMessageManager (platform s) = true ->
   enterModalState c shouldTakeKeyboardFocus callback deleteWhenDismissed s
   = mkRes (assertionTrace "the component is already modal") s tt)
  /\ (isOnDesktop s c = true ->
      toBack c s
      = mkRes (assertionTrace "toBack is not implemented for native windows") s tt)
  /\ userTriedToCloseWindow c s
     = mkRes (assertionTrace "userTriedToCloseWindow was not overridden") s tt
  /\ (JUCE_DEBUG = false ->
      (isCurrentlyModal s c = true ->
       enterModalState c shouldTakeKeyboardFocus callback deleteWhenDismissed s
       = mkRes [] s tt)
      /\ (isOnDesktop s c = true -> toBack c s = mkRes [] s tt)
      /\ userTriedToCloseWindow c s = mkRes [] s tt).
Proof.
  split; [| split; [| split]].
  - intros Hmodal Hlocked.
    unfold enterModalState, CHECK_MESSAGE_MANAGER_IS_LOCKED.
    apply res_eq; cbn [bind get trace world value];
      rewrite Hlocked, jassert_true; cbn [bind get trace world value];
      rewrite (isCurrentlyModal_flag _ _ Hmodal); cbn [negb];
      rewrite jassert_false; cbn [bind get trace world value];
      rewrite Hmodal; cbn [negb ret trace world value app];
      [by rewrite app_nil_r | done].
  - intros Hdesk. unfold toBack.
    apply res_eq; cbn [bind get trace world value]; rewrite Hdesk;
      unfold jassertfalse; by rewrite jassert_false.
  - unfold userTriedToCloseWindow, jassertfalse. by rewrite jassert_false.
  - intros Hrel. split; [| split].
    + intros Hmodal.
      unfold enterModalState, CHECK_MESSAGE_MANAGER_IS_LOCKED, jassert.
      apply res_eq; cbn [bind get trace world value]; rewrite Hrel;
        cbn [andb bind get trace world value]; rewrite Hmodal;
        cbn [negb ret trace world value app]; done.
    + intros Hdesk. unfold toBack.
      apply res_eq; cbn [bind get trace world value]; rewrite Hdesk;
        unfold jassertfalse, jassert; by rewrite Hrel.
    + unfold userTriedToCloseWindow, jassertfalse, jassert. by rewrite Hrel.
Qed.

(** When the modal flag of a component is set and another component is
    the current modal one, [enterModalState] records its assertion and
    runs the guarded branch all the same: the component is started as a
    modal component once more. *)
Lemma enterModalState_flag_only s c focus callback del :
  currentlyModalFlag (getFlags s c) = true ->
  getCurrentlyModalComponent s 0 <> Some c ->
  currentThreadHasLockedMessageManager (platform s) = true ->
  exists rest,
    trace (enterModalState c focus callback del s)
    = assertionTrace "the component is already modal"
      ++ Invoke (ExtModal (modalStartModal c)) s :: rest.
Proof.
  intros Hflag Hne Hlocked.
  unfold enterModalState, CHECK_MESSAGE_MANAGER_IS_LOCKED.
  cbn [bind get trace world value].
  rewrite Hlocked, jassert_true. cbn [bind get trace world value].
  rewrite Hflag. cbn [negb]. rewrite jassert_false. cbn [bind get trace world value].
  unfold isCurrentlyModal. rewrite Hflag.
  rewrite bool_decide_eq_false_2 by done. cbn [andb negb].
  cbn [bind invoke trace world value app]. eauto.
Qed.

(** ** Invariants that the operations carry along *)

Section Frame.

Variable I : World -> Prop.
Hypothesis I_cb : forall k s, I s -> I (cb k s).
Hypothesis I_neutral :
  forall c f s, neutral f -> I s -> I (set_heap (alter f c (heap s)) s).
Hypothesis I_focus : forall o s, I s -> I (set_currentlyFocusedComponent o s).

Lemma preserves_ret {A} (a : A) : preserves I (ret a).
Proof. by intros s. Qed.

Lemma preserves_get : preserves I get.
Proof. by intros s. Qed.

Lemma preserves_outOfFuel {A} (a : A) : preserves I (outOfFuel a).
Proof. by intros s. Qed.

Lemma preserves_bind {A B} (m : M A) (f : A -> M B) :
  preserves I m -> (forall a, preserves I (f a)) -> preserves I (bind m f).
Proof. intros Hm Hf s Hs. unfold bind; simpl. apply Hf, Hm, Hs. Qed.

Lemma preserves_invoke k : preserves I (invoke k).
Proof. intros s Hs. simpl. by apply I_cb. Qed.

Lemma preserves_jassert b what : preserves I (jassert b what).
Proof. intros s Hs. unfold jassert. by destruct (_ && _). Qed.

Lemma preserves_CHECK : preserves I CHECK_MESSAGE_MANAGER_IS_LOCKED.
Proof. intros s Hs. unfold CHECK_MESSAGE_MANAGER_IS_LOCKED. by apply preserves_jassert. Qed.

Lemma preserves_nested c m : preserves I m -> preserves I (nested c m).
Proof. intros Hm s Hs. simpl. by apply Hm. Qed.

Lemma preserves_modifyComp c f : neutral f -> preserves I (modifyComp c f).
Proof. intros Hf s Hs. simpl. by apply I_neutral. Qed.

Lemma preserves_modifyFlags c f : preserves I (modifyFlags c f).
Proof. apply preserves_modifyComp. by intros k. Qed.

Lemma preserves_setFocus o : preserves I (modify (set_currentlyFocusedComponent o)).
Proof. intros s Hs. simpl. by apply I_focus. Qed.

Lemma preserves_loopBackwards {A} fuel items limit bail (body : A -> M unit) i :
  (forall a, preserves I (body a)) ->
  preserves I (loopBackwards fuel items limit bail body i).
Proof.
  intros Hbody. revert i. induction fuel as [| fuel IH]; intros i; simpl.
  - apply preserves_ret.
  - destruct (i - 1 <? 0); [apply preserves_ret |].
    apply preserves_bind; [apply preserves_get | intros s].
    destruct (items s !! Z.to_nat (i - 1)); [| apply preserves_ret].
    apply preserves_bind; [apply Hbody | intros _].
    apply preserves_bind; [apply preserves_get | intros s'].
    destruct (bail s'); [apply preserves_ret | apply IH].
Qed.

Ltac pres_step :=
  match goal with
  | |- preserves _ (ret _) => apply preserves_ret
  | |- preserves _ get => apply preserves_get
  | |- preserves _ (outOfFuel _) => apply preserves_outOfFuel
  | |- preserves _ (bind _ _) => apply preserves_bind; [| intros ?]
  | |- preserves _ (invoke _) => apply preserves_invoke
  | |- preserves _ (jassert _ _) => apply preserves_jassert
  | |- preserves _ (jassertfalse _) => apply preserves_jassert
  | |- preserves _ CHECK_MESSAGE_MANAGER_IS_LOCKED => apply preserves_CHECK
  | |- preserves _ (nested _ _) => apply preserves_nested
  | |- preserves _ (loopBackwards _ _ _ _ _ _) => apply preserves_loopBackwards; intros ?
  | |- preserves _ (modifyFlags _ _) => apply preserves_modifyFlags
  | |- preserves _ (modify (set_currentlyFocusedComponent _)) => apply preserves_setFocus
  | |- preserves _ (modifyComp _ _) => apply preserves_modifyComp; by intros ?
  | |- preserves _ (if ?b then _ else _) => destruct b
  | |- preserves _ (match ?x with _ => _ end) => destruct x
  end.
Ltac pres := repeat (cbv zeta; pres_step); eauto.

Lemma preserves_callChecked_fuel fuel this call index :
  preserves I (callChecked_fuel fuel this call index).
Proof. revert index. induction fuel as [| fuel IH]; intros index; simpl; pres. Qed.

Lemma preserves_callChecked this call : preserves I (callChecked this call).
Proof. intros s Hs. unfold callChecked. by apply preserves_callChecked_fuel. Qed.
Local Hint Resolve preserves_callChecked : core.

Lemma preserves_sendMouseEvent_parents fuel comp k p :
  preserves I (sendMouseEvent_parents fuel comp k p).
Proof. revert p. induction fuel as [| fuel IH]; intros p; simpl; pres. Qed.

Lemma preserves_sendMouseEvent comp k : preserves I (sendMouseEvent comp k).
Proof.
  intros s Hs. unfold sendMouseEvent.
  assert (preserves I (sendMouseEvent_fuel (fuelOf s) comp k)) as H; [| by apply H].
  unfold sendMouseEvent_fuel. pres. apply preserves_sendMouseEvent_parents.
Qed.
Local Hint Resolve preserves_sendMouseEvent : core.

Lemma preserves_sendMovedResizedMessages this wasMoved wasResized :
  preserves I (sendMovedResizedMessages this wasMoved wasResized).
Proof. unfold sendMovedResizedMessages. pres. Qed.
Local Hint Resolve preserves_sendMovedResizedMessages : core.

Lemma preserves_internalChildrenChanged this : preserves I (internalChildrenChanged this).
Proof. unfold internalChildrenChanged. pres. Qed.
Local Hint Resolve preserves_internalChildrenChanged : core.

Lemma preserves_internalHierarchyChanged_fuel fuel this :
  preserves I (internalHierarchyChanged_fuel fuel this).
Proof. revert this. induction fuel as [| fuel IH]; intros this; simpl; pres. Qed.

Lemma preserves_internalHierarchyChanged this : preserves I (internalHierarchyChanged this).
Proof. intros s Hs. by apply preserves_internalHierarchyChanged_fuel. Qed.
Local Hint Resolve preserves_internalHierarchyChanged : core.

Lemma preserves_internalRepaint_fuel fuel this x y w h :
  preserves I (internalRepaint_fuel fuel this x y w h).
Proof.
  revert this x y w h. induction fuel as [| fuel IH]; intros this x y w h; simpl; pres.
Qed.

Lemma preserves_internalRepaint this x y w h : preserves I (internalRepaint this x y w h).
Proof. intros s Hs. by apply preserves_internalRepaint_fuel. Qed.
Local Hint Resolve preserves_internalRepaint : core.

Lemma preserves_repaintParent this : preserves I (repaintParent this).
Proof. unfold repaintParent. pres. Qed.
Local Hint Resolve preserves_repaintParent : core.

Lemma preserves_repaint this : preserves I (repaint this).
Proof. unfold repaint, repaint_area. pres. Qed.
Local Hint Resolve preserves_repaint : core.

Lemma preserves_sendFakeMouseMove : preserves I sendFakeMouseMove.
Proof. unfold sendFakeMouseMove. pres. Qed.
Local Hint Resolve preserves_sendFakeMouseMove : core.

Lemma preserves_internalChildFocusChange_fuel fuel this cause :
  preserves I (internalChildFocusChange_fuel fuel this cause).
Proof. revert this. induction fuel as [| fuel IH]; intros this; simpl; pres. Qed.

Lemma preserves_internalFocusLoss this cause : preserves I (internalFocusLoss this cause).
Proof.
  unfold internalFocusLoss. pres.
  intros s Hs. by apply preserves_internalChildFocusChange_fuel.
Qed.
Local Hint Resolve preserves_internalFocusLoss : core.

Lemma preserves_giveAwayFocus b : preserves I (giveAwayFocus b).
Proof. unfold giveAwayFocus. pres. Qed.
Local Hint Resolve preserves_giveAwayFocus : core.

Lemma preserves_grabKeyboardFocus this : preserves I (grabKeyboardFocus this).
Proof. unfold grabKeyboardFocus, grabFocusInternal. pres. Qed.
Local Hint Resolve preserves_grabKeyboardFocus : core.

Lemma preserves_removeFromDesktop this : preserves I (removeFromDesktop this).
Proof. unfold removeFromDesktop. pres. Qed.
Local Hint Resolve preserves_removeFromDesktop : core.

Lemma preserves_internalBroughtToFront this : preserves I (internalBroughtToFront this).
Proof. unfold internalBroughtToFront. pres. Qed.
Local Hint Resolve preserves_internalBroughtToFront : core.

Lemma preserves_sendVisibilityChangeMessage this :
  preserves I (sendVisibilityChangeMessage this).
Proof. unfold sendVisibilityChangeMessage. pres. Qed.
Local Hint Resolve preserves_sendVisibilityChangeMessage : core.

Lemma preserves_setVisible this b : preserves I (setVisible this b).
Proof. unfold setVisible. pres. Qed.
Local Hint Resolve preserves_setVisible : core.

Lemma preserves_setName this name : preserves I (setName this name).
Proof. unfold setName. pres. Qed.

Lemma preserves_addComponentListener this l : preserves I (addComponentListener this l).
Proof. unfold addComponentListener. pres. Qed.

Lemma preserves_addMouseListener this l deep : preserves I (addMouseListener this l deep).
Proof. unfold addMouseListener. pres. Qed.

Lemma preserves_enterModalState this focus callback del :
  preserves I (enterModalState this focus callback del).
Proof. unfold enterModalState. pres. Qed.

Lemma preserves_userTriedToCloseWindow this : preserves I (userTriedToCloseWindow this).
Proof. unfold userTriedToCloseWindow. pres. Qed.

Lemma preserves_internalModalInputAttempt : preserves I internalModalInputAttempt.
Proof. unfold internalModalInputAttempt. pres. Qed.

(** Invariants that do not look at the parent pointers and child
    lists. *)
Hypothesis I_children :
  forall c f s, (forall k, bounds (f k) = bounds k) ->
                I s -> I (set_heap (alter f c (heap s)) s).
Hypothesis I_bounds :
  forall c x y w h s, 0 <= w -> 0 <= h ->
    I s -> I (set_heap (alter (set_bounds (mkRectangle x y w h)) c (heap s)) s).
Hypothesis I_position :
  forall c p s,
    I s ->
    I (set_heap (alter (fun k => set_bounds (Rectangle_setPosition (bounds k) p) k)
                       c (heap s)) s).
Hypothesis I_create :
  forall c name s, heap s !! c = None ->
    I s -> I (set_heap (<[c := newComponent name]> (heap s)) s).

Lemma preserves_modifyComp_children c f :
  (forall k, bounds (f k) = bounds k) -> preserves I (modifyComp c f).
Proof. intros Hf s Hs. simpl. by apply I_children. Qed.

Ltac pres' :=
  repeat (cbv zeta;
          first [ pres_step
                | match goal with
                  | |- preserves _ (modifyComp _ _) =>
                      apply preserves_modifyComp_children; by intros ?
                  end ]);
  eauto.

Lemma preserves_moveChildInternal this i j : preserves I (moveChildInternal this i j).
Proof. unfold moveChildInternal. pres'. Qed.
Local Hint Resolve preserves_moveChildInternal : core.

Lemma preserves_toBack this : preserves I (toBack this).
Proof. unfold toBack. pres'. Qed.

Lemma preserves_toFront this b : preserves I (toFront this b).
Proof. unfold toFront. pres'. Qed.
Local Hint Resolve preserves_toFront : core.

Lemma preserves_removeChildComponent_index this index b1 b2 :
  preserves I (removeChildComponent_index this index b1 b2).
Proof. unfold removeChildComponent_index. pres'. Qed.
Local Hint Resolve preserves_removeChildComponent_index : core.

Lemma preserves_removeChildComponent this child :
  preserves I (removeChildComponent this child).
Proof. unfold removeChildComponent. pres'. Qed.
Local Hint Resolve preserves_removeChildComponent : core.

Lemma preserves_addChildComponent this child z :
  preserves I (addChildComponent this child z).
Proof. unfold addChildComponent. pres'. Qed.

Lemma preserves_bringToFrontOnClick fuel this c :
  preserves I (bringToFrontOnClick fuel this c).
Proof. revert c. induction fuel as [| fuel IH]; intros c; simpl; pres'. Qed.
Local Hint Resolve preserves_bringToFrontOnClick : core.

Lemma preserves_internalMouseDown this : preserves I (internalMouseDown this).
Proof.
  unfold internalMouseDown, grabFocusInternal, internalModalInputAttempt. pres'.
Qed.

Lemma preserves_setBounds this x y w h : preserves I (setBounds this x y w h).
Proof.
  unfold setBounds.
  assert (0 <= (if w <? 0 then 0 else w)) as Hw by (destruct (Z.ltb_spec w 0); lia).
  assert (0 <= (if h <? 0 then 0 else h)) as Hh by (destruct (Z.ltb_spec h 0); lia).
  revert Hw Hh. generalize (if w <? 0 then 0 else w) (if h <? 0 then 0 else h).
  intros w' h' Hw Hh.
  assert (preserves I (modifyComp this (set_bounds (mkRectangle x y w' h')))) as Hset.
  { intros s Hs. simpl. by apply I_bounds. }
  pres'.
Qed.
Local Hint Resolve preserves_setBounds : core.

Lemma preserves_setSize this w h : preserves I (setSize this w h).
Proof. unfold setSize. pres'. Qed.
Local Hint Resolve preserves_setSize : core.

Lemma preserves_setTopLeftPosition this x y : preserves I (setTopLeftPosition this x y).
Proof. unfold setTopLeftPosition. pres'. Qed.
Local Hint Resolve preserves_setTopLeftPosition : core.

Lemma preserves_setTopRightPosition this x y : preserves I (setTopRightPosition this x y).
Proof. unfold setTopRightPosition. pres'. Qed.

Lemma preserves_setCentrePosition this x y : preserves I (setCentrePosition this x y).
Proof. unfold setCentrePosition. pres'. Qed.

Lemma preserves_addToDesktop this style : preserves I (addToDesktop this style).
Proof.
  unfold addToDesktop.
  assert (forall p, preserves I (modifyComp this
            (fun k => set_bounds (Rectangle_setPosition (bounds k) p) k))) as Hpos.
  { intros p s Hs. simpl. by apply I_position. }
  pres'.
Qed.

Lemma preserves_createComponent c name : preserves I (createComponent c name).
Proof.
  intros s Hs. unfold createComponent. simpl.
  destruct (heap s !! c) eqn:Hc; [done |]. by apply I_create.
Qed.

Lemma preserves_perform op : preserves I (perform op).
Proof.
  destruct op; cbn [perform];
    auto using preserves_createComponent, preserves_setName, preserves_addToDesktop,
      preserves_toBack, preserves_setTopRightPosition, preserves_setCentrePosition,
      preserves_addChildComponent, preserves_enterModalState,
      preserves_addComponentListener, preserves_addMouseListener,
      preserves_userTriedToCloseWindow, preserves_internalMouseDown.
  - unfold setBounds_rect. auto.
  - pres'.
Qed.

Lemma preserves_performAll ops s : I s -> I (performAll ops s).
Proof.
  revert s. induction ops as [| op ops IH]; intros s Hs; simpl; [done |].
  apply IH. by apply preserves_perform.
Qed.

End Frame.

(** ** Bounds *)

Lemma boundsNonNegative_alter (f : Component -> Component) c s :
  (forall k, 0 <= rect_w (bounds k) /\ 0 <= rect_h (bounds k) ->
             0 <= rect_w (bounds (f k)) /\ 0 <= rect_h (bounds (f k))) ->
  boundsNonNegative s -> boundsNonNegative (set_heap (alter f c (heap s)) s).
Proof.
  intros Hf Hs c' k'. simpl. rewrite lookup_alter.
  destruct (decide (c = c')) as [-> |]; [| apply Hs].
  destruct (heap s !! c') as [k |] eqn:Hk; simpl; [| done].
  intros [= <-]. apply Hf. by eapply Hs.
Qed.

Lemma boundsNonNegative_get s c :
  boundsNonNegative s -> 0 <= getWidth s c /\ 0 <= getHeight s c.
Proof.
  intros Hs. unfold getWidth, getHeight, the.
  destruct (heap s !! c) as [k |] eqn:Hk; simpl; [by eapply Hs | lia].
Qed.

Lemma setBounds_clamp_w c x y w h s :
  w < 0 -> setBounds c x y w h s = setBounds c x y 0 h s.
Proof.
  intros Hw. unfold setBounds.
  replace (w <? 0) with true by (symmetry; apply Z.ltb_lt; lia). done.
Qed.

Lemma setBounds_clamp_h c x y w h s :
  h < 0 -> setBounds c x y w h s = setBounds c x y w 0 s.
Proof.
  intros Hh. unfold setBounds.
  replace (h <? 0) with true by (symmetry; apply Z.ltb_lt; lia). done.
Qed.

(** C8.  [setBounds] with a negative width (or height) is the same call
    as with width (or height) zero, trace and final state alike.  If the
    code of the callbacks keeps widths and heights non-negative, as any
    code does that changes bounds through these operations, then so does
    every sequence of operations: afterwards [getWidth] and [getHeight]
    of every component are at least zero. *)
Theorem bounds_never_negative :
  (forall k s, boundsNonNegative s -> boundsNonNegative (cb k s)) ->
  (forall c x y w h s, w < 0 -> setBounds c x y w h s = setBounds c x y 0 h s)
  /\ (forall c x y w h s, h < 0 -> setBounds c x y w h s = setBounds c x y w 0 s)
  /\ forall ops s,
       boundsNonNegative s ->
       boundsNonNegative (performAll ops s)
       /\ forall c, 0 <= getWidth (performAll ops s) c
                    /\ 0 <= getHeight (performAll ops s) c.
Proof.
  intros Hcb. split; [apply setBounds_clamp_w | split; [apply setBounds_clamp_h |]].
  intros ops s Hs.
  assert (boundsNonNegative (performAll ops s)) as H.
  { apply (preserves_performAll boundsNonNegative Hcb); [| | | | | | exact Hs].
    - intros c f s' Hf. apply boundsNonNegative_alter.
      intros k Hk. destruct (Hf k) as (_ & _ & ->). done.
    - intros o s' Hs'. exact Hs'.
    - intros c f s' Hf. apply boundsNonNegative_alter. intros k Hk. by rewrite Hf.
    - intros c x y w h s' Hw Hh. apply boundsNonNegative_alter. intros k _. simpl. lia.
    - intros c p s'. apply boundsNonNegative_alter. intros k Hk. simpl. done.
    - intros c name s' Hnone Hs' c' k'. simpl. rewrite lookup_insert.
      destruct (decide (c = c')) as [-> |]; [| apply Hs'].
      intros [= <-]. simpl. lia. }
  split; [done |]. intros c. by apply boundsNonNegative_get.
Qed.

(** ** The hierarchy *)

Lemma hier_lookup s c : hier s !! c = hierOf <$> heap s !! c.
Proof. unfold hier. apply lookup_fmap. Qed.

Lemma hier_is_Some s c : is_Some (hier s !! c) <-> is_Some (heap s !! c).
Proof. rewrite hier_lookup. apply fmap_is_Some. Qed.

Lemma hParent_hier s c : hParent (hier s) c = getParentComponent s c.
Proof.
  unfold hParent, getParentComponent, the. rewrite hier_lookup.
  by destruct (heap s !! c).
Qed.

Lemma hChildren_hier s c : hChildren (hier s) c = childComponentList (the s c).
Proof.
  unfold hChildren, the. rewrite hier_lookup. by destruct (heap s !! c).
Qed.

Lemma treeShape_hier s : treeShape s <-> treeShapeH (hier s).
Proof.
  unfold treeShape, treeShapeH, parentsAlive, childrenPointBack, childrenNoDup.
  split.
  - intros (Hpa & Hcp & Hnd). split; [| split].
    + intros c p [h Hc] Hp. rewrite hParent_hier in Hp. apply hier_is_Some.
      destruct (getParentComponent_Some _ _ _ Hp) as (k & Hk & Hkp). eauto.
    + intros p c Hin. rewrite hChildren_hier in Hin.
      destruct (children_alive_owner _ _ _ Hin) as (k & Hk & Hthe).
      rewrite Hthe in Hin. destruct (Hcp _ _ _ Hk Hin) as (kc & Hkc & Hpar).
      split; [apply hier_is_Some; eauto |].
      rewrite hParent_hier. unfold getParentComponent. by rewrite (the_alive _ _ _ Hkc).
    + intros p. rewrite hChildren_hier. unfold the.
      destruct (heap s !! p) as [k |] eqn:Hk; simpl; [by eapply Hnd | constructor].
  - intros (Hpa & Hcp & Hnd). split; [| split].
    + intros c k p Hk Hp. apply hier_is_Some. apply (Hpa c p).
      * apply hier_is_Some. eauto.
      * rewrite hParent_hier. unfold getParentComponent. by rewrite (the_alive _ _ _ Hk).
    + intros p k c Hk Hin. destruct (Hcp p c) as [Hal Hpar].
      * rewrite hChildren_hier. by rewrite (the_alive _ _ _ Hk).
      * apply hier_is_Some in Hal as [kc Hkc]. exists kc. split; [done |].
        rewrite hParent_hier in Hpar. unfold getParentComponent in Hpar.
        by rewrite (the_alive _ _ _ Hkc) in Hpar.
    + intros p k Hk. specialize (Hnd p). rewrite hChildren_hier in Hnd.
      by rewrite (the_alive _ _ _ Hk) in Hnd.
Qed.

Lemma hier_alter (f : Component -> Component) g c s :
  (forall k, hierOf (f k) = g (hierOf k)) ->
  hier (set_heap (alter f c (heap s)) s) = alter g c (hier s).
Proof.
  intros Hfg. apply map_eq. intros i. unfold hier; simpl.
  rewrite lookup_fmap, !lookup_alter.
  destruct (decide (c = i)) as [-> |]; rewrite lookup_fmap; [| done].
  destruct (heap s !! i); simpl; [| done]. by rewrite Hfg.
Qed.

Lemma hier_alter_neutral (f : Component -> Component) c s :
  neutral f -> hier (set_heap (alter f c (heap s)) s) = hier s.
Proof.
  intros Hf. rewrite (hier_alter f id).
  - apply map_eq. intros i. rewrite lookup_alter.
    destruct (decide (c = i)) as [-> |]; [| done]. by destruct (hier s !! i).
  - intros k. unfold hierOf. destruct (Hf k) as (-> & -> & _). done.
Qed.

(** *** Rules *)

Lemma hoare_ret {A} (P : World -> Prop) (a : A) (Q : A -> World -> Prop) :
  (forall s, P s -> Q a s) -> hoare P (ret a) Q.
Proof. intros H s Hs. by apply H. Qed.

Lemma hoare_bind {A B} (P : World -> Prop) (m : M A) (R : A -> World -> Prop)
    (f : A -> M B) (Q : B -> World -> Prop) :
  hoare P m R -> (forall a, hoare (R a) (f a) Q) -> hoare P (bind m f) Q.
Proof. intros Hm Hf s Hs. unfold bind; simpl. by apply Hf, Hm. Qed.

Lemma hoare_get_bind {B} (P : World -> Prop) (f : World -> M B) (Q : B -> World -> Prop) :
  (forall s0, P s0 -> hoare (fun s => s = s0) (f s0) Q) -> hoare P (bind get f) Q.
Proof. intros H s Hs. unfold bind, get; simpl. by apply (H s Hs). Qed.

Lemma hoare_conseq {A} (P P' : World -> Prop) (m : M A) (Q Q' : A -> World -> Prop) :
  hoare P' m Q' -> (forall s, P s -> P' s) -> (forall a s, Q' a s -> Q a s) ->
  hoare P m Q.
Proof. intros H HP HQ s Hs. by apply HQ, H, HP. Qed.

Lemma hoare_preserves {A} (I : World -> Prop) (m : M A) :
  preserves I m -> hoare I m (fun _ => I).
Proof. intros H s Hs. by apply H. Qed.

Create HintDb frame.
Hint Resolve preserves_ret preserves_get preserves_outOfFuel preserves_invoke preserves_jassert
  preserves_CHECK preserves_modifyFlags preserves_callChecked
  preserves_sendMouseEvent preserves_sendMovedResizedMessages
  preserves_internalChildrenChanged preserves_internalHierarchyChanged
  preserves_internalRepaint preserves_repaintParent preserves_repaint
  preserves_sendFakeMouseMove preserves_internalFocusLoss preserves_giveAwayFocus
  preserves_grabKeyboardFocus preserves_removeFromDesktop
  preserves_internalBroughtToFront preserves_sendVisibilityChangeMessage
  preserves_setVisible : frame.

(** *** Arrays *)

Lemma Array_get_Some {A} (l : list A) i x :
  Array.get l i = Some x <-> 0 <= i /\ l !! Z.to_nat i = Some x.
Proof.
  unfold Array.get, Array.size.
  destruct (isPositiveAndBelow i (Z.of_nat (length l))) eqn:Hi.
  - apply isPositiveAndBelow_spec in Hi. split; [intros ?; split; [lia | done] | tauto].
  - split; [done |]. intros [H0 Hl]. apply lookup_lt_Some in Hl.
    assert (isPositiveAndBelow i (Z.of_nat (length l)) = true) as Hi'
      by (apply isPositiveAndBelow_spec; lia).
    congruence.
Qed.

Lemma Array_remove_delete {A} (l : list A) i x :
  Array.get l i = Some x -> Array.remove l i = delete (Z.to_nat i) l.
Proof.
  intros Hget. unfold Array.remove, Array.size.
  apply Array_get_Some in Hget as [H0 Hl]. apply lookup_lt_Some in Hl.
  replace (isPositiveAndBelow i (Z.of_nat (length l))) with true; [done |].
  symmetry. apply isPositiveAndBelow_spec. lia.
Qed.

Lemma Array_remove_elem_of {A} (l : list A) i x : x ∈ Array.remove l i -> x ∈ l.
Proof.
  unfold Array.remove. destruct (isPositiveAndBelow _ _); [| done].
  intros H. eapply elem_of_sublist; [exact H |]. apply sublist_delete.
Qed.

Lemma Array_remove_NoDup {A} (l : list A) i : NoDup l -> NoDup (Array.remove l i).
Proof.
  unfold Array.remove. destruct (isPositiveAndBelow _ _); [| done].
  intros H. eapply sublist_NoDup; [exact H |]. apply sublist_delete.
Qed.

Lemma Array_remove_not_elem_of {A} (l : list A) i x :
  NoDup l -> Array.get l i = Some x -> x ∉ Array.remove l i.
Proof.
  intros Hnd Hget. rewrite (Array_remove_delete _ _ _ Hget).
  apply Array_get_Some in Hget as [_ Hl].
  rewrite delete_take_drop.
  rewrite <- (take_drop_middle _ _ _ Hl) in Hnd.
  apply NoDup_app in Hnd as (_ & Hdis & Hnd2).
  apply NoDup_cons in Hnd2 as [Hni _].
  intros Hin. apply elem_of_app in Hin as [Hin | Hin]; [| done].
  apply (Hdis _ Hin). apply elem_of_cons; auto.
Qed.

Lemma Array_insert_elem_of {A} (l : list A) i x y :
  y ∈ Array.insert l i x <-> y = x \/ y ∈ l.
Proof.
  unfold Array.insert. destruct (isPositiveAndBelow _ _).
  - rewrite elem_of_app, elem_of_cons.
    rewrite <- (take_drop (Z.to_nat i) l) at 3. rewrite elem_of_app. tauto.
  - rewrite elem_of_app, list_elem_of_singleton. tauto.
Qed.

Lemma Array_insert_NoDup {A} (l : list A) i x :
  NoDup l -> x ∉ l -> NoDup (Array.insert l i x).
Proof.
  intros Hnd Hni. unfold Array.insert. destruct (isPositiveAndBelow _ _).
  - rewrite <- (take_drop (Z.to_nat i) l) in Hnd, Hni.
    apply NoDup_app in Hnd as (Hnd1 & Hdis & Hnd2).
    apply NoDup_app. split; [done |]. split.
    + intros y Hy Hin. apply elem_of_cons in Hin as [-> | Hin].
      * apply Hni. apply elem_of_app; auto.
      * by apply (Hdis y).
    + apply NoDup_cons. split; [| done]. intros Hin. apply Hni.
      apply elem_of_app; auto.
  - apply NoDup_app. split; [done |]. split.
    + intros y Hy Hin. apply list_elem_of_singleton in Hin as ->. done.
    + apply NoDup_singleton.
Qed.

Lemma Array_indexOf_from_spec {A} `{EqDecision A} (l : list A) x k :
  0 <= k ->
  (x ∈ l -> k <= Array.indexOf_from l x k
            /\ l !! Z.to_nat (Array.indexOf_from l x k - k) = Some x)
  /\ (x ∉ l -> Array.indexOf_from l x k = -1).
Proof.
  revert k. induction l as [| y l IH]; intros k Hk; simpl.
  - split; [intros H; by apply elem_of_nil in H | done].
  - destruct (decide (x = y)) as [-> | Hne].
    + split; [| intros H; exfalso; apply H; apply elem_of_cons; auto].
      intros _. split; [lia |]. by replace (k - k) with 0 by lia.
    + destruct (IH (k + 1)) as [Hin Hout]; [lia |]. split.
      * intros H. apply elem_of_cons in H as [-> | H]; [done |].
        destruct (Hin H) as [Hle Hl]. split; [lia |].
        replace (Z.to_nat (Array.indexOf_from l x (k + 1) - k))
          with (S (Z.to_nat (Array.indexOf_from l x (k + 1) - (k + 1)))) by lia.
        done.
      * intros H. apply Hout. intros Hx. apply H. apply elem_of_cons; auto.
Qed.

Lemma Array_indexOf_elem_of {A} `{EqDecision A} (l : list A) x :
  x ∈ l -> Array.get l (Array.indexOf l x) = Some x.
Proof.
  intros Hin. destruct (Array_indexOf_from_spec l x 0) as [H _]; [lia |].
  destruct (H Hin) as [Hle Hl]. apply Array_get_Some. split; [done |].
  unfold Array.indexOf. by replace (Array.indexOf_from l x 0 - 0)
    with (Array.indexOf_from l x 0) in Hl by lia.
Qed.

Lemma Array_indexOf_not_elem_of {A} `{EqDecision A} (l : list A) x :
  x ∉ l -> Array.get l (Array.indexOf l x) = None.
Proof.
  intros Hni. destruct (Array_indexOf_from_spec l x 0) as [_ H]; [lia |].
  unfold Array.indexOf. by rewrite (H Hni).
Qed.

(** *** Updates of the hierarchy *)

Lemma hSetParent_is_Some c p H x : is_Some (hSetParent c p H !! x) <-> is_Some (H !! x).
Proof.
  unfold hSetParent. rewrite lookup_alter.
  destruct (decide (c = x)) as [-> |]; [| done]. apply fmap_is_Some.
Qed.

Lemma hSetChildren_is_Some c f H x : is_Some (hSetChildren c f H !! x) <-> is_Some (H !! x).
Proof.
  unfold hSetChildren. rewrite lookup_alter.
  destruct (decide (c = x)) as [-> |]; [| done]. apply fmap_is_Some.
Qed.

Lemma hChildren_hSetParent c p H x : hChildren (hSetParent c p H) x = hChildren H x.
Proof.
  unfold hChildren, hSetParent. rewrite lookup_alter.
  destruct (decide (c = x)) as [-> |]; [| done]. by destruct (H !! x).
Qed.

Lemma hParent_hSetChildren c f H x : hParent (hSetChildren c f H) x = hParent H x.
Proof.
  unfold hParent, hSetChildren. rewrite lookup_alter.
  destruct (decide (c = x)) as [-> |]; [| done]. by destruct (H !! x).
Qed.

Lemma hParent_hSetParent_ne c p H x : x <> c -> hParent (hSetParent c p H) x = hParent H x.
Proof.
  intros Hne. unfold hParent, hSetParent. rewrite lookup_alter.
  destruct (decide (c = x)); [congruence | done].
Qed.

Lemma hParent_hSetParent_eq c p H :
  is_Some (H !! c) -> hParent (hSetParent c p H) c = p.
Proof.
  intros [h Hh]. unfold hParent, hSetParent. rewrite lookup_alter.
  destruct (decide (c = c)); [| done]. by rewrite Hh.
Qed.

Lemma hParent_hSetParent_Some c p H x q :
  hParent (hSetParent c p H) x = Some q -> (x = c /\ p = Some q) \/ (x <> c /\ hParent H x = Some q).
Proof.
  destruct (decide (x = c)) as [-> | Hne].
  - unfold hParent, hSetParent. rewrite lookup_alter.
    destruct (decide (c = c)); [| done]. destruct (H !! c); simpl; [auto | done].
  - rewrite hParent_hSetParent_ne by done. auto.
Qed.

Lemma hChildren_hSetChildren_ne c f H x :
  x <> c -> hChildren (hSetChildren c f H) x = hChildren H x.
Proof.
  intros Hne. unfold hChildren, hSetChildren. rewrite lookup_alter.
  destruct (decide (c = x)); [congruence | done].
Qed.

Lemma hChildren_hSetChildren_eq c f H :
  is_Some (H !! c) -> hChildren (hSetChildren c f H) c = f (hChildren H c).
Proof.
  intros [h Hh]. unfold hChildren, hSetChildren. rewrite lookup_alter.
  destruct (decide (c = c)); [| done]. by rewrite Hh.
Qed.

Lemma hChildren_elem_alive H p c : c ∈ hChildren H p -> is_Some (H !! p).
Proof.
  unfold hChildren. destruct (H !! p); [eauto |]. intros Hin. by apply elem_of_nil in Hin.
Qed.

(** Removing the entry at [index] and clearing the parent pointer of the
    child found there keeps the tree shape. *)
Lemma treeShapeH_remove H this index child :
  treeShapeH H ->
  Array.get (hChildren H this) index = Some child ->
  treeShapeH (hSetParent child None
                (hSetChildren this (fun l => Array.remove l index) H)).
Proof.
  intros (Hpa & Hcp & Hnd) Hget.
  assert (child ∈ hChildren H this) as Hchild.
  { apply Array_get_Some in Hget as [_ Hl]. by eapply list_elem_of_lookup_2. }
  pose proof (hChildren_elem_alive _ _ _ Hchild) as Hthis.
  split; [| split].
  - intros c p Hc Hp. apply hSetParent_is_Some, hSetChildren_is_Some.
    apply hSetParent_is_Some, hSetChildren_is_Some in Hc.
    apply hParent_hSetParent_Some in Hp as [[_ ?] | [_ Hp]]; [done |].
    rewrite hParent_hSetChildren in Hp. by apply (Hpa c p).
  - intros p c Hin. rewrite hChildren_hSetParent in Hin.
    rewrite hSetParent_is_Some, hSetChildren_is_Some.
    destruct (decide (p = this)) as [-> | Hne].
    + rewrite hChildren_hSetChildren_eq in Hin by done.
      pose proof (Array_remove_not_elem_of _ _ _ (Hnd this) Hget) as Hni.
      assert (c <> child) as Hcne by (intros ->; done).
      apply Array_remove_elem_of in Hin. destruct (Hcp _ _ Hin) as [Hal Hpar].
      split; [done |]. by rewrite hParent_hSetParent_ne, hParent_hSetChildren.
    + rewrite hChildren_hSetChildren_ne in Hin by done.
      destruct (Hcp _ _ Hin) as [Hal Hpar]. split; [done |].
      assert (c <> child) as Hcne.
      { intros ->. destruct (Hcp _ _ Hchild) as [_ Hpar']. congruence. }
      by rewrite hParent_hSetParent_ne, hParent_hSetChildren.
  - intros p. rewrite hChildren_hSetParent.
    destruct (decide (p = this)) as [-> | Hne].
    + rewrite hChildren_hSetChildren_eq by done. by apply Array_remove_NoDup.
    + by rewrite hChildren_hSetChildren_ne.
Qed.

(** Giving a component that stands in no child list a new parent and one
    entry in that parent's list keeps the tree shape. *)
Lemma treeShapeH_adopt H this child z :
  treeShapeH H ->
  is_Some (H !! this) -> is_Some (H !! child) ->
  (forall p, child ∉ hChildren H p) ->
  treeShapeH (hSetChildren this (fun l => Array.insert l z child)
                (hSetParent child (Some this) H)).
Proof.
  intros (Hpa & Hcp & Hnd) Hthis Hchild Hfree.
  assert (is_Some (hSetParent child (Some this) H !! this)) as Hthis'
    by (by apply hSetParent_is_Some).
  split; [| split].
  - intros c p Hc Hp. apply hSetChildren_is_Some, hSetParent_is_Some.
    apply hSetChildren_is_Some, hSetParent_is_Some in Hc.
    rewrite hParent_hSetChildren in Hp.
    apply hParent_hSetParent_Some in Hp as [[_ [= <-]] | [_ Hp]]; [done |].
    by apply (Hpa c p).
  - intros p c Hin. rewrite hSetChildren_is_Some, hSetParent_is_Some.
    rewrite hParent_hSetChildren.
    destruct (decide (p = this)) as [-> | Hne].
    + rewrite hChildren_hSetChildren_eq, hChildren_hSetParent in Hin by done.
      apply Array_insert_elem_of in Hin as [-> | Hin].
      * split; [done |]. by apply hParent_hSetParent_eq.
      * assert (c <> child) as Hcne by (intros ->; by apply (Hfree this)).
        destruct (Hcp _ _ Hin) as [Hal Hpar]. split; [done |].
        by rewrite hParent_hSetParent_ne.
    + rewrite hChildren_hSetChildren_ne, hChildren_hSetParent in Hin by done.
      assert (c <> child) as Hcne by (intros ->; by apply (Hfree p)).
      destruct (Hcp _ _ Hin) as [Hal Hpar]. split; [done |].
      by rewrite hParent_hSetParent_ne.
  - intros p. destruct (decide (p = this)) as [-> | Hne].
    + rewrite hChildren_hSetChildren_eq, hChildren_hSetParent by done.
      apply Array_insert_NoDup; [apply Hnd | apply Hfree].
    + rewrite hChildren_hSetChildren_ne, hChildren_hSetParent by done. apply Hnd.
Qed.

Lemma hDetach_is_Some child H x : is_Some (hDetach child H !! x) <-> is_Some (H !! x).
Proof.
  unfold hDetach. destruct (hParent H child) as [q |]; [| done].
  destruct (Array.get _ _); [| done].
  by rewrite hSetParent_is_Some, hSetChildren_is_Some.
Qed.

Lemma treeShapeH_detach child H : treeShapeH H -> treeShapeH (hDetach child H).
Proof.
  intros Hts. unfold hDetach. destruct (hParent H child) as [q |]; [| done].
  destruct (Array.get _ _) eqn:Hget; [| done]. by apply treeShapeH_remove.
Qed.

Lemma hDetach_free child H p : treeShapeH H -> child ∉ hChildren (hDetach child H) p.
Proof.
  intros (Hpa & Hcp & Hnd). unfold hDetach.
  destruct (hParent H child) as [q |] eqn:Hq.
  - destruct (decide (child ∈ hChildren H q)) as [Hin | Hni].
    + rewrite (Array_indexOf_elem_of _ _ Hin).
      rewrite hChildren_hSetParent.
      pose proof (hChildren_elem_alive _ _ _ Hin) as Hqal.
      destruct (decide (p = q)) as [-> | Hne].
      * rewrite hChildren_hSetChildren_eq by done.
        apply Array_remove_not_elem_of; [apply Hnd |].
        by apply Array_indexOf_elem_of.
      * rewrite hChildren_hSetChildren_ne by done.
        intros Hp. destruct (Hcp _ _ Hp) as [_ Hpar]. congruence.
    + rewrite (Array_indexOf_not_elem_of _ _ Hni).
      intros Hp. destruct (Hcp _ _ Hp) as [_ Hpar].
      assert (p = q) by congruence. subst. done.
  - intros Hp. destruct (Hcp _ _ Hp) as [_ Hpar]. congruence.
Qed.

Lemma hChildren_hDetach_other child H p :
  hParent H child <> Some p -> hChildren (hDetach child H) p = hChildren H p.
Proof.
  intros Hne. unfold hDetach. destruct (hParent H child) as [q |]; [| done].
  destruct (Array.get _ _); [| done].
  rewrite hChildren_hSetParent, hChildren_hSetChildren_ne; [done | congruence].
Qed.

(** *** Operations that come to their end *)

Lemma finished_app t1 t2 : finished (t1 ++ t2) = finished t1 && finished t2.
Proof. unfold finished. apply forallb_app. Qed.

Lemma finished_bind {A B} (m : M A) (f : A -> M B) s :
  finished (trace (bind m f s))
  = finished (trace (m s)) && finished (trace (f (value (m s)) (world (m s)))).
Proof. cbn [bind trace]. apply finished_app. Qed.

Lemma fuelFree_ret {A} (a : A) : fuelFree (ret a).
Proof. by intros s. Qed.

Lemma fuelFree_get : fuelFree get.
Proof. by intros s. Qed.

Lemma fuelFree_modify f : fuelFree (modify f).
Proof. by intros s. Qed.

Lemma fuelFree_modifyComp c f : fuelFree (modifyComp c f).
Proof. by intros s. Qed.

Lemma fuelFree_invoke k : fuelFree (invoke k).
Proof. by intros s. Qed.

Lemma fuelFree_jassert b what : fuelFree (jassert b what).
Proof. intros s. unfold jassert. by destruct (_ && _). Qed.

Lemma fuelFree_CHECK : fuelFree CHECK_MESSAGE_MANAGER_IS_LOCKED.
Proof. intros s. unfold CHECK_MESSAGE_MANAGER_IS_LOCKED. apply fuelFree_jassert. Qed.

Lemma fuelFree_bind {A B} (m : M A) (f : A -> M B) :
  fuelFree m -> (forall a, fuelFree (f a)) -> fuelFree (bind m f).
Proof. intros Hm Hf s. by rewrite finished_bind, Hm, Hf. Qed.

Lemma fuelFree_nested c m : fuelFree m -> fuelFree (nested c m).
Proof.
  intros Hm s. unfold nested, finished. cbn [trace forallb finishedStep].
  fold (finished (trace (m s))). by rewrite Hm.
Qed.

Lemma fuelFree_loopBackwards {A} fuel items limit bail (body : A -> M unit) i :
  (forall a, fuelFree (body a)) ->
  fuelFree (loopBackwards fuel items limit bail body i).
Proof.
  intros Hbody. revert i. induction fuel as [| fuel IH]; intros i; simpl.
  - apply fuelFree_ret.
  - destruct (i - 1 <? 0); [apply fuelFree_ret |].
    apply fuelFree_bind; [apply fuelFree_get | intros s].
    destruct (items s !! Z.to_nat (i - 1)); [| apply fuelFree_ret].
    apply fuelFree_bind; [apply Hbody | intros _].
    apply fuelFree_bind; [apply fuelFree_get | intros s'].
    destruct (bail s'); [apply fuelFree_ret | apply IH].
Qed.

Ltac fuelFree_step :=
  match goal with
  | |- fuelFree (ret _) => apply fuelFree_ret
  | |- fuelFree get => apply fuelFree_get
  | |- fuelFree (bind _ _) => apply fuelFree_bind; [| intros ?]
  | |- fuelFree (invoke _) => apply fuelFree_invoke
  | |- fuelFree (jassert _ _) => apply fuelFree_jassert
  | |- fuelFree (jassertfalse _) => apply fuelFree_jassert
  | |- fuelFree CHECK_MESSAGE_MANAGER_IS_LOCKED => apply fuelFree_CHECK
  | |- fuelFree (nested _ _) => apply fuelFree_nested
  | |- fuelFree (loopBackwards _ _ _ _ _ _) => apply fuelFree_loopBackwards; intros ?
  | |- fuelFree (modifyComp _ _) => apply fuelFree_modifyComp
  | |- fuelFree (modifyFlags _ _) => apply fuelFree_modifyComp
  | |- fuelFree (modify _) => apply fuelFree_modify
  | |- fuelFree (if ?b then _ else _) => destruct b
  | |- fuelFree (match ?x with _ => _ end) => destruct x
  end.
Ltac fuelFree := repeat (cbv zeta; fuelFree_step); eauto.

Lemma fuelFree_callChecked this call : fuelFree (callChecked this call).
Proof.
  intros s. unfold callChecked.
  generalize (S (length (componentListeners (the s this)))).
  generalize (Array.size (componentListeners (the s this))).
  intros index fuel. revert index s.
  assert (forall index, fuelFree (callChecked_fuel fuel this call index)) as H;
    [| intros index s; apply H].
  induction fuel as [| fuel IH]; intros index; cbn [callChecked_fuel]; fuelFree.
Qed.
Local Hint Resolve fuelFree_callChecked : core.

Lemma fuelFree_internalChildrenChanged this : fuelFree (internalChildrenChanged this).
Proof. unfold internalChildrenChanged. fuelFree. Qed.

Lemma fuelFree_sendFakeMouseMove : fuelFree sendFakeMouseMove.
Proof. unfold sendFakeMouseMove. fuelFree. Qed.

Lemma fuelFree_grabKeyboardFocus this : fuelFree (grabKeyboardFocus this).
Proof. unfold grabKeyboardFocus, grabFocusInternal. fuelFree. Qed.

Lemma fuelFree_removeFromDesktop this : fuelFree (removeFromDesktop this).
Proof. unfold removeFromDesktop. fuelFree. Qed.

Lemma finishes_ret {A} (P : World -> Prop) (a : A) (Q : A -> World -> Prop) :
  (forall s, P s -> Q a s) -> finishes P (ret a) Q.
Proof. intros H s Hs. split; [done | by apply H]. Qed.

Lemma finishes_bind {A B} (P : World -> Prop) (m : M A) (R : A -> World -> Prop)
    (f : A -> M B) (Q : B -> World -> Prop) :
  finishes P m R -> (forall a, finishes (R a) (f a) Q) -> finishes P (bind m f) Q.
Proof.
  intros Hm Hf s Hs. destruct (Hm s Hs) as [Ht HR].
  destruct (Hf _ _ HR) as [Ht' HQ]. rewrite finished_bind, Ht, Ht'. by split.
Qed.

Lemma finishes_get_bind {B} (P : World -> Prop) (f : World -> M B)
    (Q : B -> World -> Prop) :
  (forall s0, P s0 -> finishes (fun s => s = s0) (f s0) Q) -> finishes P (bind get f) Q.
Proof. intros H s Hs. rewrite finished_bind. cbn [get trace world value]. by apply H. Qed.

Lemma finishes_at {A} (P : World -> Prop) (m : M A) (Q : A -> World -> Prop) s0 :
  P s0 -> finishes P m Q -> finishes (fun s => s = s0) m Q.
Proof. intros H0 Hm s ->. by apply Hm. Qed.

Lemma finishes_conseq {A} (P P' : World -> Prop) (m : M A) (Q Q' : A -> World -> Prop) :
  finishes P' m Q' -> (forall s, P s -> P' s) -> (forall a s, Q' a s -> Q a s) ->
  finishes P m Q.
Proof. intros H HP HQ s Hs. destruct (H s (HP s Hs)). split; [done | by apply HQ]. Qed.

Lemma finishes_hoare {A} (P : World -> Prop) (m : M A) (Q : A -> World -> Prop) :
  fuelFree m -> hoare P m Q -> finishes P m Q.
Proof. intros Hf Hm s Hs. split; [apply Hf | by apply Hm]. Qed.

(** The loop comes to its end when its body does, on the items that
    the loop reads. *)
Lemma finishes_loopBackwards {A} (P : World -> Prop) fuel items limit bail
    (body : A -> M unit) i :
  (forall a s, P s -> a ∈ items s ->
               finished (trace (body a s)) = true /\ P (world (body a s))) ->
  finishes P (loopBackwards fuel items limit bail body i) (fun _ => P).
Proof.
  intros Hbody. revert i. induction fuel as [| fuel IH]; intros i; simpl.
  - by apply finishes_ret.
  - destruct (i - 1 <? 0); [by apply finishes_ret |].
    apply finishes_get_bind. intros s0 Hs0.
    destruct (items s0 !! Z.to_nat (i - 1)) as [a |] eqn:Ha;
      [| apply finishes_ret; by intros s ->].
    eapply finishes_bind with (R := fun _ => P).
    { intros s ->. apply Hbody; [done |]. by eapply list_elem_of_lookup_2. }
    intros _. apply finishes_get_bind. intros s1 Hs1.
    apply (finishes_at P); [done |].
    destruct (bail s1); [by apply finishes_ret | apply IH].
Qed.

(** *** Parent chains of a hierarchy *)

Lemma chain_chainH s c l : chain s c l <-> chainH (hier s) c l.
Proof.
  split; induction 1 as [c Hc | c p l Hc Hl IH].
  - apply chainH_root. by rewrite hParent_hier.
  - apply chainH_cons with (p := p); [by rewrite hParent_hier | done].
  - apply chain_root. by rewrite <- hParent_hier.
  - apply chain_cons; [by rewrite <- hParent_hier | done].
Qed.

Lemma acyclic_acyclicH s : acyclic s <-> acyclicH (hier s).
Proof.
  split; intros H c; destruct (H c) as [l Hl]; exists l; by apply chain_chainH.
Qed.

Lemma wellFormed_wellFormedH s : wellFormed s <-> wellFormedH (hier s).
Proof. unfold wellFormed, wellFormedH. by rewrite treeShape_hier, acyclic_acyclicH. Qed.

(** A chain that does not pass [x] stays a chain when only the parent
    of [x] changes. *)
Lemma chainH_avoid H H' x c l :
  (forall y, y <> x -> hParent H' y = hParent H y) ->
  chainH H c l -> c <> x -> x ∉ l -> chainH H' c l.
Proof.
  intros Hsame. induction 1 as [c Hc | c p l Hc Hl IH]; intros Hne Hnin.
  - apply chainH_root. by rewrite Hsame.
  - apply not_elem_of_cons in Hnin as [Hpx Hnin].
    apply chainH_cons; [by rewrite Hsame | apply IH; [congruence | done]].
Qed.

(** Every parent chain ends again once [x] has a chain that ends. *)
Lemma acyclicH_patch H H' x lx :
  (forall y, y <> x -> hParent H' y = hParent H y) ->
  chainH H' x lx -> acyclicH H -> acyclicH H'.
Proof.
  intros Hsame Hx Hac c.
  destruct (decide (c = x)) as [-> | Hne]; [eauto |].
  destruct (Hac c) as [l Hl]. induction Hl as [c Hc | c p l Hc Hl IH].
  - exists []. apply chainH_root. by rewrite Hsame.
  - destruct (decide (p = x)) as [-> | Hpx].
    + exists (x :: lx). apply chainH_cons; [by rewrite Hsame | done].
    + destruct (IH Hpx) as [l' Hl']. exists (p :: l').
      apply chainH_cons; [by rewrite Hsame | done].
Qed.

(** Clearing a parent pointer keeps the chains finite. *)
Lemma acyclicH_cut H H' x :
  (forall y, y <> x -> hParent H' y = hParent H y) ->
  hParent H' x = None -> acyclicH H -> acyclicH H'.
Proof.
  intros Hsame Hx. apply (acyclicH_patch H H' x []); [done |]. by apply chainH_root.
Qed.

(** Hanging [x] below [p] keeps the chains finite when [x] is neither
    [p] nor above [p]. *)
Lemma acyclicH_graft H H' x p :
  (forall y, y <> x -> hParent H' y = hParent H y) ->
  hParent H' x = Some p -> x <> p ->
  (forall l, chainH H p l -> x ∉ l) ->
  acyclicH H -> acyclicH H'.
Proof.
  intros Hsame Hx Hne Habove Hac. destruct (Hac p) as [lp Hlp].
  apply (acyclicH_patch H H' x (p :: lp)); [done | | done].
  apply chainH_cons; [done |].
  apply (chainH_avoid H H' x); [done | done | congruence | by apply Habove].
Qed.

Lemma acyclicH_same H H' :
  (forall y, hParent H' y = hParent H y) -> acyclicH H -> acyclicH H'.
Proof.
  intros Hsame Hac c. destruct (Hac c) as [l Hl]. exists l.
  induction Hl as [c Hc | c p l Hc Hl IH].
  - apply chainH_root. by rewrite Hsame.
  - apply chainH_cons; [by rewrite Hsame | done].
Qed.

Section Hierarchy.

(** The code behind the callbacks does not re-parent components while
    the operation runs. *)
Hypothesis cb_hier : forall k s, hier (cb k s) = hier s.

Lemma atH_cb H k s : atH H s -> atH H (cb k s).
Proof. unfold atH. by rewrite cb_hier. Qed.

Lemma atH_neutral H c f s :
  neutral f -> atH H s -> atH H (set_heap (alter f c (heap s)) s).
Proof. unfold atH. intros Hf <-. by apply hier_alter_neutral. Qed.

Lemma atH_focus H o s : atH H s -> atH H (set_currentlyFocusedComponent o s).
Proof. done. Qed.

Local Hint Resolve atH_cb atH_neutral atH_focus : core.

(** An operation that only calls out and changes neutral fields keeps
    the hierarchy. *)
Lemma keeps_hier {A} (m : M A) H :
  (forall I : World -> Prop,
      (forall k s, I s -> I (cb k s)) ->
      (forall c f s, neutral f -> I s -> I (set_heap (alter f c (heap s)) s)) ->
      (forall o s, I s -> I (set_currentlyFocusedComponent o s)) ->
      preserves I m) ->
  hoare (atH H) m (fun _ => atH H).
Proof. intros Hm. apply hoare_preserves, Hm; eauto. Qed.

Ltac frame_step :=
  match goal with
  | |- preserves _ (bind _ _) => apply preserves_bind; [| intros ?]
  | |- preserves _ (if ?b then _ else _) => destruct b
  | |- preserves _ (match ?x with _ => _ end) => destruct x
  | |- preserves _ (modifyComp _ _) =>
      apply preserves_modifyComp; [assumption | by intros ?]
  | |- preserves _ _ => solve [eauto with frame]
  end.
Ltac frame := repeat (cbv zeta; frame_step).
Ltac keeps := apply keeps_hier; intros ? ? ? ?; frame.

Lemma hoare_at {A} (P : World -> Prop) (m : M A) (Q : A -> World -> Prop) s0 :
  P s0 -> hoare P m Q -> hoare (fun s => s = s0) m Q.
Proof. intros H0 Hm s ->. by apply Hm. Qed.

Lemma hoare_modifyComp_hier c (f : Component -> Component) g H :
  (forall k, hierOf (f k) = g (hierOf k)) ->
  hoare (atH H) (modifyComp c f) (fun _ => atH (alter g c H)).
Proof. intros Hfg s Hs. unfold atH in *. simpl. rewrite <- Hs. by apply hier_alter. Qed.

(** *** The hierarchy operations come to their end *)

Lemma parentsAlive_atH s H :
  atH H s ->
  (forall c p, is_Some (H !! c) -> hParent H c = Some p -> is_Some (H !! p)) ->
  parentsAlive s.
Proof.
  intros <- Hpa c k p Hc Hp. apply hier_is_Some. apply (Hpa c p).
  - apply hier_is_Some. eauto.
  - rewrite hParent_hier. unfold getParentComponent. by rewrite (the_alive _ _ _ Hc).
Qed.

Lemma chainH_length s H c l :
  atH H s ->
  (forall c p, is_Some (H !! c) -> hParent H c = Some p -> is_Some (H !! p)) ->
  chainH H c l -> (length l < fuelOf s)%nat.
Proof.
  intros Hs Hpa Hl. apply (chain_length s c l); [by eapply parentsAlive_atH |].
  apply chain_chainH. by rewrite Hs.
Qed.

Ltac fin_head :=
  match goal with
  | |- finished (trace ((if ?b then _ else _) _)) = true => destruct b
  | |- finished (trace ((match ?x with _ => _ end) _)) = true => destruct x
  end.

(** [internalRepaint] walks up the parent chain and calls out at its
    end only. *)
Lemma internalRepaint_fuel_finished s c l :
  chain s c l ->
  forall fuel x y w h, (length l < fuel)%nat ->
    finished (trace (internalRepaint_fuel fuel c x y w h s)) = true.
Proof.
  induction 1 as [c Hc | c p l Hc Hl IH]; intros fuel x y w h Hfuel;
    (destruct fuel as [| fuel]; [simpl in Hfuel; lia |]);
    cbn [internalRepaint_fuel]; rewrite finished_bind, fuelFree_CHECK, CHECK_world;
    cbn [andb]; rewrite finished_bind; cbn [get trace world value finished forallb andb];
    cbv zeta; rewrite Hc; cbv beta iota.
  - repeat fin_head; done.
  - do 2 (fin_head; [| done]). fin_head; [| done].
    fin_head; apply IH; simpl in Hfuel; lia.
Qed.

Lemma finishes_repaintParent H this :
  (forall c p, is_Some (H !! c) -> hParent H c = Some p -> is_Some (H !! p)) ->
  acyclicH H ->
  finishes (atH H) (repaintParent this) (fun _ => atH H).
Proof.
  intros Hpa Hac s Hs. split; [| by apply (ltac:(keeps) : hoare (atH H) (repaintParent this) (fun _ => atH H))].
  unfold repaintParent. rewrite finished_bind. cbn [get trace world value finished forallb andb].
  destruct (visibleFlag (getFlags s this)); [| done].
  destruct (Hac this) as [l Hl]. unfold internalRepaint.
  apply (internalRepaint_fuel_finished s this l).
  - apply chain_chainH. by rewrite Hs.
  - by eapply chainH_length.
Qed.

(** [internalChildFocusChange] walks up the parent chain. *)
Lemma finishes_internalChildFocusChange_fuel H cause c l :
  chainH H c l ->
  forall fuel, (length l < fuel)%nat ->
    finishes (atH H) (internalChildFocusChange_fuel fuel c cause) (fun _ => atH H).
Proof.
  induction 1 as [c Hc | c p l Hc Hl IH]; intros fuel Hfuel;
    (destruct fuel as [| fuel]; [simpl in Hfuel; lia |]);
    cbn [internalChildFocusChange_fuel];
    apply finishes_get_bind; intros s0 Hs0; cbv zeta;
    apply (finishes_at (atH H)); [done | | done |].
  - eapply finishes_bind with (R := fun _ => atH H).
    { apply finishes_hoare; [fuelFree | keeps]. }
    intros [|]; [by apply finishes_ret |].
    apply finishes_get_bind. intros s1 Hs1.
    rewrite <- hParent_hier, Hs1, Hc. apply finishes_ret. by intros s ->.
  - eapply finishes_bind with (R := fun _ => atH H).
    { apply finishes_hoare; [fuelFree | keeps]. }
    intros [|]; [by apply finishes_ret |].
    apply finishes_get_bind. intros s1 Hs1.
    rewrite <- hParent_hier, Hs1, Hc. apply (finishes_at (atH H)); [done |].
    apply IH. simpl in Hfuel. lia.
Qed.

Lemma finishes_giveAwayFocus H b :
  (forall c p, is_Some (H !! c) -> hParent H c = Some p -> is_Some (H !! p)) ->
  acyclicH H ->
  finishes (atH H) (giveAwayFocus b) (fun _ => atH H).
Proof.
  intros Hpa Hac. unfold giveAwayFocus.
  apply finishes_get_bind. intros s0 Hs0. cbv zeta.
  apply (finishes_at (atH H)); [done |].
  eapply finishes_bind with (R := fun _ => atH H).
  { apply finishes_hoare; [fuelFree |].
    apply keeps_hier. intros ? ? ? ?. by apply preserves_setFocus. }
  intros _. eapply finishes_bind with (R := fun _ => atH H).
  2: { intros _. apply finishes_hoare; [fuelFree | keeps]. }
  destruct (currentlyFocusedComponent s0) as [c |]; [| by apply finishes_ret].
  destruct b; [| by apply finishes_ret].
  unfold internalFocusLoss.
  eapply finishes_bind with (R := fun _ => atH H).
  { apply finishes_hoare; [fuelFree | keeps]. }
  intros _. apply finishes_get_bind. intros s1 Hs1.
  destruct (isAlive s1 c); [| apply finishes_ret; by intros s ->].
  intros s ->. unfold internalChildFocusChange.
  destruct (Hac c) as [l Hl].
  apply (finishes_internalChildFocusChange_fuel H _ c l Hl); [| done].
  by eapply chainH_length.
Qed.

Lemma size_hier s : size (hier s) = size (heap s).
Proof. unfold hier. apply map_size_fmap. Qed.

(** [internalHierarchyChanged] walks down the child lists; in a
    well-formed hierarchy that the callbacks leave alone it comes to
    its end. *)
Lemma finishes_internalHierarchyChanged_fuel H :
  wellFormedH H ->
  forall fuel c l, chainH H c l -> (size H < fuel + length l)%nat ->
    finishes (atH H) (internalHierarchyChanged_fuel fuel c) (fun _ => atH H).
Proof.
  intros Hwf. induction fuel as [| fuel IH]; intros c l Hl Hlt.
  - intros s Hs. exfalso. apply (no_fuel_absurd s c l).
    + apply wellFormed_wellFormedH. by rewrite Hs.
    + apply chain_chainH. by rewrite Hs.
    + rewrite <- size_hier, Hs. lia.
  - cbn [internalHierarchyChanged_fuel].
    eapply finishes_bind with (R := fun _ => atH H).
    { apply finishes_hoare; [fuelFree | keeps]. }
    intros _. apply finishes_get_bind. intros s1 Hs1.
    destruct (shouldBailOut s1 c); [apply finishes_ret; by intros s -> |].
    apply (finishes_at (atH H)); [done |].
    eapply finishes_bind with (R := fun _ => atH H).
    { apply finishes_hoare; [apply fuelFree_callChecked | keeps]. }
    intros _. apply finishes_get_bind. intros s2 Hs2.
    destruct (shouldBailOut s2 c); [apply finishes_ret; by intros s -> |].
    apply (finishes_at (atH H)); [done |].
    eapply finishes_bind with (R := fun _ => atH H).
    { apply finishes_loopBackwards. intros child s Hs Hin.
      rewrite <- hChildren_hier, Hs in Hin.
      destruct Hwf as [(_ & Hcp & _) _]. destruct (Hcp _ _ Hin) as [_ Hpar].
      destruct (IH child (c :: l)) with (s := s) as [Hfin Hw]; [| simpl; lia | done |].
      { by apply chainH_cons. }
      unfold nested. cbn [trace world finished forallb finishedStep].
      fold (finished (trace (internalHierarchyChanged_fuel fuel child s))).
      by rewrite Hfin. }
    intros [|]; [apply finishes_hoare; [fuelFree | keeps] | by apply finishes_ret].
Qed.

Lemma finishes_internalHierarchyChanged H c :
  wellFormedH H ->
  finishes (atH H) (internalHierarchyChanged c) (fun _ => atH H).
Proof.
  intros Hwf s Hs. unfold internalHierarchyChanged.
  destruct (proj2 Hwf c) as [l Hl].
  apply (finishes_internalHierarchyChanged_fuel H Hwf (fuelOf s) c l Hl); [| done].
  unfold fuelOf. rewrite <- size_hier, Hs. lia.
Qed.

Lemma hParent_hSetParent_None c H : hParent (hSetParent c None H) c = None.
Proof.
  unfold hParent, hSetParent. rewrite lookup_alter.
  destruct (decide (c = c)); [| done]. by destruct (H !! c).
Qed.

Lemma wellFormedH_remove H this index child :
  wellFormedH H ->
  Array.get (hChildren H this) index = Some child ->
  wellFormedH (hSetParent child None
                 (hSetChildren this (fun l => Array.remove l index) H)).
Proof.
  intros [Hts Hac] Hget. split; [by apply treeShapeH_remove |].
  apply (acyclicH_cut H _ child); [| apply hParent_hSetParent_None | done].
  intros y Hy. by rewrite hParent_hSetParent_ne, hParent_hSetChildren.
Qed.

Lemma wellFormedH_detach child H : wellFormedH H -> wellFormedH (hDetach child H).
Proof.
  intros Hwf. unfold hDetach. destruct (hParent H child) as [q |]; [| done].
  destruct (Array.get _ _) eqn:Hget; [| done]. by apply wellFormedH_remove.
Qed.

(** [removeChildComponent (index, ...)] comes to its end in a
    well-formed hierarchy. *)
Lemma finishes_removeChildComponent_index H this index b1 b2 :
  wellFormedH H ->
  finishes (atH H) (removeChildComponent_index this index b1 b2)
    (fun v s' =>
       match Array.get (hChildren H this) index with
       | Some child =>
           v = Some child
           /\ atH (hSetParent child None
                     (hSetChildren this (fun l => Array.remove l index) H)) s'
       | None => v = None /\ atH H s'
       end).
Proof.
  intros Hwf. unfold removeChildComponent_index.
  eapply finishes_bind with (R := fun _ => atH H).
  { apply finishes_hoare; [fuelFree | keeps]. }
  intros ?; cbv beta. apply finishes_get_bind. intros s0 Hs0.
  rewrite <- hChildren_hier. rewrite Hs0.
  destruct (Array.get (hChildren H this) index) as [child |] eqn:Hget.
  - cbv zeta. apply (finishes_at (atH H)); [done |].
    pose proof (wellFormedH_remove H this index child Hwf Hget) as Hwf'.
    set (H' := hSetParent child None
                 (hSetChildren this (fun l => Array.remove l index) H)) in *.
    destruct Hwf as [(Hpa & Hcp & Hnd) Hac].
    eapply finishes_bind with (R := fun _ => atH H).
    { destruct (b1 && isShowing s0 child); [| by apply finishes_ret].
      eapply finishes_bind with (R := fun _ => atH H).
      - apply finishes_hoare; [apply fuelFree_sendFakeMouseMove | keeps].
      - intros ?; cbv beta. by apply finishes_repaintParent. }
    intros ?; cbv beta. eapply finishes_bind.
    { apply finishes_hoare; [fuelFree |].
      apply (hoare_modifyComp_hier this _ (fun h => (h.1, Array.remove h.2 index))).
      by intros k. }
    intros ?; cbv beta. eapply finishes_bind with (R := fun _ => atH H').
    { apply finishes_hoare; [fuelFree |].
      apply (hoare_modifyComp_hier child _ (fun h => (None, h.2))). by intros k. }
    intros ?; cbv beta. apply finishes_get_bind. intros s2 Hs2.
    apply (finishes_at _ _ _ _ Hs2).
    destruct Hwf' as [(Hpa' & Hcp' & Hnd') Hac'].
    eapply finishes_bind with (R := fun _ => atH H').
    { destruct (bool_decide (currentlyFocusedComponent s2 = Some child)
                || isParentOf s2 child (currentlyFocusedComponent s2));
        [| by apply finishes_ret].
      destruct (b1 && isShowing s0 child).
      - eapply finishes_bind with (R := fun _ => atH H');
          [by apply finishes_giveAwayFocus |].
        intros ?; cbv beta. apply finishes_get_bind. intros s3 Hs3.
        apply (finishes_at _ _ _ _ Hs3).
        destruct (negb (isAlive s3 this)); [by apply finishes_ret |].
        eapply finishes_bind with (R := fun _ => atH H');
          [| intros ?; by apply finishes_ret].
        apply finishes_hoare; [apply fuelFree_grabKeyboardFocus | keeps].
      - eapply finishes_bind with (R := fun _ => atH H');
          [by apply finishes_giveAwayFocus | intros ?; by apply finishes_ret]. }
    intros returned. destruct returned.
    + apply finishes_ret. intros s Hs. by split.
    + eapply finishes_bind with (R := fun _ => atH H').
      { destruct b2; [| by apply finishes_ret].
        apply finishes_internalHierarchyChanged. by split. }
      intros ?; cbv beta. eapply finishes_bind with (R := fun _ => atH H').
      { destruct (b1 && isShowing s0 child); [| by apply finishes_ret].
        apply finishes_hoare; [apply fuelFree_internalChildrenChanged | keeps]. }
      intros ?; cbv beta. apply finishes_ret. intros s Hs. by split.
  - apply finishes_ret. intros s Hs. subst s. by split.
Qed.

Lemma finishes_removeChildComponent H this child :
  wellFormedH H ->
  finishes (atH H) (removeChildComponent this child)
    (fun _ s' =>
       match Array.get (hChildren H this) (Array.indexOf (hChildren H this) child) with
       | Some c' =>
           atH (hSetParent c' None
                  (hSetChildren this
                     (fun l => Array.remove l (Array.indexOf (hChildren H this) child))
                     H)) s'
       | None => atH H s'
       end).
Proof.
  intros Hwf. unfold removeChildComponent.
  apply finishes_get_bind. intros s0 Hs0.
  rewrite <- hChildren_hier. rewrite Hs0.
  apply (finishes_at (atH H)); [done |].
  eapply finishes_bind; [by apply finishes_removeChildComponent_index |].
  intros v; cbv beta. apply finishes_ret. intros s.
  destruct (Array.get _ _); tauto.
Qed.

Lemma chainH_functional H c l1 l2 : chainH H c l1 -> chainH H c l2 -> l1 = l2.
Proof.
  intros H1. revert l2. induction H1 as [c Hc | c p l Hc Hl IH]; intros l2 H2.
  - inversion H2; subst; [done | congruence].
  - inversion H2 as [? Hc' | ? p' l' Hc' Hl']; subst; [congruence |].
    assert (p' = p) by congruence. subst. f_equal. by apply IH.
Qed.

Lemma hParent_hDetach_ne child H y :
  y <> child -> hParent (hDetach child H) y = hParent H y.
Proof.
  intros Hne. unfold hDetach. destruct (hParent H child) as [q |]; [| done].
  destruct (decide (child ∈ hChildren H q)) as [Hin | Hnin].
  - rewrite (Array_indexOf_elem_of _ _ Hin).
    by rewrite hParent_hSetParent_ne, hParent_hSetChildren.
  - by rewrite (Array_indexOf_not_elem_of _ _ Hnin).
Qed.

(** The hierarchy in the middle of [addChildComponent], when the child
    has its new parent and is not in the child list yet: the parent
    chains are in order. *)
Lemma reparented_chains H this child :
  wellFormedH H -> is_Some (H !! this) -> is_Some (H !! child) ->
  child <> this -> (forall l, chainH H this l -> child ∉ l) ->
  (forall c p, is_Some (hSetParent child (Some this) (hDetach child H) !! c) ->
               hParent (hSetParent child (Some this) (hDetach child H)) c = Some p ->
               is_Some (hSetParent child (Some this) (hDetach child H) !! p))
  /\ acyclicH (hSetParent child (Some this) (hDetach child H)).
Proof.
  intros Hwf Hthis Hchild Hne Habove.
  destruct (wellFormedH_detach child H Hwf) as [(Hpa1 & _ & _) Hac1]. split.
  - intros c p Hc Hp. rewrite hSetParent_is_Some in *.
    apply hParent_hSetParent_Some in Hp as [[-> [= <-]] | [_ Hp]].
    + by apply hDetach_is_Some.
    + by apply (Hpa1 c p).
  - apply (acyclicH_graft (hDetach child H) _ child this); [| | done | | done].
    + intros y Hy. by apply hParent_hSetParent_ne.
    + apply hParent_hSetParent_eq. by apply hDetach_is_Some.
    + intros l Hl. destruct (proj2 Hwf this) as [lt Hlt].
      assert (chainH (hDetach child H) this lt) as Hlt'.
      { apply (chainH_avoid H _ child); [| done | congruence | by apply Habove].
        intros y Hy. by apply hParent_hDetach_ne. }
      rewrite (chainH_functional _ _ _ _ Hl Hlt'). by apply Habove.
Qed.

Lemma wellFormedH_adopt H this child z :
  wellFormedH H -> is_Some (H !! this) -> is_Some (H !! child) ->
  child <> this -> (forall l, chainH H this l -> child ∉ l) ->
  wellFormedH (hSetChildren this (fun l => Array.insert l z child)
                 (hSetParent child (Some this) (hDetach child H))).
Proof.
  intros Hwf Hthis Hchild Hne Habove.
  destruct (reparented_chains H this child Hwf Hthis Hchild Hne Habove) as [_ Hac2].
  split.
  - apply treeShapeH_adopt.
    + apply treeShapeH_detach, Hwf.
    + by apply hDetach_is_Some.
    + by apply hDetach_is_Some.
    + intros p. apply hDetach_free, Hwf.
  - apply (acyclicH_same (hSetParent child (Some this) (hDetach child H))); [| done].
    intros y. apply hParent_hSetChildren.
Qed.

(** [addChildComponent] comes to its end when the child is neither the
    receiver nor above it. *)
Lemma finishes_addChildComponent H this child z :
  wellFormedH H -> is_Some (H !! this) -> is_Some (H !! child) ->
  child <> this -> (forall l, chainH H this l -> child ∉ l) ->
  hParent H child <> Some this ->
  finishes (atH H) (addChildComponent this (Some child) z)
    (fun _ s' =>
       exists z', atH (hSetChildren this (fun l => Array.insert l z' child)
                         (hSetParent child (Some this) (hDetach child H))) s').
Proof.
  intros Hwf Hthis Hchild Hself Habove Hne. unfold addChildComponent.
  eapply finishes_bind with (R := fun _ => atH H).
  { apply finishes_hoare; [fuelFree | keeps]. }
  intros ?; cbv beta. apply finishes_get_bind. intros s0 Hs0.
  rewrite <- hParent_hier. rewrite Hs0.
  rewrite bool_decide_eq_false_2 by done.
  apply (finishes_at (atH H)); [done |].
  eapply finishes_bind with (R := fun _ => atH (hDetach child H)).
  { unfold hDetach. destruct (hParent H child) as [q |].
    - eapply finishes_conseq; [by apply finishes_removeChildComponent | done |].
      intros ? s. cbv beta. by destruct (Array.get _ _).
    - apply finishes_hoare; [apply fuelFree_removeFromDesktop | keeps]. }
  destruct (reparented_chains H this child Hwf Hthis Hchild Hself Habove) as [Hpa2 Hac2].
  intros ?; cbv beta. eapply finishes_bind.
  { apply finishes_hoare; [fuelFree |].
    apply (hoare_modifyComp_hier child _ (fun h => (Some this, h.2))). by intros k. }
  intros ?; cbv beta. apply finishes_get_bind. intros s1 Hs1.
  apply (finishes_at _ _ _ _ Hs1).
  eapply finishes_bind
    with (R := fun _ => atH (hSetParent child (Some this) (hDetach child H))).
  { destruct (isVisible s1 child); [by apply finishes_repaintParent | by apply finishes_ret]. }
  intros ?; cbv beta. apply finishes_get_bind. intros s2 Hs2. cbv zeta.
  match goal with
  | |- finishes _ (bind (modifyComp this (fun k => set_childComponentList
                                            (Array.insert _ ?zz child) k)) _) _ =>
      set (z' := zz)
  end.
  apply (finishes_at _ _ _ _ Hs2).
  eapply finishes_bind.
  { apply finishes_hoare; [fuelFree |].
    apply (hoare_modifyComp_hier this _ (fun h => (h.1, Array.insert h.2 z' child))).
    by intros k. }
  intros ?; cbv beta.
  eapply finishes_bind
    with (R := fun _ => atH (hSetChildren this (fun l => Array.insert l z' child)
                               (hSetParent child (Some this) (hDetach child H)))).
  { apply finishes_internalHierarchyChanged. by apply wellFormedH_adopt. }
  intros ?; cbv beta.
  eapply finishes_conseq;
    [apply finishes_hoare; [apply fuelFree_internalChildrenChanged | keeps]
    | intros s Hs; exact Hs |].
  intros ? s Hs. by exists z'.
Qed.

Lemma finishes_addChildComponent_same H this child z :
  hParent H child = Some this ->
  finishes (atH H) (addChildComponent this (Some child) z) (fun _ => atH H).
Proof.
  intros Heq. unfold addChildComponent.
  eapply finishes_bind with (R := fun _ => atH H).
  { apply finishes_hoare; [fuelFree | keeps]. }
  intros ?; cbv beta. apply finishes_get_bind. intros s0 Hs0.
  rewrite <- hParent_hier. rewrite Hs0.
  rewrite bool_decide_eq_true_2 by done.
  apply finishes_ret. by intros s ->.
Qed.

(** *** Moving, showing and reordering come to their end *)

Lemma finishes_modifyComp_same H c (f : Component -> Component) :
  (forall k, hierOf (f k) = hierOf k) ->
  finishes (atH H) (modifyComp c f) (fun _ => atH H).
Proof.
  intros Hf s Hs. split; [done |]. unfold atH in *. simpl. rewrite <- Hs.
  rewrite (hier_alter f id) by (intros k; by rewrite Hf).
  apply map_eq. intros i. rewrite lookup_alter.
  destruct (decide (c = i)) as [-> |]; [| done]. by destruct (hier s !! i).
Qed.

Lemma finishes_internalRepaint H c x y w h :
  (forall c p, is_Some (H !! c) -> hParent H c = Some p -> is_Some (H !! p)) ->
  acyclicH H ->
  finishes (atH H) (internalRepaint c x y w h) (fun _ => atH H).
Proof.
  intros Hpa Hac s Hs.
  split; [| by apply (ltac:(keeps) : hoare (atH H) (internalRepaint c x y w h)
                                       (fun _ => atH H))].
  destruct (Hac c) as [l Hl]. unfold internalRepaint.
  apply (internalRepaint_fuel_finished s c l).
  - apply chain_chainH. by rewrite Hs.
  - by eapply chainH_length.
Qed.

Lemma fuelFree_sendMovedResizedMessages this wasMoved wasResized :
  fuelFree (sendMovedResizedMessages this wasMoved wasResized).
Proof. unfold sendMovedResizedMessages. fuelFree. Qed.

Lemma fuelFree_sendVisibilityChangeMessage this :
  fuelFree (sendVisibilityChangeMessage this).
Proof. unfold sendVisibilityChangeMessage. fuelFree. Qed.

Lemma fuelFree_internalBroughtToFront this : fuelFree (internalBroughtToFront this).
Proof. unfold internalBroughtToFront. fuelFree. Qed.

(** Steps of an operation that leaves the hierarchy as it is. *)
Ltac fin_leaf :=
  first
    [ by apply finishes_ret
    | by apply finishes_repaintParent
    | by apply finishes_internalRepaint
    | by apply finishes_giveAwayFocus
    | by apply finishes_internalHierarchyChanged
    | apply finishes_modifyComp_same; by intros []
    | apply finishes_hoare;
      [ first [ apply fuelFree_sendFakeMouseMove
              | apply fuelFree_grabKeyboardFocus
              | apply fuelFree_internalChildrenChanged
              | apply fuelFree_sendMovedResizedMessages
              | apply fuelFree_sendVisibilityChangeMessage
              | apply fuelFree_internalBroughtToFront
              | apply fuelFree_callChecked
              | solve [fuelFree] ]
      | keeps ] ].
Ltac fin_step H :=
  match goal with
  | |- finishes _ (bind get _) _ =>
      apply finishes_get_bind; intros ? ?; apply (finishes_at (atH H)); [assumption |]
  | |- finishes _ (bind _ _) _ =>
      eapply finishes_bind with (R := fun _ => atH H); [| intros ?; cbv beta]
  | |- finishes _ (if ?b then _ else _) _ => destruct b
  | |- finishes _ (match ?x with _ => _ end) _ => destruct x
  | |- finishes _ _ _ => fin_leaf
  end.
Ltac fin H := repeat (cbv zeta; fin_step H).

Lemma finishes_repaint H this :
  (forall c p, is_Some (H !! c) -> hParent H c = Some p -> is_Some (H !! p)) ->
  acyclicH H ->
  finishes (atH H) (repaint this) (fun _ => atH H).
Proof. intros Hpa Hac. unfold repaint, repaint_area. fin H. Qed.

Lemma finishes_setBounds H this x y w h :
  (forall c p, is_Some (H !! c) -> hParent H c = Some p -> is_Some (H !! p)) ->
  acyclicH H ->
  finishes (atH H) (setBounds this x y w h) (fun _ => atH H).
Proof.
  intros Hpa Hac. pose proof (finishes_repaint H this Hpa Hac) as Hrepaint.
  unfold setBounds. fin H; exact Hrepaint.
Qed.

Lemma finishes_setVisible H this b :
  wellFormedH H ->
  finishes (atH H) (setVisible this b) (fun _ => atH H).
Proof.
  intros Hwf. pose proof Hwf as [(Hpa & _ & _) Hac].
  unfold setVisible. fin H.
Qed.

Local Hint Resolve fuelFree_sendFakeMouseMove fuelFree_grabKeyboardFocus
  fuelFree_internalChildrenChanged fuelFree_internalBroughtToFront : core.

Lemma finishes_fuelFree {A} (P : World -> Prop) (m : M A) :
  fuelFree m -> finishes P m (fun _ _ => True).
Proof. intros Hm s _. by split. Qed.

Lemma finishes_then_fuelFree {A B} (P : World -> Prop) (m : M A) (f : A -> M B) :
  finishes P m (fun _ _ => True) -> (forall a, fuelFree (f a)) ->
  finishes P (bind m f) (fun _ _ => True).
Proof.
  intros Hm Hf. eapply finishes_bind; [exact Hm |].
  intros a. by apply finishes_fuelFree.
Qed.

Lemma finishes_moveChildInternal H p i j :
  (forall c p, is_Some (H !! c) -> hParent H c = Some p -> is_Some (H !! p)) ->
  acyclicH H ->
  finishes (atH H) (moveChildInternal p i j) (fun _ _ => True).
Proof.
  intros Hpa Hac. unfold moveChildInternal.
  destruct (negb (i =? j)); [| by apply finishes_ret].
  apply finishes_get_bind. intros s0 Hs0. cbv zeta.
  apply (finishes_at (atH H)); [done |].
  eapply finishes_bind with (R := fun _ => atH H); [fin_leaf | intros ?; cbv beta].
  apply finishes_then_fuelFree; [| intros ?; fuelFree].
  destruct (Array.get (childComponentList (the s0 p)) i); [| by apply finishes_ret].
  eapply finishes_conseq; [by apply finishes_repaintParent | done | done].
Qed.

Lemma finishes_toBack H this :
  (forall c p, is_Some (H !! c) -> hParent H c = Some p -> is_Some (H !! p)) ->
  acyclicH H ->
  finishes (atH H) (toBack this) (fun _ _ => True).
Proof.
  intros Hpa Hac. unfold toBack.
  apply finishes_get_bind. intros s0 Hs0. apply (finishes_at (atH H)); [done |].
  destruct (isOnDesktop s0 this); [apply finishes_fuelFree; fuelFree |].
  destruct (getParentComponent s0 this) as [p |]; [| by apply finishes_ret].
  cbv zeta. destruct (negb _); [| by apply finishes_ret].
  destruct (0 <? _); [| by apply finishes_ret].
  by apply finishes_moveChildInternal.
Qed.

Lemma finishes_toFront H this b :
  (forall c p, is_Some (H !! c) -> hParent H c = Some p -> is_Some (H !! p)) ->
  acyclicH H ->
  finishes (atH H) (toFront this b) (fun _ _ => True).
Proof.
  intros Hpa Hac. unfold toFront.
  eapply finishes_bind with (R := fun _ => atH H); [fin_leaf | intros ?; cbv beta].
  apply finishes_get_bind. intros s0 Hs0. apply (finishes_at (atH H)); [done |].
  destruct (hasHeavyweightPeerFlag (getFlags s0 this)); [apply finishes_fuelFree; fuelFree |].
  destruct (getParentComponent s0 this) as [p |]; [| by apply finishes_ret].
  cbv zeta. apply finishes_then_fuelFree; [| intros ?; fuelFree].
  destruct (negb _); [| by apply finishes_ret].
  destruct (0 <=? _); [| by apply finishes_ret].
  by apply finishes_moveChildInternal.
Qed.

Lemma finishes_removeAllChildren this :
  forall fuel H, wellFormedH H ->
    finishes (atH H) (removeAllChildren fuel this) (fun _ _ => True).
Proof.
  induction fuel as [| fuel IH]; intros H Hwf; cbn [removeAllChildren];
    [by apply finishes_ret |].
  apply finishes_get_bind. intros s0 Hs0. cbv zeta.
  destruct (0 <? _); [| by apply finishes_ret].
  apply (finishes_at (atH H)); [done |].
  eapply finishes_bind; [by apply finishes_removeChildComponent_index |].
  intros v; cbv beta.
  destruct (Array.get (hChildren H this) _) as [child |] eqn:Hget.
  - eapply finishes_conseq;
      [apply (IH _ (wellFormedH_remove H this _ child Hwf Hget))
      | by intros s [_ Hs] | done].
  - eapply finishes_conseq; [apply (IH H Hwf) | by intros s [_ Hs] | done].
Qed.

Lemma finishes_addAndMakeVisible H this child z :
  wellFormedH H -> is_Some (H !! this) -> is_Some (H !! child) ->
  child <> this -> (forall l, chainH H this l -> child ∉ l) ->
  finishes (atH H) (addAndMakeVisible this (Some child) z) (fun _ _ => True).
Proof.
  intros Hwf Hthis Hchild Hself Habove. unfold addAndMakeVisible.
  eapply finishes_bind with (R := fun _ => atH H); [by apply finishes_setVisible |].
  intros ?; cbv beta.
  destruct (decide (hParent H child = Some this)) as [Heq | Hne].
  - eapply finishes_conseq; [by apply finishes_addChildComponent_same | done | done].
  - eapply finishes_conseq; [by apply finishes_addChildComponent | done | done].
Qed.

(** In a well-formed tree that the callbacks leave alone the operations
    come to their end. *)
Lemma operations_finished s this :
  wellFormed s ->
  (forall x y w h, finished (trace (setBounds this x y w h s)) = true)
  /\ (forall w h, finished (trace (setSize this w h s)) = true)
  /\ (forall x y, finished (trace (setTopLeftPosition this x y s)) = true)
  /\ (forall x y, finished (trace (setTopRightPosition this x y s)) = true)
  /\ (forall x y, finished (trace (setCentrePosition this x y s)) = true)
  /\ (forall b, finished (trace (setVisible this b s)) = true)
  /\ (forall b, finished (trace (toFront this b s)) = true)
  /\ finished (trace (toBack this s)) = true
  /\ (forall fuel, finished (trace (removeAllChildren fuel this s)) = true)
  /\ (forall child z,
         is_Some (heap s !! this) -> is_Some (heap s !! child) ->
         child <> this -> ~ ancestorOf s child this ->
         finished (trace (addChildComponent this (Some child) z s)) = true
         /\ finished (trace (addAndMakeVisible this (Some child) z s)) = true).
Proof.
  intros Hwf. apply wellFormed_wellFormedH in Hwf.
  pose proof Hwf as [(Hpa & _ & _) Hac].
  assert (forall x y w h, finished (trace (setBounds this x y w h s)) = true) as Hbounds.
  { intros x y w h. by apply (finishes_setBounds (hier s) this x y w h Hpa Hac s). }
  split; [exact Hbounds |].
  split; [intros w h; apply Hbounds |].
  split; [intros x y; apply Hbounds |].
  split; [intros x y; apply Hbounds |].
  split; [intros x y; apply Hbounds |].
  split; [intros b; by apply (finishes_setVisible (hier s) this b Hwf s) |].
  split; [intros b; by apply (finishes_toFront (hier s) this b Hpa Hac s) |].
  split; [by apply (finishes_toBack (hier s) this Hpa Hac s) |].
  split; [intros fuel; by apply (finishes_removeAllChildren this fuel (hier s) Hwf s) |].
  intros child z Hthis Hchild Hself Hnot. apply hier_is_Some in Hthis, Hchild.
  assert (forall l, chainH (hier s) this l -> child ∉ l) as Habove.
  { intros l Hl Hin. apply Hnot. apply chain_chainH in Hl.
    by apply (ancestorOf_chain s child this l Hl). }
  split.
  - destruct (decide (hParent (hier s) child = Some this)) as [Heq | Hne].
    + by apply (finishes_addChildComponent_same (hier s) this child z Heq s).
    + by apply (finishes_addChildComponent (hier s) this child z Hwf Hthis Hchild Hself
                  Habove Hne s).
  - by apply (finishes_addAndMakeVisible (hier s) this child z Hwf Hthis Hchild Hself
                Habove s).
Qed.

End Hierarchy.

(** ** Dispatch stops once the component is gone *)

Lemma shouldBailOut_false s c : shouldBailOut s c = false -> isAlive s c = true.
Proof. unfold shouldBailOut. by destruct (isAlive s c). Qed.

Section Dispatch.

Variable c : CompId.

Local Abbreviation alive := (isAliveIn c).

Lemma dispatches_ret {A} (P : World -> Prop) (a : A) (Q : A -> World -> Prop) :
  (forall s, P s -> Q a s) -> dispatches c P (ret a) Q.
Proof. intros H s Hs. split; [constructor | by apply H]. Qed.

Lemma dispatches_outOfFuel {A} (P : World -> Prop) (a : A) (Q : A -> World -> Prop) :
  (forall s, P s -> Q a s) -> dispatches c P (outOfFuel a) Q.
Proof. intros H s Hs. split; [by repeat constructor | by apply H]. Qed.

Lemma dispatches_bind {A B} (P : World -> Prop) (m : M A) (R : A -> World -> Prop)
    (f : A -> M B) (Q : B -> World -> Prop) :
  dispatches c P m R -> (forall a, dispatches c (R a) (f a) Q) ->
  dispatches c P (bind m f) Q.
Proof.
  intros Hm Hf s Hs. destruct (Hm s Hs) as [Ht HR].
  destruct (Hf _ _ HR) as [Ht' HQ]. unfold bind; simpl.
  split; [by apply Forall_app | done].
Qed.

Lemma dispatches_get_bind {B} (P : World -> Prop) (f : World -> M B)
    (Q : B -> World -> Prop) :
  (forall s0, P s0 -> dispatches c (fun s => s = s0) (f s0) Q) ->
  dispatches c P (bind get f) Q.
Proof. intros H s Hs. unfold bind, get; simpl. by apply (H s Hs). Qed.

Lemma dispatches_at {A} (P : World -> Prop) (m : M A) (Q : A -> World -> Prop) s0 :
  P s0 -> dispatches c P m Q -> dispatches c (fun s => s = s0) m Q.
Proof. intros H0 Hm s ->. by apply Hm. Qed.

Lemma dispatches_conseq {A} (P P' : World -> Prop) (m : M A) (Q Q' : A -> World -> Prop) :
  dispatches c P' m Q' -> (forall s, P s -> P' s) -> (forall a s, Q' a s -> Q a s) ->
  dispatches c P m Q.
Proof. intros H HP HQ s Hs. destruct (H s (HP s Hs)). split; [done | by apply HQ]. Qed.

Lemma dispatches_invoke k : dispatches c alive (invoke k) (fun _ _ => True).
Proof. intros s Hs. split; [| done]. simpl. by repeat constructor. Qed.

Lemma dispatches_nested child m : dispatches c alive (nested child m) (fun _ _ => True).
Proof. intros s Hs. split; [| done]. simpl. by repeat constructor. Qed.

Lemma dispatches_jassert P b what : dispatches c P (jassert b what) (fun _ s => P s).
Proof.
  intros s Hs. unfold jassert. destruct (_ && _); simpl; (split; [| done]);
    by repeat constructor.
Qed.

Lemma dispatches_loopBackwards {A} fuel items limit bail (body : A -> M unit) i :
  (forall a, dispatches c alive (body a) (fun _ _ => True)) ->
  (forall s, bail s = false -> alive s) ->
  dispatches c alive (loopBackwards fuel items limit bail body i)
    (fun b s => b = false -> alive s).
Proof.
  intros Hbody Hbail. revert i. induction fuel as [| fuel IH]; intros i; simpl.
  - by apply dispatches_ret.
  - destruct (i - 1 <? 0); [by apply dispatches_ret |].
    apply dispatches_get_bind. intros s0 Hs0.
    destruct (items s0 !! Z.to_nat (i - 1)) as [a |].
    + apply (dispatches_at alive); [done |].
      eapply dispatches_bind; [apply Hbody |]. intros ?; cbv beta.
      apply dispatches_get_bind. intros s1 _.
      destruct (bail s1) eqn:Hb.
      * by apply dispatches_ret.
      * apply (dispatches_at alive); [by apply Hbail |]. apply IH.
    + apply dispatches_ret. intros s -> _. done.
Qed.

Lemma dispatches_callChecked_fuel fuel call index :
  dispatches c (fun _ => True) (callChecked_fuel fuel c call index) (fun _ _ => True).
Proof.
  revert index. induction fuel as [| fuel IH]; intros index; simpl.
  - by apply dispatches_ret.
  - apply dispatches_get_bind. intros s0 _.
    destruct (shouldBailOut s0 c) eqn:Hb; [by apply dispatches_ret |].
    apply shouldBailOut_false in Hb.
    destruct (index <=? 0); [by apply dispatches_ret |]. cbv zeta.
    destruct (_ <? 0); [by apply dispatches_ret |].
    destruct (componentListeners (the s0 c) !! _); [| by apply dispatches_ret].
    apply (dispatches_at alive); [done |].
    eapply dispatches_bind; [apply dispatches_invoke |]. intros ?; cbv beta. apply IH.
Qed.

Lemma dispatches_callChecked call :
  dispatches c (fun _ => True) (callChecked c call) (fun _ _ => True).
Proof. intros s Hs. unfold callChecked. by apply dispatches_callChecked_fuel. Qed.

Lemma dispatches_sendMouseEvent_parents fuel k p :
  dispatches c alive (sendMouseEvent_parents fuel c k p) (fun _ _ => True).
Proof.
  revert p. induction fuel as [| fuel IH]; intros p; simpl.
  - destruct p; [by apply dispatches_outOfFuel | by apply dispatches_ret].
  - destruct p as [p |]; [| by apply dispatches_ret].
    apply dispatches_get_bind. intros s0 Hs0.
    apply (dispatches_at alive); [done |].
    eapply dispatches_bind with (R := fun b s => b = false -> alive s).
    + destruct (mouseListeners (the s0 p)) as [list |]; [| by apply dispatches_ret].
      destruct (0 <? numDeepMouseListeners list); [| by apply dispatches_ret].
      apply dispatches_loopBackwards; [intros l; apply dispatches_invoke |].
      intros s Hb. apply orb_false_iff in Hb as [Hb _].
      by apply shouldBailOut_false.
    + intros [|]; [by apply dispatches_ret |].
      apply dispatches_get_bind. intros s1 Hs1.
      apply (dispatches_at alive); [by apply Hs1 |]. apply IH.
Qed.

Lemma dispatches_sendMouseEvent_fuel fuel k :
  dispatches c (fun _ => True) (sendMouseEvent_fuel fuel c k) (fun _ _ => True).
Proof.
  unfold sendMouseEvent_fuel.
  apply dispatches_get_bind. intros s0 _.
  destruct (shouldBailOut s0 c) eqn:Hb; [by apply dispatches_ret |].
  apply shouldBailOut_false in Hb.
  apply (dispatches_at alive); [done |].
  eapply dispatches_bind with (R := fun b s => b = false -> alive s).
  - destruct (mouseListeners (the s0 c)) as [list |]; [| by apply dispatches_ret].
    apply dispatches_loopBackwards; [intros l; apply dispatches_invoke |].
    intros s. apply shouldBailOut_false.
  - intros [|]; [by apply dispatches_ret |].
    apply dispatches_get_bind. intros s1 Hs1.
    apply (dispatches_at alive); [by apply Hs1 |].
    apply dispatches_sendMouseEvent_parents.
Qed.

Lemma dispatches_sendMovedResizedMessages wasMoved wasResized :
  dispatches c alive (sendMovedResizedMessages c wasMoved wasResized) (fun _ _ => True).
Proof.
  unfold sendMovedResizedMessages.
  eapply dispatches_bind with (R := fun b s => b = false -> alive s).
  { destruct wasMoved; [| by apply dispatches_ret].
    eapply dispatches_bind; [apply dispatches_invoke |]. intros ?; cbv beta.
    apply dispatches_get_bind. intros s1 _. apply dispatches_ret.
    intros s -> Hb. by apply shouldBailOut_false. }
  intros [|]; [by apply dispatches_ret |].
  eapply dispatches_bind with (R := fun b s => b = false -> alive s).
  { destruct wasResized; [| apply dispatches_ret; auto].
    eapply dispatches_conseq with (P' := alive); [| auto | intros a s H; exact H].
    eapply dispatches_bind; [apply dispatches_invoke |]. intros ?; cbv beta.
    apply dispatches_get_bind. intros s1 _.
    destruct (shouldBailOut s1 c) eqn:Hb; [by apply dispatches_ret |].
    apply shouldBailOut_false in Hb.
    apply (dispatches_at alive); [done |].
    apply dispatches_loopBackwards; [intros l; apply dispatches_invoke |].
    intros s. apply shouldBailOut_false. }
  intros [|]; [by apply dispatches_ret |].
  apply dispatches_get_bind. intros s2 Hs2. specialize (Hs2 eq_refl).
  apply (dispatches_at alive); [done |].
  eapply dispatches_bind with (R := fun _ _ => True).
  { destruct (getParentComponent s2 c); [apply dispatches_invoke | by apply dispatches_ret]. }
  intros ?; cbv beta. apply dispatches_get_bind. intros s3 _.
  destruct (negb (shouldBailOut s3 c)); [| by apply dispatches_ret].
  eapply dispatches_conseq; [apply dispatches_callChecked | done | done].
Qed.

Lemma dispatches_internalHierarchyChanged_fuel fuel :
  dispatches c alive (internalHierarchyChanged_fuel fuel c) (fun _ _ => True).
Proof.
  destruct fuel as [| fuel]; simpl; [by apply dispatches_outOfFuel |].
  eapply dispatches_bind; [apply dispatches_invoke |]. intros ?; cbv beta.
  apply dispatches_get_bind. intros s1 _.
  destruct (shouldBailOut s1 c) eqn:Hb1; [by apply dispatches_ret |].
  eapply dispatches_bind with (R := fun _ _ => True).
  { eapply dispatches_conseq; [apply dispatches_callChecked | done | done]. }
  intros ?; cbv beta. apply dispatches_get_bind. intros s2 _.
  destruct (shouldBailOut s2 c) eqn:Hb2; [by apply dispatches_ret |].
  apply shouldBailOut_false in Hb2.
  apply (dispatches_at alive); [done |].
  eapply dispatches_bind.
  { apply dispatches_loopBackwards; [intros child; apply dispatches_nested |].
    intros s. apply shouldBailOut_false. }
  intros [|]; cbv beta.
  - unfold jassertfalse.
    eapply dispatches_conseq; [apply dispatches_jassert | intros s H; exact H | done].
  - by apply dispatches_ret.
Qed.

End Dispatch.

(** C5.  In the three dispatch loops every listener, every mouse listener
    of a parent and every child notification is called in a state in
    which the dispatching component is still alive: once a callback has
    deleted it, the checker is asked before anything else is called, and
    the dispatch returns.  (The steps inside a child's own
    [internalHierarchyChanged] are watched by the child's checker.) *)
Theorem dispatch_stops_after_deletion (this : CompId) (s : World) :
  (forall fuel k, calledWhileAlive this (trace (sendMouseEvent_fuel fuel this k s)))
  /\ (forall k, calledWhileAlive this (trace (sendMouseEvent this k s)))
  /\ (isAlive s this = true ->
      (forall wasMoved wasResized,
          calledWhileAlive this (trace (sendMovedResizedMessages this wasMoved wasResized s)))
      /\ (forall fuel,
             calledWhileAlive this (trace (internalHierarchyChanged_fuel fuel this s)))
      /\ calledWhileAlive this (trace (internalHierarchyChanged this s))).
Proof.
  split; [| split].
  - intros fuel k. by apply (dispatches_sendMouseEvent_fuel this fuel k s).
  - intros k. unfold sendMouseEvent.
    by apply (dispatches_sendMouseEvent_fuel this (fuelOf s) k s).
  - intros Hal. split; [| split].
    + intros wasMoved wasResized.
      by apply (dispatches_sendMovedResizedMessages this wasMoved wasResized s).
    + intros fuel. by apply (dispatches_internalHierarchyChanged_fuel this fuel s).
    + unfold internalHierarchyChanged.
      by apply (dispatches_internalHierarchyChanged_fuel this (fuelOf s) s).
Qed.

(** ** The message-manager lock *)

Lemma head_bind {A B} (m : M A) (f : A -> M B) s x :
  head (trace (m s)) = Some x -> head (trace (bind m f s)) = Some x.
Proof.
  unfold bind; simpl. destruct (trace (m s)) as [| y t]; [done |]. by intros [= ->].
Qed.

Lemma head_get_bind {B} (f : World -> M B) s x :
  head (trace (f s s)) = Some x -> head (trace (bind get f s)) = Some x.
Proof. unfold bind, get; simpl. done. Qed.

Lemma CHECK_unlocked s :
  JUCE_DEBUG = true -> lockHeld s = false ->
  head (trace (CHECK_MESSAGE_MANAGER_IS_LOCKED s)) = Some lockCheckFailure.
Proof.
  unfold lockHeld, CHECK_MESSAGE_MANAGER_IS_LOCKED, jassert. by intros -> ->.
Qed.

Lemma lockHeld_alter f c s : lockHeld (set_heap (alter f c (heap s)) s) = lockHeld s.
Proof. done. Qed.

(** [toBack] has no lock check of its own: on a component that is not
    visible, so that nothing is repainted, its first step is never the
    failed lock assertion. *)
Lemma toBack_head s c :
  visibleFlag (getFlags s c) = false ->
  head (trace (toBack c s)) <> Some lockCheckFailure.
Proof.
  intros Hvis. unfold toBack. cbn [bind get trace world value].
  destruct (isOnDesktop s c).
  { unfold jassertfalse. rewrite jassert_false. unfold assertionTrace.
    destruct JUCE_DEBUG; cbn [trace head]; discriminate. }
  destruct (getParentComponent s c) as [p |]; [| cbn; discriminate].
  cbv zeta.
  destruct (negb (bool_decide (Array.getFirst (childComponentList (the s p)) = Some c)));
    [| cbn; discriminate].
  destruct (0 <? Array.indexOf (childComponentList (the s p)) c) eqn:Hindex;
    [| cbn; discriminate].
  apply Z.ltb_lt in Hindex.
  assert (c ∈ childComponentList (the s p)) as Hin.
  { destruct (decide (c ∈ childComponentList (the s p))) as [| Hnin]; [done |].
    destruct (Array_indexOf_from_spec (childComponentList (the s p)) c 0) as [_ Hout];
      [lia |].
    unfold Array.indexOf in Hindex. rewrite (Hout Hnin) in Hindex. lia. }
  unfold moveChildInternal.
  match goal with |- context [negb (?a =? ?b)] => destruct (negb (a =? b)) end;
    [| cbn; discriminate].
  cbn [bind get trace world value].
  rewrite (Array_indexOf_elem_of _ _ Hin).
  rewrite bool_decide_eq_true_2 by eauto. rewrite jassert_true.
  cbn [bind get trace world value app].
  unfold repaintParent at 1. cbn [bind get trace world value]. rewrite Hvis.
  cbn [ret trace world value app modifyComp modify bind sendFakeMouseMove invoke head].
  discriminate.
Qed.

(** C4, as amended.  Called in a debug build by a thread that does not
    hold the message-manager lock, each of the listed operations records
    the failed assertion before anything else; [setVisible] does so when
    the requested visibility differs from the current one, and otherwise
    returns at once with no assertion and no change.  The operations take
    and release no lock: as long as the callbacks leave the lock alone,
    the thread holds it after an operation exactly if it held it
    before.  Not every operation that changes the state is among them:
    [toBack] has no assertion of its own, and on a component that is not
    visible it never starts with one. *)
Theorem mutators_check_lock (s : World) (c : CompId) :
  JUCE_DEBUG = true -> lockHeld s = false ->
  (forall name, head (trace (setName c name s)) = Some lockCheckFailure)
  /\ (forall b, visibleFlag (getFlags s c) <> b ->
                head (trace (setVisible c b s)) = Some lockCheckFailure)
  /\ (forall b, visibleFlag (getFlags s c) = b -> setVisible c b s = mkRes [] s tt)
  /\ (forall style, head (trace (addToDesktop c style s)) = Some lockCheckFailure)
  /\ head (trace (removeFromDesktop c s)) = Some lockCheckFailure
  /\ (forall x y w h, head (trace (setBounds c x y w h s)) = Some lockCheckFailure)
  /\ (forall child z, head (trace (addChildComponent c child z s)) = Some lockCheckFailure)
  /\ (forall index b1 b2,
         head (trace (removeChildComponent_index c index b1 b2 s)) = Some lockCheckFailure)
  /\ (forall child, head (trace (removeChildComponent c child s)) = Some lockCheckFailure)
  /\ (forall focus callback del,
         head (trace (enterModalState c focus callback del s)) = Some lockCheckFailure)
  /\ (forall l, head (trace (addComponentListener c l s)) = Some lockCheckFailure)
  /\ (forall l deep, head (trace (addMouseListener c l deep s)) = Some lockCheckFailure)
  /\ (forall x y w h, head (trace (internalRepaint c x y w h s)) = Some lockCheckFailure)
  /\ ((forall k s', lockHeld (cb k s') = lockHeld s') ->
      forall ops s', lockHeld (performAll ops s') = lockHeld s')
  /\ (visibleFlag (getFlags s c) = false ->
      head (trace (toBack c s)) <> Some lockCheckFailure).
Proof.
  intros Hdebug Hlock.
  pose proof (CHECK_unlocked s Hdebug Hlock) as Hcheck.
  repeat split; intros; [.. | by eapply toBack_head].
  - by apply head_bind.
  - unfold setVisible. apply head_get_bind.
    destruct (negb (eqb (visibleFlag (getFlags s c)) b)) eqn:Hb.
    + by apply head_bind.
    + apply negb_false_iff, eqb_prop in Hb. done.
  - unfold setVisible. apply res_eq; cbn [bind get trace world value];
      subst b; rewrite eqb_reflx; done.
  - by apply head_bind.
  - by apply head_bind.
  - by apply head_bind.
  - by apply head_bind.
  - by apply head_bind.
  - unfold removeChildComponent. apply head_get_bind. apply head_bind. by apply head_bind.
  - by apply head_bind.
  - by apply head_bind.
  - by apply head_bind.
  - unfold internalRepaint, fuelOf. cbn [internalRepaint_fuel]. by apply head_bind.
  - match goal with H : forall k s', _ |- _ => rename H into Hcb end.
    apply (preserves_performAll (fun s0 => lockHeld s0 = lockHeld s')); auto.
    intros k s0 Hs0. by rewrite Hcb.
Qed.

(** * Further properties *)

(** ** Showing and enabled *)

Lemma getTopLevelComponent_chain s c l :
  parentsAlive s -> chain s c l -> getTopLevelComponent s c = List.last l c.
Proof.
  intros Hpa Hl. unfold getTopLevelComponent.
  by rewrite (getTopLevelComponent_fuel_chain s c l _ Hl (chain_length _ _ _ Hpa Hl)).
Qed.

Lemma getPeer_fuel_chain_top s c l fuel :
  chain s c l -> (length l < fuel)%nat -> l = [] ->
  getPeer_fuel fuel s c
  = if isOnDesktop s c then getPeerFor (platform s) c else None.
Proof.
  intros Hc Hlen ->. inversion Hc as [c' Hnone |]; subst.
  destruct fuel as [| fuel]; [simpl in Hlen; lia |]. simpl. by rewrite Hnone.
Qed.

Lemma isShowing_fuel_chain s c l fuel :
  chain s c l -> (length l < fuel)%nat ->
  isShowing_fuel fuel s c
  = forallb (isVisible s) (c :: l)
    && match getPeer s (List.last l c) with
       | Some peer => negb (peer_isMinimised (platform s) peer)
       | None => false
       end.
Proof.
  intros Hc. revert fuel. induction Hc as [c Hc | c p l Hc Hp IH]; intros fuel Hlen.
  - destruct fuel as [| fuel]; [simpl in Hlen; lia |]. simpl. rewrite Hc.
    destruct (isVisible s c); [| done]. simpl. done.
  - destruct fuel as [| fuel]; [simpl in Hlen; lia |].
    cbn [isShowing_fuel]. rewrite Hc. rewrite last_chain_cons.
    cbn [forallb]. destruct (isVisible s c); [| done].
    rewrite IH by (simpl in Hlen; lia). done.
Qed.

(** [isShowing] answers [true] exactly for a visible component all of
    whose ancestors are visible and whose top-level component has a peer
    that is not minimised. *)
Theorem isShowing_iff (s : World) (c : CompId) :
  parentsAlive s -> acyclic s ->
  (isShowing s c = true
   <-> isVisible s c = true
       /\ (forall a, ancestorOf s a c -> isVisible s a = true)
       /\ exists peer, getPeer s (getTopLevelComponent s c) = Some peer
                       /\ peer_isMinimised (platform s) peer = false).
Proof.
  intros Hpa Hac. destruct (Hac c) as [l Hl].
  pose proof (chain_length _ _ _ Hpa Hl) as Hlen.
  unfold isShowing. rewrite (isShowing_fuel_chain s c l _ Hl Hlen).
  rewrite (getTopLevelComponent_chain s c l Hpa Hl). cbn [forallb].
  rewrite !andb_true_iff, forallb_forall.
  split.
  - intros [[Hvis Hall] Hpeer]. split; [done |]. split.
    + intros a Ha. apply Hall. apply list_elem_of_In.
      by apply (ancestorOf_chain _ _ _ _ Hl).
    + destruct (getPeer s (List.last l c)) as [peer |]; [| done].
      exists peer. split; [done |]. by apply negb_true_iff.
  - intros (Hvis & Hall & peer & Hpeer & Hmin). split; [split; [done |] |].
    + intros a Ha. apply Hall. apply (ancestorOf_chain _ _ _ _ Hl).
      by apply list_elem_of_In.
    + rewrite Hpeer. by rewrite Hmin.
Qed.

Lemma isEnabled_fuel_chain s c l fuel :
  chain s c l -> (length l < fuel)%nat ->
  isEnabled_fuel fuel s c
  = Some (forallb (fun x => negb (isDisabledFlag (getFlags s x))) (c :: l)).
Proof.
  intros Hc. revert fuel. induction Hc as [c Hc | c p l Hc Hp IH]; intros fuel Hlen.
  - destruct fuel as [| fuel]; [simpl in Hlen; lia |]. simpl. rewrite Hc.
    by destruct (isDisabledFlag _).
  - destruct fuel as [| fuel]; [simpl in Hlen; lia |].
    cbn [isEnabled_fuel forallb]. rewrite Hc.
    destruct (negb (isDisabledFlag (getFlags s c))); [| done].
    rewrite IH by (simpl in Hlen; lia). done.
Qed.

(** [isEnabled] returns, and answers [true] exactly when neither the
    component nor any of its ancestors is disabled: disabling a component
    disables all components below it. *)
Theorem isEnabled_iff (s : World) (c : CompId) :
  parentsAlive s -> acyclic s ->
  is_Some (isEnabled_fuel (fuelOf s) s c)
  /\ (isEnabled s c = true
      <-> isDisabledFlag (getFlags s c) = false
          /\ forall a, ancestorOf s a c -> isDisabledFlag (getFlags s a) = false).
Proof.
  intros Hpa Hac. destruct (Hac c) as [l Hl].
  pose proof (chain_length _ _ _ Hpa Hl) as Hlen.
  unfold isEnabled. rewrite (isEnabled_fuel_chain s c l _ Hl Hlen).
  split; [eauto |]. cbn [default from_option forallb]. unfold id.
  rewrite andb_true_iff, forallb_forall, negb_true_iff.
  split.
  - intros [Hc Hall]. split; [done |]. intros a Ha.
    apply negb_true_iff. apply Hall. apply list_elem_of_In.
    by apply (ancestorOf_chain _ _ _ _ Hl).
  - intros [Hc Hall]. split; [done |]. intros a Ha.
    apply negb_true_iff. apply Hall. apply (ancestorOf_chain _ _ _ _ Hl).
    by apply list_elem_of_In.
Qed.

(** ** The top-level component *)

Lemma chain_last_root s c l : chain s c l -> getParentComponent s (List.last l c) = None.
Proof.
  induction 1 as [c Hc | c p l Hc Hp IH]; [done |]. by rewrite last_chain_cons.
Qed.

Lemma chain_last_elem (c : CompId) (l : list CompId) : l <> [] -> List.last l c ∈ l.
Proof.
  induction l as [| x l IH]; [done |]. intros _.
  destruct l as [| y l]; [simpl; apply elem_of_cons; auto |].
  apply elem_of_cons. right. change (List.last (x :: y :: l) c) with (List.last (y :: l) c).
  by apply IH.
Qed.

Lemma isParentOf_chain s this c l :
  parentsAlive s -> chain s c l -> isParentOf s this (Some c) = bool_decide (this ∈ l).
Proof.
  intros Hpa Hl. unfold isParentOf.
  by rewrite (isParentOf_fuel_chain s this c l _ Hl (chain_length _ _ _ Hpa Hl)).
Qed.

(** The top-level component has no parent and is its own top-level
    component; it is a parent of every other component of its tree; and
    a component shares its top-level component with its parent and with
    everything [isParentOf] calls its parent. *)
Theorem getTopLevelComponent_tree (s : World) (c : CompId) :
  parentsAlive s -> acyclic s ->
  getParentComponent s (getTopLevelComponent s c) = None
  /\ getTopLevelComponent s (getTopLevelComponent s c) = getTopLevelComponent s c
  /\ (getTopLevelComponent s c <> c ->
      isParentOf s (getTopLevelComponent s c) (Some c) = true)
  /\ (forall a, isParentOf s a (Some c) = true ->
                getTopLevelComponent s a = getTopLevelComponent s c).
Proof.
  intros Hpa Hac. destruct (Hac c) as [l Hl].
  rewrite (getTopLevelComponent_chain s c l Hpa Hl).
  pose proof (chain_last_root s c l Hl) as Hroot.
  split; [done |]. split; [| split].
  - unfold getTopLevelComponent, fuelOf. cbn [getTopLevelComponent_fuel].
    by rewrite Hroot.
  - intros Hne. rewrite (isParentOf_chain s _ c l Hpa Hl).
    apply bool_decide_eq_true. apply chain_last_elem. intros ->. by apply Hne.
  - intros a Ha. rewrite (isParentOf_chain s _ c l Hpa Hl) in Ha.
    apply bool_decide_eq_true in Ha.
    clear Hroot. induction Hl as [c Hc | c p l Hc Hp IH].
    + by apply elem_of_nil in Ha.
    + rewrite last_chain_cons. apply elem_of_cons in Ha as [-> | Ha].
      * by apply getTopLevelComponent_chain.
      * by apply IH.
Qed.

(** ** What hit-testing can return *)

Lemma ancestorOf_parent_trans s a c r :
  ancestorOf s a r -> getParentComponent s a = Some c -> ancestorOf s c r.
Proof.
  induction 1 as [r Hr | r p Hr Hp IH]; intros Hc.
  - eapply ancestor_step; [exact Hr |]. by apply ancestor_parent.
  - eapply ancestor_step; [exact Hr |]. by apply IH.
Qed.

Lemma firstNonNull_Some {A B} (f : A -> option (option B)) (l : list A) (b : B) :
  firstNonNull f l = Some (Some b) -> exists a, a ∈ l /\ f a = Some (Some b).
Proof.
  induction l as [| a l IH]; [done |]. simpl.
  destruct (f a) as [[b' |] |] eqn:Hfa; [| | done].
  - intros [= ->]. exists a. split; [apply elem_of_cons; auto | done].
  - intros H. destruct (IH H) as (a' & Hin & Ha'). exists a'.
    split; [apply elem_of_cons; auto | done].
Qed.

Lemma getComponentAt_fuel_sound s :
  childrenPointBack s ->
  forall fuel c p r,
    getComponentAt_fuel fuel s c p = Some (Some r) ->
    (r = c \/ ancestorOf s c r)
    /\ isVisible s r = true
    /\ (exists q, ComponentHelpers_hitTest s r q = Some true)
    /\ isVisible s c = true
    /\ ComponentHelpers_hitTest s c p = Some true.
Proof.
  intros Hcp. induction fuel as [| fuel IH]; intros c p r; [done |].
  cbn [getComponentAt_fuel]. fold (isVisible s c).
  destruct (isVisible s c) eqn:Hvis; [| done].
  destruct (ComponentHelpers_hitTest s c p) as [[|] |] eqn:Hhit; [| done | done].
  destruct (firstNonNull _ _) as [[child |] |] eqn:Hfirst; [| | done].
  - intros [= ->].
    apply firstNonNull_Some in Hfirst as (a & Hin & Ha).
    apply (proj1 (elem_of_rev _ _)) in Hin.
    destruct (IH _ _ _ Ha) as (Hsub & Hv & Hq & _ & _).
    split; [| by eauto].
    destruct (children_alive_owner _ _ _ Hin) as (k & Hk & Hthe).
    rewrite Hthe in Hin. destruct (Hcp _ _ _ Hk Hin) as (ka & Hka & Hpar).
    assert (getParentComponent s a = Some c) as Hpa
      by (unfold getParentComponent; by rewrite (the_alive _ _ _ Hka)).
    right. destruct Hsub as [-> | Hanc].
    + by apply ancestor_parent.
    + by eapply ancestorOf_parent_trans.
  - intros [= ->]. split; [by left |]. split; [done |]. split; [by eauto | done].
Qed.

(** In a well-formed heap [getComponentAt] returns; what it returns is
    null, or the receiver, or a component below the receiver; the
    component it returns is visible and passes its own hit test, and so
    does the receiver.  For a point outside the bounds of the receiver
    and for an invisible receiver it returns null. *)
Theorem getComponentAt_result (s : World) (this : CompId) (p : Point) :
  wellFormed s ->
  (exists res, getComponentAt s this p = Some res
               /\ forall r, res = Some r ->
                    (r = this \/ ancestorOf s this r)
                    /\ isVisible s r = true
                    /\ (exists q, ComponentHelpers_hitTest s r q = Some true)
                    /\ isVisible s this = true
                    /\ ComponentHelpers_hitTest s this p = Some true)
  /\ (isPositiveAndBelow (pt_x p) (getWidth s this)
      && isPositiveAndBelow (pt_y p) (getHeight s this) = false ->
      getComponentAt s this p = Some None)
  /\ (isVisible s this = false -> getComponentAt s this p = Some None).
Proof.
  intros Hwf. split; [| split].
  - destruct (proj2 Hwf this) as [l Hl].
    destruct (getComponentAt_fuel_spec s Hwf (fuelOf s) this l p Hl) as (res & Hres & _).
    { unfold fuelOf. lia. }
    exists res. split; [done |]. intros r ->.
    destruct Hwf as [(_ & Hcp & _) _].
    by apply (getComponentAt_fuel_sound s Hcp (fuelOf s)).
  - intros Hout. unfold getComponentAt, fuelOf. cbn [getComponentAt_fuel].
    destruct (visibleFlag (getFlags s this)); [| done].
    unfold ComponentHelpers_hitTest, ComponentHelpers_hitTest_with. by rewrite Hout.
  - intros Hinv. unfold getComponentAt, fuelOf. cbn [getComponentAt_fuel].
    unfold isVisible in Hinv. by rewrite Hinv.
Qed.

(** ** Coordinates of distant components *)

Lemma Point_add_is_int a b : is_int_point (Point_add a b).
Proof. split; apply wrap_is_int. Qed.

Lemma Point_sub_is_int a b : is_int_point (Point_sub a b).
Proof. split; apply wrap_is_int. Qed.

Lemma Point_add_sub p d : is_int_point p -> Point_sub (Point_add p d) d = p.
Proof.
  destruct p as [x y]. intros [Hx Hy]. unfold Point_sub, Point_add. simpl in *.
  by rewrite !int_add_sub.
Qed.

Lemma Point_sub_add p d : is_int_point p -> Point_add (Point_sub p d) d = p.
Proof.
  destruct p as [x y]. intros [Hx Hy]. unfold Point_sub, Point_add. simpl in *.
  by rewrite !int_sub_add.
Qed.

Lemma ancestorOf_trans s a b c : ancestorOf s a b -> ancestorOf s b c -> ancestorOf s a c.
Proof.
  intros Hab. induction 1 as [c Hc | c p Hc Hp IH].
  - by eapply ancestor_step.
  - eapply ancestor_step; [exact Hc | exact IH].
Qed.

Lemma plainPath_ancestorOf s a c : plainPath s a c -> ancestorOf s a c.
Proof.
  induction 1 as [c Hc _ _ | c p Hc _ _ _ IH].
  - by apply ancestor_parent.
  - by eapply ancestor_step.
Qed.

Lemma isParentOf_of_descendant s a c :
  parentsAlive s -> acyclic s -> ancestorOf s a c -> isParentOf s c (Some a) = false.
Proof.
  intros Hpa Hac Ha. destruct (Hac a) as [la Hla].
  rewrite (isParentOf_chain s c a la Hpa Hla). apply bool_decide_eq_false.
  intros Hin. apply (ancestorOf_chain _ _ _ _ Hla) in Hin.
  apply (not_ancestorOf_self s a Hac). by eapply ancestorOf_trans.
Qed.

(** Climbing from [c] to its ancestor [a] and descending again. *)
Lemma plainPath_climb s a c :
  parentsAlive s -> acyclic s -> plainPath s a c ->
  forall p, is_int_point p ->
    exists q, is_int_point q
      /\ (forall fuel l, chain s c l -> (length l < fuel)%nat ->
            convertCoordinate_loop fuel s (Some a) (Some c) p = Some (Returned q))
      /\ (forall fuel l, chain s c l -> (length l < fuel)%nat ->
            convertFromDistantParentSpace_fuel fuel s a c q = Some p).
Proof.
  intros Hpa Hac. induction 1 as [c Hc Ht Hd | c p' Hc Ht Hd Hpath IH]; intros p Hp.
  - exists (convertToParentSpace s c p).
    assert (c <> a) as Hne.
    { intros ->. apply (not_ancestorOf_self s a Hac). by apply ancestor_parent. }
    unfold convertToParentSpace, convertFromParentSpace. rewrite Ht.
    split; [apply Point_add_is_int |]. split.
    + intros fuel l Hl Hlen.
      inversion Hl as [| c0 p0 l' Hc' Hl']; subst; [congruence |].
      destruct fuel as [| [| fuel]]; [simpl in Hlen; lia | simpl in Hlen; lia |].
      cbn [convertCoordinate_loop].
      destruct (decide (Some c = Some a)) as [[= ?] |]; [done |].
      rewrite (isParentOf_of_descendant s a c Hpa Hac) by (by apply ancestor_parent).
      rewrite Hd, Hc. unfold convertToParentSpace. rewrite Ht.
      by destruct (decide (Some a = Some a)).
    + intros fuel l Hl Hlen.
      destruct fuel as [| fuel]; [lia |].
      cbn [convertFromDistantParentSpace_fuel]. rewrite Hc.
      destruct (decide (a = a)); [| done].
      unfold convertFromParentSpace. rewrite Ht. by rewrite Point_add_sub.
  - destruct (IH (convertToParentSpace s c p)) as (q & Hq & Hup & Hdown).
    { unfold convertToParentSpace. rewrite Ht. apply Point_add_is_int. }
    pose proof (plainPath_ancestorOf _ _ _ Hpath) as Hanc.
    assert (ancestorOf s a c) as Hanc' by (by eapply ancestor_step).
    assert (c <> a) as Hne.
    { intros ->. by apply (not_ancestorOf_self s a Hac). }
    assert (p' <> a) as Hne'.
    { intros ->. by apply (not_ancestorOf_self s a Hac). }
    exists q. split; [done |]. split.
    + intros fuel l Hl Hlen.
      inversion Hl as [| c0 p0 l' Hc' Hl']; subst; [congruence |].
      assert (p0 = p') by congruence. subst p0.
      destruct fuel as [| fuel]; [simpl in Hlen; lia |].
      cbn [convertCoordinate_loop].
      destruct (decide (Some c = Some a)) as [[= ?] |]; [done |].
      rewrite (isParentOf_of_descendant s a c Hpa Hac Hanc').
      rewrite Hd, Hc. apply (Hup fuel l' Hl'). simpl in Hlen. lia.
    + intros fuel l Hl Hlen.
      inversion Hl as [| c0 p0 l' Hc' Hl']; subst; [congruence |].
      assert (p0 = p') by congruence. subst p0.
      destruct fuel as [| fuel]; [simpl in Hlen; lia |].
      cbn [convertFromDistantParentSpace_fuel]. rewrite Hc.
      destruct (decide (p' = a)); [done |].
      rewrite (Hdown fuel l' Hl') by (simpl in Hlen; lia).
      unfold convertFromParentSpace, convertToParentSpace. rewrite Ht.
      by rewrite Point_add_sub.
Qed.

(** Descending from the ancestor [a] to [c] and climbing again. *)
Lemma plainPath_descend s a c :
  parentsAlive s -> acyclic s -> plainPath s a c ->
  forall q, is_int_point q ->
    exists p, is_int_point p
      /\ (forall fuel l, chain s c l -> (length l < fuel)%nat ->
            convertFromDistantParentSpace_fuel fuel s a c q = Some p)
      /\ (forall fuel l, chain s c l -> (length l < fuel)%nat ->
            convertCoordinate_loop fuel s (Some a) (Some c) p = Some (Returned q)).
Proof.
  intros Hpa Hac. induction 1 as [c Hc Ht Hd | c p' Hc Ht Hd Hpath IH]; intros q Hq.
  - exists (convertFromParentSpace s c q).
    assert (c <> a) as Hne.
    { intros ->. apply (not_ancestorOf_self s a Hac). by apply ancestor_parent. }
    unfold convertFromParentSpace. rewrite Ht.
    split; [apply Point_sub_is_int |]. split.
    + intros fuel l Hl Hlen.
      destruct fuel as [| fuel]; [lia |].
      cbn [convertFromDistantParentSpace_fuel]. rewrite Hc.
      destruct (decide (a = a)); [| done].
      unfold convertFromParentSpace. by rewrite Ht.
    + intros fuel l Hl Hlen.
      inversion Hl as [| c0 p0 l' Hc' Hl']; subst; [congruence |].
      destruct fuel as [| [| fuel]]; [simpl in Hlen; lia | simpl in Hlen; lia |].
      cbn [convertCoordinate_loop].
      destruct (decide (Some c = Some a)) as [[= ?] |]; [done |].
      rewrite (isParentOf_of_descendant s a c Hpa Hac) by (by apply ancestor_parent).
      rewrite Hd, Hc. unfold convertToParentSpace. rewrite Ht.
      destruct (decide (Some a = Some a)); [| done].
      by rewrite Point_sub_add.
  - destruct (IH q Hq) as (p1 & Hp1 & Hdown & Hup).
    pose proof (plainPath_ancestorOf _ _ _ Hpath) as Hanc.
    assert (ancestorOf s a c) as Hanc' by (by eapply ancestor_step).
    assert (c <> a) as Hne.
    { intros ->. by apply (not_ancestorOf_self s a Hac). }
    assert (p' <> a) as Hne'.
    { intros ->. by apply (not_ancestorOf_self s a Hac). }
    exists (convertFromParentSpace s c p1).
    unfold convertFromParentSpace. rewrite Ht.
    split; [apply Point_sub_is_int |]. split.
    + intros fuel l Hl Hlen.
      inversion Hl as [| c0 p0 l' Hc' Hl']; subst; [congruence |].
      assert (p0 = p') by congruence. subst p0.
      destruct fuel as [| fuel]; [simpl in Hlen; lia |].
      cbn [convertFromDistantParentSpace_fuel]. rewrite Hc.
      destruct (decide (p' = a)); [done |].
      rewrite (Hdown fuel l' Hl') by (simpl in Hlen; lia).
      unfold convertFromParentSpace. by rewrite Ht.
    + intros fuel l Hl Hlen.
      inversion Hl as [| c0 p0 l' Hc' Hl']; subst; [congruence |].
      assert (p0 = p') by congruence. subst p0.
      destruct fuel as [| fuel]; [simpl in Hlen; lia |].
      cbn [convertCoordinate_loop].
      destruct (decide (Some c = Some a)) as [[= ?] |]; [done |].
      rewrite (isParentOf_of_descendant s a c Hpa Hac Hanc').
      rewrite Hd, Hc. unfold convertToParentSpace. rewrite Ht.
      rewrite Point_sub_add by done.
      apply (Hup fuel l' Hl'). simpl in Hlen. lia.
Qed.

(** Between a component and an ancestor of it, with no transform and no
    native window on the way, [getLocalPoint] converts in both
    directions, and the two conversions are inverse to each other on
    [int] points; a point of the component itself is left as it is. *)
Theorem getLocalPoint_roundtrip
    (peer_globalToLocal : Platform -> PeerId -> Point -> Point)
    (s : World) (a c : CompId) (p : Point) :
  parentsAlive s -> acyclic s -> plainPath s a c -> is_int_point p ->
  (exists q, getLocalPoint peer_globalToLocal s a (Some c) p = Some q
             /\ getLocalPoint peer_globalToLocal s c (Some a) q = Some p)
  /\ (exists q, getLocalPoint peer_globalToLocal s c (Some a) p = Some q
                /\ getLocalPoint peer_globalToLocal s a (Some c) q = Some p)
  /\ getLocalPoint peer_globalToLocal s c (Some c) p = Some p.
Proof.
  intros Hpa Hac Hpath Hp. destruct (Hac c) as [l Hl].
  pose proof (chain_length _ _ _ Hpa Hl) as Hlen.
  pose proof (plainPath_ancestorOf _ _ _ Hpath) as Hanc.
  assert (a <> c) as Hne.
  { intros ->. by apply (not_ancestorOf_self s c Hac). }
  assert (isParentOf s a (Some c) = true) as Hpar.
  { rewrite (isParentOf_chain s a c l Hpa Hl). apply bool_decide_eq_true.
    by apply (ancestorOf_chain _ _ _ _ Hl). }
  assert (forall q, getLocalPoint peer_globalToLocal s c (Some a) q
                    = convertFromDistantParentSpace_fuel (fuelOf s) s a c q) as Hdownward.
  { intros q. unfold getLocalPoint, convertCoordinate, fuelOf.
    cbn [convertCoordinate_loop].
    destruct (decide (Some a = Some c)) as [[= ?] |]; [done |].
    rewrite Hpar. unfold convertFromDistantParentSpace, fuelOf.
    by destruct (convertFromDistantParentSpace_fuel _ s a c q). }
  assert (forall q r, convertCoordinate_loop (fuelOf s) s (Some a) (Some c) q
                      = Some (Returned r) ->
                      getLocalPoint peer_globalToLocal s a (Some c) q = Some r) as Hupward.
  { intros q r Hr. unfold getLocalPoint, convertCoordinate. by rewrite Hr. }
  split; [| split].
  - destruct (plainPath_climb s a c Hpa Hac Hpath p Hp) as (q & _ & Hup & Hdown).
    exists q. split; [apply Hupward, (Hup _ l Hl Hlen) |].
    rewrite Hdownward. apply (Hdown _ l Hl Hlen).
  - destruct (plainPath_descend s a c Hpa Hac Hpath p Hp) as (q & _ & Hdown & Hup).
    exists q. split; [rewrite Hdownward; apply (Hdown _ l Hl Hlen) |].
    apply Hupward, (Hup _ l Hl Hlen).
  - unfold getLocalPoint, convertCoordinate, fuelOf. cbn [convertCoordinate_loop].
    by destruct (decide (Some c = Some c)).
Qed.

(** ** Mouse listeners come and go *)

Lemma Array_insert_front {A} (l : list A) (x : A) : Array.insert l 0 x = x :: l.
Proof.
  unfold Array.insert, Array.size, isPositiveAndBelow.
  destruct l as [| y l]; [done |]. simpl. done.
Qed.

Lemma Array_indexOf_spec {A} `{EqDecision A} (l : list A) (x : A) :
  (x ∈ l -> 0 <= Array.indexOf l x < Array.size l
            /\ l !! Z.to_nat (Array.indexOf l x) = Some x)
  /\ (x ∉ l -> Array.indexOf l x = -1).
Proof.
  destruct (Array_indexOf_from_spec l x 0) as [Hin Hout]; [lia |].
  split; [| done]. intros Hx. destruct (Hin Hx) as [Hle Hl].
  unfold Array.indexOf, Array.size.
  replace (Array.indexOf_from l x 0 - 0) with (Array.indexOf_from l x 0) in Hl by lia.
  pose proof (lookup_lt_Some _ _ _ Hl). split; [lia | done].
Qed.

Lemma Array_indexOf_last {A} `{EqDecision A} (l : list A) (x : A) :
  x ∉ l -> Array.indexOf (l ++ [x]) x = Array.size l.
Proof.
  intros Hni. destruct (Array_indexOf_spec (l ++ [x]) x) as [Hin _].
  destruct Hin as [Hrange Hl]; [apply elem_of_app; right; apply elem_of_cons; auto |].
  unfold Array.size in *. rewrite length_app in Hrange. simpl in Hrange.
  destruct (decide (Z.to_nat (Array.indexOf (l ++ [x]) x) < length l)%nat) as [Hlt | Hge].
  - rewrite lookup_app_l in Hl by done. exfalso. apply Hni.
    by eapply list_elem_of_lookup_2.
  - lia.
Qed.

Lemma Array_remove_last {A} (l : list A) (x : A) :
  Array.remove (l ++ [x]) (Array.size l) = l.
Proof.
  unfold Array.remove, Array.size. rewrite length_app. simpl.
  replace (isPositiveAndBelow (Z.of_nat (length l)) (Z.of_nat (length l + 1))) with true
    by (symmetry; apply isPositiveAndBelow_spec; lia).
  rewrite Nat2Z.id. rewrite delete_take_drop.
  rewrite take_app_length. rewrite drop_ge; [by rewrite app_nil_r |].
  rewrite length_app. simpl. lia.
Qed.

Lemma Array_remove_size {A} (l : list A) (i : Z) (x : A) :
  Array.get l i = Some x -> Array.size (Array.remove l i) = Array.size l - 1.
Proof.
  intros Hget. rewrite (Array_remove_delete _ _ _ Hget).
  apply Array_get_Some in Hget as [H0 Hl]. unfold Array.size.
  rewrite length_delete by eauto. apply lookup_lt_Some in Hl. lia.
Qed.

Lemma is_int_small z : 0 <= z < int_half -> is_int z.
Proof. unfold is_int, int_half. lia. Qed.

(** [addListener] and [removeListener] keep the list free of duplicates
    and the count of deep listeners within the list.  A listener that was
    not registered is gone after it has been added and removed again,
    whichever way it was added, and the list is as before; adding a
    registered listener again changes nothing, also when the second call
    asks for another depth; removing a listener that is not registered
    changes nothing. *)
Theorem mouseListeners_add_remove (m : MouseListenerList) (l : ListenerId) (deep : bool) :
  listenersOk m -> Array.size (listeners m) < int_half - 1 ->
  listenersOk (MouseListenerList_addListener m l deep)
  /\ listenersOk (MouseListenerList_removeListener m l)
  /\ (l ∉ listeners (MouseListenerList_removeListener m l))
  /\ (l ∉ listeners m ->
      MouseListenerList_removeListener (MouseListenerList_addListener m l deep) l = m
      /\ MouseListenerList_removeListener m l = m)
  /\ (forall deep',
        MouseListenerList_addListener (MouseListenerList_addListener m l deep) l deep'
        = MouseListenerList_addListener m l deep).
Proof.
  destruct m as [ls n]. intros [Hnd Hn] Hsize. simpl in *.
  assert (int_add n 1 = n + 1) as Hadd.
  { unfold int_add. apply wrap_id. unfold is_int, int_half in *. lia. }
  assert (forall k, 0 < k <= n -> int_sub k 1 = k - 1) as Hsub.
  { intros k Hk. unfold int_sub. apply wrap_id. unfold is_int, int_half in *. lia. }
  destruct (Array_indexOf_spec ls l) as [Hin Hout].
  assert (listenersOk (MouseListenerList_addListener (mkMouseListenerList ls n) l deep))
    as Hok_add.
  { unfold MouseListenerList_addListener, Array.contains. simpl.
    destruct (decide (l ∈ ls)) as [Hl | Hl].
    - rewrite bool_decide_eq_true_2 by done. simpl. by split.
    - rewrite bool_decide_eq_false_2 by done. simpl. destruct deep; split; simpl.
      + rewrite Array_insert_front. by constructor.
      + rewrite Array_insert_front, Hadd. unfold Array.size in *. simpl length. lia.
      + unfold Array.add. apply NoDup_app. split; [done |]. split; [| apply NoDup_singleton].
        intros x Hx Hx'. apply list_elem_of_singleton in Hx'. by subst.
      + unfold Array.add, Array.size in *. rewrite length_app. simpl. lia. }
  assert (listenersOk (MouseListenerList_removeListener (mkMouseListenerList ls n) l)
          /\ l ∉ listeners (MouseListenerList_removeListener (mkMouseListenerList ls n) l))
    as [Hok_rem Hgone].
  { unfold MouseListenerList_removeListener. simpl.
    destruct (decide (l ∈ ls)) as [Hl | Hl].
    - destruct (Hin Hl) as [Hrange Hlook].
      replace (0 <=? Array.indexOf ls l) with true by (symmetry; apply Z.leb_le; lia).
      assert (Array.get ls (Array.indexOf ls l) = Some l) as Hget
        by (apply Array_get_Some; split; [lia | done]).
      split; [split |]; simpl.
      + by apply Array_remove_NoDup.
      + rewrite (Array_remove_size _ _ _ Hget).
        destruct (Z.ltb_spec (Array.indexOf ls l) n); [rewrite Hsub by lia |]; lia.
      + by apply Array_remove_not_elem_of.
    - rewrite (Hout Hl). simpl. by split. }
  split; [done |]. split; [done |]. split; [done |]. split.
  - intros Hl. split.
    + unfold MouseListenerList_addListener, Array.contains. simpl.
      rewrite bool_decide_eq_false_2 by done. simpl. destruct deep.
      * rewrite Array_insert_front. unfold MouseListenerList_removeListener. simpl.
        unfold Array.indexOf. simpl. destruct (decide (l = l)); [| done]. simpl.
        replace (0 <? int_add n 1) with true by (symmetry; apply Z.ltb_lt; lia).
        rewrite Hadd. f_equal. unfold int_sub. replace (n + 1 - 1) with n by lia.
        apply wrap_id. unfold is_int, int_half in *. lia.
      * unfold Array.add, MouseListenerList_removeListener. simpl.
        rewrite (Array_indexOf_last ls l Hl).
        replace (0 <=? Array.size ls) with true
          by (symmetry; apply Z.leb_le; unfold Array.size; lia).
        rewrite Array_remove_last.
        replace (Array.size ls <? n) with false by (symmetry; apply Z.ltb_ge; lia).
        done.
    + unfold MouseListenerList_removeListener. simpl. by rewrite (Hout Hl).
  - intros deep'.
    assert (l ∈ listeners (MouseListenerList_addListener (mkMouseListenerList ls n) l deep))
      as Hreg.
    { unfold MouseListenerList_addListener, Array.contains. simpl.
      destruct (decide (l ∈ ls)) as [Hl | Hl].
      - by rewrite bool_decide_eq_true_2 by done.
      - rewrite bool_decide_eq_false_2 by done. simpl. destruct deep; simpl.
        + rewrite Array_insert_front. apply elem_of_cons; auto.
        + apply elem_of_app. right. apply elem_of_cons; auto. }
    unfold MouseListenerList_addListener at 1. unfold Array.contains.
    by rewrite bool_decide_eq_true_2 by done.
Qed.

(** ** Operations that only notify *)

Lemma coreOf_childFocus b k :
  coreOf (set_flags (set_childCompFocusedFlag b (flags k)) k) = coreOf k.
Proof. by destruct k as [? ? ? ? ? ? ? ? []]. Qed.

Lemma coreOf_buffered b k : coreOf (set_bufferedImageIsNull b k) = coreOf k.
Proof. by destruct k as [? ? ? ? ? ? ? ? []]. Qed.

Lemma coreOf_idemp k : coreOf (coreOf k) = coreOf k.
Proof. by destruct k as [? ? ? ? ? ? ? ? []]. Qed.

Section Notify.

(** An invariant that callbacks keep and that does not look at the
    buffered image, at [childCompFocusedFlag] or at the focused
    component. *)
Variable I : World -> Prop.
Hypothesis I_cb : forall k s, I s -> I (cb k s).
Hypothesis I_focus : forall o s, I s -> I (set_currentlyFocusedComponent o s).
Hypothesis I_cosmetic :
  forall c f s, (forall k, coreOf (f k) = coreOf k) ->
                I s -> I (set_heap (alter f c (heap s)) s).

Lemma notify_childFocus c b : preserves I (modifyFlags c (set_childCompFocusedFlag b)).
Proof. intros s Hs. simpl. apply I_cosmetic; [| done]. apply coreOf_childFocus. Qed.

Lemma notify_buffered c b : preserves I (modifyComp c (set_bufferedImageIsNull b)).
Proof. intros s Hs. simpl. apply I_cosmetic; [| done]. apply coreOf_buffered. Qed.

Ltac notify_step :=
  match goal with
  | |- preserves _ (ret _) => apply preserves_ret
  | |- preserves _ get => apply preserves_get
  | |- preserves _ (outOfFuel _) => apply preserves_outOfFuel
  | |- preserves _ (bind _ _) => apply preserves_bind; [| intros ?]
  | |- preserves _ (invoke _) => apply preserves_invoke; assumption
  | |- preserves _ (jassert _ _) => apply preserves_jassert
  | |- preserves _ (jassertfalse _) => apply preserves_jassert
  | |- preserves _ CHECK_MESSAGE_MANAGER_IS_LOCKED => apply preserves_CHECK
  | |- preserves _ (nested _ _) => apply preserves_nested
  | |- preserves _ (loopBackwards _ _ _ _ _ _) => apply preserves_loopBackwards; intros ?
  | |- preserves _ (modifyFlags _ (set_childCompFocusedFlag _)) => apply notify_childFocus
  | |- preserves _ (modifyComp _ (set_bufferedImageIsNull _)) => apply notify_buffered
  | |- preserves _ (modify (set_currentlyFocusedComponent _)) =>
      apply preserves_setFocus; assumption
  | |- preserves _ (if ?b then _ else _) => destruct b
  | |- preserves _ (match ?x with _ => _ end) => destruct x
  end.
Ltac notify := repeat (cbv zeta; notify_step); eauto.

Lemma notify_callChecked_fuel fuel this call index :
  preserves I (callChecked_fuel fuel this call index).
Proof. revert index. induction fuel as [| fuel IH]; intros index; simpl; notify. Qed.

Lemma notify_callChecked this call : preserves I (callChecked this call).
Proof. intros s Hs. unfold callChecked. by apply notify_callChecked_fuel. Qed.
Local Hint Resolve notify_callChecked : core.

Lemma notify_sendMouseEvent_parents fuel comp k p :
  preserves I (sendMouseEvent_parents fuel comp k p).
Proof. revert p. induction fuel as [| fuel IH]; intros p; simpl; notify. Qed.

Lemma notify_sendMouseEvent comp k : preserves I (sendMouseEvent comp k).
Proof.
  intros s Hs. unfold sendMouseEvent.
  assert (preserves I (sendMouseEvent_fuel (fuelOf s) comp k)) as H; [| by apply H].
  unfold sendMouseEvent_fuel. notify. apply notify_sendMouseEvent_parents.
Qed.
Local Hint Resolve notify_sendMouseEvent : core.

Lemma notify_sendMovedResizedMessages this wasMoved wasResized :
  preserves I (sendMovedResizedMessages this wasMoved wasResized).
Proof. unfold sendMovedResizedMessages. notify. Qed.
Local Hint Resolve notify_sendMovedResizedMessages : core.

Lemma notify_internalChildrenChanged this : preserves I (internalChildrenChanged this).
Proof. unfold internalChildrenChanged. notify. Qed.
Local Hint Resolve notify_internalChildrenChanged : core.

Lemma notify_internalHierarchyChanged_fuel fuel this :
  preserves I (internalHierarchyChanged_fuel fuel this).
Proof. revert this. induction fuel as [| fuel IH]; intros this; simpl; notify. Qed.

Lemma notify_internalHierarchyChanged this : preserves I (internalHierarchyChanged this).
Proof. intros s Hs. by apply notify_internalHierarchyChanged_fuel. Qed.
Local Hint Resolve notify_internalHierarchyChanged : core.

Lemma notify_internalRepaint_fuel fuel this x y w h :
  preserves I (internalRepaint_fuel fuel this x y w h).
Proof.
  revert this x y w h. induction fuel as [| fuel IH]; intros this x y w h; simpl; notify.
Qed.

Lemma notify_internalRepaint this x y w h : preserves I (internalRepaint this x y w h).
Proof. intros s Hs. by apply notify_internalRepaint_fuel. Qed.
Local Hint Resolve notify_internalRepaint : core.

Lemma notify_repaintParent this : preserves I (repaintParent this).
Proof. unfold repaintParent. notify. Qed.
Local Hint Resolve notify_repaintParent : core.

Lemma notify_repaint this : preserves I (repaint this).
Proof. unfold repaint, repaint_area. notify. Qed.
Local Hint Resolve notify_repaint : core.

Lemma notify_sendFakeMouseMove : preserves I sendFakeMouseMove.
Proof. unfold sendFakeMouseMove. notify. Qed.
Local Hint Resolve notify_sendFakeMouseMove : core.

Lemma notify_internalChildFocusChange_fuel fuel this cause :
  preserves I (internalChildFocusChange_fuel fuel this cause).
Proof. revert this. induction fuel as [| fuel IH]; intros this; simpl; notify. Qed.

Lemma notify_internalFocusLoss this cause : preserves I (internalFocusLoss this cause).
Proof.
  unfold internalFocusLoss. notify.
  intros s Hs. by apply notify_internalChildFocusChange_fuel.
Qed.
Local Hint Resolve notify_internalFocusLoss : core.

Lemma notify_giveAwayFocus b : preserves I (giveAwayFocus b).
Proof. unfold giveAwayFocus. notify. Qed.
Local Hint Resolve notify_giveAwayFocus : core.

Lemma notify_grabKeyboardFocus this : preserves I (grabKeyboardFocus this).
Proof. unfold grabKeyboardFocus, grabFocusInternal. notify. Qed.
Local Hint Resolve notify_grabKeyboardFocus : core.

Lemma notify_internalBroughtToFront this : preserves I (internalBroughtToFront this).
Proof. unfold internalBroughtToFront. notify. Qed.

Lemma notify_sendVisibilityChangeMessage this :
  preserves I (sendVisibilityChangeMessage this).
Proof. unfold sendVisibilityChangeMessage. notify. Qed.

Lemma notify_internalModalInputAttempt : preserves I internalModalInputAttempt.
Proof. unfold internalModalInputAttempt. notify. Qed.

End Notify.

(** ** The tree shape *)

Lemma isOnDesktop_alter s c (f : Component -> Component) child :
  (forall k, hasHeavyweightPeerFlag (flags (f k)) = hasHeavyweightPeerFlag (flags k)) ->
  isOnDesktop (set_heap (alter f c (heap s)) s) child = isOnDesktop s child.
Proof.
  intros Hf. unfold isOnDesktop, getFlags, the. simpl. rewrite lookup_alter.
  destruct (decide (c = child)) as [-> |]; [| done].
  destruct (heap s !! child); simpl; [apply Hf | done].
Qed.

(** [addChildComponent] takes a child without a parent off the desktop,
    and it stays off as long as no callback puts it back. *)
Lemma addChildComponent_offDesktop s this child z :
  (forall k s0, isOnDesktop s0 child = false -> isOnDesktop (cb k s0) child = false) ->
  getParentComponent s child = None ->
  isOnDesktop (world (addChildComponent this (Some child) z s)) child = false.
Proof.
  intros Hcb Hnone. set (I := fun s0 : World => isOnDesktop s0 child = false).
  assert (forall c f s0,
             (forall k, hasHeavyweightPeerFlag (flags (f k))
                        = hasHeavyweightPeerFlag (flags k)) ->
             I s0 -> I (set_heap (alter f c (heap s0)) s0)) as I_alter.
  { intros c f s0 Hf Hs0. unfold I. by rewrite isOnDesktop_alter. }
  assert (hoare (fun s' => s' = s) (addChildComponent this (Some child) z) (fun _ => I))
    as Hh; [| exact (Hh s eq_refl)].
  unfold addChildComponent.
  eapply hoare_bind with (R := fun _ s' => s' = s).
  { intros s' ->. apply CHECK_world. }
  intros ?; cbv beta. apply hoare_get_bind. intros s0 ->. rewrite Hnone.
  rewrite bool_decide_eq_false_2 by done.
  eapply hoare_bind with (R := fun _ => I).
  { unfold removeFromDesktop.
    eapply hoare_bind with (R := fun _ s' => s' = s).
    { intros s' ->. apply CHECK_world. }
    intros ?; cbv beta. apply hoare_get_bind. intros s1 ->.
    destruct (hasHeavyweightPeerFlag (getFlags s child)) eqn:Hheavy.
    - eapply hoare_bind with (R := fun _ => I).
      { intros s' ->. unfold I, isOnDesktop, getFlags, the. simpl.
        rewrite lookup_alter. destruct (decide (child = child)); [| done].
        by destruct (heap s !! child). }
      intros ?; cbv beta. apply hoare_preserves.
      apply preserves_bind; [apply preserves_jassert | intros ?].
      apply preserves_bind; [by apply preserves_invoke | intros ?].
      by apply preserves_invoke.
    - apply hoare_ret. by intros s' ->. }
  intros ?; cbv beta. apply hoare_preserves.
  apply preserves_bind; [| intros ?].
  { intros s' Hs'. apply I_alter; [by intros [] | done]. }
  apply preserves_bind; [apply preserves_get | intros s1].
  apply preserves_bind; [| intros ?].
  { destruct (isVisible s1 child); [by apply notify_repaintParent | apply preserves_ret]. }
  apply preserves_bind; [apply preserves_get | intros s2]. cbv zeta.
  apply preserves_bind; [| intros ?].
  { intros s' Hs'. apply I_alter; [by intros [] | done]. }
  apply preserves_bind; [by apply notify_internalHierarchyChanged | intros ?].
  by apply notify_internalChildrenChanged.
Qed.

Section Tree.

(** The code behind the callbacks leaves the parent pointers, the child
    lists and the set of live components as they are. *)
Hypothesis cb_hier : forall k s, hier (cb k s) = hier s.

(** C9, as amended.  On a well-formed tree, and while the code behind
    the callbacks leaves parent pointers, child lists and the set of
    live components alone, [addChildComponent] and
    [removeChildComponent] come to their end and keep the tree
    well-formed: every entry of a child list points back to the owner
    of the list, so a component stands in the list of at most one
    parent, no list holds a component twice, and no parent chain runs
    in a circle.  [addChildComponent], given a child that is neither
    the receiver nor one of its ancestors, makes the receiver the
    child's parent; a child that came from elsewhere is in the
    receiver's list and in no other list (it has left the list of its
    previous parent), and a child that had no parent is not on the
    desktop afterwards, unless a callback puts it there.
    [removeChildComponent] returns the entry at the index, removes that
    entry from the list and clears the parent pointer of the child. *)
Theorem hierarchy_keeps_tree_shape (s : World) (this : CompId) :
  wellFormed s -> is_Some (heap s !! this) ->
  (forall child z,
      is_Some (heap s !! child) -> child <> this -> ~ ancestorOf s child this ->
      let r := addChildComponent this (Some child) z s in
      let s' := world r in
      finished (trace r) = true
      /\ wellFormed s'
      /\ getParentComponent s' child = Some this
      /\ (getParentComponent s child <> Some this ->
          child ∈ childComponentList (the s' this)
          /\ forall p, p <> this -> child ∉ childComponentList (the s' p))
      /\ ((forall k s0, isOnDesktop s0 child = false ->
                        isOnDesktop (cb k s0) child = false) ->
          getParentComponent s child = None -> isOnDesktop s' child = false))
  /\ (forall index b1 b2,
        let r := removeChildComponent_index this index b1 b2 s in
        finished (trace r) = true
        /\ wellFormed (world r)
        /\ value r = Array.get (childComponentList (the s this)) index
        /\ forall child,
             value r = Some child ->
             getParentComponent (world r) child = None
             /\ childComponentList (the (world r) this)
                = Array.remove (childComponentList (the s this)) index
             /\ child ∉ childComponentList (the (world r) this)).
Proof.
  intros Hwf Hthis. pose proof (proj1 (wellFormed_wellFormedH s) Hwf) as HwfH.
  pose proof (proj1 HwfH) as HtsH.
  apply hier_is_Some in Hthis. split.
  - intros child z Hchild Hself Habove r s'. apply hier_is_Some in Hchild.
    assert (forall l, chainH (hier s) this l -> child ∉ l) as HaboveH.
    { intros l Hl Hin. apply Habove. apply chain_chainH in Hl.
      by apply (ancestorOf_chain s child this l Hl). }
    assert ((forall k s0, isOnDesktop s0 child = false ->
                          isOnDesktop (cb k s0) child = false) ->
            getParentComponent s child = None -> isOnDesktop s' child = false) as Hdesk.
    { intros Hcb Hnone. by apply addChildComponent_offDesktop. }
    destruct (decide (hParent (hier s) child = Some this)) as [Heq | Hne].
    + destruct (finishes_addChildComponent_same cb_hier (hier s) this child z Heq
                  s eq_refl) as [Hfin Hs'].
      fold r in Hfin. unfold atH in Hs'. fold r s' in Hs'.
      split; [exact Hfin |]. split; [| split; [| split; [| exact Hdesk]]].
      * apply wellFormed_wellFormedH. by rewrite Hs'.
      * by rewrite <- hParent_hier, Hs'.
      * rewrite <- hParent_hier. done.
    + destruct (finishes_addChildComponent cb_hier (hier s) this child z
                  HwfH Hthis Hchild Hself HaboveH Hne s eq_refl) as [Hfin [z' Hs']].
      fold r in Hfin. unfold atH in Hs'. fold r s' in Hs'.
      assert (is_Some (hSetParent child (Some this) (hDetach child (hier s)) !! this))
        as Hthis' by (by apply hSetParent_is_Some, hDetach_is_Some).
      split; [exact Hfin |]. split; [| split; [| split; [| exact Hdesk]]].
      * apply wellFormed_wellFormedH. rewrite Hs'. by apply wellFormedH_adopt.
      * rewrite <- hParent_hier, Hs', hParent_hSetChildren.
        apply hParent_hSetParent_eq. by apply hDetach_is_Some.
      * intros _. split.
        -- rewrite <- hChildren_hier, Hs', hChildren_hSetChildren_eq by done.
           apply Array_insert_elem_of. auto.
        -- intros p Hp.
           rewrite <- hChildren_hier, Hs', hChildren_hSetChildren_ne by done.
           rewrite hChildren_hSetParent. by apply hDetach_free.
  - intros index b1 b2 r.
    destruct (finishes_removeChildComponent_index cb_hier (hier s) this index b1 b2
                HwfH s eq_refl) as [Hfin Hr].
    fold r in Hfin, Hr. split; [exact Hfin |]. rewrite <- hChildren_hier.
    destruct (Array.get (hChildren (hier s) this) index) as [child |] eqn:Hget.
    + destruct Hr as [Hv Hr]. unfold atH in Hr. split; [| split; [done |]].
      * apply wellFormed_wellFormedH. rewrite Hr. by apply wellFormedH_remove.
      * intros child' Hv'. assert (child' = child) by congruence. subst child'.
        assert (child ∈ hChildren (hier s) this) as Hin.
        { apply Array_get_Some in Hget as [_ Hl]. by eapply list_elem_of_lookup_2. }
        destruct HtsH as (_ & Hcp & Hnd). destruct (Hcp _ _ Hin) as [Hal _].
        rewrite <- hParent_hier, <- hChildren_hier, Hr.
        rewrite hChildren_hSetParent, hChildren_hSetChildren_eq by done.
        split; [| split; [done |]].
        -- apply hParent_hSetParent_eq. by apply hSetChildren_is_Some.
        -- by apply Array_remove_not_elem_of.
    + destruct Hr as [Hv Hr]. unfold atH in Hr. split; [| split; [done |]].
      * apply wellFormed_wellFormedH. by rewrite Hr.
      * intros child Hc. congruence.
Qed.

End Tree.

(** ** Reading through the core *)

Lemma callsOf_app t1 t2 : callsOf (t1 ++ t2) = callsOf t1 ++ callsOf t2.
Proof. unfold callsOf. apply flat_map_app. Qed.

Lemma core_lookup s c : core s !! c = coreOf <$> heap s !! c.
Proof. unfold core. apply lookup_fmap. Qed.

Lemma the_core s c : coreOf (the s c) = theOf (core s) c.
Proof.
  unfold the, theOf. rewrite core_lookup. by destruct (heap s !! c).
Qed.

Lemma core_the s s' c : core s = core s' -> coreOf (the s c) = coreOf (the s' c).
Proof. intros H. by rewrite !the_core, H. Qed.

Lemma core_isAlive s s' c : core s = core s' -> isAlive s c = isAlive s' c.
Proof.
  intros H. unfold isAlive. apply bool_decide_ext.
  rewrite <- (fmap_is_Some coreOf (heap s !! c)).
  rewrite <- (fmap_is_Some coreOf (heap s' !! c)).
  rewrite <- !core_lookup. by rewrite H.
Qed.

Lemma core_bounds s s' c : core s = core s' -> bounds (the s c) = bounds (the s' c).
Proof.
  intros H. apply (core_the _ _ c) in H. exact (f_equal bounds H).
Qed.

Lemma core_parent s s' c :
  core s = core s' -> getParentComponent s c = getParentComponent s' c.
Proof.
  intros H. apply (core_the _ _ c) in H. unfold getParentComponent. exact (f_equal parentComponent H).
Qed.

Lemma core_children s s' c :
  core s = core s' -> childComponentList (the s c) = childComponentList (the s' c).
Proof.
  intros H. apply (core_the _ _ c) in H. exact (f_equal childComponentList H).
Qed.

Lemma core_mouseListeners s s' c :
  core s = core s' -> mouseListeners (the s c) = mouseListeners (the s' c).
Proof.
  intros H. apply (core_the _ _ c) in H. exact (f_equal mouseListeners H).
Qed.

Lemma core_flags s s' c :
  core s = core s' ->
  set_childCompFocusedFlag false (getFlags s c)
  = set_childCompFocusedFlag false (getFlags s' c).
Proof.
  intros H. apply (core_the _ _ c) in H. unfold getFlags. exact (f_equal flags H).
Qed.

Lemma core_alter (f : Component -> Component) g c s :
  (forall k, coreOf (f k) = g (coreOf k)) ->
  core (set_heap (alter f c (heap s)) s) = alter g c (core s).
Proof.
  intros Hfg. apply map_eq. intros i. unfold core; simpl.
  rewrite lookup_fmap, !lookup_alter.
  destruct (decide (c = i)) as [-> |]; rewrite lookup_fmap; [| done].
  destruct (heap s !! i); simpl; [| done]. by rewrite Hfg.
Qed.

Lemma core_alter_cosmetic (f : Component -> Component) c s :
  (forall k, coreOf (f k) = coreOf k) ->
  core (set_heap (alter f c (heap s)) s) = core s.
Proof.
  intros Hf. rewrite (core_alter f id) by (intros k; by rewrite Hf).
  apply map_eq. intros i. rewrite lookup_alter.
  destruct (decide (c = i)) as [-> |]; [| done]. by destruct (core s !! i).
Qed.

(** ** The order in which listeners are called *)

Lemma calls_ret {A} (J : World -> Prop) (a : A) : calls J (ret a) a [].
Proof. by intros s Hs. Qed.

Lemma calls_outOfFuel {A} (J : World -> Prop) (a : A) : calls J (outOfFuel a) a [].
Proof. by intros s Hs. Qed.

Lemma calls_bind {A B} (J : World -> Prop) (m : M A) (f : A -> M B) v cs v' cs' :
  calls J m v cs -> calls J (f v) v' cs' -> calls J (bind m f) v' (cs ++ cs').
Proof.
  intros Hm Hf s Hs. destruct (Hm s Hs) as (Hv & Hw & Ht).
  cbn [bind trace world value]. rewrite Hv.
  destruct (Hf _ Hw) as (Hv' & Hw' & Ht').
  split; [done |]. split; [done |]. by rewrite callsOf_app, Ht, Ht'.
Qed.

Lemma calls_get_bind {B} (J : World -> Prop) (f : World -> M B) v cs :
  (forall s0, J s0 -> calls J (f s0) v cs) -> calls J (bind get f) v cs.
Proof. intros H s Hs. cbn [bind get trace world value app]. by apply (H s Hs). Qed.

Lemma calls_invoke (J : World -> Prop) k :
  (forall k s, J s -> J (cb k s)) -> calls J (invoke k) tt [k].
Proof. intros Hcb s Hs. cbn. split; [done |]. split; [by apply Hcb | done]. Qed.

Lemma calls_nil_bind {A B} (J : World -> Prop) (m : M A) (f : A -> M B) v v' cs :
  calls J m v [] -> calls J (f v) v' cs -> calls J (bind m f) v' cs.
Proof. intros Hm Hf. by apply (calls_bind J m f v [] v' cs). Qed.

(** A dispatch loop over a list that stays as it is, under a checker that
    never asks to bail out: the entries below the start index are called
    from the last to the first. *)
Lemma calls_loopBackwards {A} (f : A -> Callback) items limit bail
    (J : World -> Prop) (L : list A) (n : Z) :
  (forall k s, J s -> J (cb k s)) ->
  (forall s, J s -> items s = L /\ limit s = n /\ bail s = false) ->
  forall fuel i,
    0 <= i -> i <= n -> i <= Z.of_nat (length L) -> (Z.to_nat i <= fuel)%nat ->
    calls J (loopBackwards fuel items limit bail (fun a => invoke (f a)) i) false
          (map f (rev (take (Z.to_nat i) L))).
Proof.
  intros Hcb HJ. induction fuel as [| fuel IH]; intros i Hi0 Hin HiL Hfuel.
  - replace (Z.to_nat i) with O by lia. apply calls_ret.
  - cbn [loopBackwards]. destruct (Z.ltb_spec (i - 1) 0) as [Hlt | Hge].
    + replace (Z.to_nat i) with O by lia. apply calls_ret.
    + destruct (lookup_lt_is_Some_2 L (Z.to_nat (i - 1))) as [a Ha]; [lia |].
      replace (Z.to_nat i) with (S (Z.to_nat (i - 1))) by lia.
      rewrite (take_S_r _ _ _ Ha), rev_app_distr. cbn [rev app map].
      apply calls_get_bind. intros s0 Hs0.
      destruct (HJ s0 Hs0) as (-> & _ & _). rewrite Ha.
      apply (calls_bind J _ _ tt [f a]); [by apply calls_invoke |].
      apply calls_get_bind. intros s1 Hs1.
      destruct (HJ s1 Hs1) as (_ & -> & ->).
      replace (jmin (i - 1) n) with (i - 1)
        by (unfold jmin; destruct (Z.ltb_spec n (i - 1)); lia).
      apply IH; lia.
Qed.

(** ** What an operation calls *)

Lemma emits_ret {A} phi (a : A) : emits phi (ret a).
Proof. intros s. constructor. Qed.

Lemma emits_get phi : emits phi get.
Proof. intros s. constructor. Qed.

Lemma emits_outOfFuel {A} phi (a : A) : emits phi (outOfFuel a).
Proof. intros s. constructor. Qed.

Lemma emits_modify phi f : emits phi (modify f).
Proof. intros s. constructor. Qed.

Lemma emits_modifyComp phi c f : emits phi (modifyComp c f).
Proof. intros s. constructor. Qed.

Lemma emits_bind {A B} phi (m : M A) (f : A -> M B) :
  emits phi m -> (forall a, emits phi (f a)) -> emits phi (bind m f).
Proof.
  intros Hm Hf s. cbn [bind trace]. rewrite callsOf_app.
  apply Forall_app. split; [apply Hm | apply Hf].
Qed.

Lemma emits_invoke (phi : Callback -> Prop) k : phi k -> emits phi (invoke k).
Proof. intros Hk s. cbn. by repeat constructor. Qed.

Lemma emits_jassert phi b what : emits phi (jassert b what).
Proof. intros s. unfold jassert. destruct (_ && _); cbn; constructor. Qed.

Lemma emits_CHECK phi : emits phi CHECK_MESSAGE_MANAGER_IS_LOCKED.
Proof. intros s. unfold CHECK_MESSAGE_MANAGER_IS_LOCKED. apply emits_jassert. Qed.

Lemma emits_nested phi c m : emits phi m -> emits phi (nested c m).
Proof.
  intros Hm s. cbn [nested trace]. unfold callsOf. cbn [flat_map callsOfStep].
  rewrite app_nil_r. apply Hm.
Qed.

Lemma emits_loopBackwards {A} phi fuel items limit bail (body : A -> M unit) i :
  (forall a, emits phi (body a)) ->
  emits phi (loopBackwards fuel items limit bail body i).
Proof.
  intros Hbody. revert i. induction fuel as [| fuel IH]; intros i; cbn [loopBackwards].
  - apply emits_ret.
  - destruct (i - 1 <? 0); [apply emits_ret |].
    apply emits_bind; [apply emits_get | intros s].
    destruct (items s !! Z.to_nat (i - 1)); [| apply emits_ret].
    apply emits_bind; [apply Hbody | intros _].
    apply emits_bind; [apply emits_get | intros s'].
    destruct (bail s'); [apply emits_ret | apply IH].
Qed.

Ltac emits_step :=
  match goal with
  | |- emits _ (outOfFuel _) => apply emits_outOfFuel
  | |- emits _ (ret _) => apply emits_ret
  | |- emits _ get => apply emits_get
  | |- emits _ (bind _ _) => apply emits_bind; [| intros ?]
  | |- emits _ (invoke _) => apply emits_invoke
  | |- emits _ (jassert _ _) => apply emits_jassert
  | |- emits _ (jassertfalse _) => apply emits_jassert
  | |- emits _ CHECK_MESSAGE_MANAGER_IS_LOCKED => apply emits_CHECK
  | |- emits _ (nested _ _) => apply emits_nested
  | |- emits _ (loopBackwards _ _ _ _ _ _) => apply emits_loopBackwards; intros ?
  | |- emits _ (modifyComp _ _) => apply emits_modifyComp
  | |- emits _ (modifyFlags _ _) => apply emits_modifyComp
  | |- emits _ (modify _) => apply emits_modify
  | |- emits _ (if ?b then _ else _) => destruct b
  | |- emits _ (match ?x with _ => _ end) => destruct x
  end.
Ltac emits := repeat (cbv zeta; emits_step); eauto.

Lemma emits_callChecked phi this call :
  (forall l, phi (CbComponentListener l call this)) -> emits phi (callChecked this call).
Proof.
  intros Hphi s. unfold callChecked.
  generalize (S (length (componentListeners (the s this)))).
  generalize (Array.size (componentListeners (the s this))).
  intros index fuel. revert index s.
  assert (forall index, emits phi (callChecked_fuel fuel this call index)) as H;
    [| intros index s; apply H].
  induction fuel as [| fuel IH]; intros index; cbn [callChecked_fuel]; emits.
Qed.

Lemma emits_internalRepaint phi this x y w h :
  (forall c r, phi (ExtPeer c (peerRepaint r))) -> emits phi (internalRepaint this x y w h).
Proof.
  intros Hphi s. unfold internalRepaint. generalize (fuelOf s). intros fuel. revert s.
  assert (forall this x y w h, emits phi (internalRepaint_fuel fuel this x y w h)) as H;
    [| intros s; apply H].
  clear this x y w h.
  induction fuel as [| fuel IH]; intros this x y w h; cbn [internalRepaint_fuel]; emits.
Qed.

Lemma emits_repaintParent phi this :
  (forall c r, phi (ExtPeer c (peerRepaint r))) -> emits phi (repaintParent this).
Proof. intros Hphi. unfold repaintParent. emits. by apply emits_internalRepaint. Qed.

Lemma emits_repaint phi this :
  (forall c r, phi (ExtPeer c (peerRepaint r))) -> emits phi (repaint this).
Proof.
  intros Hphi. unfold repaint, repaint_area. emits. by apply emits_internalRepaint.
Qed.

Lemma emits_sendMovedResizedMessages (phi : Callback -> Prop) this wasMoved wasResized :
  (wasMoved = true -> phi (CbMoved this)) ->
  (wasResized = true -> phi (CbResized this)) ->
  (forall c, phi (CbParentSizeChanged c)) ->
  (forall p, phi (CbChildBoundsChanged p this)) ->
  (forall l, phi (CbComponentListener l (componentMovedOrResized wasMoved wasResized) this)) ->
  emits phi (sendMovedResizedMessages this wasMoved wasResized).
Proof.
  intros Hm Hr Hc Hp Hl. unfold sendMovedResizedMessages.
  destruct wasMoved, wasResized; emits; by apply emits_callChecked.
Qed.

Lemma forall_bind {A B} (phi : Callback -> Prop) (m : M A) (f : A -> M B) s :
  Forall phi (callsOf (trace (m s))) ->
  Forall phi (callsOf (trace (f (value (m s)) (world (m s))))) ->
  Forall phi (callsOf (trace (bind m f s))).
Proof. intros Hm Hf. cbn [bind trace]. rewrite callsOf_app. by apply Forall_app. Qed.

Lemma elem_bind_r {A B} (m : M A) (f : A -> M B) s k :
  k ∈ callsOf (trace (f (value (m s)) (world (m s)))) ->
  k ∈ callsOf (trace (bind m f s)).
Proof. intros H. cbn [bind trace]. rewrite callsOf_app. apply elem_of_app. by right. Qed.

Lemma elem_bind_l {A B} (m : M A) (f : A -> M B) s k :
  k ∈ callsOf (trace (m s)) -> k ∈ callsOf (trace (bind m f s)).
Proof. intros H. cbn [bind trace]. rewrite callsOf_app. apply elem_of_app. by left. Qed.

(** [setBounds] calls [moved] exactly when the position changes, and
    [resized] only when the size, with negative values raised to zero,
    changes, whatever the callbacks do; when neither changes and the
    lock is held, it does nothing at all. *)
Theorem setBounds_notifications (s : World) (this : CompId) (x y w h : Z) :
  let cs := callsOf (trace (setBounds this x y w h s)) in
  let moves := getX s this <> x \/ getY s this <> y in
  let resizes := getWidth s this <> Z.max 0 w \/ getHeight s this <> Z.max 0 h in
  (CbMoved this ∈ cs <-> moves)
  /\ (CbResized this ∈ cs -> resizes)
  /\ (resizes -> ~ moves -> CbResized this ∈ cs)
  /\ (~ moves -> ~ resizes -> lockHeld s = true ->
      setBounds this x y w h s = mkRes [] s tt).
Proof.
  intros cs moves resizes. subst cs.
  set (wasMoved := negb (getX s this =? x) || negb (getY s this =? y)).
  set (wasResized := negb (getWidth s this =? Z.max 0 w)
                     || negb (getHeight s this =? Z.max 0 h)).
  assert (wasMoved = true <-> moves) as Hmoves.
  { unfold wasMoved, moves. rewrite orb_true_iff, !negb_true_iff, !Z.eqb_neq. tauto. }
  assert (wasResized = true <-> resizes) as Hresizes.
  { unfold wasResized, resizes. rewrite orb_true_iff, !negb_true_iff, !Z.eqb_neq. tauto. }
  assert (forall phi : Callback -> Prop,
             (wasMoved = true -> phi (CbMoved this)) ->
             (wasResized = true -> phi (CbResized this)) ->
             (forall c, phi (CbParentSizeChanged c)) ->
             (forall p, phi (CbChildBoundsChanged p this)) ->
             (forall l m r, phi (CbComponentListener l (componentMovedOrResized m r) this)) ->
             (forall c call, phi (ExtPeer c call)) ->
             phi ExtSendFakeMouseMove ->
             Forall phi (callsOf (trace (setBounds this x y w h s)))) as Honly.
  { intros phi Hm Hr Hc Hp Hl Hpeer Hfake.
    unfold setBounds.
    replace (if w <? 0 then 0 else w) with (Z.max 0 w)
      by (destruct (Z.ltb_spec w 0); lia).
    replace (if h <? 0 then 0 else h) with (Z.max 0 h)
      by (destruct (Z.ltb_spec h 0); lia).
    apply forall_bind; [apply emits_CHECK |]. cbv beta.
    apply forall_bind; [apply emits_get |]. cbn [get value world].
    apply forall_bind; [apply emits_jassert |]. cbv beta.
    rewrite !jassert_world, !CHECK_world. fold wasMoved wasResized.
    match goal with
    | |- Forall _ (callsOf (trace (?m ?st))) => assert (emits phi m) as H; [| apply H]
    end.
    unfold sendFakeMouseMove.
    destruct (wasMoved || wasResized); [| apply emits_ret].
    emits; try (by apply emits_repaintParent); try (by apply emits_repaint);
      by apply emits_sendMovedResizedMessages. }
  split; [split |]; [| | split; [| split]].
  - intros Hin. apply Hmoves. destruct wasMoved eqn:Hwm; [done | exfalso].
    pose proof (Honly (fun k => k <> CbMoved this)) as H.
    rewrite Forall_forall in H.
    by apply (H ltac:(done) ltac:(done) ltac:(done) ltac:(done) ltac:(done) ltac:(done)
                ltac:(done) _ Hin).
  - intros Hm. apply Hmoves in Hm.
    unfold setBounds.
    replace (if w <? 0 then 0 else w) with (Z.max 0 w)
      by (destruct (Z.ltb_spec w 0); lia).
    replace (if h <? 0 then 0 else h) with (Z.max 0 h)
      by (destruct (Z.ltb_spec h 0); lia).
    apply elem_bind_r. cbv beta. apply elem_bind_r. cbn [get value world].
    apply elem_bind_r. cbv beta. rewrite !jassert_world, !CHECK_world.
    fold wasMoved wasResized. rewrite Hm. cbn [orb].
    do 5 (apply elem_bind_r; cbv beta).
    unfold sendMovedResizedMessages. apply elem_bind_l. apply elem_bind_l.
    cbn. repeat constructor.
  - intros Hin. apply Hresizes. destruct wasResized eqn:Hwr; [done | exfalso].
    pose proof (Honly (fun k => k <> CbResized this)) as H.
    rewrite Forall_forall in H.
    by apply (H ltac:(done) ltac:(done) ltac:(done) ltac:(done) ltac:(done) ltac:(done)
                ltac:(done) _ Hin).
  - intros Hr Hnm. apply Hresizes in Hr.
    assert (wasMoved = false) as Hm
      by (destruct wasMoved; [exfalso; by apply Hnm, Hmoves | done]).
    unfold setBounds.
    replace (if w <? 0 then 0 else w) with (Z.max 0 w)
      by (destruct (Z.ltb_spec w 0); lia).
    replace (if h <? 0 then 0 else h) with (Z.max 0 h)
      by (destruct (Z.ltb_spec h 0); lia).
    apply elem_bind_r. cbv beta. apply elem_bind_r. cbn [get value world].
    apply elem_bind_r. cbv beta. rewrite !jassert_world, !CHECK_world.
    fold wasMoved wasResized. rewrite Hm, Hr. cbn [orb].
    do 5 (apply elem_bind_r; cbv beta).
    unfold sendMovedResizedMessages. apply elem_bind_r. cbn [ret value world].
    apply elem_bind_l. apply elem_bind_l. cbn. repeat constructor.
  - intros Hnm Hnr Hlock.
    assert (wasMoved = false) as Hm
      by (destruct wasMoved; [exfalso; by apply Hnm, Hmoves | done]).
    assert (wasResized = false) as Hr
      by (destruct wasResized; [exfalso; by apply Hnr, Hresizes | done]).
    unfold setBounds, CHECK_MESSAGE_MANAGER_IS_LOCKED.
    replace (if w <? 0 then 0 else w) with (Z.max 0 w)
      by (destruct (Z.ltb_spec w 0); lia).
    replace (if h <? 0 then 0 else h) with (Z.max 0 h)
      by (destruct (Z.ltb_spec h 0); lia).
    unfold lockHeld in Hlock.
    apply res_eq; cbn [bind get trace world value]; rewrite Hlock, !jassert_true;
      cbn [trace world value app]; fold wasMoved wasResized; rewrite Hm, Hr;
      rewrite andb_false_r; cbn [andb orb negb]; rewrite ?jassert_true;
      rewrite ?jassert_world; done.
Qed.

(** ** Repainting is clipped *)

Lemma int_add_small a b : - 2 ^ 31 <= a + b < 2 ^ 31 -> int_add a b = a + b.
Proof. intros H. apply wrap_id. unfold is_int, int_half. lia. Qed.

Lemma int_sub_small a b : - 2 ^ 31 <= a - b < 2 ^ 31 -> int_sub a b = a - b.
Proof. intros H. apply wrap_id. unfold is_int, int_half. lia. Qed.

(** One axis of the clipping of [internalRepaint]: the span that is left
    is empty or lies within [0, size]. *)
Lemma clip_axis x w size :
  - 2 ^ 30 < x < 2 ^ 30 -> - 2 ^ 30 < w < 2 ^ 30 -> 0 <= size <= 2 ^ 29 ->
  let w1 := if x <? 0 then int_add w x else w in
  let x1 := if x <? 0 then 0 else x in
  let w2 := if size <? int_add x1 w1 then int_sub size x1 else w1 in
  0 < w2 -> 0 <= x1 /\ x1 + w2 <= size /\ x1 < 2 ^ 29 /\ w2 <= 2 ^ 29.
Proof.
  intros Hx Hw Hsize. cbv zeta.
  destruct (Z.ltb_spec x 0).
  - rewrite (int_add_small w x) by lia. rewrite (int_add_small 0 (w + x)) by lia.
    destruct (Z.ltb_spec size (0 + (w + x))).
    + rewrite int_sub_small by lia. lia.
    + lia.
  - rewrite (int_add_small x w) by lia.
    destruct (Z.ltb_spec size (x + w)).
    + rewrite int_sub_small by lia. lia.
    + lia.
Qed.

Lemma internalRepaint_fuel_clipped s c l :
  chain s c l -> (forall q, q ∈ c :: l -> plainGeometry s q) ->
  forall fuel x y w h,
    - 2 ^ 30 < x < 2 ^ 30 -> - 2 ^ 30 < y < 2 ^ 30 ->
    - 2 ^ 30 < w < 2 ^ 30 -> - 2 ^ 30 < h < 2 ^ 30 ->
    (length l < fuel)%nat ->
    callsOf (trace (internalRepaint_fuel fuel c x y w h s)) = []
    \/ exists r, callsOf (trace (internalRepaint_fuel fuel c x y w h s))
                 = [ExtPeer (List.last l c) (peerRepaint r)]
                 /\ insideOf s (List.last l c) r.
Proof.
  induction 1 as [c Hc | c p l Hc Hchain IH]; intros Hgeo fuel x y w h Hx Hy Hw Hh Hfuel.
  all: destruct fuel as [| fuel]; [simpl in Hfuel; lia |].
  all: destruct (Hgeo c) as (Ht & HX & HY & HW & HH); [apply elem_of_cons; auto |].
  all: unfold moderate in HX, HY.
  all: pose proof (clip_axis x w (getWidth s c) Hx Hw HW) as Hclipx.
  all: pose proof (clip_axis y h (getHeight s c) Hy Hh HH) as Hclipy.
  all: cbv zeta in Hclipx, Hclipy.
  all: cbn [internalRepaint_fuel bind get trace world value]; rewrite CHECK_world.
  all: cbn [app]; rewrite callsOf_app.
  all: assert (callsOf (trace (CHECK_MESSAGE_MANAGER_IS_LOCKED s)) = []) as ->
         by (unfold CHECK_MESSAGE_MANAGER_IS_LOCKED, jassert; by destruct (_ && _)).
  all: cbn [app].
  all: match goal with
       | |- context [if 0 <? ?w2 then _ else _] =>
           destruct (Z.ltb_spec 0 w2) as [Hw2 |]; [| by left]
       end.
  all: match goal with
       | |- context [if 0 <? ?h2 then _ else _] =>
           destruct (Z.ltb_spec 0 h2) as [Hh2 |]; [| by left]
       end.
  all: specialize (Hclipx Hw2); specialize (Hclipy Hh2).
  all: rewrite Hc, ?Ht.
  - destruct (hasHeavyweightPeerFlag (getFlags s c)); [| by left].
    destruct (getPeer s c); [| by left]. right. eexists. split; [by cbn |].
    unfold insideOf. cbn [rect_x rect_y rect_w rect_h List.last]. lia.
  - destruct (visibleFlag (getFlags s p)); [| by left].
    rewrite last_chain_cons. apply IH.
    + intros q Hq. apply Hgeo. apply elem_of_cons; auto.
    + rewrite int_add_small by lia. lia.
    + rewrite int_add_small by lia. lia.
    + lia.
    + lia.
    + simpl in Hfuel. lia.
Qed.

(** A repaint request travels up the parents to its end and reaches the
    peer of the top-level component at most once, and then for a
    rectangle that is not empty and lies inside the top-level component:
    what sticks out of a component on the way is cut off. *)
Theorem internalRepaint_clipped (s : World) (c : CompId) (l : list CompId)
    (x y w h : Z) :
  parentsAlive s -> chain s c l -> (forall q, q ∈ c :: l -> plainGeometry s q) ->
  - 2 ^ 30 < x < 2 ^ 30 -> - 2 ^ 30 < y < 2 ^ 30 ->
  - 2 ^ 30 < w < 2 ^ 30 -> - 2 ^ 30 < h < 2 ^ 30 ->
  finished (trace (internalRepaint c x y w h s)) = true
  /\ (callsOf (trace (internalRepaint c x y w h s)) = []
      \/ exists r, callsOf (trace (internalRepaint c x y w h s))
                   = [ExtPeer (getTopLevelComponent s c) (peerRepaint r)]
                   /\ insideOf s (getTopLevelComponent s c) r).
Proof.
  intros Hpa Hchain Hgeo Hx Hy Hw Hh.
  pose proof (chain_length s c l Hpa Hchain) as Hfuel.
  split.
  { unfold internalRepaint. by apply (internalRepaint_fuel_finished s c l). }
  rewrite (getTopLevelComponent_chain s c l Hpa Hchain).
  unfold internalRepaint. by apply internalRepaint_fuel_clipped.
Qed.

(** ** Moving a child within the list *)

Lemma drop_delete_le {A} (l : list A) (i n : nat) :
  (i <= n)%nat -> (i < length l)%nat -> drop n (delete i l) = drop (S n) l.
Proof.
  intros Hin Hi. rewrite delete_take_drop.
  rewrite drop_app_ge by (rewrite length_take; lia).
  rewrite length_take, drop_drop. f_equal. lia.
Qed.

Lemma take_delete_ge {A} (l : list A) (i n : nat) :
  (n <= i)%nat -> take n (delete i l) = take n l.
Proof.
  intros Hni. rewrite delete_take_drop.
  destruct (decide (i < length l)%nat) as [Hi | Hi].
  - rewrite take_app_le by (rewrite length_take; lia).
    rewrite take_take. f_equal. lia.
  - rewrite drop_ge by lia. rewrite app_nil_r, take_take. f_equal. lia.
Qed.

(** [Array::move] takes the entry out and puts it back at the
    destination; the other entries keep their order. *)
Lemma Array_move_split {A} (l : list A) (i j : Z) (x : A) :
  0 <= i -> l !! Z.to_nat i = Some x ->
  let d := delete (Z.to_nat i) l in
  let n := if isPositiveAndBelow j (Array.size l)
           then Z.to_nat j else (length l - 1)%nat in
  Array.move l i j = take n d ++ x :: drop n d.
Proof.
  intros Hi Hx d n. pose proof (lookup_lt_Some _ _ _ Hx) as Hlen.
  unfold Array.move. destruct (Z.eqb_spec i j) as [<- | Hne].
  - subst n d.
    replace (isPositiveAndBelow i (Array.size l)) with true
      by (symmetry; apply isPositiveAndBelow_spec; unfold Array.size; lia).
    rewrite take_delete_ge by lia. rewrite drop_delete_le by lia.
    symmetry. by apply take_drop_middle.
  - replace (isPositiveAndBelow i (Array.size l)) with true
      by (symmetry; apply isPositiveAndBelow_spec; unfold Array.size; lia).
    rewrite Hx. subst n d.
    destruct (isPositiveAndBelow j (Array.size l)); [done |].
    replace (Z.to_nat (Array.size l - 1)) with (length l - 1)%nat
      by (unfold Array.size; lia).
    done.
Qed.

Lemma skipAlwaysOnTopFromEnd_spec s (l : list CompId) :
  forall fuel i,
    (Z.to_nat i <= fuel)%nat -> i < Array.size l ->
    let j := skipAlwaysOnTopFromEnd fuel s l i in
    j <= i /\ (0 <= i -> 0 <= j)
    /\ (forall k c, j < k <= i -> l !! Z.to_nat k = Some c -> isAlwaysOnTop s c = true)
    /\ (0 < j -> exists c, l !! Z.to_nat j = Some c /\ isAlwaysOnTop s c = false).
Proof.
  induction fuel as [| fuel IH]; intros i Hfuel Hi; cbn [skipAlwaysOnTopFromEnd].
  - split; [lia |]. split; [lia |]. split; [intros k c Hk; lia | lia].
  - destruct (Z.ltb_spec 0 i) as [Hpos | Hneg].
    + destruct (lookup_lt_is_Some_2 l (Z.to_nat i)) as [c Hc];
        [unfold Array.size in Hi; lia |].
      rewrite Hc. destruct (isAlwaysOnTop s c) eqn:Haot.
      * destruct (IH (i - 1)) as (H1 & H2 & H3 & H4); [lia | lia |].
        split; [lia |]. split; [lia |]. split; [| done].
        intros k c' Hk Hc'. destruct (decide (k = i)) as [-> | Hne].
        -- congruence.
        -- apply (H3 k); [lia | done].
      * split; [lia |]. split; [lia |]. split; [intros k c' Hk; lia |].
        intros _. eauto.
    + split; [lia |]. split; [lia |]. split; [intros k c Hk; lia | lia].
Qed.

Lemma skipNotAlwaysOnTop_spec s (l : list CompId) :
  forall fuel i,
    0 <= i -> (length l <= fuel + Z.to_nat i)%nat ->
    let j := skipNotAlwaysOnTop fuel s l i in
    i <= j
    /\ (forall k c, i <= k < j -> l !! Z.to_nat k = Some c -> isAlwaysOnTop s c = false)
    /\ (forall c, l !! Z.to_nat j = Some c -> isAlwaysOnTop s c = true).
Proof.
  induction fuel as [| fuel IH]; intros i Hi Hfuel; cbn [skipNotAlwaysOnTop].
  - split; [lia |]. split; [intros k c Hk; lia |].
    intros c Hc. apply lookup_lt_Some in Hc. lia.
  - destruct (Z.ltb_spec i (Array.size l)) as [Hlt | Hge].
    + destruct (lookup_lt_is_Some_2 l (Z.to_nat i)) as [c Hc];
        [unfold Array.size in Hlt; lia |].
      rewrite Hc. destruct (isAlwaysOnTop s c) eqn:Haot; cbn [negb].
      * split; [lia |]. split; [intros k c' Hk; lia |]. intros c' Hc'. congruence.
      * destruct (IH (i + 1)) as (H1 & H2 & H3); [lia | lia |].
        split; [lia |]. split; [| done].
        intros k c' Hk Hc'. destruct (decide (k = i)) as [-> | Hne].
        -- congruence.
        -- apply (H2 k); [lia | done].
    + split; [lia |]. split; [intros k c Hk; lia |].
      intros c Hc. apply lookup_lt_Some in Hc. unfold Array.size in Hge. lia.
Qed.

Lemma toFrontList_spec s this (l : list CompId) :
  this ∈ l ->
  exists front back before after,
    l = before ++ this :: after
    /\ toFrontList s this l = front ++ this :: back
    /\ front ++ back = before ++ after
    /\ (forall c, c ∈ back -> isAlwaysOnTop s c = true)
    /\ (isAlwaysOnTop s this = true -> back = []).
Proof.
  intros Hin. unfold toFrontList.
  destruct (decide (Array.getLast l = Some this)) as [Hlast | Hlast].
  - rewrite bool_decide_eq_true_2 by done.
    apply last_Some in Hlast as [before ->].
    exists before, [], before, []. repeat split; try done; intros c Hc; by apply elem_of_nil in Hc.
  - rewrite bool_decide_eq_false_2 by done.
    destruct (Array_indexOf_spec l this) as [Hidx _].
    destruct (Hidx Hin) as [Hrange Hlook]. clear Hidx.
    set (idx := Array.indexOf l this) in *.
    replace (0 <=? idx) with true by (symmetry; apply Z.leb_le; lia).
    unfold Array.size in Hrange.
    rewrite (Array_move_split l idx _ this) by (done || lia). cbv zeta.
    exists (take (if isPositiveAndBelow
                       (if negb (alwaysOnTopFlag (getFlags s this))
                        then skipAlwaysOnTopFromEnd (length l) s l (Array.size l - 1)
                        else -1) (Array.size l)
                  then Z.to_nat (if negb (alwaysOnTopFlag (getFlags s this))
                                 then skipAlwaysOnTopFromEnd (length l) s l (Array.size l - 1)
                                 else -1)
                  else (length l - 1)%nat) (delete (Z.to_nat idx) l)).
    eexists. exists (take (Z.to_nat idx) l), (drop (S (Z.to_nat idx)) l).
    split; [symmetry; by apply take_drop_middle |]. split; [reflexivity |].
    split; [by rewrite take_drop, delete_take_drop |].
    fold (isAlwaysOnTop s this). destruct (isAlwaysOnTop s this) eqn:Haot; cbn [negb].
    + replace (isPositiveAndBelow (-1) (Array.size l)) with false by done.
      assert (drop (length l - 1) (delete (Z.to_nat idx) l) = []) as ->.
      { apply drop_ge. rewrite length_delete by eauto. lia. }
      split; [| done]. intros c Hc. by apply elem_of_nil in Hc.
    + split; [| done].
      destruct (skipAlwaysOnTopFromEnd_spec s l (length l) (Array.size l - 1))
        as (Hle & Hge & Hall & _); [unfold Array.size; lia | lia |].
      set (j := skipAlwaysOnTopFromEnd (length l) s l (Array.size l - 1)) in *.
      unfold Array.size in *. specialize (Hge ltac:(lia)).
      replace (isPositiveAndBelow j (Z.of_nat (length l))) with true
        by (symmetry; apply isPositiveAndBelow_spec; lia).
      assert (idx <= j) as Hidxj.
      { destruct (Z.le_gt_cases idx j) as [? | Hgt]; [done |].
        rewrite (Hall idx this) in Haot; [done | lia | done]. }
      rewrite drop_delete_le by lia.
      intros c Hc. apply list_elem_of_lookup in Hc as [k Hk].
      rewrite lookup_drop in Hk.
      apply (Hall (Z.of_nat (S (Z.to_nat j) + k)) c).
      * apply lookup_lt_Some in Hk. lia.
      * by rewrite Nat2Z.id.
Qed.

Lemma toBackList_spec s this (l : list CompId) :
  this ∈ l ->
  exists front back before after,
    l = before ++ this :: after
    /\ toBackList s this l = front ++ this :: back
    /\ front ++ back = before ++ after
    /\ (forall c, c ∈ front -> isAlwaysOnTop s c = false)
    /\ (isAlwaysOnTop s this = false -> front = []).
Proof.
  intros Hin. unfold toBackList.
  destruct (decide (Array.getFirst l = Some this)) as [Hfirst | Hfirst].
  - rewrite bool_decide_eq_true_2 by done.
    destruct l as [| x after]; [done |]. injection Hfirst as ->.
    exists [], after, [], after. repeat split; try done; intros c Hc; by apply elem_of_nil in Hc.
  - rewrite bool_decide_eq_false_2 by done.
    destruct (Array_indexOf_spec l this) as [Hidx _].
    destruct (Hidx Hin) as [Hrange Hlook]. clear Hidx.
    set (idx := Array.indexOf l this) in *.
    unfold Array.size in Hrange.
    destruct (Z.ltb_spec 0 idx) as [Hpos | Hzero].
    + rewrite (Array_move_split l idx _ this) by (done || lia). cbv zeta.
      eexists. exists (drop (if isPositiveAndBelow
                       (if alwaysOnTopFlag (getFlags s this)
                        then skipNotAlwaysOnTop (length l) s l 0 else 0) (Array.size l)
                  then Z.to_nat (if alwaysOnTopFlag (getFlags s this)
                                 then skipNotAlwaysOnTop (length l) s l 0 else 0)
                  else (length l - 1)%nat) (delete (Z.to_nat idx) l)).
      exists (take (Z.to_nat idx) l), (drop (S (Z.to_nat idx)) l).
      split; [symmetry; by apply take_drop_middle |]. split; [reflexivity |].
      split; [by rewrite take_drop, delete_take_drop |].
      fold (isAlwaysOnTop s this). destruct (isAlwaysOnTop s this) eqn:Haot.
      * split; [| done].
        destruct (skipNotAlwaysOnTop_spec s l (length l) 0) as (Hge & Hall & Hstop);
          [lia | lia |].
        set (j := skipNotAlwaysOnTop (length l) s l 0) in *.
        assert (j <= idx) as Hjidx.
        { destruct (Z.le_gt_cases j idx) as [? | Hgt]; [done |].
          rewrite (Hall idx this) in Haot; [done | lia | done]. }
        unfold Array.size.
        replace (isPositiveAndBelow j (Z.of_nat (length l))) with true
          by (symmetry; apply isPositiveAndBelow_spec; lia).
        rewrite take_delete_ge by lia.
        intros c Hc. apply list_elem_of_lookup in Hc as [k Hk].
        apply lookup_take_Some in Hk as [Hk Hlt].
        apply (Hall (Z.of_nat k) c); [lia | by rewrite Nat2Z.id].
      * unfold Array.size.
        replace (isPositiveAndBelow 0 (Z.of_nat (length l))) with true
          by (symmetry; apply isPositiveAndBelow_spec; lia).
        simpl. split; [| done]. intros c Hc. by apply elem_of_nil in Hc.
    + assert (idx = 0) as Hz by lia. rewrite Hz in Hlook.
      destruct l as [| x after]; [done |]. simpl in Hlook. injection Hlook as ->.
      exists [], after, [], after. repeat split; try done; intros c Hc; by apply elem_of_nil in Hc.
Qed.

Lemma skipAlwaysOnTop_spec s (l : list CompId) :
  forall fuel z,
    (Z.to_nat z <= fuel)%nat -> z <= Array.size l ->
    let j := skipAlwaysOnTop fuel s l z in
    j <= z /\ (0 <= z -> 0 <= j)
    /\ (forall k c, j <= k < z -> l !! Z.to_nat k = Some c -> isAlwaysOnTop s c = true)
    /\ (forall c, 0 < j -> l !! Z.to_nat (j - 1) = Some c -> isAlwaysOnTop s c = false).
Proof.
  induction fuel as [| fuel IH]; intros z Hfuel Hz; cbn [skipAlwaysOnTop].
  - split; [lia |]. split; [lia |]. split; [intros k c Hk; lia | intros c Hj; lia].
  - destruct (Z.ltb_spec 0 z) as [Hpos | Hneg].
    + destruct (lookup_lt_is_Some_2 l (Z.to_nat (z - 1))) as [c Hc];
        [unfold Array.size in Hz; lia |].
      rewrite Hc. destruct (isAlwaysOnTop s c) eqn:Haot; cbn [negb].
      * destruct (IH (z - 1)) as (H1 & H2 & H3 & H4); [lia | lia |].
        split; [lia |]. split; [lia |]. split; [| done].
        intros k c' Hk Hc'. destruct (decide (k = z - 1)) as [-> | Hne].
        -- congruence.
        -- apply (H3 k); [lia | done].
      * split; [lia |]. split; [lia |]. split; [intros k c' Hk; lia |].
        intros c' _ Hc'. congruence.
    + split; [lia |]. split; [lia |]. split; [intros k c Hk; lia | intros c Hj; lia].
Qed.

Lemma Array_insert_split {A} (l : list A) (i : Z) (x : A) :
  let n := if isPositiveAndBelow i (Array.size l) then Z.to_nat i else length l in
  Array.insert l i x = take n l ++ x :: drop n l.
Proof.
  cbv zeta. unfold Array.insert. destruct (isPositiveAndBelow i (Array.size l)); [done |].
  by rewrite firstn_all, drop_all.
Qed.

(** Where [addChildComponent] puts the child. *)
Lemma insertionIndex_spec s child (l : list CompId) (z : Z) :
  exists front back,
    Array.insert l (insertionIndex s child l z) child = front ++ child :: back
    /\ front ++ back = l
    /\ (isAlwaysOnTop s child = false ->
        (forall c, last front = Some c -> isAlwaysOnTop s c = false)
        /\ (z < 0 \/ Array.size l < z -> forall c, c ∈ back -> isAlwaysOnTop s c = true))
    /\ (isAlwaysOnTop s child = true -> z < 0 \/ Array.size l <= z -> back = []).
Proof.
  rewrite Array_insert_split. cbv zeta.
  eexists _, _. split; [reflexivity |]. split; [apply take_drop |].
  unfold insertionIndex. destruct (isAlwaysOnTop s child); cbn [negb].
  - split; [done |]. intros _ Hz.
    replace (isPositiveAndBelow z (Array.size l)) with false.
    + by rewrite drop_all.
    + symmetry. apply not_true_iff_false. rewrite isPositiveAndBelow_spec. lia.
  - split; [| done]. intros _.
    set (z0 := if (z <? 0) || (Array.size l <? z) then Array.size l else z).
    assert (0 <= z0 <= Array.size l) as Hz0.
    { subst z0. unfold Array.size.
      destruct (Z.ltb_spec z 0); cbn [orb]; [lia |].
      destruct (Z.ltb_spec (Z.of_nat (length l)) z); lia. }
    destruct (skipAlwaysOnTop_spec s l (Z.to_nat z0) z0) as (Hle & Hge & Hall & Hstop);
      [lia | lia |].
    set (j := skipAlwaysOnTop (Z.to_nat z0) s l z0) in *. specialize (Hge ltac:(lia)).
    assert ((if isPositiveAndBelow j (Array.size l) then Z.to_nat j else length l)
            = Z.to_nat j) as ->.
    { destruct (isPositiveAndBelow j (Array.size l)) eqn:Hj; [done |].
      apply not_true_iff_false in Hj. rewrite isPositiveAndBelow_spec in Hj.
      unfold Array.size in *. lia. }
    split.
    + intros c Hlast. rewrite last_lookup in Hlast.
      rewrite length_take in Hlast. unfold Array.size in *.
      destruct (decide (0 < j)) as [Hpos | Hzero].
      * apply lookup_take_Some in Hlast as [Hlook _].
        apply (Hstop c Hpos).
        replace (Z.to_nat (j - 1)) with (Init.Nat.pred (Z.to_nat j `min` length l)) by lia.
        done.
      * replace (Z.to_nat j) with O in Hlast by lia. done.
    + intros Hz c Hc. apply list_elem_of_lookup in Hc as [k Hk].
      rewrite lookup_drop in Hk.
      assert (z0 = Array.size l) as Hz0'.
      { subst z0. destruct Hz as [Hz | Hz].
        - by replace (z <? 0) with true by (symmetry; apply Z.ltb_lt; lia).
        - replace (Array.size l <? z) with true by (symmetry; apply Z.ltb_lt; lia).
          by rewrite orb_true_r. }
      apply (Hall (Z.of_nat (Z.to_nat j + k)) c).
      * apply lookup_lt_Some in Hk. unfold Array.size in *. lia.
      * by rewrite Nat2Z.id.
Qed.

Create HintDb notify.
Hint Resolve preserves_ret preserves_get preserves_outOfFuel preserves_invoke preserves_jassert
  preserves_CHECK notify_callChecked notify_sendMouseEvent
  notify_sendMovedResizedMessages notify_internalChildrenChanged
  notify_internalHierarchyChanged notify_internalRepaint notify_repaintParent
  notify_repaint notify_sendFakeMouseMove notify_internalFocusLoss
  notify_giveAwayFocus notify_grabKeyboardFocus notify_internalBroughtToFront
  notify_sendVisibilityChangeMessage notify_internalModalInputAttempt : notify.

Section Quiet.

(** The code behind the callbacks leaves the components as they are, up
    to repainting and the bookkeeping of the focus. *)
Hypothesis cb_core : forall k s, core (cb k s) = core s.

Lemma hier_core s : hier s = hierOf <$> core s.
Proof.
  unfold hier, core. rewrite <- map_fmap_compose. apply map_fmap_ext.
  intros i k _. by destruct k.
Qed.

Lemma cb_core_hier k s : hier (cb k s) = hier s.
Proof. by rewrite !hier_core, cb_core. Qed.

Lemma isAlive_is_Some s c : isAlive s c = true -> is_Some (heap s !! c).
Proof. unfold isAlive. apply bool_decide_eq_true. Qed.

Lemma atC_cb C k s : atC C s -> atC C (cb k s).
Proof. unfold atC. by rewrite cb_core. Qed.

Lemma atC_focus C o s : atC C s -> atC C (set_currentlyFocusedComponent o s).
Proof. done. Qed.

Lemma atC_cosmetic C c f s :
  (forall k, coreOf (f k) = coreOf k) -> atC C s -> atC C (set_heap (alter f c (heap s)) s).
Proof. unfold atC. intros Hf <-. by apply core_alter_cosmetic. Qed.

Local Hint Resolve atC_cb atC_focus atC_cosmetic : core.

(** An operation that only notifies keeps the core. *)
Lemma keeps_core {A} (m : M A) C :
  (forall I : World -> Prop,
      (forall k s, I s -> I (cb k s)) ->
      (forall o s, I s -> I (set_currentlyFocusedComponent o s)) ->
      (forall c f s, (forall k, coreOf (f k) = coreOf k) ->
                     I s -> I (set_heap (alter f c (heap s)) s)) ->
      preserves I m) ->
  hoare (atC C) m (fun _ => atC C).
Proof. intros Hm. apply hoare_preserves, Hm; eauto. Qed.

Ltac quiet_step :=
  match goal with
  | |- preserves _ (bind _ _) => apply preserves_bind; [| intros ?]
  | |- preserves _ (if ?b then _ else _) => destruct b
  | |- preserves _ (match ?x with _ => _ end) => destruct x
  | |- preserves _ (modifyComp _ (set_bufferedImageIsNull _)) =>
      apply notify_buffered; assumption
  | |- preserves _ (modifyFlags _ (set_childCompFocusedFlag _)) =>
      apply notify_childFocus; assumption
  | |- preserves _ _ => solve [eauto with notify]
  end.
Ltac quiet := apply keeps_core; intros ? ? ? ?; repeat (cbv zeta; quiet_step).

Lemma hoare_modifyComp_core c (f : Component -> Component) g C :
  (forall k, coreOf (f k) = g (coreOf k)) ->
  hoare (atC C) (modifyComp c f) (fun _ => atC (alter g c C)).
Proof. intros Hfg s Hs. unfold atC in *. simpl. rewrite <- Hs. by apply core_alter. Qed.

Lemma hoare_modifyFlags_core c (f : ComponentFlags -> ComponentFlags) C :
  (forall fl, set_childCompFocusedFlag false (f fl)
              = f (set_childCompFocusedFlag false fl)) ->
  hoare (atC C) (modifyFlags c f) (fun _ => atC (alter (fun k => set_flags (f (flags k)) k) c C)).
Proof.
  intros Hf. apply hoare_modifyComp_core. intros k. unfold coreOf. cbn.
  by rewrite Hf.
Qed.

(** The walk up the parents: the deep listeners of every ancestor, from
    the last to the first, the nearest ancestor first. *)
Lemma calls_sendMouseEvent_parents s0 comp k :
  isAlive s0 comp = true -> parentsAlive s0 ->
  forall p l,
    chain s0 p l -> is_Some (heap s0 !! p) ->
    (forall q m, q ∈ p :: l -> mouseListeners (the s0 q) = Some m ->
                 numDeepMouseListeners m <= Array.size (listeners m)) ->
    forall fuel,
      (length l < fuel)%nat ->
      calls (atC (core s0)) (sendMouseEvent_parents fuel comp k (Some p)) tt
        (map (fun lst => CbMouseListener lst k comp)
             (flat_map (fun q => rev (take (Z.to_nat (numDeepOf s0 q)) (listenersOf s0 q)))
                       (p :: l))).
Proof.
  intros Hcomp Hpa p l Hchain.
  induction Hchain as [p Hp | p p' l Hp Hchain IH]; intros Halive Hdeep fuel Hfuel.
  all: destruct fuel as [| fuel]; [simpl in Hfuel; lia |].
  all: cbn [sendMouseEvent_parents flat_map]; rewrite map_app.
  all: apply calls_get_bind; intros s1 Hs1.
  all: rewrite (core_mouseListeners s1 s0 p Hs1).
  all: apply (calls_bind _ _ _ false
                (map (fun lst => CbMouseListener lst k comp)
                     (rev (take (Z.to_nat (numDeepOf s0 p)) (listenersOf s0 p))))).
  all: try (unfold numDeepOf, listenersOf;
            destruct (mouseListeners (the s0 p)) as [m |] eqn:Hm;
            [| apply calls_ret];
            destruct (Z.ltb_spec 0 (numDeepMouseListeners m)) as [Hpos | Hneg];
            [| replace (Z.to_nat (numDeepMouseListeners m)) with O by lia; apply calls_ret];
            apply (calls_loopBackwards _ _ _ _ _ (listeners m) (numDeepMouseListeners m));
            [ intros ? ?; apply atC_cb
            | intros s' Hs'; unfold listenersOf, numDeepOf, shouldBailOut;
              rewrite (core_mouseListeners _ _ p Hs'), Hm,
                (core_isAlive _ _ comp Hs'), (core_isAlive _ _ p Hs'), Hcomp;
              unfold isAlive; by rewrite bool_decide_eq_true_2 by done
            | lia | lia
            | apply (Hdeep p m); [apply elem_of_cons; auto | done]
            | lia ]).
  all: apply calls_get_bind; intros s2 Hs2; rewrite (core_parent s2 s0 p Hs2), Hp.
  - cbn [map]. destruct fuel; apply calls_ret.
  - apply IH.
    + destruct (getParentComponent_Some _ _ _ Hp) as (kp & Hkp & Hpar). by eapply Hpa.
    + intros q mq Hq. apply Hdeep. apply elem_of_cons; auto.
    + simpl in Hfuel. lia.
Qed.

(** A mouse event of a component goes to all its own listeners, from the
    last of the list to the first, and then to the deep listeners of its
    ancestors, nearest ancestor first; listeners of ancestors that are
    not deep are not called. *)
Theorem sendMouseEvent_order (s : World) (c : CompId) (k : MouseEventKind)
    (l : list CompId) :
  parentsAlive s -> chain s c l -> isAlive s c = true ->
  (forall q m, q ∈ l -> mouseListeners (the s q) = Some m ->
               numDeepMouseListeners m <= Array.size (listeners m)) ->
  callsOf (trace (sendMouseEvent c k s))
  = map (fun lst => CbMouseListener lst k c)
        (rev (listenersOf s c)
         ++ flat_map (fun q => rev (take (Z.to_nat (numDeepOf s q)) (listenersOf s q))) l)
  /\ core (world (sendMouseEvent c k s)) = core s.
Proof.
  intros Hpa Hchain Halive Hdeep.
  assert (calls (atC (core s)) (sendMouseEvent_fuel (fuelOf s) c k) tt
            (map (fun lst => CbMouseListener lst k c)
               (rev (listenersOf s c)
                ++ flat_map (fun q => rev (take (Z.to_nat (numDeepOf s q))
                                             (listenersOf s q))) l))) as H.
  { unfold sendMouseEvent_fuel. rewrite map_app.
    apply calls_get_bind; intros s1 Hs1.
    unfold shouldBailOut. rewrite (core_isAlive s1 s c Hs1), Halive. cbn [negb].
    rewrite (core_mouseListeners s1 s c Hs1).
    apply (calls_bind _ _ _ false
             (map (fun lst => CbMouseListener lst k c) (rev (listenersOf s c)))).
    - unfold listenersOf. destruct (mouseListeners (the s c)) as [m |] eqn:Hm;
        [| apply calls_ret].
      assert (listeners m = take (Z.to_nat (Array.size (listeners m))) (listeners m))
        as Hall by (unfold Array.size; by rewrite Nat2Z.id, firstn_all).
      rewrite Hall at 3.
      apply (calls_loopBackwards _ _ _ _ _ (listeners m) (Array.size (listeners m))).
      + intros ? ?; apply atC_cb.
      + intros s' Hs'. unfold listenersOf, shouldBailOut.
        rewrite (core_mouseListeners _ _ c Hs'), Hm, (core_isAlive _ _ c Hs'), Halive.
        done.
      + unfold Array.size. lia.
      + lia.
      + unfold Array.size. lia.
      + unfold Array.size. lia.
    - apply calls_get_bind; intros s2 Hs2. rewrite (core_parent s2 s c Hs2).
      inversion Hchain as [c' Hc | c' p l' Hc Hl']; subst; rewrite Hc.
      + cbn [flat_map map]. unfold fuelOf. cbn [sendMouseEvent_parents]. apply calls_ret.
      + apply calls_sendMouseEvent_parents; try done.
        * destruct (getParentComponent_Some _ _ _ Hc) as (kp & Hkp & Hpar). by eapply Hpa.
        * pose proof (chain_length _ _ _ Hpa Hchain) as Hlen. simpl in Hlen. lia. }
  unfold sendMouseEvent. destruct (H s eq_refl) as (_ & Hw & Ht). by split.
Qed.

(** *** Bounds *)

Lemma alter_set_bounds_same s r c :
  bounds (the s c) = r -> alter (set_bounds r) c (core s) = core s.
Proof.
  intros Hr. apply map_eq. intros i. rewrite lookup_alter.
  destruct (decide (c = i)) as [-> |]; [| done]. rewrite core_lookup.
  unfold the in Hr. destruct (heap s !! i) as [k |]; simpl in *; [| done].
  subst r. by destruct k.
Qed.

Lemma hoare_setBounds C this x y w h :
  hoare (atC C) (setBounds this x y w h)
    (fun _ => atC (alter (set_bounds (mkRectangle x y (Z.max 0 w) (Z.max 0 h))) this C)).
Proof.
  unfold setBounds.
  replace (if w <? 0 then 0 else w) with (Z.max 0 w) by (destruct (Z.ltb_spec w 0); lia).
  replace (if h <? 0 then 0 else h) with (Z.max 0 h) by (destruct (Z.ltb_spec h 0); lia).
  eapply hoare_bind; [quiet |]. intros ?; cbv beta zeta.
  apply hoare_get_bind. intros s0 Hs0. apply (hoare_at (atC C)); [done |].
  eapply hoare_bind; [quiet |]. intros ?; cbv beta.
  destruct (negb (getX s0 this =? x) || negb (getY s0 this =? y)
            || (negb (getWidth s0 this =? Z.max 0 w)
                || negb (getHeight s0 this =? Z.max 0 h))) eqn:Hchanged.
  - eapply hoare_bind; [quiet |]. intros ?; cbv beta.
    eapply hoare_bind.
    { apply (hoare_modifyComp_core this _
               (set_bounds (mkRectangle x y (Z.max 0 w) (Z.max 0 h)))). by intros k. }
    intros ?; cbv beta. quiet.
  - apply hoare_ret. intros s Hs. unfold atC in *. rewrite Hs. rewrite <- Hs0.
    symmetry. apply alter_set_bounds_same.
    apply orb_false_iff in Hchanged as [Hpos Hsize].
    apply orb_false_iff in Hpos as [Hx Hy]. apply orb_false_iff in Hsize as [Hw Hh].
    apply negb_false_iff, Z.eqb_eq in Hx, Hy, Hw, Hh.
    unfold getX, getY, getWidth, getHeight in *.
    destruct (bounds (the s0 this)); simpl in *. by subst.
Qed.

Lemma theOf_alter (f : Component -> Component) c c' (C : gmap nat Component) :
  theOf (alter f c C) c'
  = if decide (c = c')
    then match C !! c with Some k => f k | None => newComponent EmptyString end
    else theOf C c'.
Proof.
  unfold theOf. rewrite lookup_alter. destruct (decide (c = c')) as [-> |]; [| done].
  by destruct (C !! c').
Qed.

Lemma core_lookup_alive s c :
  isAlive s c = true -> core s !! c = Some (coreOf (the s c)).
Proof.
  unfold isAlive, the. intros [k Hk]%bool_decide_eq_true.
  rewrite core_lookup, Hk. done.
Qed.

(** [setBounds] stores the position as given and the size with negative
    values raised to zero; it changes the bounds of the receiver and
    nothing else of any component (the buffered image and the focus
    bookkeeping apart).  In a well-formed tree every walk along the
    parents and children that it starts comes to its end. *)
Theorem setBounds_result (s : World) (this : CompId) (x y w h : Z) :
  let s' := world (setBounds this x y w h s) in
  let r := mkRectangle x y (Z.max 0 w) (Z.max 0 h) in
  (wellFormed s -> finished (trace (setBounds this x y w h s)) = true)
  /\ core s' = alter (set_bounds r) this (core s)
  /\ (isAlive s this = true -> bounds (the s' this) = r)
  /\ (forall c, c <> this -> coreOf (the s' c) = coreOf (the s c))
  /\ (forall c, coreOf (set_bounds (bounds (the s c)) (the s' c)) = coreOf (the s c)).
Proof.
  intros s' r.
  split; [intros Hwf; exact (proj1 (operations_finished cb_core_hier s this Hwf) x y w h) |].
  pose proof (hoare_setBounds (core s) this x y w h s eq_refl) as H.
  cbv beta in H. unfold atC in H. fold s' r in H.
  assert (forall c, coreOf (the s' c)
                    = if decide (this = c)
                      then match core s !! this with
                           | Some k => set_bounds r k
                           | None => newComponent EmptyString
                           end
                      else coreOf (the s c)) as Hthe.
  { intros c. rewrite the_core, H, theOf_alter.
    destruct (decide (this = c)); [done | by rewrite the_core]. }
  split; [done |]. split; [| split].
  - intros Halive. specialize (Hthe this).
    destruct (decide (this = this)); [| done].
    rewrite (core_lookup_alive _ _ Halive) in Hthe.
    exact (f_equal bounds Hthe).
  - intros c Hc. rewrite Hthe. by destruct (decide (this = c)); [subst |].
  - intros c. specialize (Hthe c).
    change (set_bounds (bounds (the s c)) (coreOf (the s' c)) = coreOf (the s c)).
    rewrite Hthe. destruct (decide (this = c)) as [-> |].
    + rewrite core_lookup. unfold the. destruct (heap s !! c) as [k |]; simpl.
      * by destruct k.
      * done.
    + by destruct (the s c).
Qed.

(** *** Visibility *)

Lemma alter_flags_same s c (f : ComponentFlags -> ComponentFlags) :
  f (flags (the s c)) = flags (the s c) ->
  (forall fl, set_childCompFocusedFlag false (f fl)
              = f (set_childCompFocusedFlag false fl)) ->
  alter (fun k => set_flags (f (flags k)) k) c (core s) = core s.
Proof.
  intros Hsame Hcomm. apply map_eq. intros i. rewrite lookup_alter.
  destruct (decide (c = i)) as [-> |]; [| done]. rewrite core_lookup.
  unfold the in Hsame. destruct (heap s !! i) as [k |]; simpl in *; [| done].
  f_equal. destruct k as [? ? ? ? ? ? ? ? fl]; simpl in *. unfold coreOf; simpl.
  by rewrite <- Hcomm, Hsame.
Qed.

Lemma hoare_setVisible C this b :
  hoare (atC C) (setVisible this b)
    (fun _ => atC (alter (fun k => set_flags (set_visibleFlag b (flags k)) k) this C)).
Proof.
  unfold setVisible.
  apply hoare_get_bind. intros s0 Hs0. apply (hoare_at (atC C)); [done |].
  destruct (negb (eqb (visibleFlag (getFlags s0 this)) b)) eqn:Hchanged.
  - eapply hoare_bind; [quiet |]. intros ?; cbv beta.
    eapply hoare_bind; [apply hoare_modifyFlags_core; by intros [] |].
    intros ?; cbv beta. quiet.
  - apply hoare_ret. intros s Hs. unfold atC in *. rewrite Hs, <- Hs0.
    symmetry. apply alter_flags_same; [| by intros []].
    apply negb_false_iff, eqb_prop in Hchanged. subst b.
    unfold getFlags. by destruct (flags (the s0 this)).
Qed.

(** [setVisible] sets the visible flag of the receiver and changes
    nothing else of any component; a second call with the same value
    finds nothing to do and makes no call at all.  In a well-formed tree
    every walk along the parents and children that it starts comes to
    its end. *)
Theorem setVisible_result (s : World) (this : CompId) (b : bool) :
  let s' := world (setVisible this b s) in
  (wellFormed s -> finished (trace (setVisible this b s)) = true)
  /\ core s' = alter (fun k => set_flags (set_visibleFlag b (flags k)) k) this (core s)
  /\ (isAlive s this = true -> isVisible s' this = b)
  /\ (forall c, c <> this -> coreOf (the s' c) = coreOf (the s c))
  /\ (isAlive s this = true -> setVisible this b s' = mkRes [] s' tt).
Proof.
  intros s'.
  split.
  { intros Hwf.
    destruct (operations_finished cb_core_hier s this Hwf)
      as (_ & _ & _ & _ & _ & Hfin & _).
    exact (Hfin b). }
  pose proof (hoare_setVisible (core s) this b s eq_refl) as H.
  cbv beta in H. unfold atC in H. fold s' in H.
  assert (forall c, coreOf (the s' c)
                    = if decide (this = c)
                      then match core s !! this with
                           | Some k => set_flags (set_visibleFlag b (flags k)) k
                           | None => newComponent EmptyString
                           end
                      else coreOf (the s c)) as Hthe.
  { intros c. rewrite the_core, H, theOf_alter.
    destruct (decide (this = c)); [done | by rewrite the_core]. }
  assert (isAlive s this = true -> isVisible s' this = b) as Hvis.
  { intros Halive. specialize (Hthe this).
    destruct (decide (this = this)); [| done].
    rewrite (core_lookup_alive _ _ Halive) in Hthe.
    exact (f_equal (fun k => visibleFlag (flags k)) Hthe). }
  split; [done |]. split; [done |]. split.
  - intros c Hc. rewrite Hthe. by destruct (decide (this = c)); [subst |].
  - intros Halive. unfold setVisible. apply res_eq; cbn [bind get trace world value].
    all: unfold isVisible in Hvis; rewrite (Hvis Halive), eqb_reflx; done.
Qed.

(** *** The z-order *)

Lemma core_flag (proj : ComponentFlags -> bool) s s' c :
  (forall f, proj (set_childCompFocusedFlag false f) = proj f) ->
  core s = core s' -> proj (getFlags s c) = proj (getFlags s' c).
Proof.
  intros Hp H. rewrite <- (Hp (getFlags s c)), <- (Hp (getFlags s' c)).
  by rewrite (core_flags _ _ c H).
Qed.

Lemma core_isAlwaysOnTop s s' c :
  core s = core s' -> isAlwaysOnTop s c = isAlwaysOnTop s' c.
Proof. apply (core_flag alwaysOnTopFlag). by intros []. Qed.

Lemma core_isOnDesktop s s' c : core s = core s' -> isOnDesktop s c = isOnDesktop s' c.
Proof. apply (core_flag hasHeavyweightPeerFlag). by intros []. Qed.

Lemma core_isVisible s s' c : core s = core s' -> isVisible s c = isVisible s' c.
Proof. apply (core_flag visibleFlag). by intros []. Qed.

Lemma core_skipAlwaysOnTopFromEnd s s' l :
  core s = core s' ->
  forall fuel i, skipAlwaysOnTopFromEnd fuel s l i = skipAlwaysOnTopFromEnd fuel s' l i.
Proof.
  intros H. induction fuel as [| fuel IH]; intros i; cbn [skipAlwaysOnTopFromEnd]; [done |].
  destruct (0 <? i); [| done]. destruct (l !! Z.to_nat i) as [c |]; [| done].
  by rewrite (core_isAlwaysOnTop _ _ c H), IH.
Qed.

Lemma core_skipNotAlwaysOnTop s s' l :
  core s = core s' ->
  forall fuel i, skipNotAlwaysOnTop fuel s l i = skipNotAlwaysOnTop fuel s' l i.
Proof.
  intros H. induction fuel as [| fuel IH]; intros i; cbn [skipNotAlwaysOnTop]; [done |].
  destruct (i <? Array.size l); [| done]. destruct (l !! Z.to_nat i) as [c |]; [| done].
  by rewrite (core_isAlwaysOnTop _ _ c H), IH.
Qed.

Lemma core_toFrontList s s' this l :
  core s = core s' -> toFrontList s this l = toFrontList s' this l.
Proof.
  intros H. unfold toFrontList.
  change (alwaysOnTopFlag (getFlags s this)) with (isAlwaysOnTop s this).
  change (alwaysOnTopFlag (getFlags s' this)) with (isAlwaysOnTop s' this).
  by rewrite (core_isAlwaysOnTop _ _ this H), (core_skipAlwaysOnTopFromEnd _ _ l H).
Qed.

Lemma core_toBackList s s' this l :
  core s = core s' -> toBackList s this l = toBackList s' this l.
Proof.
  intros H. unfold toBackList.
  change (alwaysOnTopFlag (getFlags s this)) with (isAlwaysOnTop s this).
  change (alwaysOnTopFlag (getFlags s' this)) with (isAlwaysOnTop s' this).
  by rewrite (core_isAlwaysOnTop _ _ this H), (core_skipNotAlwaysOnTop _ _ l H).
Qed.

Lemma alter_children s p (l' : list CompId) (f : list CompId -> list CompId) :
  f (childComponentList (the s p)) = l' ->
  alter (fun k => set_childComponentList (f (childComponentList k)) k) p (core s)
  = alter (set_childComponentList l') p (core s).
Proof.
  intros Hf. apply map_eq. intros i. rewrite !lookup_alter.
  destruct (decide (p = i)) as [-> |]; [| done]. rewrite core_lookup.
  unfold the in Hf. destruct (heap s !! i) as [k |]; simpl in *; [| done].
  by rewrite Hf.
Qed.

Lemma alter_children_same s p :
  alter (set_childComponentList (childComponentList (the s p))) p (core s) = core s.
Proof.
  apply map_eq. intros i. rewrite lookup_alter.
  destruct (decide (p = i)) as [-> |]; [| done]. rewrite core_lookup.
  unfold the. destruct (heap s !! i) as [k |]; simpl; [| done]. by destruct k.
Qed.

(** What [moveChildInternal] does to the core. *)
Lemma hoare_moveChildInternal s p i j :
  hoare (atC (core s)) (moveChildInternal p i j)
    (fun _ => atC (alter (set_childComponentList
                            (Array.move (childComponentList (the s p)) i j)) p (core s))).
Proof.
  unfold moveChildInternal. destruct (Z.eqb_spec i j) as [<- | Hne]; cbn [negb].
  - apply hoare_ret. intros s1 Hs1. unfold atC in *. rewrite Hs1.
    replace (Array.move (childComponentList (the s p)) i i)
      with (childComponentList (the s p))
      by (unfold Array.move; by rewrite Z.eqb_refl).
    by rewrite alter_children_same.
  - apply hoare_get_bind. intros s0 Hs0. apply (hoare_at (atC (core s))); [done |].
    eapply hoare_bind; [quiet |]. intros ?; cbv beta.
    eapply hoare_bind; [quiet |]. intros ?; cbv beta.
    eapply hoare_bind.
    { apply (hoare_modifyComp_core p _
               (fun k => set_childComponentList
                           (Array.move (childComponentList k) i j) k)).
      by intros k. }
    intros ?; cbv beta.
    rewrite (alter_children s p _ (fun l => Array.move l i j) eq_refl). quiet.
Qed.

Lemma hoare_toFront s this p b :
  getParentComponent s this = Some p -> isOnDesktop s this = false ->
  hoare (atC (core s)) (toFront this b)
    (fun _ => atC (alter (set_childComponentList
                            (toFrontList s this (childComponentList (the s p))))
                         p (core s))).
Proof.
  intros Hp Hd. unfold toFront.
  eapply hoare_bind; [quiet |]. intros ?; cbv beta.
  apply hoare_get_bind. intros s0 Hs0. apply (hoare_at (atC (core s))); [done |].
  change (hasHeavyweightPeerFlag (getFlags s0 this)) with (isOnDesktop s0 this).
  rewrite (core_isOnDesktop s0 s this Hs0), Hd.
  rewrite (core_parent s0 s this Hs0), Hp. cbv zeta.
  rewrite (core_children s0 s p Hs0).
  eapply hoare_bind
    with (R := fun _ => atC (alter (set_childComponentList
                                      (toFrontList s this (childComponentList (the s p))))
                                   p (core s))).
  - rewrite <- (core_toFrontList s0 s this _ Hs0). unfold toFrontList.
    destruct (bool_decide (Array.getLast (childComponentList (the s p)) = Some this));
      cbn [negb].
    + apply hoare_ret. intros s1 Hs1. unfold atC in *. by rewrite alter_children_same.
    + destruct (0 <=? Array.indexOf (childComponentList (the s p)) this).
      * cbv zeta. apply hoare_moveChildInternal.
      * apply hoare_ret. intros s1 Hs1. unfold atC in *. by rewrite alter_children_same.
  - intros ?; cbv beta. quiet.
Qed.

Lemma hoare_toBack s this p :
  getParentComponent s this = Some p -> isOnDesktop s this = false ->
  hoare (atC (core s)) (toBack this)
    (fun _ => atC (alter (set_childComponentList
                            (toBackList s this (childComponentList (the s p))))
                         p (core s))).
Proof.
  intros Hp Hd. unfold toBack.
  apply hoare_get_bind. intros s0 Hs0. apply (hoare_at (atC (core s))); [done |].
  rewrite (core_isOnDesktop s0 s this Hs0), Hd.
  rewrite (core_parent s0 s this Hs0), Hp. cbv zeta.
  rewrite (core_children s0 s p Hs0).
  rewrite <- (core_toBackList s0 s this _ Hs0). unfold toBackList.
  destruct (bool_decide (Array.getFirst (childComponentList (the s p)) = Some this));
    cbn [negb].
  - apply hoare_ret. intros s1 Hs1. unfold atC in *. by rewrite alter_children_same.
  - destruct (0 <? Array.indexOf (childComponentList (the s p)) this).
    + cbv zeta. apply hoare_moveChildInternal.
    + apply hoare_ret. intros s1 Hs1. unfold atC in *. by rewrite alter_children_same.
Qed.

Lemma children_after_alter s s' p (l' : list CompId) c :
  c ∈ childComponentList (the s p) ->
  core s' = alter (set_childComponentList l') p (core s) ->
  childComponentList (the s' p) = l'.
Proof.
  intros Hin H. destruct (children_alive_owner _ _ _ Hin) as (k & Hk & _).
  pose proof (the_core s' p) as Hthe. rewrite H, theOf_alter in Hthe.
  destruct (decide (p = p)); [| done].
  rewrite core_lookup, Hk in Hthe. simpl in Hthe.
  exact (f_equal childComponentList Hthe).
Qed.

(** [toFront] moves the component within the child list of its parent
    and changes nothing else: the other children keep their order, every
    child that ends up in front of the component is always-on-top, and an
    always-on-top component ends up in front of all.  In a well-formed
    tree every walk along the parents and children that it starts comes
    to its end. *)
Theorem toFront_order (s : World) (this p : CompId) (setAsForeground : bool) :
  getParentComponent s this = Some p -> isOnDesktop s this = false ->
  this ∈ childComponentList (the s p) ->
  let s' := world (toFront this setAsForeground s) in
  (wellFormed s -> finished (trace (toFront this setAsForeground s)) = true)
  /\ core s' = alter (set_childComponentList (childComponentList (the s' p))) p (core s)
  /\ exists front back before after,
       childComponentList (the s p) = before ++ this :: after
       /\ childComponentList (the s' p) = front ++ this :: back
       /\ front ++ back = before ++ after
       /\ (forall c, c ∈ back -> isAlwaysOnTop s c = true)
       /\ (isAlwaysOnTop s this = true -> back = []).
Proof.
  intros Hp Hd Hin s'.
  split.
  { intros Hwf.
    destruct (operations_finished cb_core_hier s this Hwf)
      as (_ & _ & _ & _ & _ & _ & Hfin & _).
    exact (Hfin setAsForeground). }
  pose proof (hoare_toFront s this p setAsForeground Hp Hd s eq_refl) as H.
  cbv beta in H. unfold atC in H. fold s' in H.
  pose proof (children_after_alter s s' p _ this Hin H) as Hl'.
  split; [by rewrite Hl' |]. rewrite Hl'. by apply toFrontList_spec.
Qed.

(** [toBack] moves the component within the child list of its parent and
    changes nothing else: the other children keep their order, a
    component that is not always-on-top ends up behind all, and behind an
    always-on-top component there are only children that are not
    always-on-top.  In a well-formed tree every walk along the parents
    and children that it starts comes to its end. *)
Theorem toBack_order (s : World) (this p : CompId) :
  getParentComponent s this = Some p -> isOnDesktop s this = false ->
  this ∈ childComponentList (the s p) ->
  let s' := world (toBack this s) in
  (wellFormed s -> finished (trace (toBack this s)) = true)
  /\ core s' = alter (set_childComponentList (childComponentList (the s' p))) p (core s)
  /\ exists front back before after,
       childComponentList (the s p) = before ++ this :: after
       /\ childComponentList (the s' p) = front ++ this :: back
       /\ front ++ back = before ++ after
       /\ (forall c, c ∈ front -> isAlwaysOnTop s c = false)
       /\ (isAlwaysOnTop s this = false -> front = []).
Proof.
  intros Hp Hd Hin s'.
  split.
  { intros Hwf.
    destruct (operations_finished cb_core_hier s this Hwf)
      as (_ & _ & _ & _ & _ & _ & _ & Hfin & _).
    exact Hfin. }
  pose proof (hoare_toBack s this p Hp Hd s eq_refl) as H.
  cbv beta in H. unfold atC in H. fold s' in H.
  pose proof (children_after_alter s s' p _ this Hin H) as Hl'.
  split; [by rewrite Hl' |]. rewrite Hl'. by apply toBackList_spec.
Qed.

(** *** Leaving the desktop and leaving the parent *)

Lemma hoare_removeFromDesktop s this :
  hoare (atC (core s)) (removeFromDesktop this)
    (fun _ => atC (alter (fun k => set_flags (set_hasHeavyweightPeerFlag false (flags k)) k)
                         this (core s))).
Proof.
  unfold removeFromDesktop.
  eapply hoare_bind; [quiet |]. intros ?; cbv beta.
  apply hoare_get_bind. intros s0 Hs0. apply (hoare_at (atC (core s))); [done |].
  destruct (hasHeavyweightPeerFlag (getFlags s0 this)) eqn:Hheavy.
  - eapply hoare_bind; [apply hoare_modifyFlags_core; by intros [] |].
    intros ?; cbv beta. quiet.
  - apply hoare_ret. intros s1 Hs1. unfold atC in *. rewrite Hs1, <- Hs0.
    symmetry. apply alter_flags_same; [| by intros []].
    unfold getFlags in Hheavy. destruct (flags (the s0 this)); simpl in *. by subst.
Qed.

(** What [removeChildComponent (index, ...)] does to the core, and what
    it returns. *)
Lemma hoare_removeChildComponent_index_core s this index b1 b2 :
  hoare (atC (core s)) (removeChildComponent_index this index b1 b2)
    (fun v s' =>
       match Array.get (childComponentList (the s this)) index with
       | Some child =>
           v = Some child
           /\ atC (alter (set_parentComponent None) child
                     (alter (set_childComponentList
                               (Array.remove (childComponentList (the s this)) index))
                            this (core s))) s'
       | None => v = None /\ atC (core s) s'
       end).
Proof.
  unfold removeChildComponent_index.
  eapply hoare_bind; [quiet |]. intros ?; cbv beta.
  apply hoare_get_bind. intros s0 Hs0.
  rewrite (core_children s0 s this Hs0).
  destruct (Array.get (childComponentList (the s this)) index) as [child |] eqn:Hget.
  - cbv zeta. apply (hoare_at (atC (core s))); [done |].
    eapply hoare_bind; [quiet |]. intros ?; cbv beta.
    eapply hoare_bind.
    { apply (hoare_modifyComp_core this _
               (fun k => set_childComponentList
                           (Array.remove (childComponentList k) index) k)).
      by intros k. }
    intros ?; cbv beta.
    rewrite (alter_children s this _ (fun l => Array.remove l index) eq_refl).
    eapply hoare_bind.
    { apply (hoare_modifyComp_core child _ (set_parentComponent None)). by intros k. }
    intros ?; cbv beta. apply hoare_get_bind. intros s2 Hs2.
    apply (hoare_at _ _ _ _ Hs2).
    eapply hoare_bind; [quiet |]. intros returned.
    destruct returned.
    + apply hoare_ret. intros st Hst. by split.
    + eapply hoare_bind; [quiet |]. intros ?; cbv beta.
      eapply hoare_bind; [quiet |]. intros ?; cbv beta.
      apply hoare_ret. intros st Hst. by split.
  - apply hoare_ret. intros st Hst. subst st. by split.
Qed.

Lemma read_core {X} (proj : Component -> X) s c :
  (forall k, proj (coreOf k) = proj k) -> proj (the s c) = proj (theOf (core s) c).
Proof. intros Hp. by rewrite <- the_core, Hp. Qed.

Lemma read_alter {X} (proj : Component -> X) f c C c' :
  (forall k, proj (f k) = proj k) -> proj (theOf (alter f c C) c') = proj (theOf C c').
Proof.
  intros Hp. rewrite theOf_alter. destruct (decide (c = c')) as [-> |]; [| done].
  unfold theOf. by destruct (C !! c').
Qed.

Lemma read_alter_ne {X} (proj : Component -> X) f c C c' :
  c <> c' -> proj (theOf (alter f c C) c') = proj (theOf C c').
Proof. intros Hne. rewrite theOf_alter. by destruct (decide (c = c')). Qed.

Lemma skipAlwaysOnTop_ext s s' l :
  (forall c, isAlwaysOnTop s c = isAlwaysOnTop s' c) ->
  forall fuel z, skipAlwaysOnTop fuel s l z = skipAlwaysOnTop fuel s' l z.
Proof.
  intros H. induction fuel as [| fuel IH]; intros z; cbn [skipAlwaysOnTop]; [done |].
  destruct (0 <? z); [| done]. destruct (l !! Z.to_nat (z - 1)) as [c |]; [| done].
  by rewrite (H c), IH.
Qed.

Lemma hoare_removeChildComponent_core s q child :
  child ∈ childComponentList (the s q) ->
  hoare (atC (core s)) (removeChildComponent q child)
    (fun _ => atC (alter (set_parentComponent None) child
                     (alter (set_childComponentList
                               (Array.remove (childComponentList (the s q))
                                  (Array.indexOf (childComponentList (the s q)) child)))
                            q (core s)))).
Proof.
  intros Hin. unfold removeChildComponent.
  apply hoare_get_bind. intros s0 Hs0. rewrite (core_children s0 s q Hs0).
  apply (hoare_at (atC (core s))); [done |].
  eapply hoare_bind; [apply hoare_removeChildComponent_index_core |].
  intros v; cbv beta. apply hoare_ret. intros st.
  rewrite (Array_indexOf_elem_of _ _ Hin). tauto.
Qed.

(** What [addChildComponent] does to the core when the child comes from
    elsewhere. *)
Lemma hoare_addChildComponent_core s this child z :
  getParentComponent s child <> Some this -> child <> this ->
  (forall q, getParentComponent s child = Some q -> child ∈ childComponentList (the s q)) ->
  hoare (atC (core s)) (addChildComponent this (Some child) z)
    (fun _ =>
       atC (alter (set_childComponentList
                     (Array.insert (childComponentList (the s this))
                        (insertionIndex s child (childComponentList (the s this)) z)
                        child))
                  this
                  (alter (set_parentComponent (Some this)) child (coreDetached s child)))).
Proof.
  intros Hne Hself Hcons. unfold addChildComponent.
  eapply hoare_bind; [quiet |]. intros ?; cbv beta.
  apply hoare_get_bind. intros s0 Hs0.
  rewrite (core_parent s0 s child Hs0).
  rewrite bool_decide_eq_false_2 by done.
  apply (hoare_at (atC (core s))); [done |].
  eapply hoare_bind with (R := fun _ => atC (coreDetached s child)).
  { unfold coreDetached. destruct (getParentComponent s child) as [q |] eqn:Hq.
    - apply hoare_removeChildComponent_core. by apply Hcons.
    - apply hoare_removeFromDesktop. }
  intros ?; cbv beta. eapply hoare_bind.
  { apply (hoare_modifyComp_core child _ (set_parentComponent (Some this))).
    by intros k. }
  intros ?; cbv beta. apply hoare_get_bind. intros s1 Hs1.
  apply (hoare_at _ _ _ _ Hs1).
  eapply hoare_bind; [quiet |]. intros ?; cbv beta.
  apply hoare_get_bind. intros s2 Hs2. cbv zeta.
  assert (childComponentList (the s2 this) = childComponentList (the s this)) as Hl.
  { rewrite (read_core childComponentList s2) by done. rewrite Hs2.
    rewrite read_alter_ne by done. unfold coreDetached.
    destruct (getParentComponent s child) as [q |] eqn:Hq.
    - rewrite read_alter_ne by done.
      rewrite read_alter_ne by (intros ->; by apply Hne).
      by rewrite <- (read_core childComponentList).
    - rewrite read_alter by done. by rewrite <- (read_core childComponentList). }
  assert (forall c, isAlwaysOnTop s2 c = isAlwaysOnTop s c) as Haot.
  { intros c. unfold isAlwaysOnTop, getFlags.
    rewrite (read_core (fun k => alwaysOnTopFlag (flags k)) s2) by done. rewrite Hs2.
    rewrite (read_alter (fun k => alwaysOnTopFlag (flags k))) by done.
    unfold coreDetached. destruct (getParentComponent s child) as [q |] eqn:Hq.
    - rewrite !(read_alter (fun k => alwaysOnTopFlag (flags k))) by done.
      by rewrite <- (read_core (fun k => alwaysOnTopFlag (flags k))).
    - rewrite (read_alter (fun k => alwaysOnTopFlag (flags k))) by done.
      by rewrite <- (read_core (fun k => alwaysOnTopFlag (flags k))). }
  rewrite Hl, (Haot child).
  rewrite (skipAlwaysOnTop_ext s2 s _ Haot).
  change (if negb (isAlwaysOnTop s child)
          then skipAlwaysOnTop
                 (Z.to_nat (if (z <? 0) || (Array.size (childComponentList (the s this)) <? z)
                            then Array.size (childComponentList (the s this)) else z))
                 s (childComponentList (the s this))
                 (if (z <? 0) || (Array.size (childComponentList (the s this)) <? z)
                  then Array.size (childComponentList (the s this)) else z)
          else z)
    with (insertionIndex s child (childComponentList (the s this)) z).
  apply (hoare_at _ _ _ _ Hs2).
  eapply hoare_bind.
  { apply (hoare_modifyComp_core this _
             (fun k => set_childComponentList
                         (Array.insert (childComponentList k)
                            (insertionIndex s child (childComponentList (the s this)) z)
                            child) k)).
    by intros k. }
  intros ?; cbv beta.
  assert (alter (fun k => set_childComponentList
                            (Array.insert (childComponentList k)
                               (insertionIndex s child (childComponentList (the s this)) z)
                               child) k) this
                (alter (set_parentComponent (Some this)) child (coreDetached s child))
          = alter (set_childComponentList
                     (Array.insert (childComponentList (the s this))
                        (insertionIndex s child (childComponentList (the s this)) z)
                        child)) this
                  (alter (set_parentComponent (Some this)) child (coreDetached s child)))
    as ->.
  { unfold atC in Hs2. rewrite <- Hs2.
    apply (alter_children s2 this _
             (fun l => Array.insert l
                         (insertionIndex s child (childComponentList (the s this)) z)
                         child)).
    by rewrite Hl. }
  quiet.
Qed.

Lemma coreDetached_alive s child c :
  isAlive s c = true -> is_Some (coreDetached s child !! c).
Proof.
  intros H. unfold coreDetached.
  destruct (getParentComponent s child);
    rewrite <- not_eq_None_Some, !lookup_alter_None, not_eq_None_Some,
      (core_lookup_alive _ _ H); eauto.
Qed.

(** [addChildComponent] with a child that lives elsewhere: the child is
    taken out of its old parent or off the desktop, gets the receiver as
    its parent and is inserted into the receiver's child list, and
    nothing else of any component changes (the buffered image and the
    focus bookkeeping apart).  The rest of the list keeps its order.  A
    child that is not always-on-top is never put directly in front of a
    sibling that is, and with an index of -1 or one past the end only
    always-on-top siblings stay in front of it; an always-on-top child
    given such an index goes to the very end.  In a well-formed tree,
    with a child that is not an ancestor of the receiver, every walk
    along the parents and children that the call starts comes to its
    end. *)
Theorem addChildComponent_result (s : World) (this child : CompId) (zOrder : Z) :
  getParentComponent s child <> Some this -> child <> this ->
  (forall q, getParentComponent s child = Some q -> child ∈ childComponentList (the s q)) ->
  isAlive s this = true -> isAlive s child = true ->
  let s' := world (addChildComponent this (Some child) zOrder s) in
  let l := childComponentList (the s this) in
  (wellFormed s -> ~ ancestorOf s child this ->
   finished (trace (addChildComponent this (Some child) zOrder s)) = true)
  /\ core s' = alter (set_childComponentList
                     (Array.insert l (insertionIndex s child l zOrder) child))
              this (alter (set_parentComponent (Some this)) child (coreDetached s child))
  /\ getParentComponent s' child = Some this
  /\ (getParentComponent s child = None -> isOnDesktop s' child = false)
  /\ exists front back,
       childComponentList (the s' this) = front ++ child :: back
       /\ front ++ back = l
       /\ (isAlwaysOnTop s child = false ->
           (forall c, last front = Some c -> isAlwaysOnTop s c = false)
           /\ (zOrder < 0 \/ Array.size l < zOrder ->
               forall c, c ∈ back -> isAlwaysOnTop s c = true))
       /\ (isAlwaysOnTop s child = true ->
           zOrder < 0 \/ Array.size l <= zOrder -> back = []).
Proof.
  intros Hne Hself Hcons Hthis Hchild s' l.
  split.
  { intros Hwf Hnot.
    destruct (operations_finished cb_core_hier s this Hwf)
      as (_ & _ & _ & _ & _ & _ & _ & _ & _ & Hfin).
    exact (proj1 (Hfin child zOrder (isAlive_is_Some _ _ Hthis) (isAlive_is_Some _ _ Hchild)
                    Hself Hnot)). }
  pose proof (hoare_addChildComponent_core s this child zOrder Hne Hself Hcons s eq_refl)
    as H.
  cbv beta in H. unfold atC in H. fold s' in H. fold l in H.
  split; [exact H |].
  destruct (coreDetached_alive s child child Hchild) as [kc Hkc].
  split; [| split].
  - unfold getParentComponent.
    rewrite (read_core parentComponent s' child) by (by intros []).
    rewrite H, read_alter_ne by done. rewrite theOf_alter.
    destruct (decide (child = child)); [| done]. by rewrite Hkc.
  - intros Hnone. unfold isOnDesktop, getFlags.
    rewrite (read_core (fun k => hasHeavyweightPeerFlag (flags k)) s' child)
      by (by intros [? ? ? []]).
    rewrite H, read_alter_ne by done.
    rewrite (read_alter (fun k => hasHeavyweightPeerFlag (flags k))) by (by intros []).
    unfold coreDetached. rewrite Hnone, theOf_alter.
    destruct (decide (child = child)); [| done].
    by destruct (core s !! child) as [[? ? ? []] |].
  - assert (childComponentList (the s' this)
            = Array.insert l (insertionIndex s child l zOrder) child) as ->.
    { rewrite (read_core childComponentList s' this) by (by intros []).
      rewrite H, theOf_alter. destruct (decide (this = this)); [| done].
      assert (is_Some (alter (set_parentComponent (Some this)) child
                         (coreDetached s child) !! this)) as [k Hk].
      { rewrite <- not_eq_None_Some, lookup_alter_None, not_eq_None_Some.
        by apply coreDetached_alive. }
      by rewrite Hk. }
    apply insertionIndex_spec.
Qed.

(** *** Removing all children *)

Lemma coreWithout_snoc this l c l' C :
  coreWithout this l (alter (set_parentComponent None) c
                        (alter (set_childComponentList l') this C))
  = coreWithout this (l ++ [c]) C.
Proof.
  unfold coreWithout. rewrite foldr_app. cbn [foldr]. f_equal.
  apply map_eq. intros i. rewrite !lookup_alter.
  repeat case_decide; subst; try done; by destruct (C !! i) as [[] |].
Qed.

Lemma children_of_core s C this :
  core s = C -> childComponentList (the s this) = childComponentList (theOf C this).
Proof. intros <-. apply (read_core childComponentList). by intros []. Qed.

Lemma hoare_removeAllChildren_core this :
  forall n s fuel,
    length (childComponentList (the s this)) = n -> (n < fuel)%nat ->
    hoare (atC (core s)) (removeAllChildren fuel this)
      (fun v s' => v = true
                   /\ atC (coreWithout this (childComponentList (the s this)) (core s)) s').
Proof.
  induction n as [| n IH]; intros s fuel Hlen Hfuel;
    (destruct fuel as [| fuel]; [lia |]); cbn [removeAllChildren];
    apply hoare_get_bind; intros s0 Hs0; rewrite (core_children s0 s this Hs0);
    unfold Array.size; rewrite Hlen; cbv zeta.
  - cbn [Z.of_nat Z.ltb Z.compare]. apply hoare_ret. intros s1 ->. split; [done |].
    apply nil_length_inv in Hlen. unfold atC, coreWithout. rewrite Hlen. cbn [foldr].
    rewrite Hs0, <- Hlen. symmetry. apply alter_children_same.
  - replace (0 <? Z.of_nat (S n)) with true by (symmetry; apply Z.ltb_lt; lia).
    apply (hoare_at (atC (core s))); [done |].
    destruct (childComponentList (the s this)) as [| c0 l0] eqn:Hl using rev_ind;
      [done |].
    rewrite length_app in Hlen. cbn [length] in Hlen.
    eapply hoare_bind; [apply hoare_removeChildComponent_index_core |].
    intros v; cbv beta. rewrite Hl.
    assert (Array.get (l0 ++ [c0]) (Z.of_nat (S n) - 1) = Some c0) as ->.
    { unfold Array.get.
      replace (isPositiveAndBelow (Z.of_nat (S n) - 1) (Array.size (l0 ++ [c0])))
        with true
        by (symmetry; rewrite isPositiveAndBelow_spec; unfold Array.size;
            rewrite length_app; cbn [length]; lia).
      replace (Z.to_nat (Z.of_nat (S n) - 1)) with (length l0 + 0)%nat by lia.
      by rewrite lookup_app_r, Nat.add_0_r, Nat.sub_diag by lia. }
    assert (Array.remove (l0 ++ [c0]) (Z.of_nat (S n) - 1) = l0) as ->.
    { unfold Array.remove.
      replace (isPositiveAndBelow (Z.of_nat (S n) - 1) (Array.size (l0 ++ [c0])))
        with true
        by (symmetry; rewrite isPositiveAndBelow_spec; unfold Array.size;
            rewrite length_app; cbn [length]; lia).
      replace (Z.to_nat (Z.of_nat (S n) - 1)) with (length l0 + 0)%nat by lia.
      rewrite delete_take_drop, take_app_length', drop_ge
        by (rewrite ?length_app; cbn [length]; lia).
      apply app_nil_r. }
    intros s1 [_ Hs1].
    assert (childComponentList (the s1 this) = l0) as Hl1.
    { rewrite (children_of_core s1 _ this Hs1).
      rewrite (read_alter childComponentList) by (by intros []).
      rewrite theOf_alter. destruct (decide (this = this)); [| done].
      destruct (core s !! this) as [k |] eqn:Hk; [done |].
      exfalso. pose proof (the_core s this) as Hthe. unfold theOf in Hthe.
      rewrite Hk in Hthe. cbn [default] in Hthe.
      apply (f_equal childComponentList) in Hthe.
      replace (childComponentList (coreOf (the s this)))
        with (childComponentList (the s this)) in Hthe by (by destruct (the s this)).
      rewrite Hl in Hthe. by destruct l0. }
    pose proof (IH s1 fuel ltac:(rewrite Hl1; lia) ltac:(lia) s1 eq_refl) as [Hv Hw].
    split; [exact Hv |]. unfold atC in *. rewrite Hw, Hl1, Hs1.
    apply coreWithout_snoc.
Qed.

Lemma coreWithout_children this l C c :
  childComponentList (theOf (coreWithout this l C) c)
  = if decide (this = c)
    then match C !! c with Some _ => [] | None => childComponentList (theOf C c) end
    else childComponentList (theOf C c).
Proof.
  unfold coreWithout. induction l as [| x l IH]; cbn [foldr].
  - rewrite theOf_alter. destruct (decide (this = c)) as [-> |]; [| done].
    unfold theOf. by destruct (C !! c).
  - by rewrite (read_alter childComponentList) by (by intros []).
Qed.

Lemma coreWithout_parent this l C c :
  parentComponent (theOf (coreWithout this l C) c)
  = if decide (c ∈ l) then None else parentComponent (theOf C c).
Proof.
  unfold coreWithout. induction l as [| x l IH]; cbn [foldr].
  - rewrite decide_False by apply not_elem_of_nil.
    apply (read_alter parentComponent). by intros [].
  - rewrite theOf_alter. destruct (decide (x = c)) as [-> | Hne].
    + rewrite decide_True by apply list_elem_of_here.
      by destruct (foldr _ _ l !! c) as [[] |].
    + rewrite IH. destruct (decide (c ∈ l)) as [Hin | Hnin].
      * by rewrite decide_True by (by apply list_elem_of_further).
      * rewrite decide_False; [done |]. intros [-> | Hin]%elem_of_cons; done.
Qed.

Lemma coreWithout_others this l C c :
  c ∉ l -> c <> this -> theOf (coreWithout this l C) c = theOf C c.
Proof.
  intros Hnin Hne. unfold coreWithout. induction l as [| x l IH]; cbn [foldr].
  - rewrite theOf_alter. by rewrite decide_False by done.
  - apply not_elem_of_cons in Hnin as [Hx Hnin].
    rewrite theOf_alter, decide_False by done. by apply IH.
Qed.

(** [removeAllChildren] comes to its end after one round for each
    child: the receiver has no children left, every former child has no
    parent, and nothing else of any component changes (the buffered
    image and the focus bookkeeping apart).  In a well-formed tree the
    walks along the parents and children that the rounds start come to
    their end as well. *)
Theorem removeAllChildren_result (s : World) (this : CompId) (fuel : nat) :
  let l := childComponentList (the s this) in
  (length l < fuel)%nat ->
  let r := removeAllChildren fuel this s in
  (wellFormed s -> finished (trace r) = true)
  /\ value r = true
  /\ childComponentList (the (world r) this) = []
  /\ (forall c, c ∈ l -> getParentComponent (world r) c = None)
  /\ (forall c, c ∉ l -> getParentComponent (world r) c = getParentComponent s c)
  /\ (forall c, c <> this ->
        childComponentList (the (world r) c) = childComponentList (the s c))
  /\ (forall c, c ∉ l -> c <> this -> coreOf (the (world r) c) = coreOf (the s c)).
Proof.
  intros l Hfuel r.
  split.
  { intros Hwf.
    destruct (operations_finished cb_core_hier s this Hwf)
      as (_ & _ & _ & _ & _ & _ & _ & _ & Hfin & _).
    exact (Hfin fuel). }
  destruct (hoare_removeAllChildren_core this _ s fuel eq_refl Hfuel s eq_refl)
    as [Hv Hw].
  fold r in Hv, Hw. fold l in Hw. unfold atC in Hw.
  split; [exact Hv |]. split; [| split; [| split; [| split]]].
  - rewrite (children_of_core _ _ this Hw), coreWithout_children.
    rewrite decide_True by done.
    destruct (core s !! this) as [k |] eqn:Hk; [done |].
    rewrite <- (children_of_core s _ this eq_refl). fold l.
    destruct l as [| c l'] eqn:Hl; [done |].
    assert (c ∈ childComponentList (the s this)) as Hin
      by (fold l; rewrite Hl; apply list_elem_of_here).
    destruct (children_alive_owner _ _ _ Hin) as (k' & Hk' & _).
    rewrite core_lookup, Hk' in Hk. done.
  - intros c Hc. unfold getParentComponent.
    rewrite (read_core parentComponent (world r) c) by (by intros []).
    rewrite Hw, coreWithout_parent. by rewrite decide_True.
  - intros c Hc. unfold getParentComponent.
    rewrite (read_core parentComponent (world r) c) by (by intros []).
    rewrite Hw, coreWithout_parent. rewrite decide_False by done.
    symmetry. apply (read_core parentComponent). by intros [].
  - intros c Hne. rewrite (children_of_core _ _ c Hw), coreWithout_children.
    rewrite decide_False by done. symmetry. by apply children_of_core.
  - intros c Hc Hne. by rewrite !the_core, Hw, coreWithout_others.
Qed.

(** *** Adding a child and making it visible *)

Lemma isAlive_core s c : isAlive s c = true <-> is_Some (core s !! c).
Proof.
  unfold isAlive. by rewrite bool_decide_eq_true, core_lookup, fmap_is_Some.
Qed.

Lemma isAlive_alter s s' f c c' :
  core s' = alter f c (core s) -> isAlive s c' = true -> isAlive s' c' = true.
Proof.
  rewrite !isAlive_core. intros ->.
  by rewrite <- !not_eq_None_Some, lookup_alter_None.
Qed.

Lemma hoare_addChildComponent_same_core s this child z :
  getParentComponent s child = Some this ->
  hoare (atC (core s)) (addChildComponent this (Some child) z) (fun _ => atC (core s)).
Proof.
  intros Hp. unfold addChildComponent.
  eapply hoare_bind; [quiet |]. intros ?; cbv beta.
  apply hoare_get_bind. intros s0 Hs0.
  rewrite (core_parent s0 s child Hs0), bool_decide_eq_true_2 by done.
  apply hoare_ret. by intros s1 ->.
Qed.

Lemma added_read {X} (proj : Component -> X) s s' this child (L : list CompId) :
  core s' = alter (set_childComponentList L) this
              (alter (set_parentComponent (Some this)) child (coreDetached s child)) ->
  (forall k, proj (coreOf k) = proj k) ->
  (forall k l, proj (set_childComponentList l k) = proj k) ->
  (forall k p, proj (set_parentComponent p k) = proj k) ->
  (forall k, proj (set_flags (set_hasHeavyweightPeerFlag false (flags k)) k) = proj k) ->
  forall c, proj (the s' c) = proj (the s c).
Proof.
  intros H Hcore Hl Hp Hd c.
  rewrite (read_core proj s' c), H by done.
  rewrite !(read_alter proj) by done.
  unfold coreDetached. destruct (getParentComponent s child) as [q |].
  - rewrite !(read_alter proj) by done. symmetry. by apply read_core.
  - rewrite (read_alter proj) by done. symmetry. by apply read_core.
Qed.

Lemma added_parent s s' this child (L : list CompId) :
  core s' = alter (set_childComponentList L) this
              (alter (set_parentComponent (Some this)) child (coreDetached s child)) ->
  isAlive s child = true ->
  getParentComponent s' child = Some this.
Proof.
  intros H Hchild. destruct (coreDetached_alive s child child Hchild) as [kc Hkc].
  unfold getParentComponent.
  rewrite (read_core parentComponent s' child) by (by intros []).
  rewrite H, (read_alter parentComponent) by (by intros []). rewrite theOf_alter.
  destruct (decide (child = child)); [| done]. by rewrite Hkc.
Qed.

Lemma added_children s s' this child (L : list CompId) :
  core s' = alter (set_childComponentList L) this
              (alter (set_parentComponent (Some this)) child (coreDetached s child)) ->
  isAlive s this = true ->
  childComponentList (the s' this) = L.
Proof.
  intros H Hthis.
  rewrite (read_core childComponentList s' this) by (by intros []).
  rewrite H, theOf_alter. destruct (decide (this = this)); [| done].
  assert (is_Some (alter (set_parentComponent (Some this)) child
                     (coreDetached s child) !! this)) as [k Hk].
  { rewrite <- not_eq_None_Some, lookup_alter_None, not_eq_None_Some.
    by apply coreDetached_alive. }
  by rewrite Hk.
Qed.

(** [addAndMakeVisible] leaves the child visible, with the receiver as
    its parent and in the receiver's child list, whether it was a child
    of the receiver before or not; the children the receiver had stay.
    In a well-formed tree, with a child that is not an ancestor of the
    receiver, every walk along the parents and children that the call
    starts comes to its end. *)
Theorem addAndMakeVisible_result (s : World) (this child : CompId) (zOrder : Z) :
  child <> this -> isAlive s this = true -> isAlive s child = true ->
  (forall q, getParentComponent s child = Some q -> child ∈ childComponentList (the s q)) ->
  let s' := world (addAndMakeVisible this (Some child) zOrder s) in
  (wellFormed s -> ~ ancestorOf s child this ->
   finished (trace (addAndMakeVisible this (Some child) zOrder s)) = true)
  /\ isVisible s' child = true
  /\ getParentComponent s' child = Some this
  /\ child ∈ childComponentList (the s' this)
  /\ (forall c, c ∈ childComponentList (the s this) -> c ∈ childComponentList (the s' this)).
Proof.
  intros Hself Hthis Hchild Hcons s'.
  split.
  { intros Hwf Hnot.
    destruct (operations_finished cb_core_hier s this Hwf)
      as (_ & _ & _ & _ & _ & _ & _ & _ & _ & Hfin).
    exact (proj2 (Hfin child zOrder (isAlive_is_Some _ _ Hthis) (isAlive_is_Some _ _ Hchild)
                    Hself Hnot)). }
  set (s1 := world (setVisible child true s)).
  assert (s' = world (addChildComponent this (Some child) zOrder s1)) as Hs' by reflexivity.
  pose proof (hoare_setVisible (core s) child true s eq_refl) as H1.
  cbv beta in H1. unfold atC in H1. fold s1 in H1.
  assert (forall c, parentComponent (the s1 c) = parentComponent (the s c)) as Hpar.
  { intros c. rewrite (read_core parentComponent s1 c), H1 by (by intros []).
    rewrite (read_alter parentComponent) by (by intros []).
    symmetry. apply (read_core parentComponent). by intros []. }
  assert (forall c, childComponentList (the s1 c) = childComponentList (the s c)) as Hch.
  { intros c. rewrite (read_core childComponentList s1 c), H1 by (by intros []).
    rewrite (read_alter childComponentList) by (by intros []).
    symmetry. apply (read_core childComponentList). by intros []. }
  assert (isVisible s1 child = true) as Hvis.
  { unfold isVisible, getFlags.
    rewrite (read_core (fun k => visibleFlag (flags k)) s1 child) by (by intros [? ? ? []]).
    rewrite H1, theOf_alter. destruct (decide (child = child)); [| done].
    by rewrite (core_lookup_alive _ _ Hchild). }
  pose proof (isAlive_alter s s1 _ child this H1 Hthis) as Hthis1.
  pose proof (isAlive_alter s s1 _ child child H1 Hchild) as Hchild1.
  destruct (decide (getParentComponent s child = Some this)) as [Hp | Hp].
  - assert (getParentComponent s1 child = Some this) as Hp1
      by (unfold getParentComponent in *; by rewrite Hpar).
    pose proof (hoare_addChildComponent_same_core s1 this child zOrder Hp1 s1 eq_refl) as H2.
    cbv beta in H2. unfold atC in H2. rewrite <- Hs' in H2.
    split; [by rewrite (core_isVisible _ _ child H2) |].
    split; [by rewrite (core_parent _ _ child H2) |].
    rewrite (core_children _ _ this H2), Hch. split; [by apply Hcons | done].
  - assert (getParentComponent s1 child <> Some this) as Hp1
      by (unfold getParentComponent in *; by rewrite Hpar).
    assert (forall q, getParentComponent s1 child = Some q ->
                      child ∈ childComponentList (the s1 q)) as Hcons1.
    { intros q Hq. rewrite Hch. apply Hcons. unfold getParentComponent in *.
      by rewrite <- Hpar. }
    pose proof (hoare_addChildComponent_core s1 this child zOrder Hp1 Hself Hcons1
                  s1 eq_refl) as H2.
    cbv beta in H2. unfold atC in H2. rewrite <- Hs' in H2.
    split.
    { unfold isVisible, getFlags in *.
      rewrite (added_read (fun k => visibleFlag (flags k)) s1 s' this child _ H2); done. }
    split; [by apply (added_parent s1 s' this child _ H2) |].
    rewrite (added_children s1 s' this child _ H2 Hthis1), Array_insert_split, Hch.
    split.
    + apply elem_of_app. right. apply list_elem_of_here.
    + intros c Hc. rewrite <- (take_drop
        (if isPositiveAndBelow
              (insertionIndex s1 child (childComponentList (the s this)) zOrder)
              (Array.size (childComponentList (the s this)))
         then Z.to_nat (insertionIndex s1 child (childComponentList (the s this)) zOrder)
         else length (childComponentList (the s this)))
        (childComponentList (the s this))) in Hc.
      apply elem_of_app in Hc as [Hc | Hc]; apply elem_of_app; [by left |].
      right. by apply list_elem_of_further.
Qed.

(** *** Moving and resizing through [setBounds] *)

Lemma bounds_after_setBounds s this x y w h :
  isAlive s this = true ->
  bounds (the (world (setBounds this x y w h s)) this)
  = mkRectangle x y (Z.max 0 w) (Z.max 0 h).
Proof.
  intros Halive.
  pose proof (hoare_setBounds (core s) this x y w h s eq_refl) as H.
  cbv beta in H. unfold atC in H.
  rewrite (read_core bounds _ this) by (by intros []).
  rewrite H, theOf_alter. destruct (decide (this = this)); [| done].
  by rewrite (core_lookup_alive _ _ Halive).
Qed.

(** The wrappers of [setBounds] on a component whose size is not
    negative: [setSize] keeps the position, [setTopLeftPosition] keeps
    the size, [setTopRightPosition] puts the right edge at the given x,
    and [setCentrePosition] puts the centre, as [Rectangle] computes it,
    at the given point; the last two keep the size as well.  In a
    well-formed tree every walk along the parents and children that
    they start comes to its end. *)
Theorem setBounds_wrappers (s : World) (this : CompId) (x y w h : Z) :
  isAlive s this = true ->
  0 <= getWidth s this -> 0 <= getHeight s this -> is_int x -> is_int y ->
  (wellFormed s ->
   finished (trace (setSize this w h s)) = true
   /\ finished (trace (setTopLeftPosition this x y s)) = true
   /\ finished (trace (setTopRightPosition this x y s)) = true
   /\ finished (trace (setCentrePosition this x y s)) = true)
  /\ bounds (the (world (setSize this w h s)) this)
  = mkRectangle (getX s this) (getY s this) (Z.max 0 w) (Z.max 0 h)
  /\ bounds (the (world (setTopLeftPosition this x y s)) this)
     = mkRectangle x y (getWidth s this) (getHeight s this)
  /\ (let s' := world (setTopRightPosition this x y s) in
      int_add (getX s' this) (getWidth s' this) = x /\ getY s' this = y
      /\ getWidth s' this = getWidth s this /\ getHeight s' this = getHeight s this)
  /\ (let s' := world (setCentrePosition this x y s) in
      int_add (getX s' this) (Z.quot (getWidth s' this) 2) = x
      /\ int_add (getY s' this) (Z.quot (getHeight s' this) 2) = y
      /\ getWidth s' this = getWidth s this /\ getHeight s' this = getHeight s this).
Proof.
  intros Halive Hw Hh Hx Hy.
  split.
  { intros Hwf.
    destruct (operations_finished cb_core_hier s this Hwf) as (_ & H1 & H2 & H3 & H4 & _).
    split; [exact (H1 w h) |]. split; [exact (H2 x y) |].
    split; [exact (H3 x y) | exact (H4 x y)]. }
  assert (forall x y, bounds (the (world (setTopLeftPosition this x y s)) this)
                      = mkRectangle x y (getWidth s this) (getHeight s this)) as Htl.
  { intros x' y'.
    change (world (setTopLeftPosition this x' y' s))
      with (world (setBounds this x' y' (getWidth s this) (getHeight s this) s)).
    rewrite bounds_after_setBounds by done. f_equal; lia. }
  split; [| split; [| split]].
  - change (world (setSize this w h s))
      with (world (setBounds this (getX s this) (getY s this) w h s)).
    by apply bounds_after_setBounds.
  - apply Htl.
  - cbv zeta.
    change (world (setTopRightPosition this x y s))
      with (world (setTopLeftPosition this (int_sub x (getWidth s this)) y s)).
    unfold getX, getY, getWidth, getHeight. rewrite Htl. cbn [rect_x rect_y rect_w rect_h].
    split; [by apply int_sub_add | done].
  - cbv zeta.
    change (world (setCentrePosition this x y s))
      with (world (setTopLeftPosition this (int_sub x (Z.quot (getWidth s this) 2))
                                          (int_sub y (Z.quot (getHeight s this) 2)) s)).
    unfold getX, getY, getWidth, getHeight. rewrite Htl. cbn [rect_x rect_y rect_w rect_h].
    split; [by apply int_sub_add |]. split; [by apply int_sub_add | done].
Qed.

End Quiet.

End Juce.

Arguments mkRes {AffineTransform Platform A} _ _ _.
Arguments trace {AffineTransform Platform A} _.
Arguments world {AffineTransform Platform A} _.
Arguments value {AffineTransform Platform A} _.

(** * The stored settings *)

Module StoredSettingsProofs.
Import StoredSettings.

Lemma findEndOfToken_whole x :
  containsChar x "|"%char = false -> findEndOfToken x "|" = (x, EmptyString).
Proof.
  induction x as [| c x IH]; cbn [containsChar findEndOfToken]; [done |].
  rewrite (Ascii.eqb_sym c). destruct (Ascii.eqb "|" c); [done |].
  intros H. by rewrite (IH H).
Qed.

Lemma findEndOfToken_bar x t :
  containsChar x "|"%char = false ->
  findEndOfToken (String.append x (String "|" t)) "|" = (x, String "|" t).
Proof.
  induction x as [| c x IH]; [intros _; reflexivity |].
  change (String.append (String c x) (String "|" t))
    with (String c (String.append x (String "|" t))).
  cbn [containsChar findEndOfToken].
  rewrite (Ascii.eqb_sym c). destruct (Ascii.eqb "|" c); [done |].
  intros H. by rewrite (IH H).
Qed.

Lemma length_append x y :
  String.length (String.append x y) = (String.length x + String.length y)%nat.
Proof. induction x as [| c x IH]; simpl; [done | by rewrite IH]. Qed.

Lemma addTokens_loop_join (l : list string) :
  l <> [] ->
  Forall (fun x => containsChar x "|"%char = false) l ->
  forall fuel, (String.length (joinIntoString "|" l) < fuel)%nat ->
               addTokens_loop fuel (joinIntoString "|" l) "|" = l.
Proof.
  induction l as [| x l IH]; [done |]. intros _ Hall fuel Hfuel.
  apply Forall_cons in Hall as [Hx Hall].
  destruct fuel as [| fuel]; [lia |].
  destruct l as [| y l].
  - simpl in *. by rewrite (findEndOfToken_whole x Hx).
  - change (joinIntoString "|" (x :: y :: l))
      with (String.append x (String "|" (joinIntoString "|" (y :: l)))) in *.
    cbn [addTokens_loop]. rewrite (findEndOfToken_bar x _ Hx). cbn [fst snd].
    f_equal. apply IH; [done | done |].
    rewrite length_append in Hfuel. cbn [String.length] in Hfuel. lia.
Qed.

Lemma join_empty (l : list string) :
  joinIntoString "|" l = EmptyString -> l = [] \/ l = [EmptyString].
Proof.
  destruct l as [| x [| y l]]; simpl; [auto | intros ->; auto |].
  destruct x; simpl; discriminate.
Qed.

Lemma map_mkFile (files : list File) : map mkFile (map getFullPathName files) = files.
Proof. induction files as [| [p] files IH]; simpl; [done | by rewrite IH]. Qed.

Lemma getValue_setValue k v props : getValue k (setValue k v props) = v.
Proof. unfold getValue, setValue. by rewrite lookup_insert_eq. Qed.

Lemma addTokens_join (l : list string) :
  l <> [EmptyString] ->
  Forall (fun x => containsChar x "|"%char = false) l ->
  addTokens [] (joinIntoString "|" l) "|" = l.
Proof.
  intros Hne Hl. unfold addTokens.
  destruct (joinIntoString "|" l) as [| c t] eqn:Hjoin.
  - by destruct (join_empty l Hjoin) as [-> | ->].
  - rewrite <- Hjoin. cbn [app].
    apply addTokens_loop_join; [| done | lia].
    intros Hnil. by rewrite Hnil in Hjoin.
Qed.

(** C7, as amended.  Files whose paths hold no bar round-trip through the
    [lastProjects] property, in order, except for the array of one file
    with the empty path: that array is stored as the empty string, which
    reads back as the empty array. *)
Theorem lastProjects_roundtrip (files : list File) (props : gmap string string) :
  Forall (fun f => hasBar f = false) files ->
  files <> [mkFile EmptyString] ->
  getLastProjects (setLastProjects files props) = files
  /\ setLastProjects files props !! "lastProjects"
     = Some (joinIntoString "|" (map getFullPathName files)).
Proof.
  intros Hbars Hne. unfold getLastProjects, setLastProjects. split.
  - rewrite getValue_setValue, addTokens_join; [apply map_mkFile | |].
    + intros Hone. apply Hne.
      destruct files as [| [p] [| g files]]; try discriminate.
      simpl in Hone. by inversion Hone.
    + apply Forall_map. exact Hbars.
  - unfold setValue. by rewrite lookup_insert_eq.
Qed.

(** Two projects round-trip. *)
Lemma lastProjects_roundtrip_witness :
  Forall (fun f => hasBar f = false) [mkFile "/home/a.jucer"; mkFile "b.jucer"]
  /\ [mkFile "/home/a.jucer"; mkFile "b.jucer"] <> [mkFile EmptyString]
  /\ getLastProjects (setLastProjects [mkFile "/home/a.jucer"; mkFile "b.jucer"] ∅)
     = [mkFile "/home/a.jucer"; mkFile "b.jucer"]
  /\ setLastProjects [mkFile "/home/a.jucer"; mkFile "b.jucer"] ∅ !! "lastProjects"
     = Some "/home/a.jucer|b.jucer".
Proof.
  assert (Forall (fun f => hasBar f = false) [mkFile "/home/a.jucer"; mkFile "b.jucer"])
    as Hbars by (repeat constructor).
  assert ([mkFile "/home/a.jucer"; mkFile "b.jucer"] <> [mkFile EmptyString])
    as Hne by discriminate.
  split; [exact Hbars |]. split; [exact Hne |].
  exact (lastProjects_roundtrip _ ∅ Hbars Hne).
Defined.

(** C7 as stated fails: the array that holds the one file with the empty
    path has no bar in any path and reads back as the empty array. *)
Lemma lastProjects_empty_path_counterexample :
  Forall (fun f => hasBar f = false) [mkFile EmptyString]
  /\ setLastProjects [mkFile EmptyString] ∅ = setLastProjects [] ∅
  /\ getLastProjects (setLastProjects [mkFile EmptyString] ∅) = []
  /\ getLastProjects (setLastProjects [mkFile EmptyString] ∅) <> [mkFile EmptyString].
Proof.
  split; [repeat constructor |]. split; [reflexivity |]. split; [reflexivity |].
  discriminate.
Qed.

(** No way of reading the property back repairs this: the empty array
    and the array of the empty path are stored as the same value. *)
Lemma lastProjects_not_injective (read : gmap string string -> list File) :
  ~ (read (setLastProjects [] ∅) = []
     /\ read (setLastProjects [mkFile EmptyString] ∅) = [mkFile EmptyString]).
Proof.
  intros [H1 H2].
  change (setLastProjects [mkFile EmptyString] ∅) with (setLastProjects [] ∅) in H2.
  congruence.
Qed.

End StoredSettingsProofs.

(** * The theorems at work *)

Module Examples.
Import Demo.
Local Open Scope nat_scope.

Lemma tree_lookup c k :
  tree !! c = Some k ->
  (c = 1 /\ k = component "window" None (mkRectangle 0 0 100 100) [2; 3] visible)
  \/ (c = 2 /\ k = component "below" (Some 1) (mkRectangle 10 10 50 50) [] visible)
  \/ (c = 3 /\ k = component "above" (Some 1) (mkRectangle 20 20 60 60) [] visible).
Proof.
  unfold tree. rewrite !lookup_insert.
  destruct (decide (1 = c)) as [<- |]; [intros [= <-]; auto |].
  destruct (decide (2 = c)) as [<- |]; [intros [= <-]; auto |].
  destruct (decide (3 = c)) as [<- |]; [intros [= <-]; auto |].
  by rewrite lookup_empty.
Qed.

Lemma window_parentsAlive held : parentsAlive (window held).
Proof.
  intros c k p Hc Hp. simpl in Hc.
  destruct (tree_lookup c k Hc) as [[-> ->] | [[-> ->] | [-> ->]]];
    simpl in Hp; inversion Hp; subst; by eexists.
Qed.

Lemma window_acyclic held : acyclic (window held).
Proof.
  intros c.
  destruct (decide (c = 2)) as [-> | H2]; [| destruct (decide (c = 3)) as [-> | H3]].
  - exists [1]. apply chain_cons; [done |]. by apply chain_root.
  - exists [1]. apply chain_cons; [done |]. by apply chain_root.
  - exists []. apply chain_root. unfold getParentComponent, the. simpl.
    destruct (tree !! c) as [k |] eqn:Hc; [| done].
    destruct (tree_lookup c k Hc) as [[-> ->] | [[-> ->] | [-> ->]]]; done.
Qed.

Lemma window_treeShape held : treeShape (window held).
Proof.
  split; [apply window_parentsAlive | split].
  - intros p k c Hp Hin. simpl in Hp.
    destruct (tree_lookup p k Hp) as [[-> ->] | [[-> ->] | [-> ->]]]; simpl in Hin.
    + apply elem_of_cons in Hin as [-> | Hin]; [by eexists |].
      apply elem_of_cons in Hin as [-> | Hin]; [by eexists |].
      by apply elem_of_nil in Hin.
    + by apply elem_of_nil in Hin.
    + by apply elem_of_nil in Hin.
  - intros p k Hp. simpl in Hp.
    destruct (tree_lookup p k Hp) as [[-> ->] | [[-> ->] | [-> ->]]];
      by apply (bool_decide_unpack _).
Qed.

Lemma window_wellFormed held : wellFormed (window held).
Proof. split; [apply window_treeShape | apply window_acyclic]. Qed.

(** C2 at the component 2 of the window. *)
Lemma convertParentSpace_inverse_witness :
  affineTransform (the (window true) 2) = None
  /\ is_int_point (mkPoint 5 7)
  /\ convertToParentSpace (window true) 2 (mkPoint 5 7) = mkPoint 15 17
  /\ convertFromParentSpace (window true) 2
       (convertToParentSpace (window true) 2 (mkPoint 5 7)) = mkPoint 5 7
  /\ convertToParentSpace (window true) 2
       (convertFromParentSpace (window true) 2 (mkPoint 5 7)) = mkPoint 5 7.
Proof.
  assert (affineTransform (the (window true) 2) = None) as H1 by reflexivity.
  assert (is_int_point (mkPoint 5 7)) as H2 by (by vm_compute).
  destruct (convertParentSpace_inverse (window true) 2 (mkPoint 5 7) H1 H2)
    as (Ha & Hb & Hc & Hd).
  split; [exact H1 |]. split; [exact H2 |]. split; [reflexivity |].
  split; [exact Ha | exact Hb].
Defined.

(** C10 in the window: 1 is a parent of 2, 2 is not a parent of itself,
    and the top-level component of 3 is 1. *)
Lemma isParentOf_getTopLevelComponent_witness :
  parentsAlive (window true) /\ acyclic (window true)
  /\ isParentOf (window true) 1 (Some 2) = true
  /\ ancestorOf (window true) 1 2
  /\ isParentOf (window true) 2 (Some 2) = false
  /\ getTopLevelComponent (window true) 3 = 1
  /\ reachesTop (window true) 3 1.
Proof.
  pose proof (window_parentsAlive true) as H1.
  pose proof (window_acyclic true) as H2.
  destruct (isParentOf_getTopLevelComponent_spec (window true) 1 2 H1 H2)
    as ((b & _ & Hb & Hiff) & _).
  destruct (isParentOf_getTopLevelComponent_spec (window true) 2 2 H1 H2)
    as (_ & Hself & _).
  destruct (isParentOf_getTopLevelComponent_spec (window true) 1 3 H1 H2)
    as (_ & _ & _ & _ & (r & _ & Hr & Htop & _) & _).
  split; [exact H1 |]. split; [exact H2 |]. split; [reflexivity |].
  split; [apply Hiff; rewrite <- Hb; reflexivity |].
  split; [exact Hself |]. split; [reflexivity |].
  assert (r = 1) as Heq by (rewrite <- Hr; reflexivity).
  rewrite Heq in Htop. exact Htop.
Defined.

(** C3 in the window, whose child 2 covers (10, 10) to (60, 60) and
    whose child 3, above it, covers (20, 20) to (80, 80): at (25, 25)
    both children are hit and the topmost one, 3, is found; (15, 15)
    lies outside the bounds of 3 and finds 2; (5, 5) lies outside both
    and finds the window; (200, 25) lies outside the window and finds
    nothing. *)
Lemma getComponentAt_witness :
  wellFormed (window true)
  /\ getComponentAt (window true) 1 (mkPoint 25 25) = Some (Some 3)
  /\ componentAt (window true) 1 (mkPoint 25 25) (Some 3)
  /\ getComponentAt (window true) 1 (mkPoint 15 15) = Some (Some 2)
  /\ componentAt (window true) 1 (mkPoint 15 15) (Some 2)
  /\ getComponentAt (window true) 1 (mkPoint 5 5) = Some (Some 1)
  /\ componentAt (window true) 1 (mkPoint 5 5) (Some 1)
  /\ getComponentAt (window true) 1 (mkPoint 200 25) = Some None
  /\ ~ passesHitTest (window true) 1 (mkPoint 200 25).
Proof.
  pose proof (window_wellFormed true) as H.
  destruct (getComponentAt_spec (window true) 1 (mkPoint 25 25) H) as (r1 & Hr1 & Hat1 & _).
  destruct (getComponentAt_spec (window true) 1 (mkPoint 15 15) H) as (r2 & Hr2 & Hat2 & _).
  destruct (getComponentAt_spec (window true) 1 (mkPoint 5 5) H) as (r3 & Hr3 & Hat3 & _).
  destruct (getComponentAt_spec (window true) 1 (mkPoint 200 25) H)
    as (r4 & Hr4 & _ & _ & Hnone).
  assert (r1 = Some 3) as Heq1 by (vm_compute in Hr1; congruence).
  assert (r2 = Some 2) as Heq2 by (vm_compute in Hr2; congruence).
  assert (r3 = Some 1) as Heq3 by (vm_compute in Hr3; congruence).
  assert (r4 = None) as Heq4 by (vm_compute in Hr4; congruence).
  rewrite Heq1 in Hat1. rewrite Heq2 in Hat2. rewrite Heq3 in Hat3.
  split; [exact H |]. split; [reflexivity |]. split; [exact Hat1 |].
  split; [reflexivity |]. split; [exact Hat2 |].
  split; [reflexivity |]. split; [exact Hat3 |].
  split; [reflexivity |].
  destruct (proj1 Hnone Heq4) as [Hvis | Hmiss]; [discriminate Hvis | exact Hmiss].
Defined.

(** C1 in the dialog: 2 is modal, a mouse-down on 3 is handed to 2 and
    reaches the global listeners only. *)
Lemma blocked_mouseDown_witness :
  isCurrentlyBlockedByAnotherModalComponent dialog 3 = true
  /\ getCurrentlyModalComponent dialog 0 = Some 2
  /\ trace (internalMouseDown 3 dialog)
     = [Invoke (CbInputAttemptWhenModal 2) dialog;
        Invoke (ExtDesktop desktopResetTimer) dialog;
        Invoke (CbDesktopMouseListeners mouseDown 3) dialog].
Proof.
  destruct (blocked_mouseDown dialog 3) as [_ H].
  destruct (H 2 eq_refl eq_refl) as (_ & H2 & _).
  destruct (H2 eq_refl eq_refl) as [Ht _].
  split; [reflexivity |]. split; [reflexivity |]. exact Ht.
Defined.

(** C1 as stated fails.  The popup 8 is modal and blocks 3; its
    [inputAttemptWhenModal] leaves the modal state, as a popup dismissed by
    a click outside does.  When the attempt returns, 3 is not blocked any
    more and the mouse-down goes on to it. *)
Lemma blocked_mouseDown_delivered_counterexample :
  isCurrentlyBlockedByAnotherModalComponent popup 3 = true
  /\ getCurrentlyModalComponent popup 0 = Some 8
  /\ isCurrentlyBlockedByAnotherModalComponent (cb (CbInputAttemptWhenModal 8) popup) 3
     = false
  /\ callsOf (trace (internalMouseDown 3 popup))
     = [CbInputAttemptWhenModal 8;
        CbGrabFocusInternal 3 focusChangedByMouseClick true;
        CbMouse 3 mouseDown;
        ExtDesktop desktopResetTimer;
        CbDesktopMouseListeners mouseDown 3]
  /\ CbMouse 3 mouseDown ∈ callsOf (trace (internalMouseDown 3 popup)).
Proof.
  assert (callsOf (trace (internalMouseDown 3 popup))
          = [CbInputAttemptWhenModal 8;
             CbGrabFocusInternal 3 focusChangedByMouseClick true;
             CbMouse 3 mouseDown;
             ExtDesktop desktopResetTimer;
             CbDesktopMouseListeners mouseDown 3]) as Hcalls by (by vm_compute).
  split; [reflexivity |]. split; [reflexivity |]. split; [reflexivity |].
  split; [exact Hcalls |]. rewrite Hcalls. repeat constructor.
Qed.

(** Misuse in a debug build: the current modal component 2 and the
    desktop window 1. *)
Lemma misuse_only_asserts_witness :
  isCurrentlyModal dialog 2 = true
  /\ currentThreadHasLockedMessageManager (platform dialog) = true
  /\ enterModalState 2 true None false dialog
     = mkRes [AssertionFailure "the component is already modal"] dialog tt
  /\ isOnDesktop desktop 1 = true
  /\ toBack 1 desktop
     = mkRes [AssertionFailure "toBack is not implemented for native windows"] desktop tt.
Proof.
  destruct (misuse_only_asserts dialog 2 true false None) as (H1 & _).
  destruct (misuse_only_asserts desktop 1 true false None) as (_ & H2 & _).
  split; [reflexivity |]. split; [reflexivity |].
  split; [exact (H1 eq_refl eq_refl) |]. split; [reflexivity |]. exact (H2 eq_refl).
Defined.

(** The same calls in a release build do nothing. *)
Example misuse_in_release :
  enterModalState (env := release) 2 true None false dialog = mkRes [] dialog tt
  /\ toBack (env := release) 1 desktop = mkRes [] desktop tt
  /\ userTriedToCloseWindow (env := release) 1 desktop = mkRes [] desktop tt.
Proof.
  destruct (misuse_only_asserts (env := release) dialog 2 true false None)
    as (_ & _ & _ & H).
  destruct (H eq_refl) as (H1 & _ & _).
  destruct (misuse_only_asserts (env := release) desktop 1 true false None)
    as (_ & _ & _ & H').
  destruct (H' eq_refl) as (_ & H2 & H3).
  split; [exact (H1 eq_refl) |]. split; [exact (H2 eq_refl) | exact H3].
Qed.

(** C6 at the input where the code departs from it.  [stacked] is the
    window after 2 and then 3 have entered the modal state, so 2 is
    already modal: its flag is set and it is on the stack of the modal
    manager, below 3.  [enterModalState] on 2 records the assertion, takes
    the guarded branch all the same (the guard asks whether 2 is the
    front modal component, the assertion whether its flag is set) and
    starts 2 as a modal component a second time. *)
Lemma enterModalState_stacked_modal_reentered :
  stacked = world (enterModalState 3 false None false
                     (world (enterModalState 2 false None false (window true))))
  /\ currentlyModalFlag (getFlags stacked 2) = true
  /\ 2 ∈ fst (platform stacked)
  /\ head (trace (enterModalState 2 false None false stacked))
     = Some (AssertionFailure "the component is already modal")
  /\ platform (world (enterModalState 2 false None false stacked)) = ([2; 3; 2], true)
  /\ world (enterModalState 2 false None false stacked) <> stacked.
Proof.
  split; [by vm_compute |]. split; [reflexivity |].
  split; [apply elem_of_cons; auto |]. split; [reflexivity |].
  split; [reflexivity |].
  intros H. apply (f_equal platform) in H. vm_compute in H. discriminate.
Qed.

Lemma clientCode_bounds (k : Callback) (s : World unit Platform) :
  boundsNonNegative s -> boundsNonNegative (cb k s).
Proof.
  assert (forall c, boundsNonNegative s -> boundsNonNegative (deleteComponent c s)) as Hdel.
  { intros c Hs c' k'. simpl. rewrite lookup_delete.
    destruct (decide (c = c')); [done | apply Hs]. }
  intros Hs. simpl. unfold clientCode.
  repeat match goal with
         | |- context [match ?x with _ => _ end] => destruct x
         end; auto.
Qed.

(** C8 in the window. *)
Lemma bounds_never_negative_witness :
  (forall k (s : World unit Platform), boundsNonNegative s -> boundsNonNegative (cb k s))
  /\ boundsNonNegative (window true)
  /\ setBounds 2 1 2 (-5) 7 (window true) = setBounds 2 1 2 0 7 (window true)
  /\ bounds (the (world (setBounds 2 1 2 (-5) 7 (window true))) 2) = mkRectangle 1 2 0 7
  /\ boundsNonNegative
       (performAll [OpSetBounds 2 1 2 (-5) 7; OpSetSize 3 (-1) (-3); OpAddToDesktop 1 0]
                   (window true)).
Proof.
  assert (boundsNonNegative (window true)) as Hw.
  { intros c k Hc. simpl in Hc.
    destruct (tree_lookup c k Hc) as [[-> ->] | [[-> ->] | [-> ->]]]; by vm_compute. }
  destruct (bounds_never_negative clientCode_bounds) as (H1 & _ & H3).
  split; [exact clientCode_bounds |]. split; [exact Hw |].
  split; [apply H1; reflexivity |]. split; [reflexivity |].
  exact (proj1 (H3 _ _ Hw)).
Defined.

Lemma modalManager_hier (k : Callback) (s : World unit Platform) :
  hier (cb (Collaborators := quiet) k s) = hier s.
Proof. destruct k; try reflexivity. by destruct call. Qed.

Lemma window_not_above_3 : ~ ancestorOf (window true) 2 3.
Proof.
  intros H. assert (chain (window true) 3 [1]) as Hc.
  { apply chain_cons; [done |]. by apply chain_root. }
  apply (ancestorOf_chain _ _ _ _ Hc) in H.
  apply list_elem_of_singleton in H. discriminate.
Qed.

Lemma window_not_above_2 : ~ ancestorOf (window true) 3 2.
Proof.
  intros H. assert (chain (window true) 2 [1]) as Hc.
  { apply chain_cons; [done |]. by apply chain_root. }
  apply (ancestorOf_chain _ _ _ _ Hc) in H.
  apply list_elem_of_singleton in H. discriminate.
Qed.

Lemma twoWindows_lookup c k :
  heap twoWindows !! c = Some k ->
  (c = 8 /\ k = component "second" None (mkRectangle 0 0 30 30) [] onDesktop)
  \/ (c <> 8 /\ tree !! c = Some k).
Proof.
  unfold twoWindows. simpl. rewrite lookup_insert.
  destruct (decide (8 = c)) as [<- |]; [intros [= <-]; auto | auto].
Qed.

Lemma twoWindows_wellFormed : wellFormed twoWindows.
Proof.
  split; [split; [| split] |].
  - intros c k p Hc Hp.
    destruct (twoWindows_lookup c k Hc) as [[-> ->] | [Hne Hc']]; [done |].
    destruct (tree_lookup c k Hc') as [[-> ->] | [[-> ->] | [-> ->]]];
      simpl in Hp; inversion Hp; subst; by eexists.
  - intros p k c Hp Hin.
    destruct (twoWindows_lookup p k Hp) as [[-> ->] | [Hne Hp']];
      [by apply elem_of_nil in Hin |].
    destruct (tree_lookup p k Hp') as [[-> ->] | [[-> ->] | [-> ->]]]; simpl in Hin.
    + apply elem_of_cons in Hin as [-> | Hin]; [by eexists |].
      apply elem_of_cons in Hin as [-> | Hin]; [by eexists |].
      by apply elem_of_nil in Hin.
    + by apply elem_of_nil in Hin.
    + by apply elem_of_nil in Hin.
  - intros p k Hp.
    destruct (twoWindows_lookup p k Hp) as [[-> ->] | [Hne Hp']];
      [by apply (bool_decide_unpack _) |].
    destruct (tree_lookup p k Hp') as [[-> ->] | [[-> ->] | [-> ->]]];
      by apply (bool_decide_unpack _).
  - intros c.
    destruct (decide (c = 2)) as [-> | H2]; [| destruct (decide (c = 3)) as [-> | H3]].
    + exists [1]. apply chain_cons; [done |]. by apply chain_root.
    + exists [1]. apply chain_cons; [done |]. by apply chain_root.
    + exists []. apply chain_root. unfold getParentComponent, the.
      destruct (heap twoWindows !! c) as [k |] eqn:Hc; [| done].
      destruct (twoWindows_lookup c k Hc) as [[-> ->] | [Hne Hc']]; [done |].
      destruct (tree_lookup c k Hc') as [[-> ->] | [[-> ->] | [-> ->]]]; done.
Qed.

Lemma twoWindows_not_above_1 : ~ ancestorOf twoWindows 8 1.
Proof.
  intros H. assert (chain twoWindows 1 []) as Hc by (by apply chain_root).
  apply (ancestorOf_chain _ _ _ _ Hc) in H. by apply elem_of_nil in H.
Qed.

Lemma modalManager_offDesktop c (k : Callback) (s : World unit Platform) :
  isOnDesktop s c = false -> isOnDesktop (cb (Collaborators := quiet) k s) c = false.
Proof. destruct k; try done. by destruct call. Qed.

(** C9 in the window, with callbacks that keep away from the hierarchy:
    3 adopts 2, and 1 loses its first child; and next to the window,
    where the window adopts the second window 8 and 8 leaves the
    desktop.  Every operation comes to its end. *)
Lemma hierarchy_keeps_tree_shape_witness :
  (forall k (s : World unit Platform), hier (cb (Collaborators := quiet) k s) = hier s)
  /\ wellFormed (window true)
  /\ is_Some (heap (window true) !! 1)
  /\ is_Some (heap (window true) !! 3)
  /\ 2 <> 3 /\ ~ ancestorOf (window true) 2 3
  /\ (let r := addChildComponent (env := quiet) 3 (Some 2) (-1) (window true) in
      finished (trace r) = true
      /\ wellFormed (world r)
      /\ getParentComponent (world r) 2 = Some 3
      /\ childComponentList (the (world r) 3) = [2]
      /\ childComponentList (the (world r) 1) = [3])
  /\ (let r := removeChildComponent_index (env := quiet) 1 0 true true (window true) in
      finished (trace r) = true
      /\ wellFormed (world r)
      /\ value r = Some 2
      /\ getParentComponent (world r) 2 = None
      /\ childComponentList (the (world r) 1) = [3])
  /\ wellFormed twoWindows
  /\ isOnDesktop twoWindows 8 = true
  /\ (let r := addChildComponent (env := quiet) 1 (Some 8) (-1) twoWindows in
      finished (trace r) = true
      /\ wellFormed (world r)
      /\ getParentComponent (world r) 8 = Some 1
      /\ childComponentList (the (world r) 1) = [2; 3; 8]
      /\ isOnDesktop (world r) 8 = false).
Proof.
  pose proof (window_wellFormed true) as Hwf.
  pose proof twoWindows_wellFormed as Hwf2.
  assert (is_Some (heap (window true) !! 3)) as H3 by (by eexists).
  assert (is_Some (heap (window true) !! 1)) as H1 by (by eexists).
  assert (is_Some (heap twoWindows !! 1)) as H1' by (by eexists).
  assert (2 <> 3) as Hne by discriminate.
  destruct (hierarchy_keeps_tree_shape (env := quiet) modalManager_hier (window true) 3
              Hwf H3) as [Hadd _].
  destruct (hierarchy_keeps_tree_shape (env := quiet) modalManager_hier (window true) 1
              Hwf H1) as [_ Hrem].
  destruct (hierarchy_keeps_tree_shape (env := quiet) modalManager_hier twoWindows 1
              Hwf2 H1') as [Hadd2 _].
  split; [exact modalManager_hier |]. split; [exact Hwf |]. split; [exact H1 |].
  split; [exact H3 |]. split; [exact Hne |]. split; [exact window_not_above_3 |].
  split; [| split; [| split; [exact Hwf2 | split; [reflexivity |]]]].
  - destruct (Hadd 2 (-1)%Z) as (Hfin & Ha & Hb & _);
      [by eexists | exact Hne | exact window_not_above_3 |].
    split; [exact Hfin |]. split; [exact Ha |]. split; [exact Hb |]. split; reflexivity.
  - destruct (Hrem 0%Z true true) as (Hfin & Ha & Hb & Hc).
    split; [exact Hfin |]. split; [exact Ha |]. split; [reflexivity |].
    destruct (Hc 2 eq_refl) as (Hd & _ & _).
    split; [exact Hd | reflexivity].
  - destruct (Hadd2 8 (-1)%Z) as (Hfin & Ha & Hb & _ & Hdesk);
      [by eexists | discriminate | exact twoWindows_not_above_1 |].
    split; [exact Hfin |]. split; [exact Ha |]. split; [exact Hb |].
    split; [reflexivity |].
    apply Hdesk; [apply modalManager_offDesktop | reflexivity].
Defined.

(** What the clinging component 2 does in its callback is what
    [addChildComponent] of the window does with a child that has no
    parent: the hierarchy is the same. *)
Lemma clinging_is_addChildComponent :
  let s := world (removeChildComponent_index (env := quiet) 1 0 true true (window true)) in
  getParentComponent s 2 = None
  /\ hier (adopt 1 2 s)
     = hier (world (addChildComponent (env := quiet) 1 (Some 2) (-1) s)).
Proof. split; [reflexivity |]. by vm_compute. Qed.

(** A component cannot be made a child of itself or of one of its
    descendants: [internalHierarchyChanged] then follows the child
    lists round in a circle, in the C++ code without end, here until
    the fuel is used up. *)
Lemma addChildComponent_in_a_circle :
  finished (trace (addChildComponent (env := quiet) 2 (Some 2) (-1) (window true))) = false
  /\ finished (trace (addChildComponent (env := quiet) 2 (Some 1) (-1) (window true)))
     = false.
Proof. split; reflexivity. Qed.

(** C9 as stated fails when client code edits the tree from inside a
    callback.  The component 2 clings to the window 1: when it finds
    itself without a parent in [parentHierarchyChanged], it adds itself
    to the window again.  Then [addChildComponent] of 3 with the child 2
    takes 2 out of the list of 1, the callback puts it back, and 2 ends
    up in the list of 1 and in the list of 3, with 3 as its parent. *)
Lemma hierarchy_meddling_counterexample :
  wellFormed (window true)
  /\ is_Some (heap (window true) !! 3) /\ is_Some (heap (window true) !! 2)
  /\ 2 <> 3 /\ ~ ancestorOf (window true) 2 3
  /\ (let r := addChildComponent (env := meddling) 3 (Some 2) (-1) (window true) in
      finished (trace r) = true
      /\ getParentComponent (world r) 2 = Some 3
      /\ childComponentList (the (world r) 3) = [2]
      /\ childComponentList (the (world r) 1) = [3; 2]
      /\ ~ treeShape (world r)).
Proof.
  split; [apply window_wellFormed |]. split; [by eexists |]. split; [by eexists |].
  split; [discriminate |]. split; [exact window_not_above_3 |].
  split; [reflexivity |]. split; [reflexivity |]. split; [reflexivity |].
  split; [reflexivity |].
  intros Hts. apply treeShape_hier in Hts. destruct Hts as (_ & Hcp & _).
  set (H := hier (world (addChildComponent (env := meddling) 3 (Some 2) (-1)
                           (window true)))) in *.
  assert (hChildren H 1 = [3; 2]) as Hlist by (by vm_compute).
  assert (hParent H 2 = Some 3) as Hparent by (by vm_compute).
  destruct (Hcp 1 2) as [_ Hpar].
  - rewrite Hlist. apply (bool_decide_unpack _). reflexivity.
  - rewrite Hparent in Hpar. discriminate Hpar.
Qed.

(** C5 on the fragile component 9: the listener 50 deletes it, and the
    listener 51, which would be called next, is not called; its own
    [resized] deletes it, and no child is told that the size changed. *)
Lemma dispatch_stops_after_deletion_witness :
  isAlive fragile 9 = true
  /\ calledWhileAlive 9 (trace (sendMouseEvent 9 mouseDown fragile))
  /\ calledWhileAlive 9 (trace (sendMovedResizedMessages 9 true true fragile))
  /\ calledWhileAlive 9 (trace (internalHierarchyChanged 9 fragile))
  /\ trace (sendMouseEvent 9 mouseDown fragile)
     = [Invoke (CbMouseListener 50 mouseDown 9) fragile]
  /\ trace (sendMovedResizedMessages 9 true true fragile)
     = [Invoke (CbMoved 9) fragile; Invoke (CbResized 9) fragile]
  /\ trace (internalHierarchyChanged 9 fragile)
     = [Invoke (CbParentHierarchyChanged 9) fragile].
Proof.
  destruct (dispatch_stops_after_deletion 9 fragile) as (_ & Hmouse & Hrest).
  destruct (Hrest eq_refl) as (Hmoved & _ & Hhier).
  split; [reflexivity |]. split; [exact (Hmouse mouseDown) |].
  split; [exact (Hmoved true true) |]. split; [exact Hhier |].
  split; [reflexivity |]. split; reflexivity.
Defined.

Lemma clientCode_lock (k : Callback) (s : World unit Platform) :
  lockHeld (cb k s) = lockHeld s.
Proof.
  simpl. unfold clientCode.
  repeat match goal with
         | |- context [match ?x with _ => _ end] => destruct x
         end; reflexivity.
Qed.

(** C4 as amended, for a thread that does not hold the lock. *)
Lemma mutators_check_lock_witness :
  JUCE_DEBUG = true
  /\ lockHeld (window false) = false
  /\ head (trace (setBounds 2 1 2 3 4 (window false))) = Some lockCheckFailure
  /\ head (trace (addChildComponent 3 (Some 2) (-1) (window false))) = Some lockCheckFailure
  /\ head (trace (setVisible 2 false (window false))) = Some lockCheckFailure
  /\ setVisible 2 true (window false) = mkRes [] (window false) tt
  /\ lockHeld (performAll [OpSetVisible 2 false; OpEnterModalState 3 true None false]
                          (window false)) = false
  /\ lockHeld backstage = false
  /\ head (trace (toBack 3 backstage)) <> Some lockCheckFailure.
Proof.
  destruct (mutators_check_lock (env := collaborators) (window false) 2 eq_refl eq_refl)
    as (_ & Hvis & Hsame & _ & _ & Hbounds & _).
  destruct (mutators_check_lock (env := collaborators) (window false) 3 eq_refl eq_refl)
    as (_ & _ & _ & _ & _ & _ & Hadd & _ & _ & _ & _ & _ & _ & Hlock & _).
  destruct (mutators_check_lock (env := collaborators) backstage 3 eq_refl eq_refl)
    as (_ & _ & _ & _ & _ & _ & _ & _ & _ & _ & _ & _ & _ & _ & Hback).
  split; [reflexivity |]. split; [reflexivity |].
  split; [apply Hbounds |]. split; [apply Hadd |].
  split; [apply Hvis; discriminate |]. split; [apply Hsame; reflexivity |].
  split; [rewrite (Hlock clientCode_lock); reflexivity |].
  split; [reflexivity |]. apply Hback. reflexivity.
Defined.

(** C4 as stated fails in two ways.  [setVisible] called with the
    visibility the component already has makes no assertion; and
    [toBack], which is not among the listed operations, changes the
    state with no assertion at all: a thread without the lock sends the
    hidden component 3 behind 2, and the steps are the two calls to the
    mouse source and to [childrenChanged] of the window. *)
Lemma lock_check_counterexample :
  JUCE_DEBUG = true
  /\ lockHeld (window false) = false
  /\ trace (setVisible 2 true (window false)) = []
  /\ head (trace (setVisible 2 true (window false))) <> Some lockCheckFailure
  /\ lockHeld backstage = false
  /\ childComponentList (the backstage 1) = [2; 3]
  /\ (let r := toBack 3 backstage in
      childComponentList (the (world r) 1) = [3; 2]
      /\ trace r = [Invoke ExtSendFakeMouseMove (world r);
                    Invoke (CbChildrenChanged 1) (world r)]).
Proof.
  split; [reflexivity |]. split; [reflexivity |]. split; [reflexivity |].
  split; [vm_compute; discriminate |].
  split; [reflexivity |]. split; [reflexivity |]. split; reflexivity.
Qed.

(** ** The further properties at work *)

Lemma desktop_hier : hier desktop = hier (window true).
Proof. apply map_eq. intros i. unfold desktop, window. rewrite !hier_lookup. simpl.
  destruct (decide (i = 1)) as [-> |]; [done |]. by rewrite lookup_insert_ne. Qed.

Lemma desktop_parentsAlive : parentsAlive desktop.
Proof.
  assert (treeShape desktop) as [H _]; [| exact H].
  rewrite treeShape_hier, desktop_hier, <- treeShape_hier. apply window_treeShape.
Qed.

Lemma desktop_acyclic : acyclic desktop.
Proof.
  assert (forall c l, chain (window true) c l -> chain desktop c l) as H.
  { intros c l Hl. induction Hl as [c Hc | c p l Hc Hl IH].
    - apply chain_root. by rewrite <- hParent_hier, desktop_hier, hParent_hier.
    - apply chain_cons; [| done]. by rewrite <- hParent_hier, desktop_hier, hParent_hier. }
  intros c. destruct (window_acyclic true c) as [l Hl]. exists l. by apply H.
Qed.

Lemma modalManager_core (k : Callback) (s : World unit Platform) :
  core (cb (Collaborators := quiet) k s) = core s.
Proof. destruct k; try reflexivity. by destruct call. Qed.

Lemma window_chain_2 : chain (window true) 2 [1].
Proof. apply chain_cons; [done |]. by apply chain_root. Qed.

(** On the desktop the child 2 of the window is showing, and so its
    ancestors are visible. *)
Lemma isShowing_iff_witness :
  parentsAlive desktop /\ acyclic desktop
  /\ isShowing desktop 2 = true
  /\ (forall a, ancestorOf desktop a 2 -> isVisible desktop a = true).
Proof.
  pose proof desktop_parentsAlive as H1. pose proof desktop_acyclic as H2.
  destruct (isShowing_iff desktop 2 H1 H2) as [Hfwd _].
  destruct (Hfwd eq_refl) as (_ & Hanc & _).
  split; [exact H1 |]. split; [exact H2 |]. split; [reflexivity | exact Hanc].
Defined.

(** In the window the child 2 is enabled, and so no ancestor of it is
    disabled. *)
Lemma isEnabled_iff_witness :
  parentsAlive (window true) /\ acyclic (window true)
  /\ isEnabled (window true) 2 = true
  /\ (forall a, ancestorOf (window true) a 2 ->
                isDisabledFlag (getFlags (window true) a) = false).
Proof.
  pose proof (window_parentsAlive true) as H1. pose proof (window_acyclic true) as H2.
  destruct (isEnabled_iff (window true) 2 H1 H2) as [_ [Hfwd _]].
  destruct (Hfwd eq_refl) as [_ Hanc].
  split; [exact H1 |]. split; [exact H2 |]. split; [reflexivity | exact Hanc].
Defined.

(** In the window the top-level component of 3 is 1, which has no
    parent and is a parent of 3. *)
Lemma getTopLevelComponent_tree_witness :
  parentsAlive (window true) /\ acyclic (window true)
  /\ getTopLevelComponent (window true) 3 = 1
  /\ getParentComponent (window true) (getTopLevelComponent (window true) 3) = None
  /\ isParentOf (window true) (getTopLevelComponent (window true) 3) (Some 3) = true.
Proof.
  pose proof (window_parentsAlive true) as H1. pose proof (window_acyclic true) as H2.
  destruct (getTopLevelComponent_tree (window true) 3 H1 H2) as (Ha & _ & Hb & _).
  split; [exact H1 |]. split; [exact H2 |]. split; [reflexivity |].
  split; [exact Ha |]. apply Hb. discriminate.
Defined.

(** In the window the point (25, 25) finds a visible component below 1,
    and a point outside the bounds finds none. *)
Lemma getComponentAt_result_witness :
  wellFormed (window true)
  /\ (exists res, getComponentAt (window true) 1 (mkPoint 25 25) = Some res
        /\ forall r, res = Some r ->
             (r = 1 \/ ancestorOf (window true) 1 r) /\ isVisible (window true) r = true)
  /\ getComponentAt (window true) 1 (mkPoint 200 25) = Some None.
Proof.
  pose proof (window_wellFormed true) as H.
  destruct (getComponentAt_result (window true) 1 (mkPoint 25 25) H)
    as ((res & Hres & Hr) & _ & _).
  destruct (getComponentAt_result (window true) 1 (mkPoint 200 25) H) as (_ & Hout & _).
  split; [exact H |]. split.
  - exists res. split; [exact Hres |]. intros r Heq.
    destruct (Hr r Heq) as (Ha & Hb & _). by split.
  - apply Hout. reflexivity.
Defined.

(** In the window, a point of 2 converted into the space of 1 and back
    is the point again. *)
Lemma getLocalPoint_roundtrip_witness :
  parentsAlive (window true) /\ acyclic (window true)
  /\ plainPath (window true) 1 2 /\ is_int_point (mkPoint 5 7)
  /\ getLocalPoint (fun _ _ p => p) (window true) 1 (Some 2) (mkPoint 5 7)
     = Some (mkPoint 15 17)
  /\ getLocalPoint (fun _ _ p => p) (window true) 2 (Some 1) (mkPoint 15 17)
     = Some (mkPoint 5 7).
Proof.
  pose proof (window_parentsAlive true) as H1. pose proof (window_acyclic true) as H2.
  assert (plainPath (window true) 1 2) as H3 by (by apply plain_parent).
  assert (is_int_point (mkPoint 5 7)) as H4 by (by vm_compute).
  destruct (getLocalPoint_roundtrip (fun _ _ p => p) (window true) 1 2 (mkPoint 5 7)
              H1 H2 H3 H4) as ((q & Hq & Hback) & _).
  assert (q = mkPoint 15 17) as Heq by (vm_compute in Hq; congruence).
  rewrite Heq in Hq, Hback.
  split; [exact H1 |]. split; [exact H2 |]. split; [exact H3 |]. split; [exact H4 |].
  split; [exact Hq | exact Hback].
Defined.

(** The listeners 51 and 50: adding 52 keeps the list in order, and
    removing it again gives the list back. *)
Lemma mouseListeners_add_remove_witness :
  listenersOk (mkMouseListenerList [51; 50] 0)
  /\ (Array.size (listeners (mkMouseListenerList [51; 50]%nat 0)) < int_half - 1)%Z
  /\ listenersOk (MouseListenerList_addListener (mkMouseListenerList [51; 50] 0) 52 true)
  /\ MouseListenerList_removeListener
       (MouseListenerList_addListener (mkMouseListenerList [51; 50] 0) 52 true) 52
     = mkMouseListenerList [51; 50] 0.
Proof.
  assert (listenersOk (mkMouseListenerList [51; 50] 0)) as H1.
  { split; [| by vm_compute]. apply (bool_decide_unpack _). reflexivity. }
  assert (Array.size (listeners (mkMouseListenerList [51; 50]%nat 0)) < int_half - 1)%Z
    as H2 by (by vm_compute).
  destruct (mouseListeners_add_remove (mkMouseListenerList [51; 50] 0) 52 true H1 H2)
    as (Ha & _ & _ & Hb & _).
  split; [exact H1 |]. split; [exact H2 |]. split; [exact Ha |].
  apply Hb. apply (bool_decide_unpack _). reflexivity.
Defined.

Lemma audience_parentsAlive : parentsAlive audience.
Proof.
  intros c k p Hc Hp. unfold audience in Hc. simpl in Hc. rewrite !lookup_insert in Hc.
  destruct (decide (9 = c)) as [<- |]; [by inversion Hc; subst |].
  destruct (decide (10 = c)) as [<- |].
  - inversion Hc; subst. simpl in Hp. inversion Hp; subst. by eexists.
  - by rewrite lookup_empty in Hc.
Qed.

(** A mouse event on the child 10 of the audience, with listeners that
    leave the components alone.  Its own listener 52 hears of it first,
    then the deep listeners of its parent 9 from the end of the list
    towards its start: 60, which stands at index 1, before 61, which
    stands at index 0.  The listener 51 of the parent is not deep and
    is not called. *)
Lemma sendMouseEvent_order_witness :
  (forall k (s : World unit Platform), core (cb (Collaborators := quiet) k s) = core s)
  /\ parentsAlive audience /\ chain audience 10 [9] /\ isAlive audience 10 = true
  /\ (forall q m, q ∈ [9] -> mouseListeners (the audience q) = Some m ->
                   (numDeepMouseListeners m <= Array.size (listeners m))%Z)
  /\ listenersOf audience 9 = [61; 60; 51] /\ numDeepOf audience 9 = 2%Z
  /\ callsOf (trace (sendMouseEvent (env := quiet) 10 mouseDown audience))
     = [CbMouseListener 52 mouseDown 10; CbMouseListener 60 mouseDown 10;
        CbMouseListener 61 mouseDown 10].
Proof.
  pose proof audience_parentsAlive as H1.
  assert (chain audience 10 [9]) as H2.
  { apply chain_cons; [done |]. by apply chain_root. }
  assert (isAlive audience 10 = true) as H3 by reflexivity.
  assert (forall q m, q ∈ [9] -> mouseListeners (the audience q) = Some m ->
                      (numDeepMouseListeners m <= Array.size (listeners m))%Z) as H4.
  { intros q m Hq Hm. apply list_elem_of_singleton in Hq. subst q.
    assert (m = mkMouseListenerList [61; 60; 51] 2) as -> by (vm_compute in Hm; congruence).
    by vm_compute. }
  destruct (sendMouseEvent_order (env := quiet) modalManager_core audience 10 mouseDown [9]
              H1 H2 H3 H4) as [Hcalls _].
  split; [exact modalManager_core |]. split; [exact H1 |]. split; [exact H2 |].
  split; [exact H3 |]. split; [exact H4 |]. split; [reflexivity |].
  split; [reflexivity | exact Hcalls].
Defined.

(** [setBounds] on the child 2 of the window, with a negative width. *)
Lemma setBounds_result_witness :
  (forall k (s : World unit Platform), core (cb (Collaborators := quiet) k s) = core s)
  /\ bounds (the (world (setBounds (env := quiet) 2 1 2 (-3) 4 (window true))) 2)
     = mkRectangle 1 2 0 4
  /\ finished (trace (setBounds (env := quiet) 2 1 2 (-3) 4 (window true))) = true.
Proof.
  destruct (setBounds_result (env := quiet) modalManager_core (window true) 2 1 2 (-3) 4)
    as (Hfin & _ & Hb & _).
  split; [exact modalManager_core |]. split; [exact (Hb eq_refl) |].
  exact (Hfin (window_wellFormed true)).
Defined.

(** Repainting a part of the child 2 of the window reaches the peer of
    the window with a rectangle inside the window, if at all. *)
Lemma internalRepaint_clipped_witness :
  parentsAlive (window true) /\ chain (window true) 2 [1]
  /\ (forall q, q ∈ [2; 1] -> plainGeometry (window true) q)
  /\ finished (trace (internalRepaint 2 0 0 10 10 (window true))) = true
  /\ (callsOf (trace (internalRepaint 2 0 0 10 10 (window true))) = []
      \/ exists r, callsOf (trace (internalRepaint 2 0 0 10 10 (window true)))
                   = [ExtPeer (getTopLevelComponent (window true) 2) (peerRepaint r)]
                   /\ insideOf (window true) (getTopLevelComponent (window true) 2) r).
Proof.
  pose proof (window_parentsAlive true) as H1. pose proof window_chain_2 as H2.
  assert (forall q, q ∈ [2; 1] -> plainGeometry (window true) q) as H3.
  { intros q Hq. apply elem_of_cons in Hq as [-> | Hq];
      [| apply list_elem_of_singleton in Hq as ->];
      (split; [reflexivity |]); unfold moderate; by vm_compute. }
  split; [exact H1 |]. split; [exact H2 |]. split; [exact H3 |].
  apply (internalRepaint_clipped (window true) 2 [1] 0 0 10 10 H1 H2 H3); by vm_compute.
Defined.

(** Hiding the child 2 of the window. *)
Lemma setVisible_result_witness :
  (forall k (s : World unit Platform), core (cb (Collaborators := quiet) k s) = core s)
  /\ isVisible (world (setVisible (env := quiet) 2 false (window true))) 2 = false
  /\ finished (trace (setVisible (env := quiet) 2 false (window true))) = true.
Proof.
  destruct (setVisible_result (env := quiet) modalManager_core (window true) 2 false)
    as (Hfin & _ & Hb & _).
  split; [exact modalManager_core |]. split; [exact (Hb eq_refl) |].
  exact (Hfin (window_wellFormed true)).
Defined.

(** In the window, 2 is brought to the front of 3. *)
Lemma toFront_order_witness :
  (forall k (s : World unit Platform), core (cb (Collaborators := quiet) k s) = core s)
  /\ getParentComponent (window true) 2 = Some 1 /\ isOnDesktop (window true) 2 = false
  /\ 2 ∈ childComponentList (the (window true) 1)
  /\ childComponentList (the (world (toFront (env := quiet) 2 false (window true))) 1)
     = [3; 2]
  /\ exists front back before after,
       childComponentList (the (window true) 1) = before ++ 2 :: after
       /\ childComponentList (the (world (toFront (env := quiet) 2 false (window true))) 1)
          = front ++ 2 :: back
       /\ front ++ back = before ++ after.
Proof.
  assert (2 ∈ childComponentList (the (window true) 1)) as H3
    by (apply (bool_decide_unpack _); reflexivity).
  destruct (toFront_order (env := quiet) modalManager_core (window true) 2 1 false
              eq_refl eq_refl H3)
    as (_ & _ & front & back & before & after & Ha & Hb & Hc & _).
  split; [exact modalManager_core |]. split; [reflexivity |]. split; [reflexivity |].
  split; [exact H3 |]. split; [reflexivity |].
  exists front, back, before, after. split; [exact Ha |]. split; [exact Hb | exact Hc].
Defined.

(** In the window, 3 is sent behind 2. *)
Lemma toBack_order_witness :
  (forall k (s : World unit Platform), core (cb (Collaborators := quiet) k s) = core s)
  /\ getParentComponent (window true) 3 = Some 1 /\ isOnDesktop (window true) 3 = false
  /\ 3 ∈ childComponentList (the (window true) 1)
  /\ childComponentList (the (world (toBack (env := quiet) 3 (window true))) 1) = [3; 2]
  /\ exists front back before after,
       childComponentList (the (window true) 1) = before ++ 3 :: after
       /\ childComponentList (the (world (toBack (env := quiet) 3 (window true))) 1)
          = front ++ 3 :: back
       /\ front ++ back = before ++ after.
Proof.
  assert (3 ∈ childComponentList (the (window true) 1)) as H3
    by (apply (bool_decide_unpack _); reflexivity).
  destruct (toBack_order (env := quiet) modalManager_core (window true) 3 1
              eq_refl eq_refl H3)
    as (_ & _ & front & back & before & after & Ha & Hb & Hc & _).
  split; [exact modalManager_core |]. split; [reflexivity |]. split; [reflexivity |].
  split; [exact H3 |]. split; [reflexivity |].
  exists front, back, before, after. split; [exact Ha |]. split; [exact Hb | exact Hc].
Defined.

Lemma window_child_in_parent c q :
  getParentComponent (window true) c = Some q -> c ∈ childComponentList (the (window true) q).
Proof.
  unfold getParentComponent, the. simpl.
  destruct (tree !! c) as [k |] eqn:Hc; [| done].
  destruct (tree_lookup c k Hc) as [[-> ->] | [[-> ->] | [-> ->]]]; simpl; [done | |];
    intros [= <-]; apply (bool_decide_unpack _); reflexivity.
Qed.

(** In the window, 3 is moved from 1 into 2. *)
Lemma addChildComponent_result_witness :
  (forall k (s : World unit Platform), core (cb (Collaborators := quiet) k s) = core s)
  /\ getParentComponent (window true) 3 <> Some 2 /\ 3 <> 2
  /\ (forall q, getParentComponent (window true) 3 = Some q ->
                3 ∈ childComponentList (the (window true) q))
  /\ isAlive (window true) 2 = true /\ isAlive (window true) 3 = true
  /\ (let s' := world (addChildComponent (env := quiet) 2 (Some 3) (-1) (window true)) in
      getParentComponent s' 3 = Some 2
      /\ childComponentList (the s' 2) = [3]
      /\ childComponentList (the s' 1) = [2])
  /\ finished (trace (addChildComponent (env := quiet) 2 (Some 3) (-1) (window true)))
     = true.
Proof.
  assert (getParentComponent (window true) 3 <> Some 2) as H1 by discriminate.
  assert (3 <> 2) as H2 by discriminate.
  pose proof (window_child_in_parent 3) as H3.
  destruct (addChildComponent_result (env := quiet) modalManager_core (window true) 2 3
              (-1) H1 H2 H3 eq_refl eq_refl) as (Hfin & _ & Hp & _).
  split; [exact modalManager_core |]. split; [exact H1 |]. split; [exact H2 |].
  split; [exact H3 |]. split; [reflexivity |]. split; [reflexivity |].
  split; [split; [exact Hp |]; split; reflexivity |].
  exact (Hfin (window_wellFormed true) window_not_above_2).
Defined.

(** The window loses both of its children within three rounds. *)
Lemma removeAllChildren_result_witness :
  (forall k (s : World unit Platform), core (cb (Collaborators := quiet) k s) = core s)
  /\ (length (childComponentList (the (window true) 1)) < 3)%nat
  /\ (let r := removeAllChildren (env := quiet) 3 1 (window true) in
      value r = true
      /\ childComponentList (the (world r) 1) = []
      /\ getParentComponent (world r) 2 = None
      /\ getParentComponent (world r) 3 = None).
Proof.
  assert (length (childComponentList (the (window true) 1)) < 3)%nat as H1
    by (apply (bool_decide_unpack _); reflexivity).
  destruct (removeAllChildren_result (env := quiet) modalManager_core (window true) 1 3 H1)
    as (_ & Ha & Hb & Hc & _).
  split; [exact modalManager_core |]. split; [exact H1 |].
  split; [exact Ha |]. split; [exact Hb |].
  split; apply Hc; apply (bool_decide_unpack _); reflexivity.
Defined.

(** In the window, 3 is added to 2 and made visible. *)
Lemma addAndMakeVisible_result_witness :
  (forall k (s : World unit Platform), core (cb (Collaborators := quiet) k s) = core s)
  /\ 3 <> 2 /\ isAlive (window true) 2 = true /\ isAlive (window true) 3 = true
  /\ (forall q, getParentComponent (window true) 3 = Some q ->
                3 ∈ childComponentList (the (window true) q))
  /\ (let s' := world (addAndMakeVisible (env := quiet) 2 (Some 3) (-1) (window true)) in
      isVisible s' 3 = true /\ getParentComponent s' 3 = Some 2
      /\ 3 ∈ childComponentList (the s' 2)).
Proof.
  assert (3 <> 2) as H1 by discriminate.
  pose proof (window_child_in_parent 3) as H2.
  destruct (addAndMakeVisible_result (env := quiet) modalManager_core (window true) 2 3
              (-1) H1 eq_refl eq_refl H2) as (_ & Ha & Hb & Hc & _).
  split; [exact modalManager_core |]. split; [exact H1 |]. split; [reflexivity |].
  split; [reflexivity |]. split; [exact H2 |].
  split; [exact Ha |]. split; [exact Hb | exact Hc].
Defined.

(** The child 2 of the window, 50 wide and high, centred at (40, 41)
    and then put with its right edge at 40. *)
Lemma setBounds_wrappers_witness :
  (forall k (s : World unit Platform), core (cb (Collaborators := quiet) k s) = core s)
  /\ isAlive (window true) 2 = true
  /\ (0 <= getWidth (window true) 2)%Z /\ (0 <= getHeight (window true) 2)%Z
  /\ is_int 40 /\ is_int 41
  /\ bounds (the (world (setCentrePosition (env := quiet) 2 40 41 (window true))) 2)
     = mkRectangle 15 16 50 50
  /\ (let s' := world (setTopRightPosition (env := quiet) 2 40 41 (window true)) in
      int_add (getX s' 2) (getWidth s' 2) = 40%Z /\ getY s' 2 = 41%Z).
Proof.
  assert (0 <= getWidth (window true) 2)%Z as H1 by (by vm_compute).
  assert (0 <= getHeight (window true) 2)%Z as H2 by (by vm_compute).
  assert (is_int 40) as H3 by (by vm_compute).
  assert (is_int 41) as H4 by (by vm_compute).
  destruct (setBounds_wrappers (env := quiet) modalManager_core (window true) 2 40 41 0 0
              eq_refl H1 H2 H3 H4) as (_ & _ & _ & (Ha & Hb & _) & _).
  split; [exact modalManager_core |]. split; [reflexivity |]. split; [exact H1 |].
  split; [exact H2 |]. split; [exact H3 |]. split; [exact H4 |].
  split; [reflexivity |]. split; [exact Ha | exact Hb].
Defined.

End Examples.
